(** * DeepMQ: an AMQP 0-9-1 broker, checked against its specification

    A shallow embedding of the parts of the broker the specification
    makes claims about, and of the code next to them:

    - [Topic]: the topic-exchange pattern matcher
      ([src/routing/topic-exchange.ts]);
    - [Buf]: the [Buffer] reads and writes the codec is built on;
    - [Tune]: the Connection.Tune-Ok negotiation ([src/server.ts],
      [src/protocol/methods/connection.ts]);
    - [Codec]: the field-table encoder and decoder
      ([src/protocol/frame-builder.ts], [src/protocol/frame-parser.ts]);
    - [Broker]: queues, channels, consumers, routing and the handlers of
      [src/server.ts] together with the entity classes of [src/core];
    - [Sessions]: runs of those handlers from a freshly started broker;
    - [Wire]: frames, method frames, content headers and the arguments
      of Tune and Close as they are built and parsed
      ([src/protocol/frame-builder.ts], [src/protocol/frame-parser.ts],
      [src/protocol/methods]), and the frame loop of [src/server.ts];
    - [Outcome]: whether a call of the fuelled decoder came to an end;
    - [Auth]: the PLAIN check of Connection.Start-Ok
      ([src/protocol/methods/connection.ts]);
    - [TopicWords]: what the wildcards of a topic pattern mean;
    - [Events]: the frames and callbacks a broker reacts to, with
      Queue.Delete and the invariants of its tables;
    - [FileStore]: the message log and its index
      ([src/persistence/file-store.ts]).

    The properties follow in [TopicSpec], [TuneSpec], [CodecSpec] and
    [BrokerSpec], then in [WireSpec], [DecoderSpec], [AuthSpec],
    [TopicWordsSpec], [EventsSpec] and [FileStoreSpec].

    JavaScript [Map]s iterate in insertion order and several handlers
    depend on that order, so maps are association lists kept in insertion
    order.  In the codec and on the wire, code that throws is modelled
    with a result type.  The handlers of [Broker] are modelled on the
    paths on which the frame builders and the store do not throw; a
    handler that does not return is [None].  A handler runs to completion
    before the next one starts; the callbacks it hands to [setImmediate]
    wait in a queue of their own. *)

From Stdlib Require Import ZArith List String Ascii Bool Lia Arith DecimalString.
Import ListNotations.

Local Open Scope Z_scope.

(* ================================================================== *)
(** ** Topic exchange matching *)

Module Topic.

Local Open Scope string_scope.

(** [String.prototype.split('.')]: the empty string splits into one empty
    word. *)
Fixpoint split (s : string) : list string :=
  match s with
  | EmptyString => [EmptyString]
  | String c rest =>
      if Ascii.eqb c "."%char then EmptyString :: split rest
      else match split rest with
           | [] => [String c EmptyString]
           | w :: ws => String c w :: ws
           end
  end.

(** [Array.prototype.join('.')]. *)
Fixpoint join (ws : list string) : string :=
  match ws with
  | [] => EmptyString
  | [w] => w
  | w :: ws' => w ++ "." ++ join ws'
  end.

Definition isHash (w : string) : bool := String.eqb w "#".
Definition isStar (w : string) : bool := String.eqb w "*".

(** The body of [matchesPattern] on word lists.  [pws] is
    [patternWords.slice(pi)] and [rws] is [routingWords.slice(ri)].  The
    source recurses through [matchesPattern(routingWords.slice(ri).join('.'),
    patternWords.slice(pi + 1).join('.'))]; both slices are non-empty
    there, so splitting the joined strings gives the slices back (see
    [split_join]) and the recursion is written on the slices. *)
Fixpoint matchWords (pws rws : list string) {struct pws} : bool :=
  match pws with
  | [] =>
      (* pattern consumed: [return ri === routingWords.length] *)
      match rws with [] => true | _ :: _ => false end
  | p :: ps =>
      if isHash p then
        match ps with
        | [] => true (* [#] at the end matches everything remaining *)
        | nextPatternWord :: _ =>
            (fix scan (rs : list string) : bool :=
               match rs with
               | [] => forallb isHash ps
               | r :: rs' =>
                   if (isStar nextPatternWord || isHash nextPatternWord
                       || String.eqb r nextPatternWord)
                      && matchWords ps rs
                   then true
                   else scan rs'
               end) rws
        end
      else if isStar p then
        match rws with
        | [] => false
        | _ :: rs => matchWords ps rs
        end
      else
        match rws with
        | [] => false
        | r :: rs => if String.eqb r p then matchWords ps rs else false
        end
  end.

Definition matchesPattern (routingKey pattern : string) : bool :=
  matchWords (split pattern) (split routingKey).

(** A binding as the topic matcher sees it. *)
Record Binding := mkBinding {
  source : string;
  destination : string;
  routingKey : string
}.

(** [[...new Set(xs)]]: first occurrences, in order. *)
Fixpoint dedup (xs : list string) : list string :=
  match xs with
  | [] => []
  | x :: xs' =>
      x :: filter (fun y => negb (String.eqb y x)) (dedup xs')
  end.

Definition matchTopic (rk : string) (bindings : list Binding) : list string :=
  dedup (map destination
           (filter (fun b => matchesPattern rk (routingKey b)) bindings)).

(** The regular-expression variant in the same file documents that a [*]
    word is non-empty ([[^.]+]).  For a pattern that is the single word
    [*] the compiled expression is [^[^.]+$], which accepts exactly the
    non-empty keys without a dot. *)
Fixpoint noDot (s : string) : bool :=
  match s with
  | EmptyString => true
  | String c rest => negb (Ascii.eqb c "."%char) && noDot rest
  end.

Definition regexStar (routingKey : string) : bool :=
  match routingKey with
  | EmptyString => false
  | String _ _ => noDot routingKey
  end.

End Topic.

(* ================================================================== *)
(** ** Node [Buffer] primitives *)

Module Buf.

(** A buffer is the list of its bytes.  Reads outside the buffer throw a
    [RangeError] in Node; here they return [None]. *)
Definition Buffer := list Z.

(** Big-endian bytes of [v] on [n] bytes. *)
Fixpoint be_bytes (n : nat) (v : Z) : list Z :=
  match n with
  | O => []
  | S k => (v / 256 ^ Z.of_nat k) mod 256 :: be_bytes k v
  end.

(** Big-endian value of a byte list. *)
Definition be_value (bs : list Z) : Z :=
  fold_left (fun acc b => acc * 256 + b) bs 0.

Definition slice (buf : Buffer) (off len : nat) : list Z :=
  firstn len (skipn off buf).

Definition readUIntBE (n : nat) (buf : Buffer) (off : nat) : option Z :=
  let bs := slice buf off n in
  if Nat.eqb (List.length bs) n then Some (be_value bs) else None.

Definition readIntBE (n : nat) (buf : Buffer) (off : nat) : option Z :=
  match readUIntBE n buf off with
  | Some u =>
      let half := 256 ^ Z.of_nat n / 2 in
      Some (if u <? half then u else u - 256 ^ Z.of_nat n)
  | None => None
  end.

Definition readUInt8 := readUIntBE 1.
Definition readUInt16BE := readUIntBE 2.
Definition readUInt32BE := readUIntBE 4.
Definition readBigUInt64BE := readUIntBE 8.
Definition readInt8 := readIntBE 1.
Definition readInt16BE := readIntBE 2.
Definition readInt32BE := readIntBE 4.
Definition readBigInt64BE := readIntBE 8.

(** Writes into a freshly allocated buffer of exactly [n] bytes; Node
    throws [ERR_OUT_OF_RANGE] when the value does not fit. *)
Definition writeUIntBE (n : nat) (v : Z) : option (list Z) :=
  if (0 <=? v) && (v <? 256 ^ Z.of_nat n) then Some (be_bytes n v) else None.

Definition writeIntBE (n : nat) (v : Z) : option (list Z) :=
  let half := 256 ^ Z.of_nat n / 2 in
  if (- half <=? v) && (v <? half)
  then Some (be_bytes n (v mod 256 ^ Z.of_nat n))
  else None.

End Buf.

(* ================================================================== *)
(** ** Connection.Tune-Ok negotiation *)

Module Tune.

Record ConnectionTuneOkArgs := mkTuneOk {
  channelMax : Z;
  frameMax : Z;
  heartbeat : Z
}.

(** [parseConnectionTuneOk]: three unsigned big-endian reads. *)
Definition parseConnectionTuneOk (args : Buf.Buffer) : option ConnectionTuneOkArgs :=
  match Buf.readUInt16BE args 0%nat, Buf.readUInt32BE args 2%nat, Buf.readUInt16BE args 6%nat with
  | Some c, Some f, Some h => Some (mkTuneOk c f h)
  | _, _, _ => None
  end.

(** The broker's own limits ([this.options]). *)
Record BrokerOptions := mkOptions {
  opt_channelMax : Z;
  opt_frameMax : Z;
  opt_heartbeat : Z
}.

(** JavaScript [a || b] on numbers: [0] is falsy. *)
Definition js_or (a b : Z) : Z := if a =? 0 then b else a.

(** The [CONNECTION_METHOD.TUNE_OK] case of [handleConnectionMethod]:
    the three values stored on the connection. *)
Definition handleTuneOk (options : BrokerOptions) (args : ConnectionTuneOkArgs)
  : ConnectionTuneOkArgs :=
  mkTuneOk
    (Z.min (js_or (channelMax args) (opt_channelMax options)) (opt_channelMax options))
    (Z.min (js_or (frameMax args) (opt_frameMax options)) (opt_frameMax options))
    (Z.min (heartbeat args) (opt_heartbeat options)).

(** [Connection.startHeartbeat] returns at once when the negotiated
    heartbeat is zero: no timer is armed. *)
Definition heartbeatTimerArmed (negotiated : ConnectionTuneOkArgs) : bool :=
  negb (heartbeat negotiated =? 0).

(** The negotiation rule as the specification words it, applied to one
    value: [min(clientValue || serverDefault, serverValue)], the server
    value when the client value is zero. *)
Definition spec_negotiate (client server : Z) : Z :=
  if client =? 0 then server else Z.min client server.

End Tune.

(* ================================================================== *)
(** ** Field-table codec *)

Module Codec.

Import Buf.

(** Outcome of code that may throw.  [OutOfFuel] is only produced by the
    fuelled decoder loops and never stands for a JavaScript outcome. *)
Inductive result (A : Type) : Type :=
| Ok (a : A)
| Throw
| OutOfFuel.
Arguments Ok {A} a.
Arguments Throw {A}.
Arguments OutOfFuel {A}.

Definition bind {A B : Type} (r : result A) (k : A -> result B) : result B :=
  match r with
  | Ok a => k a
  | Throw => Throw
  | OutOfFuel => OutOfFuel
  end.

Definition lift {A : Type} (o : option A) : result A :=
  match o with Some a => Ok a | None => Throw end.

Notation "x <- r ;; k" := (bind r (fun x => k))
  (at level 61, r at next level, right associativity).
Notation "' p <- r ;; k" := (bind r (fun x => let p := x in k))
  (at level 61, p pattern, r at next level, right associativity).

(** *** JavaScript numbers

    A [number] is a binary64.  [NumInt z] is the integer-valued number [z]
    (both zeros are [NumInt 0]); [NumDouble bits] is any other double,
    carried as its IEEE-754 bit pattern, which is what
    [writeDoubleBE]/[readDoubleBE] store and load. *)
Inductive number : Type :=
| NumInt (z : Z)
| NumDouble (bits : Z).

(** Bit pattern of an integer that a binary64 holds exactly. *)
Definition doubleBitsOfInt (z : Z) : Z :=
  if z =? 0 then 0
  else
    let s := if z <? 0 then 1 else 0 in
    let a := Z.abs z in
    let k := Z.log2 a in
    let mant := if k <=? 52 then a * 2 ^ (52 - k) - 2 ^ 52
                else a / 2 ^ (k - 52) - 2 ^ 52 in
    s * 2 ^ 63 + (k + 1023) * 2 ^ 52 + mant.

(** The integer a bit pattern denotes, when it denotes one. *)
Definition intOfDoubleBits (bits : Z) : option Z :=
  let s := bits / 2 ^ 63 in
  let e := (bits / 2 ^ 52) mod 2048 in
  let m := bits mod 2 ^ 52 in
  let sign := if s =? 0 then 1 else -1 in
  if e =? 0 then (if m =? 0 then Some 0 else None)
  else if e =? 2047 then None
  else
    let sig := 2 ^ 52 + m in
    let sh := e - 1075 in
    if 0 <=? sh then Some (sign * (sig * 2 ^ sh))
    else if sig mod 2 ^ (- sh) =? 0 then Some (sign * (sig / 2 ^ (- sh)))
    else None.

Definition numberOfDoubleBits (bits : Z) : number :=
  match intOfDoubleBits bits with
  | Some z => NumInt z
  | None => NumDouble bits
  end.

Definition doubleBits (n : number) : Z :=
  match n with
  | NumInt z => doubleBitsOfInt z
  | NumDouble bits => bits
  end.

(** Widening of a binary32 pattern ([readFloatBE]). *)
Definition doubleBitsOfFloatBits (b : Z) : Z :=
  let s := b / 2 ^ 31 in
  let e := (b / 2 ^ 23) mod 256 in
  let m := b mod 2 ^ 23 in
  if e =? 255 then s * 2 ^ 63 + 2047 * 2 ^ 52 + m * 2 ^ 29
  else if e =? 0 then
    if m =? 0 then s * 2 ^ 63
    else let k := Z.log2 m in
         s * 2 ^ 63 + (k - 149 + 1023) * 2 ^ 52 + (m * 2 ^ (52 - k) - 2 ^ 52)
  else s * 2 ^ 63 + (e - 127 + 1023) * 2 ^ 52 + m * 2 ^ 29.

(** *** Field values *)

(** Strings are carried as their UTF-8 bytes, one [ascii] per byte. *)
#[local] Set Warnings "-register-all".
Inductive FieldValue : Type :=
| FNull
| FUndefined
| FBool (b : bool)
| FNumber (n : number)
| FBigInt (z : Z)
| FString (s : string)
| FDate (time : option Z)   (* time value in ms; [None] is an invalid Date *)
| FBuffer (bytes : list Z)
| FArray (items : list FieldValue)
| FTable (entries : list (string * FieldValue)).

(** A table is an object: its own string keys in [Object.entries] order. *)
Definition FieldTable := list (string * FieldValue).

(** An own property is written: in place when the key is there, at the
    end when it is new. *)
Fixpoint setOwn (table : FieldTable) (key : string) (value : FieldValue) : FieldTable :=
  match table with
  | [] => [(key, value)]
  | (k, v) :: rest =>
      if String.eqb k key then (k, value) :: rest
      else (k, v) :: setOwn rest key value
  end.

(** [table[key] = value] on an object created by [{}].  The key
    [__proto__] is the accessor of [Object.prototype]: assigning to it
    creates no own property (an object or [null] becomes the prototype
    of the table, any other value is dropped), so the entries stay as
    they are.  What a prototype set this way does to the assignments
    that follow is not modelled; the tables of the round trip have no
    such key. *)
Definition objSet (table : FieldTable) (key : string) (value : FieldValue) : FieldTable :=
  if String.eqb key "__proto__" then table else setOwn table key value.

Definition byteOfAscii (c : ascii) : Z := Z.of_N (N_of_ascii c).
Definition asciiOfByte (b : Z) : ascii := ascii_of_N (Z.to_N b).

(** [Buffer.from(str, 'utf8')] and [buffer.toString('utf8', ...)]. *)
Definition bytesOfString (s : string) : list Z :=
  map byteOfAscii (list_ascii_of_string s).
Definition stringOfBytes (bs : list Z) : string :=
  string_of_list_ascii (map asciiOfByte bs).

Definition len (bs : list Z) : Z := Z.of_nat (List.length bs).

(** Largest time value of a valid [Date], in milliseconds. *)
Definition maxTime : Z := 8640000000000000.

(** *** Encoder ([FrameBuilder]) *)

Definition encodeShortString (str : string) : result (list Z) :=
  let strBuffer := bytesOfString str in
  if 255 <? len strBuffer then Throw
  else b <- lift (writeUIntBE 1 (len strBuffer)) ;; Ok (b ++ strBuffer).

Definition encodeLongString (str : string) : result (list Z) :=
  let strBuffer := bytesOfString str in
  b <- lift (writeUIntBE 4 (len strBuffer)) ;; Ok (b ++ strBuffer).

Definition encodeNumber (value : number) : result (list Z) :=
  let double := Ok (100 :: be_bytes 8 (doubleBits value)) in (* 'd' *)
  match value with
  | NumInt z =>
      if (-128 <=? z) && (z <=? 127) then
        b <- lift (writeIntBE 1 z) ;; Ok (98 :: b)            (* 'b' *)
      else if (-32768 <=? z) && (z <=? 32767) then
        b <- lift (writeIntBE 2 z) ;; Ok (115 :: b)           (* 's' *)
      else if (-2147483648 <=? z) && (z <=? 2147483647) then
        b <- lift (writeIntBE 4 z) ;; Ok (73 :: b)            (* 'I' *)
      else double
  | NumDouble _ => double
  end.

Fixpoint encodeFieldValue (value : FieldValue) : result (list Z) :=
  match value with
  | FNull | FUndefined => Ok [86]                             (* 'V' *)
  | FBool b => Ok [116; if b then 1 else 0]                   (* 't' *)
  | FNumber n => encodeNumber n
  | FBigInt z => b <- lift (writeIntBE 8 z) ;; Ok (108 :: b)  (* 'l' *)
  | FString s =>
      let strBuffer := bytesOfString s in
      l <- lift (writeUIntBE 4 (len strBuffer)) ;; Ok (83 :: l ++ strBuffer)
  | FDate time =>
      match time with
      | None => Throw (* [BigInt(NaN)] *)
      | Some ms =>
          b <- lift (writeUIntBE 8 (ms / 1000)) ;; Ok (84 :: b) (* 'T' *)
      end
  | FBuffer bytes =>
      l <- lift (writeUIntBE 4 (len bytes)) ;; Ok (120 :: l ++ bytes)
  | FArray items =>
      arrayContent <-
        (fix encodeItems (vs : list FieldValue) : result (list Z) :=
           match vs with
           | [] => Ok []
           | v :: vs' =>
               p <- encodeFieldValue v ;;
               ps <- encodeItems vs' ;;
               Ok (p ++ ps)
           end) items ;;
      l <- lift (writeUIntBE 4 (len arrayContent)) ;;
      Ok (65 :: l ++ arrayContent)
  | FTable entries =>
      tableContent <-
        (fix encodeEntries (kvs : list (string * FieldValue)) : result (list Z) :=
           match kvs with
           | [] => Ok []
           | (key, v) :: kvs' =>
               k <- encodeShortString key ;;
               p <- encodeFieldValue v ;;
               ps <- encodeEntries kvs' ;;
               Ok (k ++ p ++ ps)
           end) entries ;;
      l <- lift (writeUIntBE 4 (len tableContent)) ;;
      Ok (70 :: l ++ tableContent)
  end.

Fixpoint encodeItems (vs : list FieldValue) : result (list Z) :=
  match vs with
  | [] => Ok []
  | v :: vs' =>
      p <- encodeFieldValue v ;;
      ps <- encodeItems vs' ;;
      Ok (p ++ ps)
  end.

Fixpoint encodeEntries (kvs : FieldTable) : result (list Z) :=
  match kvs with
  | [] => Ok []
  | (key, v) :: kvs' =>
      k <- encodeShortString key ;;
      p <- encodeFieldValue v ;;
      ps <- encodeEntries kvs' ;;
      Ok (k ++ p ++ ps)
  end.

Definition encodeFieldTable (table : FieldTable) : result (list Z) :=
  tableContent <- encodeEntries table ;;
  l <- lift (writeUIntBE 4 (len tableContent)) ;;
  Ok (l ++ tableContent).

(** *** Tables that survive the wire

    What the encoder keeps of a value.  An integer in the int32 range
    travels as an integer; any other number travels as the eight bytes of
    its binary64, so an integer outside that range has to be one a
    binary64 holds exactly and a [NumDouble] has to be a pattern that is
    not an integer.  A timestamp travels as whole seconds.  The keys of an
    object are distinct.  [undefined] is written as void and comes back
    as [null]. *)

Definition inInt32 (z : Z) : bool :=
  (-2147483648 <=? z) && (z <=? 2147483647).

Definition isPattern64 (bits : Z) : bool :=
  (0 <=? bits) && (bits <? 2 ^ 64).

Definition survivesNumber (n : number) : bool :=
  match n with
  | NumInt z =>
      inInt32 z
      || (isPattern64 (doubleBitsOfInt z)
          && match intOfDoubleBits (doubleBitsOfInt z) with
             | Some z' => z' =? z
             | None => false
             end)
  | NumDouble bits =>
      isPattern64 bits
      && match intOfDoubleBits bits with Some _ => false | None => true end
  end.

Definition survivesDate (time : option Z) : bool :=
  match time with
  | Some ms => (ms mod 1000 =? 0) && (ms <=? maxTime)
  | None => false
  end.

Fixpoint distinctKeys (keys : list string) : bool :=
  match keys with
  | [] => true
  | k :: rest => negb (existsb (String.eqb k) rest) && distinctKeys rest
  end.

(** No key is [__proto__], the one key the decoder cannot write. *)
Definition plainKeys (keys : list string) : bool :=
  forallb (fun k => negb (String.eqb k "__proto__")) keys.

Fixpoint survives (value : FieldValue) : bool :=
  match value with
  | FNull | FBool _ | FBigInt _ | FString _ | FBuffer _ => true
  | FUndefined => false
  | FNumber n => survivesNumber n
  | FDate time => survivesDate time
  | FArray items => forallb survives items
  | FTable entries =>
      plainKeys (map fst entries)
      && (distinctKeys (map fst entries)
          && forallb (fun kv => survives (snd kv)) entries)
  end.

Definition survivesTable (table : FieldTable) : bool :=
  plainKeys (map fst table)
  && (distinctKeys (map fst table)
      && forallb (fun kv => survives (snd kv)) table).

(** Induction over field values, through arrays and tables. *)
Section FieldValueInduction.

Variable P : FieldValue -> Prop.
Hypothesis HNull : P FNull.
Hypothesis HUndefined : P FUndefined.
Hypothesis HBool : forall b, P (FBool b).
Hypothesis HNumber : forall n, P (FNumber n).
Hypothesis HBigInt : forall z, P (FBigInt z).
Hypothesis HString : forall s, P (FString s).
Hypothesis HDate : forall t, P (FDate t).
Hypothesis HBuffer : forall bs, P (FBuffer bs).
Hypothesis HArray : forall items, Forall P items -> P (FArray items).
Hypothesis HTable :
  forall entries, Forall (fun kv => P (snd kv)) entries -> P (FTable entries).

Fixpoint FieldValue_nested_ind (v : FieldValue) : P v :=
  match v with
  | FNull => HNull
  | FUndefined => HUndefined
  | FBool b => HBool b
  | FNumber n => HNumber n
  | FBigInt z => HBigInt z
  | FString s => HString s
  | FDate t => HDate t
  | FBuffer bs => HBuffer bs
  | FArray items =>
      HArray items
        ((fix all (l : list FieldValue) : Forall P l :=
            match l with
            | [] => Forall_nil P
            | x :: l' => Forall_cons x (FieldValue_nested_ind x) (all l')
            end) items)
  | FTable entries =>
      HTable entries
        ((fix all (l : list (string * FieldValue))
            : Forall (fun kv => P (snd kv)) l :=
            match l with
            | [] => Forall_nil _
            | kv :: l' =>
                Forall_cons kv (FieldValue_nested_ind (snd kv)) (all l')
            end) entries)
  end.

End FieldValueInduction.

(** *** Decoder ([FrameParser]) *)

Definition readShortString (buffer : Buffer) (offset : nat)
  : result (string * nat) :=
  length <- lift (readUInt8 buffer offset) ;;
  let value := stringOfBytes (slice buffer (offset + 1) (Z.to_nat length)) in
  Ok (value, (1 + Z.to_nat length)%nat).

Definition readLongString (buffer : Buffer) (offset : nat)
  : result (string * nat) :=
  length <- lift (readUInt32BE buffer offset) ;;
  let value := stringOfBytes (slice buffer (offset + 4) (Z.to_nat length)) in
  Ok (value, (4 + Z.to_nat length)%nat).

Section Decoder.

(** The ['D'] case computes [unscaled / Math.pow(10, scale)] in floating
    point; that quotient is taken as given. *)
Variable decimalNumber : Z -> Z -> number.

Fixpoint readFieldValue (fuel : nat) (buffer : Buffer) (offset : nat)
  {struct fuel} : result (FieldValue * nat) :=
  match fuel with
  | O => OutOfFuel
  | S fuel' =>
      type <- lift (readUInt8 buffer offset) ;;
      let pos := (offset + 1)%nat in
      if type =? 116 then       (* 't' boolean *)
        v <- lift (readUInt8 buffer pos) ;;
        Ok (FBool (negb (v =? 0)), 2%nat)
      else if type =? 98 then   (* 'b' signed byte *)
        v <- lift (readInt8 buffer pos) ;; Ok (FNumber (NumInt v), 2%nat)
      else if type =? 66 then   (* 'B' unsigned byte *)
        v <- lift (readUInt8 buffer pos) ;; Ok (FNumber (NumInt v), 2%nat)
      else if type =? 115 then  (* 's' signed short *)
        v <- lift (readInt16BE buffer pos) ;; Ok (FNumber (NumInt v), 3%nat)
      else if type =? 117 then  (* 'u' unsigned short *)
        v <- lift (readUInt16BE buffer pos) ;; Ok (FNumber (NumInt v), 3%nat)
      else if type =? 73 then   (* 'I' signed int *)
        v <- lift (readInt32BE buffer pos) ;; Ok (FNumber (NumInt v), 5%nat)
      else if type =? 105 then  (* 'i' unsigned int *)
        v <- lift (readUInt32BE buffer pos) ;; Ok (FNumber (NumInt v), 5%nat)
      else if type =? 108 then  (* 'l' signed long *)
        v <- lift (readBigInt64BE buffer pos) ;; Ok (FBigInt v, 9%nat)
      else if type =? 102 then  (* 'f' float *)
        v <- lift (readUInt32BE buffer pos) ;;
        Ok (FNumber (numberOfDoubleBits (doubleBitsOfFloatBits v)), 5%nat)
      else if type =? 100 then  (* 'd' double *)
        v <- lift (readBigUInt64BE buffer pos) ;;
        Ok (FNumber (numberOfDoubleBits v), 9%nat)
      else if type =? 68 then   (* 'D' decimal *)
        scale <- lift (readUInt8 buffer pos) ;;
        unscaled <- lift (readInt32BE buffer (pos + 1)) ;;
        Ok (FNumber (decimalNumber scale unscaled), 6%nat)
      else if type =? 83 then   (* 'S' long string *)
        ' (value, bytesRead) <- readLongString buffer pos ;;
        Ok (FString value, (1 + bytesRead)%nat)
      else if type =? 65 then   (* 'A' array *)
        arrayLength <- lift (readUInt32BE buffer pos) ;;
        array <- arrayLoop fuel' buffer (pos + 4)
                   (pos + 4 + Z.to_nat arrayLength) [] ;;
        Ok (FArray array, (1 + 4 + Z.to_nat arrayLength)%nat)
      else if type =? 84 then   (* 'T' timestamp *)
        timestamp <- lift (readBigUInt64BE buffer pos) ;;
        let ms := timestamp * 1000 in
        Ok (FDate (if ms <=? maxTime then Some ms else None), 9%nat)
      else if type =? 70 then   (* 'F' field table *)
        ' (value, bytesRead) <- readFieldTable fuel' buffer pos ;;
        Ok (FTable value, (1 + bytesRead)%nat)
      else if type =? 86 then   (* 'V' void *)
        Ok (FNull, 1%nat)
      else if type =? 120 then  (* 'x' byte array *)
        length <- lift (readUInt32BE buffer pos) ;;
        Ok (FBuffer (slice buffer (pos + 4) (Z.to_nat length)),
            (1 + 4 + Z.to_nat length)%nat)
      else Throw
  end

with arrayLoop (fuel : nat) (buffer : Buffer) (arrayPos arrayEnd : nat)
  (array : list FieldValue) {struct fuel} : result (list FieldValue) :=
  match fuel with
  | O => OutOfFuel
  | S fuel' =>
      if (arrayPos <? arrayEnd)%nat then
        ' (value, bytesRead) <- readFieldValue fuel' buffer arrayPos ;;
        arrayLoop fuel' buffer (arrayPos + bytesRead) arrayEnd (array ++ [value])
      else Ok array
  end

with tableLoop (fuel : nat) (buffer : Buffer) (pos endPos : nat)
  (table : FieldTable) {struct fuel} : result FieldTable :=
  match fuel with
  | O => OutOfFuel
  | S fuel' =>
      if (pos <? endPos)%nat then
        ' (fieldName, nameBytes) <- readShortString buffer pos ;;
        ' (fieldValue, valueBytes) <-
            readFieldValue fuel' buffer (pos + nameBytes) ;;
        tableLoop fuel' buffer (pos + nameBytes + valueBytes) endPos
          (objSet table fieldName fieldValue)
      else Ok table
  end

with readFieldTable (fuel : nat) (buffer : Buffer) (offset : nat)
  {struct fuel} : result (FieldTable * nat) :=
  match fuel with
  | O => OutOfFuel
  | S fuel' =>
      tableLength <- lift (readUInt32BE buffer offset) ;;
      table <- tableLoop fuel' buffer (offset + 4)
                 (offset + 4 + Z.to_nat tableLength) [] ;;
      Ok (table, (4 + Z.to_nat tableLength)%nat)
  end.

(** Reading back one encoded value: wherever the encoding of a surviving
    value [v] sits in a buffer, [readFieldValue] with fuel above its
    length returns [v] and the length. *)
Definition reads (v : FieldValue) : Prop :=
  forall enc, survives v = true -> encodeFieldValue v = Ok enc ->
  forall (buf : Buffer) (off : nat) (rest : list Z) (fuel : nat),
    skipn off buf = enc ++ rest ->
    (List.length enc < fuel)%nat ->
    readFieldValue fuel buf off = Ok (v, List.length enc).

End Decoder.

(** *** Sample tables *)

(** One entry of every kind the encoder writes. *)
Definition sampleTable : FieldTable :=
  [ ("b", FBool true);
    ("n", FNumber (NumInt 300));
    ("m", FNumber (NumInt (-7)));
    ("big", FNumber (NumInt 4294967296));
    ("d", FNumber (NumDouble 4609434218613702656)); (* 1.5 *)
    ("l", FBigInt (-5));
    ("s", FString "hi");
    ("t", FDate (Some 86400000));
    ("x", FBuffer [1; 2]);
    ("a", FArray [FNull; FBool false; FNumber (NumInt 70000)]);
    ("f", FTable [("k", FString "v")]);
    ("z", FNull) ]%string.

(** A timestamp with a millisecond part. *)
Definition subSecondTable : FieldTable := [("t", FDate (Some 1500))]%string.

(** A property whose value is [undefined]. *)
Definition undefinedTable : FieldTable := [("u", FUndefined)]%string.

(** A table with an own property [__proto__], as [JSON.parse] or
    [Object.defineProperty] makes one. *)
Definition protoTable : FieldTable :=
  [("__proto__", FString "x"); ("k", FBool true)]%string.

(** A stand-in for the decimal quotient where its value does not
    matter. *)
Definition noDecimal (scale unscaled : Z) : number := NumInt 0.

End Codec.

(* ================================================================== *)
(** ** Insertion-ordered maps *)

Module JsMap.

Section WithKey.

Context {K V : Type}.
Variable eqb : K -> K -> bool.

(** [Map.prototype.get]. *)
Fixpoint get (m : list (K * V)) (k : K) : option V :=
  match m with
  | [] => None
  | (k', v) :: rest => if eqb k' k then Some v else get rest k
  end.

Definition has (m : list (K * V)) (k : K) : bool :=
  match get m k with Some _ => true | None => false end.

(** [Map.prototype.set]: an existing key keeps its position. *)
Fixpoint set (m : list (K * V)) (k : K) (v : V) : list (K * V) :=
  match m with
  | [] => [(k, v)]
  | (k', v') :: rest =>
      if eqb k' k then (k', v) :: rest else (k', v') :: set rest k v
  end.

(** [Map.prototype.delete]. *)
Fixpoint delete (m : list (K * V)) (k : K) : list (K * V) :=
  match m with
  | [] => []
  | (k', v') :: rest =>
      if eqb k' k then rest else (k', v') :: delete rest k
  end.

Definition values (m : list (K * V)) : list V := map snd m.
Definition keys (m : list (K * V)) : list K := map fst m.

End WithKey.

(** [Set.prototype.add] and [delete] on an insertion-ordered set of
    strings. *)
Definition setAdd (s : list string) (x : string) : list string :=
  if existsb (String.eqb x) s then s else s ++ [x].

Definition setDelete (s : list string) (x : string) : list string :=
  filter (fun y => negb (String.eqb y x)) s.

End JsMap.

(* ================================================================== *)
(** ** Broker state *)

Module Broker.

Import Codec.

(** *** Entities *)

Inductive ChannelState := ch_opening | ch_open | ch_closing | ch_closed.

Inductive ConnectionState :=
| awaiting_header | awaiting_start_ok | awaiting_tune_ok | awaiting_open
| conn_open | conn_closing | conn_closed.

Definition ChannelState_eqb (a b : ChannelState) : bool :=
  match a, b with
  | ch_opening, ch_opening | ch_open, ch_open
  | ch_closing, ch_closing | ch_closed, ch_closed => true
  | _, _ => false
  end.

Definition isClosed (s : ConnectionState) : bool :=
  match s with conn_closed => true | _ => false end.

Record MessageProperties := mkProperties {
  contentType : option string;
  contentEncoding : option string;
  headers : option FieldTable;
  deliveryMode : option Z;
  priority : option Z;
  correlationId : option string;
  replyTo : option string;
  expiration : option string;
  messageId : option string;
  prop_timestamp : option Z;
  prop_type : option string;
  userId : option string;
  appId : option string;
  clusterId : option string
}.

Definition emptyProperties : MessageProperties :=
  mkProperties None None None None None None None None None None None None
    None None.

Record Message := mkMessage {
  msg_id : string;
  msg_exchange : string;
  msg_routingKey : string;
  msg_mandatory : bool;
  msg_immediate : bool;
  msg_properties : MessageProperties;
  msg_content : list Z;
  msg_timestamp : Z
}.

(** [createMessage]: [uuid] and [now] stand for [randomUUID()] and
    [Date.now()]. *)
Definition createMessage (uuid : string) (now : Z)
  (exchange routingKey : string) (content : list Z)
  (properties : MessageProperties) (mandatory immediate : bool) : Message :=
  let id := match messageId properties with
            | Some m => if String.eqb m EmptyString then uuid else m
            | None => uuid
            end in
  let ts := match prop_timestamp properties with
            | Some t => Some t
            | None => Some (now / 1000)
            end in
  mkMessage id exchange routingKey mandatory immediate
    (mkProperties (contentType properties) (contentEncoding properties)
       (headers properties) (deliveryMode properties) (priority properties)
       (correlationId properties) (replyTo properties) (expiration properties)
       (messageId properties) ts (prop_type properties) (userId properties)
       (appId properties) (clusterId properties))
    content now.

Record UnackedMessage := mkUnacked {
  um_message : Message;
  um_queueName : string;
  um_deliveryTag : Z;
  um_consumerTag : string
}.

Record PendingMessage := mkPending {
  pm_exchange : string;
  pm_routingKey : string;
  pm_mandatory : bool;
  pm_immediate : bool;
  pm_properties : MessageProperties;
  pm_bodySize : Z;
  pm_bodyChunks : list (list Z);
  pm_receivedSize : Z
}.

(** A channel object.  [ch_connection] is the id of the owning
    connection; [ch_consumers] holds the keys of the channel's consumer
    map. *)
Record Channel := mkChannel {
  channelNumber : Z;
  ch_connection : string;
  ch_state : ChannelState;
  flowActive : bool;
  prefetchSize : Z;
  prefetchCount : Z;
  qos_global : bool;
  deliveryTagCounter : Z;
  unackedMessages : list (Z * UnackedMessage);
  ch_consumers : list string;
  consumerTagCounter : Z;
  pendingMessage : option PendingMessage
}.

(** A consumer is immutable; [c_channel] is a reference to its channel
    object in the heap of channels. *)
Record Consumer := mkConsumer {
  consumerTag : string;
  c_queueName : string;
  c_channel : nat;
  noLocal : bool;
  noAck : bool;
  c_exclusive : bool
}.

Record Queue := mkQueue {
  q_name : string;
  q_durable : bool;
  q_exclusive : bool;
  q_autoDelete : bool;
  exclusiveConnectionId : option string;
  messages : list Message;
  consumerCount : Z
}.

Inductive ExchangeType := direct | fanout | topic | headersType.

Record Exchange := mkExchange {
  ex_name : string;
  ex_type : ExchangeType;
  ex_durable : bool;
  ex_autoDelete : bool;
  ex_internal : bool;
  isDefault : bool
}.

(** *** Frames

    Outbound frames are kept as structured values: the method with the
    arguments handed to its builder, a content header, or a body chunk. *)
Inductive Method :=
| ChannelClose (replyCode : Z) (replyText : string) (classId methodId : Z)
| QueueDeclareOk (queue : string) (messageCount consumerCount : Z)
| BasicQosOk
| BasicConsumeOk (tag : string)
| BasicCancelOk (tag : string)
| BasicReturn (replyCode : Z) (replyText exchange routingKey : string)
| BasicDeliver (tag : string) (deliveryTag : Z) (redelivered : bool)
    (exchange routingKey : string)
| BasicGetOk (deliveryTag : Z) (redelivered : bool)
    (exchange routingKey : string) (messageCount : Z)
| BasicGetEmpty
| BasicRecoverOk
| ChannelOpenOk
| ChannelFlowOk (active : bool)
| ChannelCloseOk
| ConnectionClose (replyCode : Z) (replyText : string) (classId methodId : Z).

Inductive Frame :=
| MethodFrame (channel : Z) (m : Method)
| ContentHeaderFrame (channel classId bodySize : Z) (properties : MessageProperties)
| ContentBodyFrame (channel : Z) (chunk : list Z).

Record Connection := mkConnection {
  conn_id : string;
  conn_state : ConnectionState;
  conn_channels : list (Z * nat);
  conn_channelMax : Z;
  conn_frameMax : Z;
  conn_heartbeat : Z;
  socketDestroyed : bool;
  sent : list Frame
}.

(** The append-only message log of [FileStore]. *)
Inductive LogEntry :=
| LogMessage (queue : string) (message : Message)
| LogDelete (queue : string) (messageId : string).

Record Store := mkStore {
  messagesLog : list LogEntry;
  queuesJson : list string;
  bindingsJson : list Topic.Binding
}.

(** The broker.  [channelHeap] and [connectionHeap] hold the channel and
    connection objects, which stay reachable from consumers and channels
    after they leave the broker's maps.  [bindings] is the binding
    registry in insertion order (its two indices list the same bindings by
    source and by destination, in that order).  [immediates] holds the
    consumers of the pending [setImmediate(() => deliverToConsumer(c))]
    callbacks, oldest first.  Emitted events are not modelled. *)
Record Broker := mkBroker {
  connections : list string;
  connectionHeap : list (string * Connection);
  channelHeap : list (nat * Channel);
  exchanges : list (string * Exchange);
  queues : list (string * Queue);
  bindings : list Topic.Binding;
  consumers : list (string * Consumer);
  queueConsumers : list (string * list string);
  store : Store;
  immediates : list Consumer
}.

(** *** Field updates *)

Definition ch_with_state (c : Channel) (s : ChannelState) : Channel :=
  mkChannel (channelNumber c) (ch_connection c) s (flowActive c)
    (prefetchSize c) (prefetchCount c) (qos_global c) (deliveryTagCounter c)
    (unackedMessages c) (ch_consumers c) (consumerTagCounter c)
    (pendingMessage c).

Definition ch_with_flow (c : Channel) (f : bool) : Channel :=
  mkChannel (channelNumber c) (ch_connection c) (ch_state c) f
    (prefetchSize c) (prefetchCount c) (qos_global c) (deliveryTagCounter c)
    (unackedMessages c) (ch_consumers c) (consumerTagCounter c)
    (pendingMessage c).

Definition ch_with_qos (c : Channel) (size count : Z) (g : bool) : Channel :=
  mkChannel (channelNumber c) (ch_connection c) (ch_state c) (flowActive c)
    size count g (deliveryTagCounter c)
    (unackedMessages c) (ch_consumers c) (consumerTagCounter c)
    (pendingMessage c).

Definition ch_with_counter (c : Channel) (n : Z) : Channel :=
  mkChannel (channelNumber c) (ch_connection c) (ch_state c) (flowActive c)
    (prefetchSize c) (prefetchCount c) (qos_global c) n
    (unackedMessages c) (ch_consumers c) (consumerTagCounter c)
    (pendingMessage c).

Definition ch_with_unacked (c : Channel) (u : list (Z * UnackedMessage)) : Channel :=
  mkChannel (channelNumber c) (ch_connection c) (ch_state c) (flowActive c)
    (prefetchSize c) (prefetchCount c) (qos_global c) (deliveryTagCounter c)
    u (ch_consumers c) (consumerTagCounter c) (pendingMessage c).

Definition ch_with_consumers (c : Channel) (l : list string) (n : Z) : Channel :=
  mkChannel (channelNumber c) (ch_connection c) (ch_state c) (flowActive c)
    (prefetchSize c) (prefetchCount c) (qos_global c) (deliveryTagCounter c)
    (unackedMessages c) l n (pendingMessage c).

Definition ch_with_pending (c : Channel) (p : option PendingMessage) : Channel :=
  mkChannel (channelNumber c) (ch_connection c) (ch_state c) (flowActive c)
    (prefetchSize c) (prefetchCount c) (qos_global c) (deliveryTagCounter c)
    (unackedMessages c) (ch_consumers c) (consumerTagCounter c) p.

Definition q_with_messages (q : Queue) (ms : list Message) : Queue :=
  mkQueue (q_name q) (q_durable q) (q_exclusive q) (q_autoDelete q)
    (exclusiveConnectionId q) ms (consumerCount q).

Definition q_with_consumerCount (q : Queue) (n : Z) : Queue :=
  mkQueue (q_name q) (q_durable q) (q_exclusive q) (q_autoDelete q)
    (exclusiveConnectionId q) (messages q) n.

Definition conn_with_state (c : Connection) (s : ConnectionState) : Connection :=
  mkConnection (conn_id c) s (conn_channels c) (conn_channelMax c)
    (conn_frameMax c) (conn_heartbeat c) (socketDestroyed c) (sent c).

Definition conn_with_channels (c : Connection) (l : list (Z * nat)) : Connection :=
  mkConnection (conn_id c) (conn_state c) l (conn_channelMax c)
    (conn_frameMax c) (conn_heartbeat c) (socketDestroyed c) (sent c).

Definition conn_with_sent (c : Connection) (l : list Frame) : Connection :=
  mkConnection (conn_id c) (conn_state c) (conn_channels c) (conn_channelMax c)
    (conn_frameMax c) (conn_heartbeat c) (socketDestroyed c) l.

Definition with_connections (b : Broker) (l : list string) : Broker :=
  mkBroker l (connectionHeap b) (channelHeap b) (exchanges b) (queues b)
    (bindings b) (consumers b) (queueConsumers b) (store b) (immediates b).

Definition with_connectionHeap (b : Broker) (h : list (string * Connection)) : Broker :=
  mkBroker (connections b) h (channelHeap b) (exchanges b) (queues b)
    (bindings b) (consumers b) (queueConsumers b) (store b) (immediates b).

Definition with_channelHeap (b : Broker) (h : list (nat * Channel)) : Broker :=
  mkBroker (connections b) (connectionHeap b) h (exchanges b) (queues b)
    (bindings b) (consumers b) (queueConsumers b) (store b) (immediates b).

Definition with_queues (b : Broker) (q : list (string * Queue)) : Broker :=
  mkBroker (connections b) (connectionHeap b) (channelHeap b) (exchanges b) q
    (bindings b) (consumers b) (queueConsumers b) (store b) (immediates b).

Definition with_bindings (b : Broker) (l : list Topic.Binding) : Broker :=
  mkBroker (connections b) (connectionHeap b) (channelHeap b) (exchanges b)
    (queues b) l (consumers b) (queueConsumers b) (store b) (immediates b).

Definition with_registry (b : Broker) (c : list (string * Consumer))
  (qc : list (string * list string)) : Broker :=
  mkBroker (connections b) (connectionHeap b) (channelHeap b) (exchanges b)
    (queues b) (bindings b) c qc (store b) (immediates b).

Definition with_store (b : Broker) (s : Store) : Broker :=
  mkBroker (connections b) (connectionHeap b) (channelHeap b) (exchanges b)
    (queues b) (bindings b) (consumers b) (queueConsumers b) s (immediates b).

Definition with_immediates (b : Broker) (l : list Consumer) : Broker :=
  mkBroker (connections b) (connectionHeap b) (channelHeap b) (exchanges b)
    (queues b) (bindings b) (consumers b) (queueConsumers b) (store b) l.

Definition getChannelObj (b : Broker) (ref : nat) : option Channel :=
  JsMap.get Nat.eqb (channelHeap b) ref.

Definition putChannelObj (b : Broker) (ref : nat) (c : Channel) : Broker :=
  with_channelHeap b (JsMap.set Nat.eqb (channelHeap b) ref c).

Definition getConnectionObj (b : Broker) (id : string) : option Connection :=
  JsMap.get String.eqb (connectionHeap b) id.

Definition putConnectionObj (b : Broker) (id : string) (c : Connection) : Broker :=
  with_connectionHeap b (JsMap.set String.eqb (connectionHeap b) id c).

Definition getQueue (b : Broker) (name : string) : option Queue :=
  JsMap.get String.eqb (queues b) name.

(** Write a mutated queue object back under the key it was fetched by. *)
Definition putQueue (b : Broker) (key : string) (q : Queue) : Broker :=
  with_queues b (JsMap.set String.eqb (queues b) key q).

(** *** [Channel] ([src/core/channel.ts]) *)

Definition unackedCount (c : Channel) : Z :=
  Z.of_nat (List.length (unackedMessages c)).

Definition canDeliver (c : Channel) : bool :=
  if prefetchCount c =? 0 then true
  else unackedCount c <? prefetchCount c.

Definition trackUnacked (c : Channel) (deliveryTag : Z) (message : Message)
  (queueName tag : string) : Channel :=
  ch_with_unacked c
    (JsMap.set Z.eqb (unackedMessages c) deliveryTag
       (mkUnacked message queueName deliveryTag tag)).

Definition getUnackedMessages (c : Channel) : list UnackedMessage :=
  JsMap.values (unackedMessages c).

Definition ack (c : Channel) (deliveryTag : Z) (multiple : bool)
  : list UnackedMessage * Channel :=
  if multiple then
    (JsMap.values (filter (fun e => fst e <=? deliveryTag) (unackedMessages c)),
     ch_with_unacked c
       (filter (fun e => negb (fst e <=? deliveryTag)) (unackedMessages c)))
  else
    match JsMap.get Z.eqb (unackedMessages c) deliveryTag with
    | Some unacked =>
        ([unacked],
         ch_with_unacked c (JsMap.delete Z.eqb (unackedMessages c) deliveryTag))
    | None => ([], c)
    end.

Definition nack := ack.

Definition reject (c : Channel) (deliveryTag : Z)
  : option UnackedMessage * Channel :=
  match JsMap.get Z.eqb (unackedMessages c) deliveryTag with
  | Some unacked =>
      (Some unacked,
       ch_with_unacked c (JsMap.delete Z.eqb (unackedMessages c) deliveryTag))
  | None => (None, c)
  end.

Definition addConsumer (c : Channel) (tag : string) : Channel :=
  ch_with_consumers c (JsMap.setAdd (ch_consumers c) tag) (consumerTagCounter c).

Definition removeConsumer (c : Channel) (tag : string) : Channel :=
  ch_with_consumers c (JsMap.setDelete (ch_consumers c) tag) (consumerTagCounter c).

(** [Channel.close]. *)
Definition closeChannelObj (c : Channel) : Channel :=
  match ch_state c with
  | ch_closed => c
  | _ =>
      mkChannel (channelNumber c) (ch_connection c) ch_closed (flowActive c)
        (prefetchSize c) (prefetchCount c) (qos_global c)
        (deliveryTagCounter c) [] [] (consumerTagCounter c) None
  end.

(** *** [Queue] ([src/core/queue.ts]) *)

Definition enqueue (q : Queue) (m : Message) : Queue :=
  q_with_messages q (messages q ++ [m]).

Definition dequeue (q : Queue) : option (Message * Queue) :=
  match messages q with
  | [] => None
  | m :: rest => Some (m, q_with_messages q rest)
  end.

Definition requeue (q : Queue) (m : Message) (front : bool) : Queue :=
  if front then q_with_messages q (m :: messages q)
  else q_with_messages q (messages q ++ [m]).

Definition getMessageCount (q : Queue) : Z :=
  Z.of_nat (List.length (messages q)).

Definition queueAddConsumer (q : Queue) : Queue :=
  q_with_consumerCount q (consumerCount q + 1).

Definition queueRemoveConsumer (q : Queue) : Queue :=
  q_with_consumerCount q (Z.max 0 (consumerCount q - 1)).

Definition option_string_eqb (a : option string) (b : string) : bool :=
  match a with Some x => String.eqb x b | None => false end.

Definition canAccess (q : Queue) (connectionId : string) : bool :=
  if negb (q_exclusive q) then true
  else option_string_eqb (exclusiveConnectionId q) connectionId.

Definition queueMatches (q : Queue) (durable exclusive : bool) : bool :=
  Bool.eqb durable (q_durable q) && Bool.eqb exclusive (q_exclusive q).

(** *** [Consumer] and [ConsumerRegistry] ([src/core/consumer.ts]) *)

Definition canReceive (c : Channel) : bool :=
  if negb (flowActive c) then false else canDeliver c.

Definition registryAdd (b : Broker) (c : Consumer) : Broker :=
  let queueSet :=
    match JsMap.get String.eqb (queueConsumers b) (c_queueName c) with
    | Some s => s
    | None => []
    end in
  with_registry b
    (JsMap.set String.eqb (consumers b) (consumerTag c) c)
    (JsMap.set String.eqb (queueConsumers b) (c_queueName c)
       (JsMap.setAdd queueSet (consumerTag c))).

Definition registryRemove (b : Broker) (tag : string) : option Consumer * Broker :=
  match JsMap.get String.eqb (consumers b) tag with
  | None => (None, b)
  | Some c =>
      let cs := JsMap.delete String.eqb (consumers b) tag in
      let qc :=
        match JsMap.get String.eqb (queueConsumers b) (c_queueName c) with
        | None => queueConsumers b
        | Some queueSet =>
            match JsMap.setDelete queueSet tag with
            | [] => JsMap.delete String.eqb (queueConsumers b) (c_queueName c)
            | s => JsMap.set String.eqb (queueConsumers b) (c_queueName c) s
            end
        end in
      (Some c, with_registry b cs qc)
  end.

Fixpoint somes {A : Type} (l : list (option A)) : list A :=
  match l with
  | [] => []
  | Some a :: rest => a :: somes rest
  | None :: rest => somes rest
  end.

Definition getByQueue (b : Broker) (queueName : string) : list Consumer :=
  match JsMap.get String.eqb (queueConsumers b) queueName with
  | None => []
  | Some tags => somes (map (JsMap.get String.eqb (consumers b)) tags)
  end.

Definition hasExclusiveConsumer (b : Broker) (queueName : string) : bool :=
  existsb c_exclusive (getByQueue b queueName).

(** [removeByChannel]: the consumers whose [channel] is the given object,
    in registry order, each taken out with [remove]. *)
Definition removeByChannel (b : Broker) (ref : nat) : list Consumer * Broker :=
  let removed :=
    filter (fun c => Nat.eqb (c_channel c) ref) (JsMap.values (consumers b)) in
  (removed,
   fold_left (fun acc c => snd (registryRemove acc (consumerTag c))) removed b).

(** *** [Connection] ([src/core/connection.ts]) *)

Definition send (c : Connection) (data : Frame) : Connection :=
  if socketDestroyed c || isClosed (conn_state c) then c
  else conn_with_sent c (sent c ++ [data]).

Definition sendAll (c : Connection) (frames : list Frame) : Connection :=
  fold_left send frames c.

Definition brokerSend (b : Broker) (connId : string) (frames : list Frame) : Broker :=
  match getConnectionObj b connId with
  | Some c => putConnectionObj b connId (sendAll c frames)
  | None => b
  end.

(** *** Persistence ([src/persistence/file-store.ts])

    The two calls as a handler that goes on after them sees them: one
    more entry in the log.  [FileStore.saveMessage] serializes the
    message with [JSON.stringify], which throws on a header value that is
    a bigint, and both calls write to the file while the handler awaits
    them; the throw, and what other events do to the broker during the
    wait, are outside this model. *)

Definition saveMessage (b : Broker) (queueName : string) (m : Message) : Broker :=
  with_store b
    (mkStore (messagesLog (store b) ++ [LogMessage queueName m])
       (queuesJson (store b)) (bindingsJson (store b))).

Definition deleteMessage (b : Broker) (queueName id : string) : Broker :=
  with_store b
    (mkStore (messagesLog (store b) ++ [LogDelete queueName id])
       (queuesJson (store b)) (bindingsJson (store b))).

(** *** Reply codes ([src/protocol/constants.ts]) *)

Definition NO_CONSUMERS : Z := 313.
Definition ACCESS_REFUSED : Z := 403.
Definition NOT_FOUND : Z := 404.
Definition RESOURCE_LOCKED : Z := 405.
Definition PRECONDITION_FAILED : Z := 406.
Definition CHANNEL_ERROR : Z := 504.
Definition INTERNAL_ERROR : Z := 541.
Definition CLASS_BASIC : Z := 60.

(** *** Content frames ([FrameBuilder], [buildMessageFrames]) *)

Definition subarray (body : list Z) (from to : Z) : list Z :=
  firstn (Z.to_nat (to - from)) (skipn (Z.to_nat from) body).

(** The [while (offset < body.length)] loop of [buildContentBodyFrames].
    With a positive [maxPayloadSize] every turn advances [offset], so
    [body.length] turns are enough; with [maxPayloadSize <= 0] and a
    non-empty body the loop never ends, and the fuel runs out. *)
Fixpoint bodyLoop (fuel : nat) (channel : Z) (body : list Z)
  (maxPayloadSize offset : Z) (frames : list Frame) : option (list Frame) :=
  if offset <? len body then
    match fuel with
    | O => None
    | S fuel' =>
        let chunkSize := Z.min (len body - offset) maxPayloadSize in
        let chunk := subarray body offset (offset + chunkSize) in
        bodyLoop fuel' channel body maxPayloadSize (offset + chunkSize)
          (frames ++ [ContentBodyFrame channel chunk])
    end
  else Some frames.

Definition buildContentBodyFrames (channel : Z) (body : list Z) (frameMax : Z)
  : option (list Frame) :=
  bodyLoop (List.length body) channel body (frameMax - 8) 0 [].

(** The content header is kept as a structured frame.
    [buildContentHeaderFrame] throws when a property cannot be encoded
    ([Wire.encodeProperties] below); what follows such a throw is outside
    this model, and the theorems about the frames sent take the header to
    be buildable. *)
Definition buildMessageFrames (channel : Z) (content : list Z)
  (properties : MessageProperties) (frameMax : Z) : option (list Frame) :=
  match buildContentBodyFrames channel content frameMax with
  | Some bodyFrames =>
      Some (ContentHeaderFrame channel CLASS_BASIC (len content) properties
              :: bodyFrames)
  | None => None
  end.

(** *** Routing ([src/routing]) *)

Definition getBySource (b : Broker) (src : string) : list Topic.Binding :=
  filter (fun x => String.eqb (Topic.source x) src) (bindings b).

Definition getByDestination (b : Broker) (dst : string) : list Topic.Binding :=
  filter (fun x => String.eqb (Topic.destination x) dst) (bindings b).

Definition removeByDestination (b : Broker) (dst : string) : Broker :=
  with_bindings b
    (filter (fun x => negb (String.eqb (Topic.destination x) dst)) (bindings b)).

Definition matchDirect (rk : string) (bs : list Topic.Binding) : list string :=
  map Topic.destination (filter (fun x => String.eqb (Topic.routingKey x) rk) bs).

Definition matchFanout (bs : list Topic.Binding) : list string :=
  Topic.dedup (map Topic.destination bs).

Definition matchBindings (type : ExchangeType) (rk : string)
  (bs : list Topic.Binding) : list string :=
  match type with
  | direct => matchDirect rk bs
  | fanout => matchFanout bs
  | topic => Topic.matchTopic rk bs
  | headersType => []
  end.

(** [MessageRouter.route]: the keys of the queue objects routed to. *)
Definition route (b : Broker) (message : Message) : list string :=
  if String.eqb (msg_exchange message) EmptyString then
    if JsMap.has String.eqb (queues b) (msg_routingKey message)
    then [msg_routingKey message] else []
  else
    match JsMap.get String.eqb (exchanges b) (msg_exchange message) with
    | None => []
    | Some exchange =>
        filter (JsMap.has String.eqb (queues b))
          (matchBindings (ex_type exchange) (msg_routingKey message)
             (getBySource b (msg_exchange message)))
    end.

(** *** Delivery ([DeepMQBroker.deliverToConsumer])

    [None] means the call does not return (the body-frame loop spins).
    References into the two heaps always resolve in states built by the
    handlers; the [None] branches of those lookups leave the state as it
    is. *)
Definition deliverToConsumer (b : Broker) (consumer : Consumer) : option Broker :=
  match getChannelObj b (c_channel consumer) with
  | None => Some b
  | Some channel =>
      if negb (canReceive channel) then Some b
      else
        match getQueue b (c_queueName consumer) with
        | None => Some b
        | Some queue =>
            match dequeue queue with
            | None => Some b
            | Some (message, queue') =>
                let deliveryTag := deliveryTagCounter channel + 1 in
                let channel1 := ch_with_counter channel deliveryTag in
                let channel2 :=
                  if negb (noAck consumer)
                  then trackUnacked channel1 deliveryTag message
                         (c_queueName consumer) (consumerTag consumer)
                  else channel1 in
                let b1 := putQueue b (c_queueName consumer) queue' in
                let b2 := putChannelObj b1 (c_channel consumer) channel2 in
                match getConnectionObj b2 (ch_connection channel) with
                | None => Some b2
                | Some connection =>
                    match buildMessageFrames (channelNumber channel)
                            (msg_content message) (msg_properties message)
                            (conn_frameMax connection) with
                    | None => None
                    | Some contentFrames =>
                        let b3 :=
                          brokerSend b2 (ch_connection channel)
                            (MethodFrame (channelNumber channel)
                               (BasicDeliver (consumerTag consumer) deliveryTag
                                  false (msg_exchange message)
                                  (msg_routingKey message))
                             :: contentFrames) in
                        let b4 :=
                          if noAck consumer && q_durable queue
                          then deleteMessage b3 (c_queueName consumer)
                                 (msg_id message)
                          else b3 in
                        Some (if canReceive channel2
                              then with_immediates b4 (immediates b4 ++ [consumer])
                              else b4)
                    end
                end
            end
        end
  end.

(** Does [deliverToConsumer] hand a message to the consumer in state
    [b]?  This is the guard part of the function: it passes the
    [canReceive] test, finds the queue and dequeues a message. *)
Definition dispatches (b : Broker) (consumer : Consumer) : bool :=
  match getChannelObj b (c_channel consumer) with
  | None => false
  | Some channel =>
      canReceive channel &&
      match getQueue b (c_queueName consumer) with
      | None => false
      | Some queue =>
          match dequeue queue with None => false | Some _ => true end
      end
  end.

(** Run the oldest pending [setImmediate] callback. *)
Definition runImmediate (b : Broker) : option Broker :=
  match immediates b with
  | [] => Some b
  | c :: rest => deliverToConsumer (with_immediates b rest) c
  end.

Fixpoint deliverAll (b : Broker) (cs : list Consumer) : option Broker :=
  match cs with
  | [] => Some b
  | c :: rest =>
      match deliverToConsumer b c with
      | Some b' => deliverAll b' rest
      | None => None
      end
  end.

(** [for (const consumer of channel.getConsumers()) { const c =
    this.consumers.get(consumer.consumerTag); if (c) deliverToConsumer(c) }] *)
Fixpoint redeliverChannel (b : Broker) (tags : list string) : option Broker :=
  match tags with
  | [] => Some b
  | t :: rest =>
      match JsMap.get String.eqb (consumers b) t with
      | Some c =>
          match deliverToConsumer b c with
          | Some b' => redeliverChannel b' rest
          | None => None
          end
      | None => redeliverChannel b rest
      end
  end.

(** [buildChannelCloseFrame] writes the reply text as a short string and
    throws when it is longer than 255 bytes, as [notFoundText] is for a
    long queue name; that throw is outside this model. *)
Definition closeChannelWithError (b : Broker) (connId : string)
  (channelNumber replyCode : Z) (replyText : string) : Broker :=
  brokerSend b connId
    [MethodFrame channelNumber (ChannelClose replyCode replyText 0 0)].

(** *** Basic-class methods ([DeepMQBroker.handleBasicMethod]) *)

Inductive BasicMethod :=
| Qos (size count : Z) (global : bool)
| Consume (queue tag : string) (noLocal noAck exclusive noWait : bool)
| Cancel (tag : string) (noWait : bool)
| Publish (exchange routingKey : string) (mandatory immediate : bool)
| Get (queue : string) (noAck : bool)
| Ack (deliveryTag : Z) (multiple : bool)
| Reject (deliveryTag : Z) (requeue : bool)
| Nack (deliveryTag : Z) (multiple requeue : bool)
| Recover (requeue : bool)
| RecoverAsync (requeue : bool).

Definition decimal (z : Z) : string := NilZero.string_of_int (Z.to_int z).

Definition notFoundText (queue : string) : string :=
  ("Queue '" ++ queue ++ "' not found")%string.

Definition exclusiveText : string := "Queue is exclusive to another connection".

Definition handleQos (b : Broker) (connId : string) (channelNumber : Z)
  (ref : nat) (channel : Channel) (size count : Z) (global : bool) : Broker :=
  brokerSend (putChannelObj b ref (ch_with_qos channel size count global))
    connId [MethodFrame channelNumber BasicQosOk].

Definition handleConsume (b : Broker) (connId : string) (channelNumber : Z)
  (ref : nat) (channel : Channel)
  (queueName tag : string) (noLocal noAck exclusive noWait : bool)
  : option Broker :=
  match getQueue b queueName with
  | None =>
      Some (closeChannelWithError b connId channelNumber NOT_FOUND
              (notFoundText queueName))
  | Some queue =>
      if negb (canAccess queue connId) then
        Some (closeChannelWithError b connId channelNumber RESOURCE_LOCKED
                exclusiveText)
      else if exclusive && hasExclusiveConsumer b queueName then
        Some (closeChannelWithError b connId channelNumber ACCESS_REFUSED
                "Queue has exclusive consumer")
      else
        let generate := String.eqb tag EmptyString in
        let counter :=
          if generate then consumerTagCounter channel + 1
          else consumerTagCounter channel in
        let consumerTag :=
          if generate
          then ("amq.ctag-" ++ connId ++ "-" ++ decimal channelNumber ++ "-"
                ++ decimal counter)%string
          else tag in
        let consumer :=
          mkConsumer consumerTag queueName ref noLocal noAck exclusive in
        let b1 := registryAdd b consumer in
        let b2 :=
          putChannelObj b1 ref
            (ch_with_consumers channel
               (JsMap.setAdd (ch_consumers channel) consumerTag) counter) in
        let b3 := putQueue b2 queueName (queueAddConsumer queue) in
        let b4 :=
          if negb noWait
          then brokerSend b3 connId
                 [MethodFrame channelNumber (BasicConsumeOk consumerTag)]
          else b3 in
        deliverToConsumer b4 consumer
  end.

Definition handleCancel (b : Broker) (connId : string) (channelNumber : Z)
  (ref : nat) (tag : string) (noWait : bool) : Broker :=
  let b2 :=
    match registryRemove b tag with
    | (None, b1) => b1
    | (Some consumer, b1) =>
        let b1' :=
          match getChannelObj b1 ref with
          | Some ch => putChannelObj b1 ref (removeConsumer ch tag)
          | None => b1
          end in
        match getQueue b1' (c_queueName consumer) with
        | Some queue =>
            putQueue b1' (c_queueName consumer) (queueRemoveConsumer queue)
        | None => b1'
        end
    end in
  if negb noWait
  then brokerSend b2 connId [MethodFrame channelNumber (BasicCancelOk tag)]
  else b2.

Definition handlePublish (b : Broker) (ref : nat) (channel : Channel)
  (exchange routingKey : string) (mandatory immediate : bool) : Broker :=
  putChannelObj b ref
    (ch_with_pending channel
       (Some (mkPending exchange routingKey mandatory immediate
                emptyProperties 0 [] 0))).

Definition handleGet (b : Broker) (connId : string) (channelNumber : Z)
  (ref : nat) (channel : Channel) (queueName : string) (noAck : bool)
  : option Broker :=
  match getQueue b queueName with
  | None =>
      Some (closeChannelWithError b connId channelNumber NOT_FOUND
              (notFoundText queueName))
  | Some queue =>
      match dequeue queue with
      | None =>
          Some (brokerSend b connId [MethodFrame channelNumber BasicGetEmpty])
      | Some (message, queue') =>
          let b1 := putQueue b queueName queue' in
          let deliveryTag := deliveryTagCounter channel + 1 in
          let channel1 := ch_with_counter channel deliveryTag in
          let b2 :=
            if negb noAck then
              putChannelObj b1 ref
                (trackUnacked channel1 deliveryTag message queueName EmptyString)
            else
              let b1' := putChannelObj b1 ref channel1 in
              if q_durable queue
              then deleteMessage b1' queueName (msg_id message)
              else b1' in
          match getConnectionObj b2 connId with
          | None => Some b2
          | Some connection =>
              match buildMessageFrames channelNumber (msg_content message)
                      (msg_properties message) (conn_frameMax connection) with
              | None => None
              | Some contentFrames =>
                  Some (brokerSend b2 connId
                          (MethodFrame channelNumber
                             (BasicGetOk deliveryTag false (msg_exchange message)
                                (msg_routingKey message) (getMessageCount queue'))
                           :: contentFrames))
              end
          end
      end
  end.

Definition isDurable (b : Broker) (queueName : string) : bool :=
  match getQueue b queueName with
  | Some q => q_durable q
  | None => false
  end.

Definition deleteIfDurable (b : Broker) (u : UnackedMessage) : Broker :=
  if isDurable b (um_queueName u)
  then deleteMessage b (um_queueName u) (msg_id (um_message u))
  else b.

Definition handleAck (b : Broker) (ref : nat) (channel : Channel)
  (deliveryTag : Z) (multiple : bool) : option Broker :=
  let '(acked, channel') := ack channel deliveryTag multiple in
  let b1 := putChannelObj b ref channel' in
  let b2 := fold_left deleteIfDurable acked b1 in
  redeliverChannel b2 (ch_consumers channel').

Definition scheduleQueue (b : Broker) (queueName : string) : Broker :=
  with_immediates b (immediates b ++ getByQueue b queueName).

Definition handleReject (b : Broker) (ref : nat) (channel : Channel)
  (deliveryTag : Z) (requeueFlag : bool) : Broker :=
  match reject channel deliveryTag with
  | (None, _) => b
  | (Some rejected, channel') =>
      let b1 := putChannelObj b ref channel' in
      if requeueFlag then
        match getQueue b1 (um_queueName rejected) with
        | Some queue =>
            scheduleQueue
              (putQueue b1 (um_queueName rejected)
                 (requeue queue (um_message rejected) true))
              (um_queueName rejected)
        | None => b1
        end
      else deleteIfDurable b1 rejected
  end.

(** One turn of the Nack loop; the second component is the
    [queuesToRedeliver] set. *)
Definition nackOne (requeueFlag : bool) (acc : Broker * list string)
  (u : UnackedMessage) : Broker * list string :=
  let '(b, toRedeliver) := acc in
  if requeueFlag then
    match getQueue b (um_queueName u) with
    | Some queue =>
        (putQueue b (um_queueName u) (requeue queue (um_message u) true),
         JsMap.setAdd toRedeliver (um_queueName u))
    | None => (b, toRedeliver)
    end
  else (deleteIfDurable b u, toRedeliver).

Definition handleNack (b : Broker) (ref : nat) (channel : Channel)
  (deliveryTag : Z) (multiple requeueFlag : bool) : Broker :=
  let '(nacked, channel') := nack channel deliveryTag multiple in
  let b1 := putChannelObj b ref channel' in
  let '(b2, toRedeliver) := fold_left (nackOne requeueFlag) nacked (b1, []) in
  fold_left scheduleQueue toRedeliver b2.

(** The body shared by the requeue loops of Basic.Recover and of
    [cleanupChannel]: [const queue = this.queues.get(unacked.queueName);
    if (queue) queue.requeue(unacked.message, front)]. *)
Definition requeueUnacked (front : bool) (b : Broker) (u : UnackedMessage)
  : Broker :=
  match getQueue b (um_queueName u) with
  | Some queue =>
      putQueue b (um_queueName u) (requeue queue (um_message u) front)
  | None => b
  end.

(** The two loops of Basic.Recover that move the unacked messages back
    ([queue.requeue(unacked.message, !args.requeue)]) and clear the
    tracking, before any redelivery. *)
Definition recoverRequeue (b : Broker) (ref : nat) (channel : Channel)
  (requeueFlag : bool) : Broker :=
  let unackedMessages := getUnackedMessages channel in
  let b1 :=
    fold_left (requeueUnacked (negb requeueFlag)) unackedMessages b in
  let channel' :=
    fold_left (fun c u => snd (ack c (um_deliveryTag u) false))
      unackedMessages channel in
  putChannelObj b1 ref channel'.

Definition handleRecover (b : Broker) (connId : string) (channelNumber : Z)
  (ref : nat) (channel : Channel) (requeueFlag sendOk : bool) : option Broker :=
  let b1 := recoverRequeue b ref channel requeueFlag in
  let b2 :=
    if sendOk
    then brokerSend b1 connId [MethodFrame channelNumber BasicRecoverOk]
    else b1 in
  redeliverChannel b2 (ch_consumers channel).

(** Resolve [connection.getChannel(channelNumber)]. *)
Definition lookupChannel (b : Broker) (connId : string) (channelNumber : Z)
  : option (nat * Channel) :=
  match getConnectionObj b connId with
  | None => None
  | Some connection =>
      match JsMap.get Z.eqb (conn_channels connection) channelNumber with
      | None => None
      | Some ref =>
          match getChannelObj b ref with
          | Some channel => Some (ref, channel)
          | None => None
          end
      end
  end.

Definition handleBasicMethod (b : Broker) (connId : string) (channelNumber : Z)
  (method : BasicMethod) : option Broker :=
  match lookupChannel b connId channelNumber with
  | None => Some b
  | Some (ref, channel) =>
      if negb (ChannelState_eqb (ch_state channel) ch_open) then Some b
      else
        match method with
        | Qos size count global =>
            Some (handleQos b connId channelNumber ref channel size count global)
        | Consume queue tag noLocal noAck exclusive noWait =>
            handleConsume b connId channelNumber ref channel queue tag
              noLocal noAck exclusive noWait
        | Cancel tag noWait =>
            Some (handleCancel b connId channelNumber ref tag noWait)
        | Publish exchange routingKey mandatory immediate =>
            Some (handlePublish b ref channel exchange routingKey
                    mandatory immediate)
        | Get queue noAck =>
            handleGet b connId channelNumber ref channel queue noAck
        | Ack deliveryTag multiple =>
            handleAck b ref channel deliveryTag multiple
        | Reject deliveryTag requeueFlag =>
            Some (handleReject b ref channel deliveryTag requeueFlag)
        | Nack deliveryTag multiple requeueFlag =>
            Some (handleNack b ref channel deliveryTag multiple requeueFlag)
        | Recover requeueFlag =>
            handleRecover b connId channelNumber ref channel requeueFlag true
        | RecoverAsync requeueFlag =>
            handleRecover b connId channelNumber ref channel requeueFlag false
        end
  end.

(** *** Publishing ([handleHeaderFrame], [handleBodyFrame],
    [completeMessage]) *)

Definition enqueueOne (message : Message) (persistent : bool)
  (acc : option Broker) (key : string) : option Broker :=
  match acc with
  | None => None
  | Some b =>
      match getQueue b key with
      | None => Some b
      | Some queue =>
          let b1 := putQueue b key (enqueue queue message) in
          let b2 :=
            if q_durable queue && persistent
            then saveMessage b1 (q_name queue) message
            else b1 in
          deliverAll b2 (getByQueue b2 (q_name queue))
      end
  end.

Definition isPersistent (p : MessageProperties) : bool :=
  match deliveryMode p with Some m => m =? 2 | None => false end.

Definition completeMessage (uuid : string) (now : Z) (b : Broker)
  (connId : string) (ref : nat) : option Broker :=
  match getChannelObj b ref with
  | None => Some b
  | Some channel =>
      match pendingMessage channel with
      | None => Some b
      | Some pending =>
          let content := List.concat (pm_bodyChunks pending) in
          let message :=
            createMessage uuid now (pm_exchange pending) (pm_routingKey pending)
              content (pm_properties pending) (pm_mandatory pending)
              (pm_immediate pending) in
          let b1 := putChannelObj b ref (ch_with_pending channel None) in
          match route b1 message with
          | [] =>
              if pm_mandatory pending then
                match getConnectionObj b1 connId with
                | None => Some b1
                | Some connection =>
                    match buildMessageFrames (channelNumber channel) content
                            (pm_properties pending)
                            (conn_frameMax connection) with
                    | None => None
                    | Some contentFrames =>
                        Some (brokerSend b1 connId
                                (MethodFrame (channelNumber channel)
                                   (BasicReturn NO_CONSUMERS "No route"
                                      (pm_exchange pending)
                                      (pm_routingKey pending))
                                 :: contentFrames))
                    end
                end
              else Some b1
          | keys =>
              fold_left (enqueueOne message (isPersistent (pm_properties pending)))
                keys (Some b1)
          end
      end
  end.

Definition handleHeaderFrame (uuid : string) (now : Z) (b : Broker)
  (connId : string) (channelNumber : Z)
  (bodySize : Z) (properties : MessageProperties) : option Broker :=
  match lookupChannel b connId channelNumber with
  | None => Some b
  | Some (ref, channel) =>
      match pendingMessage channel with
      | None => Some b
      | Some pending =>
          let pending' :=
            mkPending (pm_exchange pending) (pm_routingKey pending)
              (pm_mandatory pending) (pm_immediate pending) properties
              bodySize (pm_bodyChunks pending) (pm_receivedSize pending) in
          let b1 := putChannelObj b ref (ch_with_pending channel (Some pending')) in
          if bodySize =? 0 then completeMessage uuid now b1 connId ref
          else Some b1
      end
  end.

Definition handleBodyFrame (uuid : string) (now : Z) (b : Broker)
  (connId : string) (channelNumber : Z) (payload : list Z) : option Broker :=
  match lookupChannel b connId channelNumber with
  | None => Some b
  | Some (ref, channel) =>
      match pendingMessage channel with
      | None => Some b
      | Some pending =>
          let received := pm_receivedSize pending + len payload in
          let pending' :=
            mkPending (pm_exchange pending) (pm_routingKey pending)
              (pm_mandatory pending) (pm_immediate pending)
              (pm_properties pending) (pm_bodySize pending)
              (pm_bodyChunks pending ++ [payload]) received in
          let b1 := putChannelObj b ref (ch_with_pending channel (Some pending')) in
          if pm_bodySize pending <=? received
          then completeMessage uuid now b1 connId ref
          else Some b1
      end
  end.

(** *** Cleanup ([cleanupChannel], [cleanupConnection]) *)

Definition releaseConsumer (b : Broker) (c : Consumer) : Broker :=
  match getQueue b (c_queueName c) with
  | Some queue => putQueue b (c_queueName c) (queueRemoveConsumer queue)
  | None => b
  end.

(** [Connection.closeChannel]. *)
Definition closeChannel (b : Broker) (connId : string) (channelNumber : Z) : Broker :=
  match getConnectionObj b connId with
  | None => b
  | Some connection =>
      match JsMap.get Z.eqb (conn_channels connection) channelNumber with
      | None => b
      | Some ref =>
          let b1 :=
            match getChannelObj b ref with
            | Some ch => putChannelObj b ref (closeChannelObj ch)
            | None => b
            end in
          putConnectionObj b1 connId
            (conn_with_channels connection
               (JsMap.delete Z.eqb (conn_channels connection) channelNumber))
      end
  end.

Definition cleanupChannel (b : Broker) (connId : string) (ref : nat) : Broker :=
  match getChannelObj b ref with
  | None => b
  | Some channel =>
      let '(removed, b1) := removeByChannel b ref in
      let b2 := fold_left releaseConsumer removed b1 in
      let b3 :=
        fold_left (requeueUnacked true) (getUnackedMessages channel) b2 in
      closeChannel b3 connId (channelNumber channel)
  end.

Definition dropExclusive (connId : string) (b : Broker)
  (entry : string * Queue) : Broker :=
  if option_string_eqb (exclusiveConnectionId (snd entry)) connId then
    removeByDestination
      (with_queues b (JsMap.delete String.eqb (queues b) (fst entry)))
      (fst entry)
  else b.

Definition closeOne (b : Broker) (ref : nat) : Broker :=
  match getChannelObj b ref with
  | Some ch => putChannelObj b ref (closeChannelObj ch)
  | None => b
  end.

(** [Connection.close]. *)
Definition closeConnection (b : Broker) (connId : string) : Broker :=
  match getConnectionObj b connId with
  | None => b
  | Some connection =>
      if isClosed (conn_state connection) then b
      else
        let b1 := fold_left closeOne (JsMap.values (conn_channels connection)) b in
        putConnectionObj b1 connId
          (conn_with_state (conn_with_channels connection []) conn_closed)
  end.

Definition cleanupConnection (b : Broker) (connId : string) : Broker :=
  match getConnectionObj b connId with
  | None => b
  | Some connection =>
      let b1 :=
        fold_left (fun acc ref => cleanupChannel acc connId ref)
          (JsMap.values (conn_channels connection)) b in
      let b2 := fold_left (dropExclusive connId) (queues b1) b1 in
      let b3 := with_connections b2 (JsMap.setDelete (connections b2) connId) in
      closeConnection b3 connId
  end.

(** *** Channel-class methods ([handleChannelMethod]) *)

Inductive ChannelMethod :=
| ChOpen
| ChFlow (active : bool)
| ChClose
| ChCloseOk.

Definition handleChannelMethod (b : Broker) (connId : string)
  (channelNumber : Z) (method : ChannelMethod) : Broker :=
  match getConnectionObj b connId with
  | None => b
  | Some connection =>
      match method with
      | ChOpen =>
          if JsMap.has Z.eqb (conn_channels connection) channelNumber then
            closeChannelWithError b connId channelNumber CHANNEL_ERROR
              "Channel already open"
          else if conn_channelMax connection <? channelNumber then
            (* [createChannel] throws; the data handler answers with
               [closeConnectionWithError] *)
            putConnectionObj b connId
              (conn_with_state
                 (send connection
                    (MethodFrame 0
                       (ConnectionClose INTERNAL_ERROR
                          ("Channel number " ++ decimal channelNumber
                           ++ " exceeds maximum "
                           ++ decimal (conn_channelMax connection)) 0 0)))
                 conn_closing)
          else
            let ref := List.length (channelHeap b) in
            let channel :=
              mkChannel channelNumber connId ch_open true 0 0 false 0 [] [] 0
                None in
            let b1 := putChannelObj b ref channel in
            brokerSend
              (putConnectionObj b1 connId
                 (conn_with_channels connection
                    (JsMap.set Z.eqb (conn_channels connection) channelNumber ref)))
              connId [MethodFrame channelNumber ChannelOpenOk]
      | ChFlow active =>
          match lookupChannel b connId channelNumber with
          | None => b
          | Some (ref, channel) =>
              brokerSend (putChannelObj b ref (ch_with_flow channel active))
                connId [MethodFrame channelNumber (ChannelFlowOk active)]
          end
      | ChClose =>
          let b1 :=
            match lookupChannel b connId channelNumber with
            | Some (ref, _) => cleanupChannel b connId ref
            | None => b
            end in
          brokerSend b1 connId [MethodFrame channelNumber ChannelCloseOk]
      | ChCloseOk =>
          match lookupChannel b connId channelNumber with
          | Some (ref, _) => cleanupChannel b connId ref
          | None => b
          end
      end
  end.

(** *** Queue.Declare ([handleQueueMethod]) *)

Definition bindingEq (x y : Topic.Binding) : bool :=
  String.eqb (Topic.source x) (Topic.source y)
  && String.eqb (Topic.destination x) (Topic.destination y)
  && String.eqb (Topic.routingKey x) (Topic.routingKey y).

Definition bindingKey (x : Topic.Binding) : string :=
  (Topic.source x ++ ":" ++ Topic.destination x ++ ":" ++ Topic.routingKey x)%string.

(** [BindingRegistry.add]: a binding whose key is present is not added. *)
Definition addBinding (b : Broker) (x : Topic.Binding) : Broker :=
  if existsb (fun y => String.eqb (bindingKey y) (bindingKey x)) (bindings b)
  then b
  else with_bindings b (bindings b ++ [x]).

Definition saveQueue (b : Broker) (name : string) : Broker :=
  with_store b
    (mkStore (messagesLog (store b))
       (JsMap.setAdd (queuesJson (store b)) name) (bindingsJson (store b))).

Definition saveBinding (b : Broker) (x : Topic.Binding) : Broker :=
  if existsb (bindingEq x) (bindingsJson (store b)) then b
  else
    with_store b
      (mkStore (messagesLog (store b)) (queuesJson (store b))
         (bindingsJson (store b) ++ [x])).

Definition handleQueueDeclare (uuid : string) (b : Broker) (connId : string)
  (channelNumber : Z) (queueArg : string)
  (passive durable exclusive autoDelete noWait : bool) : Broker :=
  match lookupChannel b connId channelNumber with
  | None => b
  | Some (ref, channel) =>
      if negb (ChannelState_eqb (ch_state channel) ch_open) then b
      else
        let queueName :=
          if String.eqb queueArg EmptyString then ("amq.gen-" ++ uuid)%string
          else queueArg in
        let declareOk (b' : Broker) : Broker :=
          if negb noWait then
            match getQueue b' queueName with
            | Some queue =>
                brokerSend b' connId
                  [MethodFrame channelNumber
                     (QueueDeclareOk queueName (getMessageCount queue)
                        (consumerCount queue))]
            | None => b'
            end
          else b' in
        match getQueue b queueName with
        | None =>
            if passive then
              closeChannelWithError b connId channelNumber NOT_FOUND
                (notFoundText queueName)
            else
              let queue :=
                mkQueue queueName durable exclusive autoDelete
                  (if exclusive then Some connId else None) [] 0 in
              let defaultBinding := Topic.mkBinding "" queueName queueName in
              let b1 := addBinding (putQueue b queueName queue) defaultBinding in
              let b2 :=
                if durable then saveBinding (saveQueue b1 queueName) defaultBinding
                else b1 in
              declareOk b2
        | Some existing =>
            if negb passive && negb (queueMatches existing durable exclusive) then
              closeChannelWithError b connId channelNumber PRECONDITION_FAILED
                "Queue declaration mismatch"
            else if negb (canAccess existing connId) then
              closeChannelWithError b connId channelNumber RESOURCE_LOCKED
                exclusiveText
            else declareOk b
        end
  end.

(** *** Observations used by the properties *)

(** A channel respects its prefetch limit: no limit is set, or the unacked
    map holds at most [prefetchCount] entries. *)
Definition prefetchOk (c : Channel) : bool :=
  (prefetchCount c <=? 0) || (unackedCount c <=? prefetchCount c).

Definition prefetchInv (b : Broker) : Prop :=
  Forall (fun e => prefetchOk (snd e) = true) (channelHeap b).

(** The unacked messages of a channel that came from queue [q], oldest
    delivery first. *)
Definition unackedFor (c : Channel) (q : string) : list Message :=
  map um_message
    (filter (fun u => String.eqb (um_queueName u) q) (getUnackedMessages c)).

(** Every entry of the unacked map is filed under its own delivery tag,
    as [trackUnacked] files it. *)
Definition tagsAgree (c : Channel) : Prop :=
  Forall (fun e => fst e = um_deliveryTag (snd e)) (unackedMessages c).


End Broker.

(* ================================================================== *)
(** ** Sessions

    Concrete runs of the handlers from a freshly started broker with two
    connections in state [open].  They are the inputs at which the
    properties below are evaluated. *)

Module Sessions.

Import Broker.
Local Open Scope string_scope.

Definition step := Broker -> option Broker.

Fixpoint run (steps : list step) (b : Broker) : option Broker :=
  match steps with
  | [] => Some b
  | s :: rest =>
      match s b with
      | Some b' => run rest b'
      | None => None
      end
  end.

Definition defaultExchanges : list (string * Exchange) :=
  [ ("", mkExchange "" direct true false false true);
    ("amq.direct", mkExchange "amq.direct" direct true false false true);
    ("amq.fanout", mkExchange "amq.fanout" fanout true false false true);
    ("amq.topic", mkExchange "amq.topic" topic true false false true);
    ("amq.headers", mkExchange "amq.headers" headersType true false false true) ].

Definition freshConnection (id : string) : Connection :=
  mkConnection id conn_open [] 2047 131072 60 false [].

Definition started : Broker :=
  mkBroker ["c1"; "c2"]
    [("c1", freshConnection "c1"); ("c2", freshConnection "c2")]
    [] defaultExchanges [] [] [] [] (mkStore [] [] []) [].

Definition channelOpen (conn : string) (n : Z) : step :=
  fun b => Some (handleChannelMethod b conn n ChOpen).

Definition channelFlow (conn : string) (n : Z) (active : bool) : step :=
  fun b => Some (handleChannelMethod b conn n (ChFlow active)).


Definition queueDeclare (conn : string) (n : Z) (queue : string)
  (exclusive : bool) : step :=
  fun b => Some (handleQueueDeclare "u0" b conn n queue false false exclusive
                   false false).

Definition basic (conn : string) (n : Z) (m : BasicMethod) : step :=
  fun b => handleBasicMethod b conn n m.

(** A publish to the default exchange: method, header and one body
    frame. *)
Definition publish (conn : string) (n : Z) (uuid routingKey : string)
  (mandatory : bool) (body : list Z) : list step :=
  [ basic conn n (Publish "" routingKey mandatory false);
    (fun b => handleHeaderFrame uuid 1000 b conn n (Codec.len body) emptyProperties);
    (fun b => handleBodyFrame uuid 1000 b conn n body) ].

Definition queueContents (b : Broker) (name : string) : option (list (list Z)) :=
  option_map (fun q => map msg_content (messages q)) (getQueue b name).

Definition unackedTags (b : Broker) (ref : nat) : option (list Z) :=
  option_map (fun c => JsMap.keys (unackedMessages c)) (getChannelObj b ref).

Definition framesTo (b : Broker) (conn : string) : list Frame :=
  match getConnectionObj b conn with
  | Some c => sent c
  | None => []
  end.

(** Prefetch 1, two messages waiting, then two Basic.Get with
    [noAck = false]. *)
Definition prefetchSetup : list step :=
  [ channelOpen "c1" 1; basic "c1" 1 (Qos 0 1 false);
    queueDeclare "c1" 1 "q" false ]
  ++ publish "c1" 1 "m1" "q" false [97]
  ++ publish "c1" 1 "m2" "q" false [98]
  ++ [ basic "c1" 1 (Get "q" false) ].

Definition afterFirstGet : option Broker := run prefetchSetup started.

(** Two messages published, the first fetched with Basic.Get and left
    unacked. *)
Definition recoverSetup : list step :=
  [ channelOpen "c1" 1; queueDeclare "c1" 1 "q" false ]
  ++ publish "c1" 1 "m1" "q" false [97]
  ++ publish "c1" 1 "m2" "q" false [98]
  ++ [ basic "c1" 1 (Get "q" false) ].

Definition beforeRecover : option Broker := run recoverSetup started.



Definition staleConsumer : Consumer := mkConsumer "t" "q" 0 false false false.

(** A consumer holds two unacked deliveries when its channel closes. *)
Definition twoUnackedSetup : list step :=
  [ channelOpen "c1" 1; queueDeclare "c1" 1 "q" false;
    basic "c1" 1 (Consume "q" "t" false false false false) ]
  ++ publish "c1" 1 "m1" "q" false [97]
  ++ publish "c1" 1 "m2" "q" false [98].

Definition twoUnacked : option Broker := run twoUnackedSetup started.

(** Connection [c1] owns an exclusive queue holding one message;
    connection [c2] opens a channel. *)
Definition exclusiveSetup : list step :=
  [ channelOpen "c1" 1; queueDeclare "c1" 1 "q" true ]
  ++ publish "c1" 1 "m1" "q" false [97]
  ++ [ channelOpen "c2" 1 ].

Definition exclusiveHeld : option Broker := run exclusiveSetup started.

(** A message arrives while the consumer's channel has flow switched
    off; flow is switched on again. *)
Definition flowSetup : list step :=
  [ channelOpen "c1" 1; queueDeclare "c1" 1 "q" false;
    basic "c1" 1 (Consume "q" "t" false false false false);
    channelFlow "c1" 1 false ]
  ++ publish "c1" 1 "m1" "q" false [97]
  ++ [ channelFlow "c1" 1 true ].

Definition afterFlowOn : option Broker := run flowSetup started.



(** Prefetch 1, a consumer, and two messages that arrived while flow was
    off. *)
Definition limitedSetup : list step :=
  [ channelOpen "c1" 1; basic "c1" 1 (Qos 0 1 false);
    queueDeclare "c1" 1 "q" false;
    basic "c1" 1 (Consume "q" "t" false false false false);
    channelFlow "c1" 1 false ]
  ++ publish "c1" 1 "m1" "q" false [97]
  ++ publish "c1" 1 "m2" "q" false [98]
  ++ [ channelFlow "c1" 1 true ].

Definition theState (o : option Broker) : Broker :=
  match o with Some b => b | None => started end.

Definition theChannel (b : Broker) (ref : nat) : Channel :=
  match getChannelObj b ref with
  | Some c => c
  | None => mkChannel 0 "" ch_closed false 0 0 false 0 [] [] 0 None
  end.

Definition theConnection (b : Broker) (id : string) : Connection :=
  match getConnectionObj b id with
  | Some c => c
  | None => freshConnection id
  end.

Definition theQueue (b : Broker) (name : string) : Queue :=
  match getQueue b name with
  | Some q => q
  | None => mkQueue name false false false None [] 0
  end.

Definition limitedState : Broker :=
  Eval vm_compute in theState (run limitedSetup started).

Definition recoverState : Broker :=
  Eval vm_compute in theState beforeRecover.

Definition flowOnState : Broker :=
  Eval vm_compute in theState afterFlowOn.



End Sessions.

(* ================================================================== *)
(** ** Frames on the wire *)

Module Wire.

Import Buf Codec.

Definition FRAME_END : Z := 206.
Definition FRAME_METHOD : Z := 1.
Definition FRAME_HEADER : Z := 2.
Definition FRAME_BODY : Z := 3.
Definition FRAME_HEARTBEAT : Z := 8.

Record AMQPFrame := mkFrame {
  fr_type : Z;
  fr_channel : Z;
  fr_payload : list Z
}.

Record MethodFrame := mkMethod {
  classId : Z;
  methodId : Z;
  args : list Z
}.

Record ContentHeader := mkHeader {
  h_classId : Z;
  h_weight : Z;
  h_bodySize : Z;
  h_propertyFlags : Z;
  h_properties : Broker.MessageProperties
}.

(** *** [FrameBuilder] *)

(** [buildFrame]: type, channel, payload size, payload, end marker. *)
Definition buildFrame (type channel : Z) (payload : list Z) : result (list Z) :=
  t <- lift (writeUIntBE 1 type) ;;
  c <- lift (writeUIntBE 2 channel) ;;
  s <- lift (writeUIntBE 4 (len payload)) ;;
  Ok (t ++ c ++ s ++ payload ++ [FRAME_END]).

Definition buildMethodFrame (channel classId methodId : Z) (argsBuffer : list Z)
  : result (list Z) :=
  c <- lift (writeUIntBE 2 classId) ;;
  m <- lift (writeUIntBE 2 methodId) ;;
  buildFrame FRAME_METHOD channel (c ++ m ++ argsBuffer).

Definition buildHeartbeatFrame : result (list Z) :=
  buildFrame FRAME_HEARTBEAT 0 [].

(** One [if (properties.x !== undefined) { flags |= FLAG;
    parts.push(encode(properties.x)) }] block of [encodeProperties]. *)
Definition part {A : Type} (flag : Z) (field : option A)
  (encode : A -> result (list Z)) (acc : Z * list Z) : result (Z * list Z) :=
  match field with
  | None => Ok acc
  | Some v => p <- encode v ;; Ok (Z.lor (fst acc) flag, snd acc ++ p)
  end.

(** The bit a field contributes to the property flags. *)
Definition flagOf {A : Type} (flag : Z) (field : option A) : Z :=
  match field with Some _ => flag | None => 0 end.

Definition encodeUInt8 (v : Z) : result (list Z) := lift (writeUIntBE 1 v).

(** [buf.writeBigUInt64BE(BigInt(properties.timestamp), 0)]; the timestamp
    is an integral number of seconds. *)
Definition encodeTimestamp (v : Z) : result (list Z) := lift (writeUIntBE 8 v).

Definition CONTENT_TYPE : Z := 32768.
Definition CONTENT_ENCODING : Z := 16384.
Definition HEADERS : Z := 8192.
Definition DELIVERY_MODE : Z := 4096.
Definition PRIORITY : Z := 2048.
Definition CORRELATION_ID : Z := 1024.
Definition REPLY_TO : Z := 512.
Definition EXPIRATION : Z := 256.
Definition MESSAGE_ID : Z := 128.
Definition TIMESTAMP : Z := 64.
Definition TYPE : Z := 32.
Definition USER_ID : Z := 16.
Definition APP_ID : Z := 8.
Definition CLUSTER_ID : Z := 4.

(** [encodeProperties]: the flags word and the concatenated parts. *)
Definition encodeProperties (properties : Broker.MessageProperties)
  : result (Z * list Z) :=
  a <- part CONTENT_TYPE (Broker.contentType properties) encodeShortString (0, []) ;;
  a <- part CONTENT_ENCODING (Broker.contentEncoding properties) encodeShortString a ;;
  a <- part HEADERS (Broker.headers properties) encodeFieldTable a ;;
  a <- part DELIVERY_MODE (Broker.deliveryMode properties) encodeUInt8 a ;;
  a <- part PRIORITY (Broker.priority properties) encodeUInt8 a ;;
  a <- part CORRELATION_ID (Broker.correlationId properties) encodeShortString a ;;
  a <- part REPLY_TO (Broker.replyTo properties) encodeShortString a ;;
  a <- part EXPIRATION (Broker.expiration properties) encodeShortString a ;;
  a <- part MESSAGE_ID (Broker.messageId properties) encodeShortString a ;;
  a <- part TIMESTAMP (Broker.prop_timestamp properties) encodeTimestamp a ;;
  a <- part TYPE (Broker.prop_type properties) encodeShortString a ;;
  a <- part USER_ID (Broker.userId properties) encodeShortString a ;;
  a <- part APP_ID (Broker.appId properties) encodeShortString a ;;
  part CLUSTER_ID (Broker.clusterId properties) encodeShortString a.

(** The payload [buildContentHeaderFrame] assembles. *)
Definition contentHeaderPayload (classId bodySize : Z)
  (properties : Broker.MessageProperties) : result (list Z) :=
  ' (flags, propertiesBuffer) <- encodeProperties properties ;;
  c <- lift (writeUIntBE 2 classId) ;;
  w <- lift (writeUIntBE 2 0) ;;
  b <- lift (writeUIntBE 8 bodySize) ;;
  f <- lift (writeUIntBE 2 flags) ;;
  Ok (c ++ w ++ b ++ f ++ propertiesBuffer).

Definition buildContentHeaderFrame (channel classId bodySize : Z)
  (properties : Broker.MessageProperties) : result (list Z) :=
  payload <- contentHeaderPayload classId bodySize properties ;;
  buildFrame FRAME_HEADER channel payload.

(** Method arguments. *)
Definition buildConnectionTune (channelMax frameMax heartbeat : Z) : result (list Z) :=
  c <- lift (writeUIntBE 2 channelMax) ;;
  f <- lift (writeUIntBE 4 frameMax) ;;
  h <- lift (writeUIntBE 2 heartbeat) ;;
  Ok (c ++ f ++ h).

Definition buildConnectionClose (replyCode : Z) (replyText : string)
  (classId methodId : Z) : result (list Z) :=
  r <- lift (writeUIntBE 2 replyCode) ;;
  textBuf <- encodeShortString replyText ;;
  c <- lift (writeUIntBE 2 classId) ;;
  m <- lift (writeUIntBE 2 methodId) ;;
  Ok (r ++ textBuf ++ c ++ m).

Definition buildChannelClose := buildConnectionClose.

(** *** [FrameParser] *)

Definition append (buffer data : Buffer) : Buffer := buffer ++ data.

Definition hasCompleteFrame (buffer : Buffer) : bool :=
  if len buffer <? 7 then false
  else
    match readUInt32BE buffer 3 with
    | Some size => 7 + size + 1 <=? len buffer
    | None => false
    end.

(** [parseFrame] returns the frame, or [null], and the buffer it leaves
    behind.  When it throws the buffer is as it was. *)
Definition parseFrame (buffer : Buffer) : result (option AMQPFrame * Buffer) :=
  if negb (hasCompleteFrame buffer) then Ok (None, buffer)
  else
    type <- lift (readUInt8 buffer 0) ;;
    channel <- lift (readUInt16BE buffer 1) ;;
    size <- lift (readUInt32BE buffer 3) ;;
    let payload := Broker.subarray buffer 7 (7 + size) in
    frameEnd <- lift (readUInt8 buffer (7 + Z.to_nat size)) ;;
    if negb (frameEnd =? FRAME_END) then Throw
    else Ok (Some (mkFrame type channel payload),
             skipn (8 + Z.to_nat size) buffer).

(** *** The frame loop of the data handler

    [while (frameParser.hasCompleteFrame()) { const frame =
    frameParser.parseFrame(); if (frame) await this.handleFrame(connection,
    frame) }], inside [try].  What [handleFrame] does to the broker is a
    parameter of the loop: the call returns, it throws, or it never
    returns, and each time it leaves a state behind. *)
Inductive Handled (State : Type) :=
| Returns (s : State)
| Throws (s : State)
| NeverReturns (s : State).

Arguments Returns {State} s.
Arguments Throws {State} s.
Arguments NeverReturns {State} s.

(** How the loop is left: its condition fails, an exception takes
    control to the [catch] block, or it is not left at all. *)
Inductive Ending := Drained | Caught | Stuck.

(** The frames handed to [handleFrame], in order, the state and the
    parser's buffer when the loop is left, and how it is left.  After
    [Caught] the [catch] block runs on that state. *)
Record Loop (State : Type) := mkLoop {
  handled : list AMQPFrame;
  stateLeft : State;
  bufferLeft : Buffer;
  ending : Ending
}.

Arguments mkLoop {State} handled stateLeft bufferLeft ending.
Arguments handled {State} l.
Arguments stateLeft {State} l.
Arguments bufferLeft {State} l.
Arguments ending {State} l.

Section FrameLoop.

Variable State : Type.
Variable handleFrame : State -> AMQPFrame -> Handled State.

(** Every frame takes at least eight bytes, so the length of the buffer
    is fuel enough for the loop itself; [None] stands for running out of
    it. *)
Fixpoint parseFrames (fuel : nat) (s : State) (buffer : Buffer)
  : option (Loop State) :=
  if hasCompleteFrame buffer then
    match fuel with
    | O => None
    | S fuel' =>
        match parseFrame buffer with
        | Ok (Some frame, rest) =>
            match handleFrame s frame with
            | Returns s' =>
                match parseFrames fuel' s' rest with
                | Some l =>
                    Some (mkLoop (frame :: handled l) (stateLeft l) (bufferLeft l)
                            (ending l))
                | None => None
                end
            | Throws s' => Some (mkLoop [frame] s' rest Caught)
            | NeverReturns s' => Some (mkLoop [frame] s' rest Stuck)
            end
        | Ok (None, rest) => parseFrames fuel' s rest
        | _ => Some (mkLoop [] s buffer Caught)
        end
    end
  else Some (mkLoop [] s buffer Drained).

(** One [data] event once the protocol header has been seen:
    [frameParser.append(data)], then the loop.  The event is taken as a
    whole: while a handler awaits the store, Node may start the next
    [data] event on the same parser, and that interleaving is not
    modelled. *)
Definition onData (s : State) (buffer data : Buffer) : option (Loop State) :=
  parseFrames (List.length (append buffer data)) s (append buffer data).

(** The state after [handleFrame] has returned for each of the frames
    in turn; [None] when one of the calls does not return. *)
Fixpoint handleEach (s : State) (frames : list AMQPFrame) : option State :=
  match frames with
  | [] => Some s
  | frame :: rest =>
      match handleFrame s frame with
      | Returns s' => handleEach s' rest
      | _ => None
      end
  end.

End FrameLoop.

Arguments parseFrames {State} handleFrame fuel s buffer.
Arguments onData {State} handleFrame s buffer data.
Arguments handleEach {State} handleFrame s frames.

(** Two handlers to run the loop with: one records the frames it is
    given, the other does the same but throws on a body frame. *)
Definition recordFrames (s : list AMQPFrame) (frame : AMQPFrame)
  : Handled (list AMQPFrame) :=
  Returns (s ++ [frame]).

Definition refuseBody (s : list AMQPFrame) (frame : AMQPFrame)
  : Handled (list AMQPFrame) :=
  if fr_type frame =? FRAME_BODY then Throws s else Returns (s ++ [frame]).

(** The elements of a [Buffer] are bytes. *)
Definition isByte (b : Z) : bool := (0 <=? b) && (b <? 256).

(** A buffer holds bytes. *)
Definition bytes (buffer : list Z) : Prop :=
  Forall (fun b => isByte b = true) buffer.

Definition parseMethodFrame (payload : Buffer) : result MethodFrame :=
  classId <- lift (readUInt16BE payload 0) ;;
  methodId <- lift (readUInt16BE payload 2) ;;
  Ok (mkMethod classId methodId (skipn 4 payload)).

(** [Number(bigint)] for a non-negative 64-bit value: the nearest
    binary64, ties to even. *)
Definition numberOfBigInt (v : Z) : Z :=
  let k := Z.log2 v in
  if k <? 53 then v
  else
    let sh := k - 52 in
    let q := v / 2 ^ sh in
    let r := v mod 2 ^ sh in
    let half := 2 ^ (sh - 1) in
    (if (half <? r) || ((r =? half) && Z.odd q) then q + 1 else q) * 2 ^ sh.

(** One [if (propertyFlags & FLAG) { ...; offset += bytesRead }] block of
    [parseContentHeader]. *)
Definition readPart {A : Type} (propertyFlags flag : Z)
  (read : nat -> result (A * nat)) (offset : nat) : result (option A * nat) :=
  if negb (Z.land propertyFlags flag =? 0) then
    ' (value, bytesRead) <- read offset ;;
    Ok (Some value, (offset + bytesRead)%nat)
  else Ok (None, offset).

Definition readOctet (payload : Buffer) (offset : nat) : result (Z * nat) :=
  v <- lift (readUInt8 payload offset) ;; Ok (v, 1%nat).

Definition readTimestamp (payload : Buffer) (offset : nat) : result (Z * nat) :=
  v <- lift (readBigUInt64BE payload offset) ;; Ok (numberOfBigInt v, 8%nat).

Section Parser.

Variable decimalNumber : Z -> Z -> number.

Definition parseContentHeader (fuel : nat) (payload : Buffer)
  : result ContentHeader :=
  classId <- lift (readUInt16BE payload 0) ;;
  weight <- lift (readUInt16BE payload 2) ;;
  bodySize <- lift (readBigUInt64BE payload 4) ;;
  propertyFlags <- lift (readUInt16BE payload 12) ;;
  if classId =? Broker.CLASS_BASIC then
    let str := readShortString payload in
    ' (contentType, o) <- readPart propertyFlags CONTENT_TYPE str 14 ;;
    ' (contentEncoding, o) <- readPart propertyFlags CONTENT_ENCODING str o ;;
    ' (headers, o) <-
        readPart propertyFlags HEADERS (readFieldTable decimalNumber fuel payload) o ;;
    ' (deliveryMode, o) <- readPart propertyFlags DELIVERY_MODE (readOctet payload) o ;;
    ' (priority, o) <- readPart propertyFlags PRIORITY (readOctet payload) o ;;
    ' (correlationId, o) <- readPart propertyFlags CORRELATION_ID str o ;;
    ' (replyTo, o) <- readPart propertyFlags REPLY_TO str o ;;
    ' (expiration, o) <- readPart propertyFlags EXPIRATION str o ;;
    ' (messageId, o) <- readPart propertyFlags MESSAGE_ID str o ;;
    ' (timestamp, o) <- readPart propertyFlags TIMESTAMP (readTimestamp payload) o ;;
    ' (type, o) <- readPart propertyFlags TYPE str o ;;
    ' (userId, o) <- readPart propertyFlags USER_ID str o ;;
    ' (appId, o) <- readPart propertyFlags APP_ID str o ;;
    ' (clusterId, _) <- readPart propertyFlags CLUSTER_ID str o ;;
    Ok (mkHeader classId weight bodySize propertyFlags
          (Broker.mkProperties contentType contentEncoding headers deliveryMode
             priority correlationId replyTo expiration messageId timestamp
             type userId appId clusterId))
  else
    Ok (mkHeader classId weight bodySize propertyFlags Broker.emptyProperties).

End Parser.

(** [parseConnectionClose] and [parseChannelClose] read the same layout. *)
Record CloseArgs := mkClose {
  replyCode : Z;
  replyText : string;
  cl_classId : Z;
  cl_methodId : Z
}.

Definition parseConnectionClose (args : Buffer) : result CloseArgs :=
  replyCode <- lift (readUInt16BE args 0) ;;
  ' (replyText, bytesRead) <- readShortString args 2 ;;
  classId <- lift (readUInt16BE args (2 + bytesRead)) ;;
  methodId <- lift (readUInt16BE args (2 + bytesRead + 2)) ;;
  Ok (mkClose replyCode replyText classId methodId).

Definition parseChannelClose := parseConnectionClose.

(** What survives the content header: the headers table as for any field
    table, and a timestamp that a binary64 holds exactly. *)
Definition propertiesSurvive (p : Broker.MessageProperties) : bool :=
  match Broker.headers p with
  | Some t => survivesTable t
  | None => true
  end
  && match Broker.prop_timestamp p with
     | Some t => t <? 2 ^ 53
     | None => true
     end.

(** A content header with a handful of properties set, and the frame
    built for it on channel 1 for a body of five bytes. *)
Definition sampleProperties : Broker.MessageProperties :=
  Broker.mkProperties (Some "text/plain"%string) None
    (Some [("k"%string, FString "v")]) (Some 2) None None None None
    (Some "id-1"%string) (Some 1700000000) None None (Some "app"%string) None.

Definition sampleHeaderFrame : list Z :=
  Eval vm_compute in
    match buildContentHeaderFrame 1 Broker.CLASS_BASIC 5 sampleProperties with
    | Ok bs => bs
    | _ => []
    end.

End Wire.

(* ================================================================== *)
(** ** Calls that come to an end *)

Module Outcome.

Import Codec.

(** Did the call come to an end, by returning or by throwing? *)
Definition returns {A : Type} (r : result A) : bool :=
  match r with
  | OutOfFuel => false
  | _ => true
  end.

End Outcome.

(* ================================================================== *)
(** ** PLAIN authentication *)

Module Auth.

Local Open Scope string_scope.

Definition NUL : ascii := "000"%char.

(** [String.prototype.split(sep)] for a separator of one character. *)
Fixpoint split (sep : ascii) (s : string) : list string :=
  match s with
  | EmptyString => [EmptyString]
  | String c rest =>
      if Ascii.eqb c sep then EmptyString :: split sep rest
      else match split sep rest with
           | [] => [String c EmptyString]
           | w :: ws => String c w :: ws
           end
  end.

Record Credentials := mkCredentials {
  username : string;
  password : string
}.

(** [s || fallback]: the empty string is falsy. *)
Definition orElse (s fallback : string) : string :=
  match s with
  | EmptyString => fallback
  | _ => s
  end.

(** [validatePlainAuth]; [response] is [response.toString('utf8')]. *)
Definition validatePlainAuth (response : string) : option Credentials :=
  let parts := split NUL response in
  if (3 <=? List.length parts)%nat then
    Some (mkCredentials (orElse (nth 1 parts EmptyString) "guest")
            (orElse (nth 2 parts EmptyString) "guest"))
  else None.

(** The PLAIN branch of the Start-Ok handler:
    [authValid = creds !== null]. *)
Definition authValid (response : string) : bool :=
  match validatePlainAuth response with
  | Some _ => true
  | None => false
  end.

(** How many NUL characters a string holds. *)
Fixpoint nuls (s : string) : nat :=
  match s with
  | EmptyString => O
  | String c rest => ((if Ascii.eqb c NUL then 1 else 0) + nuls rest)%nat
  end.

End Auth.

(* ================================================================== *)
(** ** What a topic pattern means *)

Module TopicWords.

Import Topic.
Local Open Scope string_scope.

(** The meaning the header of [topic-exchange.ts] gives to the two
    wildcards, on word lists: [*] stands for exactly one word and [#] for
    zero or more words; any other pattern word stands for itself.  A word
    is whatever [split('.')] returns, the empty word included. *)
Inductive Matches : list string -> list string -> Prop :=
| MatchesEnd : Matches [] []
| MatchesHashNone (ps rs : list string) :
    Matches ps rs -> Matches ("#" :: ps) rs
| MatchesHashWord (ps : list string) (r : string) (rs : list string) :
    Matches ("#" :: ps) rs -> Matches ("#" :: ps) (r :: rs)
| MatchesStar (ps : list string) (r : string) (rs : list string) :
    Matches ps rs -> Matches ("*" :: ps) (r :: rs)
| MatchesWord (p : string) (ps rs : list string) :
    isHash p = false -> isStar p = false ->
    Matches ps rs -> Matches (p :: ps) (p :: rs).

(** A pattern without wildcards. *)
Definition literal (pattern : string) : bool :=
  forallb (fun w => negb (isHash w) && negb (isStar w)) (split pattern).

End TopicWords.

(* ================================================================== *)
(** ** The broker as a transition system *)

Module Events.

Import Broker.

(** The [QUEUE_METHOD.DELETE] case of [handleQueueMethod].  The Delete-Ok
    frame is not among the frames of [Method]; the second component is
    the message count it carries when it is sent. *)
Definition handleQueueDelete (b : Broker) (connId : string) (channelNumber : Z)
  (queueName : string) (ifUnused ifEmpty noWait : bool) : Broker * option Z :=
  match lookupChannel b connId channelNumber with
  | None => (b, None)
  | Some (ref, channel) =>
      if negb (ChannelState_eqb (ch_state channel) ch_open) then (b, None)
      else
        match getQueue b queueName with
        | None => (b, if negb noWait then Some 0 else None)
        | Some queue =>
            if ifUnused && (0 <? consumerCount queue) then
              (closeChannelWithError b connId channelNumber PRECONDITION_FAILED
                 "Queue has consumers"%string, None)
            else if ifEmpty && (0 <? getMessageCount queue) then
              (closeChannelWithError b connId channelNumber PRECONDITION_FAILED
                 "Queue is not empty"%string, None)
            else
              let messageCount := getMessageCount queue in
              let b1 := with_queues b (JsMap.delete String.eqb (queues b) queueName) in
              let b2 := removeByDestination b1 queueName in
              let b3 :=
                fold_left (fun acc c => snd (registryRemove acc (consumerTag c)))
                  (getByQueue b2 queueName) b2 in
              (* [store.deleteQueue]: the queue leaves [queues.json]; the
                 message log is not written to *)
              let b4 :=
                with_store b3
                  (mkStore (messagesLog (store b3))
                     (JsMap.setDelete (queuesJson (store b3)) queueName)
                     (bindingsJson (store b3))) in
              (b4, if negb noWait then Some messageCount else None)
        end
  end.

(** What the broker reacts to: a frame that [handleFrame] routes to one
    of the handlers above, the oldest pending [setImmediate] callback, or
    the socket of a connection closing.  [uuid] and [now] are the values
    [randomUUID()] and [Date.now()] return while the event is handled. *)
Inductive Event :=
| ChannelFrame (connId : string) (channelNumber : Z) (method : ChannelMethod)
| QueueDeclareFrame (uuid connId : string) (channelNumber : Z) (queue : string)
    (passive durable exclusive autoDelete noWait : bool)
| BasicFrame (connId : string) (channelNumber : Z) (method : BasicMethod)
| HeaderFrame (uuid : string) (now : Z) (connId : string) (channelNumber : Z)
    (bodySize : Z) (properties : MessageProperties)
| BodyFrame (uuid : string) (now : Z) (connId : string) (channelNumber : Z)
    (payload : list Z)
| QueueDeleteFrame (connId : string) (channelNumber : Z) (queue : string)
    (ifUnused ifEmpty noWait : bool)
| Immediate
| SocketClose (connId : string).

Definition handle (b : Broker) (e : Event) : option Broker :=
  match e with
  | ChannelFrame connId n method => Some (handleChannelMethod b connId n method)
  | QueueDeclareFrame uuid connId n queue passive durable exclusive autoDelete
      noWait =>
      Some (handleQueueDeclare uuid b connId n queue passive durable exclusive
              autoDelete noWait)
  | BasicFrame connId n method => handleBasicMethod b connId n method
  | HeaderFrame uuid now connId n bodySize properties =>
      handleHeaderFrame uuid now b connId n bodySize properties
  | BodyFrame uuid now connId n payload =>
      handleBodyFrame uuid now b connId n payload
  | QueueDeleteFrame connId n queue ifUnused ifEmpty noWait =>
      Some (fst (handleQueueDelete b connId n queue ifUnused ifEmpty noWait))
  | Immediate => runImmediate b
  | SocketClose connId => Some (cleanupConnection b connId)
  end.

Fixpoint handleAll (b : Broker) (es : list Event) : option Broker :=
  match es with
  | [] => Some b
  | e :: rest =>
      match handle b e with
      | Some b' => handleAll b' rest
      | None => None
      end
  end.

(** The delivery tags of a channel are in order: every unacknowledged
    delivery is filed under its own tag, no tag is above the channel's
    counter, and no tag occurs twice. *)
Definition tagsInOrder (c : Channel) : Prop :=
  tagsAgree c
  /\ Forall (fun e => fst e <= deliveryTagCounter c) (unackedMessages c)
  /\ NoDup (JsMap.keys (unackedMessages c)).

Definition allTagsInOrder (b : Broker) : Prop :=
  Forall (fun e => tagsInOrder (snd e)) (channelHeap b).

(** The consumer map is keyed by consumer tag. *)
Definition keyedByTag (b : Broker) : Prop :=
  Forall (fun e => fst e = consumerTag (snd e)) (consumers b)
  /\ NoDup (JsMap.keys (consumers b)).

(** The three tables are [Map]s: no key occurs twice, and a consumer
    sits under its own tag. *)
Definition tablesKeyed (b : Broker) : Prop :=
  keyedByTag b
  /\ NoDup (JsMap.keys (queues b))
  /\ NoDup (JsMap.keys (queueConsumers b)).

(** Is the consumer on the channel object [ref]? *)
Definition onChannel (ref : nat) (c : Consumer) : bool := Nat.eqb (c_channel c) ref.

(** Is the queue the exclusive queue of connection [connId]? *)
Definition ownedBy (connId : string) (q : Queue) : bool :=
  option_string_eqb (exclusiveConnectionId q) connId.

(** The queue names with the owner of each queue. *)
Definition queueOwners (b : Broker) : list (string * option string) :=
  map (fun e => (fst e, exclusiveConnectionId (snd e))) (queues b).

(** A set of the queue index part of the set it was, for every queue. *)
Definition setsShrink (qc qc' : list (string * list string)) : Prop :=
  NoDup (JsMap.keys qc')
  /\ forall q s', JsMap.get String.eqb qc' q = Some s' ->
                  exists s, JsMap.get String.eqb qc q = Some s /\ incl s' s.

(** *** Sample runs *)

(** A consumer receives two messages and sends the first back; it is
    delivered again under a new tag, and a Basic.Get finds the queue
    empty. *)
Definition sampleEvents : list Event :=
  [ ChannelFrame "c1" 1 ChOpen;
    QueueDeclareFrame "u0" "c1" 1 "q" false false false false false;
    BasicFrame "c1" 1 (Consume "q" "t" false false false false);
    BasicFrame "c1" 1 (Publish "" "q" false false);
    HeaderFrame "m1" 1000 "c1" 1 1 emptyProperties;
    BodyFrame "m1" 1000 "c1" 1 [97];
    BasicFrame "c1" 1 (Publish "" "q" false false);
    HeaderFrame "m2" 1000 "c1" 1 1 emptyProperties;
    BodyFrame "m2" 1000 "c1" 1 [98];
    Immediate;
    BasicFrame "c1" 1 (Nack 1 false true);
    Immediate;
    BasicFrame "c1" 1 (Get "q" false) ]%string.

Definition sampleFinal : Broker :=
  Eval vm_compute in
    match handleAll Sessions.started sampleEvents with
    | Some b => b
    | None => Sessions.started
    end.

(** [Sessions.limitedState] after the delivery of the first message. *)
Definition deliveredState : Broker :=
  Eval vm_compute in
    Sessions.theState
      (deliverToConsumer Sessions.limitedState Sessions.staleConsumer).

(** The same state after a second Basic.Consume under the tag that is in
    use. *)
Definition reconsumedState : Broker :=
  Eval vm_compute in
    Sessions.theState
      (handleBasicMethod Sessions.limitedState "c1" 1
         (Consume "q" "t" true false false false)).

Definition exclusiveState : Broker :=
  Eval vm_compute in Sessions.theState Sessions.exclusiveHeld.

(** A publish to queue [q] through the default exchange, all of its
    body received. *)
Definition publishPending : PendingMessage :=
  mkPending "" "q" false false emptyProperties 1 [[104]] 1.

Definition publishState : Broker :=
  Eval vm_compute in
    match Sessions.run [ Sessions.channelOpen "c1" 1;
                         Sessions.queueDeclare "c1" 1 "q" false ]
            Sessions.started with
    | Some b =>
        match getChannelObj b 0 with
        | Some channel =>
            putChannelObj b 0 (ch_with_pending channel (Some publishPending))
        | None => b
        end
    | None => Sessions.started
    end.

End Events.

(* ================================================================== *)
(** ** The message store *)

Module FileStore.

Import Broker.

(** [messagesByQueue]: for every queue name a map from message id to
    message, both in insertion order. *)
Definition Index := list (string * list (string * Message)).

(** The store as far as messages go: the in-memory index and the lines
    of [messages.log], oldest first.  The store has been initialized, so
    the log is open and [appendLog] does not throw. *)
Record Store := mkFileStore {
  messagesByQueue : Index;
  logFile : list LogEntry
}.

Definition queueMessages (index : Index) (queueName : string)
  : list (string * Message) :=
  match JsMap.get String.eqb index queueName with
  | Some qm => qm
  | None => []
  end.

Definition saveMessage (s : Store) (queueName : string) (m : Message) : Store :=
  mkFileStore
    (JsMap.set String.eqb (messagesByQueue s) queueName
       (JsMap.set String.eqb (queueMessages (messagesByQueue s) queueName)
          (msg_id m) m))
    (logFile s ++ [LogMessage queueName m]).

Definition deleteMessage (s : Store) (queueName messageId : string) : Store :=
  mkFileStore
    match JsMap.get String.eqb (messagesByQueue s) queueName with
    | Some qm =>
        JsMap.set String.eqb (messagesByQueue s) queueName
          (JsMap.delete String.eqb qm messageId)
    | None => messagesByQueue s
    end
    (logFile s ++ [LogDelete queueName messageId]).

Definition getMessages (s : Store) (queueName : string) : list Message :=
  JsMap.values (queueMessages (messagesByQueue s) queueName).

Definition purgeQueue (s : Store) (queueName : string) : Z * Store :=
  match JsMap.get String.eqb (messagesByQueue s) queueName with
  | None => (0, s)
  | Some qm =>
      (Z.of_nat (List.length qm),
       mkFileStore
         (JsMap.set String.eqb (messagesByQueue s) queueName [])
         (logFile s ++ map (LogDelete queueName) (JsMap.keys qm)))
  end.

(** [deleteQueue], the part that concerns messages: the queue's map is
    dropped from the index; nothing is appended to the log. *)
Definition deleteQueue (s : Store) (queueName : string) : Store :=
  mkFileStore (JsMap.delete String.eqb (messagesByQueue s) queueName) (logFile s).

(** [compact]: the log is rewritten from the index. *)
Definition compact (s : Store) : Store :=
  mkFileStore (messagesByQueue s)
    (flat_map (fun e => map (LogMessage (fst e)) (JsMap.values (snd e)))
       (messagesByQueue s)).

(** The calls that write to the log. *)
Inductive StoreCall :=
| SaveMessage (queueName : string) (m : Message)
| DeleteMessage (queueName messageId : string)
| PurgeQueue (queueName : string).

Definition call (s : Store) (c : StoreCall) : Store :=
  match c with
  | SaveMessage q m => saveMessage s q m
  | DeleteMessage q id => deleteMessage s q id
  | PurgeQueue q => snd (purgeQueue s q)
  end.

Section Loader.

(** What [loadMessages] makes of the line that [saveMessage] wrote for a
    message: the line goes through [JSON.stringify], base64 and the MD5
    checksum on the way out and back through them and
    [deserializeMessage] on the way in.  [readBack m] is the message
    that arrives, or [None] when the line is skipped. *)
Variable readBack : Message -> option Message.

Definition loadEntry (index : Index) (entry : LogEntry) : Index :=
  match entry with
  | LogMessage queueName m =>
      match readBack m with
      | Some message =>
          JsMap.set String.eqb index queueName
            (JsMap.set String.eqb (queueMessages index queueName)
               (msg_id message) message)
      | None => index
      end
  | LogDelete queueName messageId =>
      match JsMap.get String.eqb index queueName with
      | Some qm =>
          JsMap.set String.eqb index queueName
            (JsMap.delete String.eqb qm messageId)
      | None => index
      end
  end.

(** [loadMessages] on a fresh store. *)
Definition loadMessages (log : list LogEntry) : Index :=
  fold_left loadEntry log [].

(** The messages a call hands to the log come back as they are. *)
Definition readsBack (c : StoreCall) : Prop :=
  match c with
  | SaveMessage _ m => readBack m = Some m
  | _ => True
  end.

End Loader.

(** The index of a store that was filled through [saveMessage]: queue
    names and message ids are the keys of [Map]s, and every message sits
    under its own id. *)
Definition wellKeyed (index : Index) : Prop :=
  NoDup (JsMap.keys index)
  /\ Forall (fun e => NoDup (JsMap.keys (snd e))
                      /\ Forall (fun x => fst x = msg_id (snd x)) (snd e)) index.

(** A queue of the index that holds a message. *)
Definition nonEmpty (e : string * list (string * Message)) : bool :=
  match snd e with [] => false | _ => true end.

(** A message of one byte for queue [q]. *)
Definition sampleMessage (id : string) (byte : Z) : Message :=
  mkMessage id "" "q" false false emptyProperties [byte] 1000.

Definition sampleCalls : list StoreCall :=
  [ SaveMessage "q" (sampleMessage "m1" 97);
    SaveMessage "q" (sampleMessage "m2" 98);
    DeleteMessage "q" "m1";
    SaveMessage "r" (sampleMessage "m3" 99);
    PurgeQueue "r" ]%string.

Definition sampleStore : Store :=
  Eval vm_compute in fold_left call sampleCalls (mkFileStore [] []).

End FileStore.

(* ================================================================== *)
(** * Properties *)

(** ** Topic matcher *)

Module TopicSpec.

Import Topic.
Local Open Scope string_scope.

Lemma split_not_nil (s : string) : split s <> [].
Proof.
  induction s as [|c s IH]; simpl; [discriminate|].
  destruct (Ascii.eqb c "."); [discriminate|].
  destruct (split s); discriminate.
Qed.

Lemma split_dot_free (w : string) : noDot w = true -> split w = [w].
Proof.
  induction w as [|c w IH]; simpl; intros H; [reflexivity|].
  apply andb_true_iff in H as [Hc Hw].
  apply negb_true_iff in Hc. rewrite Hc, (IH Hw). reflexivity.
Qed.

Lemma split_app_dot (w rest : string) :
  noDot w = true -> split (w ++ String "."%char rest) = w :: split rest.
Proof.
  induction w as [|c w IH]; simpl; intros H; [reflexivity|].
  apply andb_true_iff in H as [Hc Hw].
  apply negb_true_iff in Hc. rewrite Hc, (IH Hw). reflexivity.
Qed.

(** Joining a non-empty list of dot-free words and splitting it again
    gives the words back: the recursion of [matchesPattern] through
    [slice(..).join('.')] is the recursion of [matchWords]. *)
Lemma split_join (ws : list string) :
  ws <> [] -> Forall (fun w => noDot w = true) ws -> split (join ws) = ws.
Proof.
  induction ws as [|w ws IH]; intros Hne Hall; [congruence|].
  inversion Hall as [|? ? Hw Hws]; subst.
  destruct ws as [|w' ws'].
  - simpl. apply split_dot_free; assumption.
  - change (join (w :: w' :: ws'))
      with (w ++ String "."%char (join (w' :: ws'))).
    rewrite split_app_dot by assumption.
    rewrite IH; [reflexivity|discriminate|assumption].
Qed.

(** The pattern [#] alone matches every routing key, the empty one
    included. *)
Lemma hash_matches_every_key (rk : string) : matchesPattern rk "#" = true.
Proof. reflexivity. Qed.

Lemma matchWords_all_hash (ps : list string) (r : string) :
  ps <> [] -> forallb isHash ps = true -> matchWords ps [r] = true.
Proof.
  induction ps as [|p ps IH]; intros Hne Hall; [congruence|].
  simpl in Hall. apply andb_true_iff in Hall as [Hp Hps].
  destruct ps as [|next ps'].
  - simpl. rewrite Hp. reflexivity.
  - assert (Hrec : matchWords (next :: ps') [r] = true)
      by (apply IH; [discriminate | assumption]).
    assert (Hnext : isHash next = true)
      by (simpl in Hps; apply andb_true_iff in Hps; tauto).
    cbn [matchWords]. rewrite Hp.
    cbn [matchWords] in Hrec. rewrite Hrec, Hnext.
    rewrite orb_true_r. reflexivity.
Qed.

Lemma matchWords_hashes (n : nat) (r : string) :
  matchWords (repeat "#" (S n)) [r] = true.
Proof.
  apply matchWords_all_hash; [discriminate|].
  apply forallb_forall. intros w Hw. apply repeat_spec in Hw. subst. reflexivity.
Qed.

(** The empty key matches the empty pattern and every repetition of
    [#]. *)
Lemma empty_key_matches_hashes (n : nat) :
  matchesPattern "" (join (repeat "#" (S n))) = true.
Proof.
  unfold matchesPattern.
  rewrite split_join.
  - apply matchWords_hashes.
  - discriminate.
  - apply Forall_forall. intros w Hw. apply repeat_spec in Hw. subst. reflexivity.
Qed.

Lemma empty_key_matches_empty_pattern : matchesPattern "" "" = true.
Proof. reflexivity. Qed.

(** C6.  The empty routing key matches the pattern [*]: the key splits
    into one empty word and [*] consumes it.  The claim says it does not
    match, and so does the regular expression built for the same pattern
    in the same file, whose [*] stands for a non-empty word. *)
Theorem empty_key_matches_star :
  matchesPattern "" "*" = true /\ regexStar "" = false.
Proof. split; reflexivity. Qed.

(** More patterns outside the claim's list that the empty key matches. *)
Example empty_key_matches_hash_star : matchesPattern "" "#.*" = true.
Proof. reflexivity. Qed.

Example empty_key_matches_star_hash : matchesPattern "" "*.#" = true.
Proof. reflexivity. Qed.

Example topic_examples :
  matchesPattern "stock.nasdaq" "stock.*" = true
  /\ matchesPattern "weather.usa" "stock.*" = false
  /\ matchesPattern "stock" "stock.#" = true
  /\ matchesPattern "stock.nyse.ibm" "#.ibm" = true
  /\ matchesPattern "a.b" "*" = false.
Proof. repeat split; reflexivity. Qed.

End TopicSpec.

(** ** Tune-Ok negotiation *)

Module TuneSpec.

Import Tune.

Lemma min_or (client server : Z) :
  Z.min (js_or client server) server = spec_negotiate client server.
Proof.
  unfold js_or, spec_negotiate.
  destruct (client =? 0); [apply Z.min_id | reflexivity].
Qed.

(** C5, as the code has it.  [channelMax] and [frameMax] follow the
    rule of the specification: the server value when the client sends
    zero, the smaller of the two otherwise.  The heartbeat is the plain
    minimum of the two values. *)
Theorem tune_ok_negotiation (options : BrokerOptions) (args : ConnectionTuneOkArgs) :
  let n := handleTuneOk options args in
  channelMax n = spec_negotiate (channelMax args) (opt_channelMax options)
  /\ frameMax n = spec_negotiate (frameMax args) (opt_frameMax options)
  /\ heartbeat n = Z.min (heartbeat args) (opt_heartbeat options).
Proof.
  simpl. repeat split; apply min_or.
Qed.

(** A client heartbeat of zero against a server that offers a heartbeat
    negotiates zero, and then no heartbeat timer is armed. *)
Lemma zero_heartbeat_disables (options : BrokerOptions) (args : ConnectionTuneOkArgs) :
  heartbeat args = 0 -> 0 <= opt_heartbeat options ->
  heartbeat (handleTuneOk options args) = 0
  /\ heartbeatTimerArmed (handleTuneOk options args) = false.
Proof.
  intros H0 Hs. unfold heartbeatTimerArmed. simpl. rewrite H0.
  rewrite Z.min_l by assumption. split; reflexivity.
Qed.

(** C5 as stated fails: with the default server heartbeat of 60 a client
    heartbeat of 0 negotiates 0, not the server's 60. *)
Lemma heartbeat_zero_not_server_value :
  heartbeat (handleTuneOk (mkOptions 2047 131072 60) (mkTuneOk 0 0 0))
  <> spec_negotiate 0 60.
Proof. vm_compute. discriminate. Qed.

Example tune_ok_parse :
  option_map (handleTuneOk (mkOptions 2047 131072 60))
    (parseConnectionTuneOk [0; 0; 0; 0; 16; 0; 0; 0])
  = Some (mkTuneOk 2047 4096 0).
Proof. reflexivity. Qed.

End TuneSpec.

(** ** Buffer primitives *)

Module BufFacts.
Import Buf.

Lemma be_bytes_length (n : nat) (v : Z) : List.length (be_bytes n v) = n.
Proof. induction n as [|n IH]; simpl; [reflexivity | rewrite IH; reflexivity]. Qed.

Lemma fold_be (bs : list Z) (acc : Z) :
  fold_left (fun a b => a * 256 + b) bs acc
  = acc * 256 ^ Z.of_nat (List.length bs) + be_value bs.
Proof.
  unfold be_value. revert acc.
  induction bs as [|b bs IH]; intros acc.
  - simpl. lia.
  - cbn [fold_left List.length]. rewrite IH. rewrite (IH (0 * 256 + b)).
    rewrite Nat2Z.inj_succ, Z.pow_succ_r by lia. lia.
Qed.

Lemma be_value_cons (b : Z) (bs : list Z) :
  be_value (b :: bs) = b * 256 ^ Z.of_nat (List.length bs) + be_value bs.
Proof. unfold be_value at 1. cbn [fold_left]. rewrite fold_be. lia. Qed.

Lemma be_value_bytes_mod (n : nat) (v : Z) :
  be_value (be_bytes n v) = v mod 256 ^ Z.of_nat n.
Proof.
  induction n as [|n IH].
  - simpl. rewrite Z.mod_1_r. reflexivity.
  - cbn [be_bytes]. rewrite be_value_cons, be_bytes_length, IH.
    rewrite Nat2Z.inj_succ, Z.pow_succ_r by lia.
    assert (Hpos : 0 < 256 ^ Z.of_nat n) by (apply Z.pow_pos_nonneg; lia).
    rewrite (Z.mul_comm 256 (256 ^ Z.of_nat n)).
    rewrite Z.rem_mul_r by lia. lia.
Qed.

Lemma be_value_bytes (n : nat) (v : Z) :
  0 <= v < 256 ^ Z.of_nat n -> be_value (be_bytes n v) = v.
Proof. intros H. rewrite be_value_bytes_mod. apply Z.mod_small. exact H. Qed.

(** The buffer holds [x] at offset [off]. *)
Lemma slice_at (buf : Buffer) (off : nat) (x rest : list Z) :
  skipn off buf = x ++ rest -> slice buf off (List.length x) = x.
Proof.
  intros H. unfold slice. rewrite H.
  rewrite firstn_app, firstn_all, Nat.sub_diag. simpl. apply app_nil_r.
Qed.

Lemma skipn_at (buf : Buffer) (off : nat) (x rest : list Z) :
  skipn off buf = x ++ rest -> skipn (off + List.length x) buf = rest.
Proof.
  intros H. rewrite Nat.add_comm, <- skipn_skipn, H.
  rewrite skipn_app, skipn_all, Nat.sub_diag. reflexivity.
Qed.

Lemma readUIntBE_at (n : nat) (buf : Buffer) (off : nat) (v : Z) (rest : list Z) :
  skipn off buf = be_bytes n v ++ rest ->
  0 <= v < 256 ^ Z.of_nat n ->
  readUIntBE n buf off = Some v.
Proof.
  intros H Hv. unfold readUIntBE.
  pose proof (slice_at buf off _ _ H) as Hs. rewrite be_bytes_length in Hs.
  rewrite Hs, be_bytes_length, Nat.eqb_refl, be_value_bytes by exact Hv.
  reflexivity.
Qed.

Lemma writeUIntBE_inv (n : nat) (v : Z) (bs : list Z) :
  writeUIntBE n v = Some bs ->
  bs = be_bytes n v /\ 0 <= v < 256 ^ Z.of_nat n.
Proof.
  unfold writeUIntBE.
  destruct ((0 <=? v) && (v <? 256 ^ Z.of_nat n)) eqn:E; [|discriminate].
  intros [= <-]. apply andb_true_iff in E as [H1 H2].
  apply Z.leb_le in H1. apply Z.ltb_lt in H2. auto.
Qed.

Lemma read_written_uint (n : nat) (buf : Buffer) (off : nat) (v : Z)
  (bs rest : list Z) :
  writeUIntBE n v = Some bs -> skipn off buf = bs ++ rest ->
  readUIntBE n buf off = Some v /\ List.length bs = n.
Proof.
  intros Hw Hat. apply writeUIntBE_inv in Hw as [-> Hv].
  split; [eapply readUIntBE_at; eassumption | apply be_bytes_length].
Qed.

Lemma pow256_even (n : nat) :
  256 ^ Z.of_nat (S n) = 2 * (256 ^ Z.of_nat (S n) / 2)
  /\ 0 < 256 ^ Z.of_nat (S n) / 2.
Proof.
  rewrite Nat2Z.inj_succ, Z.pow_succ_r by lia.
  assert (Hpos : 0 < 256 ^ Z.of_nat n) by (apply Z.pow_pos_nonneg; lia).
  replace (256 * 256 ^ Z.of_nat n) with ((128 * 256 ^ Z.of_nat n) * 2) by lia.
  rewrite Z.div_mul by lia. lia.
Qed.

Lemma read_written_int (n : nat) (buf : Buffer) (off : nat) (v : Z)
  (bs rest : list Z) :
  writeIntBE (S n) v = Some bs -> skipn off buf = bs ++ rest ->
  readIntBE (S n) buf off = Some v /\ List.length bs = S n.
Proof.
  unfold writeIntBE, readIntBE. intros Hw Hat.
  destruct (pow256_even n) as [Heven Hhalf].
  set (M := 256 ^ Z.of_nat (S n)) in *.
  destruct ((- (M / 2) <=? v) && (v <? M / 2)) eqn:E; [|discriminate].
  assert (Hbs : bs = be_bytes (S n) (v mod M)) by congruence.
  clear Hw. subst bs. apply andb_true_iff in E as [H1 H2].
  apply Z.leb_le in H1. apply Z.ltb_lt in H2.
  assert (Hmod : 0 <= v mod M < M) by (apply Z.mod_pos_bound; lia).
  rewrite (readUIntBE_at (S n) _ _ _ _ Hat Hmod).
  split; [|apply be_bytes_length]. f_equal.
  destruct (Z.neg_nonneg_cases v) as [Hneg|Hpos].
  - assert (Hm : v mod M = v + M).
    { symmetry. apply Z.mod_unique with (q := -1); lia. }
    rewrite Hm. destruct (v + M <? M / 2) eqn:E; [apply Z.ltb_lt in E; lia | lia].
  - rewrite Z.mod_small by lia.
    destruct (v <? M / 2) eqn:E; [reflexivity | apply Z.ltb_ge in E; lia].
Qed.

End BufFacts.

(** ** Field-table codec *)

Module CodecSpec.
Import Buf Codec BufFacts.

Lemma bind_ok {A B : Type} (r : result A) (k : A -> result B) (b : B) :
  bind r k = Ok b -> exists a, r = Ok a /\ k a = Ok b.
Proof. destruct r; simpl; intros H; [eauto | discriminate | discriminate]. Qed.

Lemma lift_ok {A : Type} (o : option A) (a : A) : lift o = Ok a -> o = Some a.
Proof. destruct o; simpl; intros H; [congruence | discriminate]. Qed.

Ltac invert_ok :=
  repeat match goal with
         | H : bind _ _ = Ok _ |- _ =>
             let a := fresh "a" in
             let Ha := fresh "Ha" in
             apply bind_ok in H as [a [Ha H]]
         | H : lift _ = Ok _ |- _ => apply lift_ok in H
         | H : Ok _ = Ok _ |- _ => injection H as H
         end.

Lemma encode_array_eq (items : list FieldValue) :
  encodeFieldValue (FArray items)
  = bind (encodeItems items) (fun arrayContent =>
      bind (lift (writeUIntBE 4 (len arrayContent))) (fun l =>
        Ok (65 :: l ++ arrayContent))).
Proof. reflexivity. Qed.

Lemma encode_table_eq (entries : FieldTable) :
  encodeFieldValue (FTable entries)
  = bind (encodeEntries entries) (fun tableContent =>
      bind (lift (writeUIntBE 4 (len tableContent))) (fun l =>
        Ok (70 :: l ++ tableContent))).
Proof. reflexivity. Qed.

Lemma ascii_byte (c : ascii) : asciiOfByte (byteOfAscii c) = c.
Proof.
  unfold asciiOfByte, byteOfAscii. rewrite N2Z.id. apply ascii_N_embedding.
Qed.

Lemma string_bytes (s : string) : stringOfBytes (bytesOfString s) = s.
Proof.
  unfold stringOfBytes, bytesOfString. rewrite map_map.
  rewrite (map_ext _ (fun c => c)) by apply ascii_byte.
  rewrite map_id. apply string_of_list_ascii_of_string.
Qed.

Lemma readUInt8_at (buf : Buffer) (off : nat) (t : Z) (rest : list Z) :
  skipn off buf = t :: rest -> readUInt8 buf off = Some t.
Proof.
  intros H. unfold readUInt8, readUIntBE, slice. rewrite H. reflexivity.
Qed.

Lemma skipn_cons_at (buf : Buffer) (off : nat) (t : Z) (rest : list Z) :
  skipn off buf = t :: rest -> skipn (off + 1) buf = rest.
Proof. intros H. apply (skipn_at buf off [t] rest). exact H. Qed.

Lemma len_to_nat (l : list Z) : Z.to_nat (len l) = List.length l.
Proof. unfold len. apply Nat2Z.id. Qed.

Lemma read_short_string (key : string) (k : list Z) (buf : Buffer) (pos : nat)
  (rest : list Z) :
  encodeShortString key = Ok k -> skipn pos buf = k ++ rest ->
  readShortString buf pos = Ok (key, List.length k)
  /\ (1 <= List.length k)%nat.
Proof.
  unfold encodeShortString, readShortString. intros Henc Hat.
  destruct (255 <? len (bytesOfString key)); [discriminate|].
  invert_ok. subst k.
  rewrite <- app_assoc in Hat.
  destruct (read_written_uint 1 _ _ _ _ _ Ha Hat) as [Hread Hlen].
  unfold readUInt8. rewrite Hread. simpl.
  pose proof (skipn_at _ _ _ _ Hat) as Hat'. rewrite Hlen in Hat'.
  rewrite len_to_nat, (slice_at _ _ _ _ Hat'), string_bytes.
  rewrite length_app, Hlen. split; [reflexivity | lia].
Qed.

Lemma read_long_string (s : string) (l : list Z) (buf : Buffer) (pos : nat)
  (rest : list Z) :
  writeUIntBE 4 (len (bytesOfString s)) = Some l ->
  skipn pos buf = (l ++ bytesOfString s) ++ rest ->
  readLongString buf pos = Ok (s, List.length (l ++ bytesOfString s)).
Proof.
  unfold readLongString. intros Hw Hat.
  rewrite <- app_assoc in Hat.
  destruct (read_written_uint 4 _ _ _ _ _ Hw Hat) as [Hread Hlen].
  unfold readUInt32BE. rewrite Hread. simpl.
  pose proof (skipn_at _ _ _ _ Hat) as Hat'. rewrite Hlen in Hat'.
  rewrite len_to_nat, (slice_at _ _ _ _ Hat'), string_bytes.
  rewrite length_app, Hlen. reflexivity.
Qed.


Lemma pattern_fields (s e m : Z) :
  0 <= s <= 1 -> 0 <= e < 2048 -> 0 <= m < 2 ^ 52 ->
  let bits := s * 2 ^ 63 + e * 2 ^ 52 + m in
  0 <= bits < 2 ^ 64
  /\ bits / 2 ^ 63 = s
  /\ (bits / 2 ^ 52) mod 2048 = e
  /\ bits mod 2 ^ 52 = m.
Proof.
  intros Hs He Hm bits. subst bits.
  change (2 ^ 63) with (2048 * 2 ^ 52). change (2 ^ 64) with (4096 * 2 ^ 52).
  set (P := 2 ^ 52) in *. assert (HP : 0 < P) by (subst P; lia).
  replace (s * (2048 * P) + e * P + m) with ((s * 2048 + e) * P + m) by lia.
  repeat split.
  - nia.
  - nia.
  - replace ((s * 2048 + e) * P + m) with (s * (2048 * P) + (e * P + m)) by lia.
    rewrite Z.div_add_l by lia. rewrite Z.div_small by nia. lia.
  - rewrite Z.div_add_l by lia. rewrite (Z.div_small m P) by lia.
    rewrite Z.add_0_r, Z.add_comm, Z.mod_add by lia. apply Z.mod_small. lia.
  - rewrite Z.add_comm, Z.mod_add by lia. apply Z.mod_small. lia.
Qed.

(** An integer below 2^53 in absolute value is a binary64, and the
    pattern written for it denotes it. *)
Lemma safe_integer_pattern (z : Z) :
  z <> 0 -> Z.abs z < 2 ^ 53 ->
  isPattern64 (doubleBitsOfInt z) = true
  /\ intOfDoubleBits (doubleBitsOfInt z) = Some z.
Proof.
  intros Hz Hsafe.
  set (a := Z.abs z). assert (Ha : 0 < a) by (subst a; lia).
  set (k := Z.log2 a).
  destruct (Z.log2_spec a Ha) as [Hlo Hhi]. fold k in Hlo, Hhi.
  assert (Hk0 : 0 <= k) by (subst k; apply Z.log2_nonneg).
  assert (Hk : k <= 52).
  { assert (k < 53); [|lia]. subst k. apply Z.log2_lt_pow2; [lia | exact Hsafe]. }
  set (s := if z <? 0 then 1 else 0).
  set (mant := a * 2 ^ (52 - k) - 2 ^ 52).
  assert (Hpow : 2 ^ k * 2 ^ (52 - k) = 2 ^ 52).
  { rewrite <- Z.pow_add_r by lia. f_equal. lia. }
  assert (Hq : 0 < 2 ^ (52 - k)) by (apply Z.pow_pos_nonneg; lia).
  assert (Hmant : 0 <= mant < 2 ^ 52).
  { subst mant. rewrite Z.pow_succ_r in Hhi by lia.
    change (2 ^ 52) with 4503599627370496 in *. nia. }
  assert (Hbits : doubleBitsOfInt z = s * 2 ^ 63 + (k + 1023) * 2 ^ 52 + mant).
  { unfold doubleBitsOfInt. destruct (z =? 0) eqn:E0; [apply Z.eqb_eq in E0; lia|].
    fold a. fold k. fold s.
    destruct (k <=? 52) eqn:E; [reflexivity | apply Z.leb_gt in E; lia]. }
  assert (Hs01 : 0 <= s <= 1) by (subst s; destruct (z <? 0); lia).
  assert (He01 : 0 <= k + 1023 < 2048) by lia.
  destruct (pattern_fields s (k + 1023) mant Hs01 He01 Hmant)
    as [Hrange [Hs [He Hm]]].
  rewrite <- Hbits in Hrange, Hs, He, Hm.
  split.
  - unfold isPattern64. apply andb_true_iff. split; [apply Z.leb_le | apply Z.ltb_lt]; lia.
  - unfold intOfDoubleBits. rewrite Hs, He, Hm.
    destruct (k + 1023 =? 0) eqn:E1; [apply Z.eqb_eq in E1; lia|].
    destruct (k + 1023 =? 2047) eqn:E2; [apply Z.eqb_eq in E2; lia|].
    replace (k + 1023 - 1075) with (k - 52) by lia.
    assert (Hsig : 2 ^ 52 + mant = a * 2 ^ (52 - k)) by (subst mant; lia).
    rewrite Hsig.
    assert (Hsign : (if s =? 0 then 1 else -1) * a = z).
    { subst s a. destruct (z <? 0) eqn:E.
      - change (-1 * Z.abs z = z). apply Z.ltb_lt in E. lia.
      - change (1 * Z.abs z = z). apply Z.ltb_ge in E. lia. }
    destruct (0 <=? k - 52) eqn:E3.
    + apply Z.leb_le in E3. assert (k = 52) by lia.
      replace (52 - k) with 0 by lia. replace (k - 52) with 0 by lia.
      simpl (2 ^ 0). rewrite !Z.mul_1_r. rewrite Hsign. reflexivity.
    + replace (- (k - 52)) with (52 - k) by lia.
      rewrite Z.mod_mul by lia. rewrite Z.eqb_refl, Z.div_mul by lia.
      rewrite Hsign. reflexivity.
Qed.

(** Every such integer survives the wire, whichever wire type it takes. *)
Lemma safe_integer_survives (z : Z) :
  Z.abs z < 2 ^ 53 -> survivesNumber (NumInt z) = true.
Proof.
  intros Hsafe. simpl. destruct (inInt32 z) eqn:E; [reflexivity|]. simpl.
  assert (Hz : z <> 0) by (intros ->; discriminate E).
  destruct (safe_integer_pattern z Hz Hsafe) as [Hp Hi].
  rewrite Hp, Hi, Z.eqb_refl. reflexivity.
Qed.

Section Roundtrip.

Variable decimalNumber : Z -> Z -> number.

Local Abbreviation readFieldValue := (Codec.readFieldValue decimalNumber).
Local Abbreviation arrayLoop := (Codec.arrayLoop decimalNumber).
Local Abbreviation tableLoop := (Codec.tableLoop decimalNumber).
Local Abbreviation readFieldTable := (Codec.readFieldTable decimalNumber).

Local Abbreviation reads := (Codec.reads decimalNumber).

Ltac start_read :=
  let fuel' := fresh "fuel" in
  match goal with
  | Hfuel : (_ < ?fuel)%nat |- Codec.readFieldValue _ ?fuel _ _ = _ =>
      destruct fuel as [|fuel']; [inversion Hfuel|]
  end;
  match goal with
  | Hat : skipn ?off ?buf = (?t :: ?tail) ++ ?rest |- _ =>
      cbn [app] in Hat;
      let Ht := fresh "Htype" in
      pose proof (readUInt8_at _ _ _ _ Hat) as Ht;
      apply skipn_cons_at in Hat;
      simpl; rewrite Ht; simpl
  end.

Lemma reads_null : reads FNull.
Proof.
  intros enc _ Henc buf off rest fuel Hat Hfuel.
  simpl in Henc. invert_ok. subst enc. start_read. reflexivity.
Qed.

Lemma reads_bool (b : bool) : reads (FBool b).
Proof.
  intros enc _ Henc buf off rest fuel Hat Hfuel.
  simpl in Henc. invert_ok. subst enc. start_read.
  rewrite (readUInt8_at _ _ _ _ Hat). simpl.
  destruct b; reflexivity.
Qed.

Lemma read_double (bits : Z) (buf : Buffer) (off : nat) (rest : list Z) :
  isPattern64 bits = true ->
  skipn off buf = be_bytes 8 bits ++ rest ->
  readBigUInt64BE buf off = Some bits.
Proof.
  unfold isPattern64. intros Hp Hat.
  apply andb_true_iff in Hp as [H1 H2].
  apply Z.leb_le in H1. apply Z.ltb_lt in H2.
  apply (readUIntBE_at 8 buf off bits rest Hat).
  change (256 ^ Z.of_nat 8) with (2 ^ 64). lia.
Qed.

Lemma double_survives (n : number) :
  survivesNumber n = true ->
  match n with NumInt z => inInt32 z = false | NumDouble _ => True end ->
  isPattern64 (doubleBits n) = true /\ numberOfDoubleBits (doubleBits n) = n.
Proof.
  destruct n as [z|bits]; simpl; intros Hs Hout.
  - rewrite Hout in Hs. simpl in Hs. apply andb_true_iff in Hs as [Hp Hi].
    split; [exact Hp|]. unfold numberOfDoubleBits.
    destruct (intOfDoubleBits (doubleBitsOfInt z)) as [z'|]; [|discriminate].
    apply Z.eqb_eq in Hi. subst. reflexivity.
  - apply andb_true_iff in Hs as [Hp Hi]. split; [exact Hp|].
    unfold numberOfDoubleBits.
    destruct (intOfDoubleBits bits); [discriminate | reflexivity].
Qed.

Lemma reads_double (n : number) (buf : Buffer) (off : nat) (rest : list Z)
  (fuel : nat) :
  survivesNumber n = true ->
  match n with NumInt z => inInt32 z = false | NumDouble _ => True end ->
  skipn off buf = (100 :: be_bytes 8 (doubleBits n)) ++ rest ->
  (List.length (100%Z :: be_bytes 8 (doubleBits n)) < fuel)%nat ->
  readFieldValue fuel buf off
  = Ok (FNumber n, List.length (100 :: be_bytes 8 (doubleBits n))).
Proof.
  intros Hs Hout Hat Hfuel.
  destruct (double_survives n Hs Hout) as [Hp Hn].
  start_read. rewrite (read_double _ _ _ _ Hp Hat). simpl.
  rewrite Hn. reflexivity.
Qed.

Lemma reads_number (n : number) : reads (FNumber n).
Proof.
  intros enc Hs Henc buf off rest fuel Hat Hfuel.
  simpl in Hs, Henc. unfold encodeNumber in Henc.
  destruct n as [z|bits].
  - destruct ((-128 <=? z) && (z <=? 127)) eqn:E8.
    { invert_ok. subst enc. start_read.
      destruct (read_written_int 0 _ _ _ _ _ Ha Hat) as [Hread Hlen].
      unfold readInt8. rewrite Hread. simpl. rewrite Hlen. reflexivity. }
    destruct ((-32768 <=? z) && (z <=? 32767)) eqn:E16.
    { invert_ok. subst enc. start_read.
      destruct (read_written_int 1 _ _ _ _ _ Ha Hat) as [Hread Hlen].
      unfold readInt16BE. rewrite Hread. simpl. rewrite Hlen. reflexivity. }
    destruct ((-2147483648 <=? z) && (z <=? 2147483647)) eqn:E32.
    { invert_ok. subst enc. start_read.
      destruct (read_written_int 3 _ _ _ _ _ Ha Hat) as [Hread Hlen].
      unfold readInt32BE. rewrite Hread. simpl. rewrite Hlen. reflexivity. }
    invert_ok. subst enc. apply reads_double with (rest := rest); assumption.
  - invert_ok. subst enc. apply reads_double with (rest := rest); auto.
Qed.

Lemma reads_bigint (z : Z) : reads (FBigInt z).
Proof.
  intros enc _ Henc buf off rest fuel Hat Hfuel.
  simpl in Henc. invert_ok. subst enc. start_read.
  destruct (read_written_int 7 _ _ _ _ _ Ha Hat) as [Hread Hlen].
  unfold readBigInt64BE. rewrite Hread. simpl. rewrite Hlen. reflexivity.
Qed.

Lemma reads_string (s : string) : reads (FString s).
Proof.
  intros enc _ Henc buf off rest fuel Hat Hfuel.
  simpl in Henc. invert_ok. subst enc. start_read.
  rewrite (read_long_string _ _ _ _ _ Ha Hat). reflexivity.
Qed.

Lemma reads_date (t : option Z) : reads (FDate t).
Proof.
  intros enc Hs Henc buf off rest fuel Hat Hfuel.
  simpl in Hs, Henc. destruct t as [ms|]; [|discriminate].
  apply andb_true_iff in Hs as [Hmod Hmax].
  apply Z.eqb_eq in Hmod.
  invert_ok. subst enc. start_read.
  destruct (read_written_uint 8 _ _ _ _ _ Ha Hat) as [Hread Hlen].
  unfold readBigUInt64BE. rewrite Hread. simpl.
  assert (Hms : ms / 1000 * 1000 = ms).
  { pose proof (Z.div_mod ms 1000 ltac:(lia)). lia. }
  rewrite Hms, Hmax, Hlen. reflexivity.
Qed.

Lemma reads_buffer (bytes : list Z) : reads (FBuffer bytes).
Proof.
  intros enc _ Henc buf off rest fuel Hat Hfuel.
  simpl in Henc. invert_ok. subst enc. start_read.
  rewrite <- app_assoc in Hat.
  destruct (read_written_uint 4 _ _ _ _ _ Ha Hat) as [Hread Hlen].
  unfold readUInt32BE. rewrite Hread. simpl.
  pose proof (skipn_at _ _ _ _ Hat) as Hat'. rewrite Hlen in Hat'.
  rewrite len_to_nat.
  rewrite (slice_at _ _ _ _ Hat'), length_app, Hlen. reflexivity.
Qed.

Lemma encode_nonempty (v : FieldValue) (enc : list Z) :
  encodeFieldValue v = Ok enc -> (1 <= List.length enc)%nat.
Proof.
  destruct v as [| |b|n|z|s|t|bs|items|entries]; intros Henc.
  - simpl in Henc. invert_ok. subst. simpl. lia.
  - simpl in Henc. invert_ok. subst. simpl. lia.
  - simpl in Henc. invert_ok. subst. simpl. lia.
  - simpl in Henc. unfold encodeNumber in Henc.
    destruct n as [z|bits];
      repeat match type of Henc with
             | (if ?c then _ else _) = _ => destruct c
             end; invert_ok; subst; simpl; lia.
  - simpl in Henc. invert_ok. subst. simpl. lia.
  - simpl in Henc. invert_ok. subst. simpl. lia.
  - simpl in Henc. destruct t; [|discriminate]. invert_ok. subst. simpl. lia.
  - simpl in Henc. invert_ok. subst. simpl. lia.
  - rewrite encode_array_eq in Henc. invert_ok. subst. simpl. lia.
  - rewrite encode_table_eq in Henc. invert_ok. subst. simpl. lia.
Qed.

Lemma array_loop (items : list FieldValue) :
  Forall reads items ->
  forall content,
    forallb survives items = true ->
    encodeItems items = Ok content ->
    forall (buf : Buffer) (pos : nat) (rest : list Z) (fuel : nat)
           (acc : list FieldValue),
      skipn pos buf = content ++ rest ->
      (List.length content + 1 < fuel)%nat ->
      arrayLoop fuel buf pos (pos + List.length content) acc
      = Ok (acc ++ items).
Proof.
  induction 1 as [|v items Hv _ IH];
    intros content Hs Henc buf pos rest fuel acc Hat Hfuel;
    (destruct fuel as [|fuel]; [inversion Hfuel|]).
  - simpl in Henc. invert_ok. subst content. simpl.
    rewrite Nat.add_0_r, Nat.ltb_irrefl, app_nil_r. reflexivity.
  - simpl in Hs. apply andb_true_iff in Hs as [Hsv Hsi].
    simpl in Henc. invert_ok. subst content.
    rename a into p, a0 into ps.
    pose proof (encode_nonempty _ _ Ha) as Hp.
    rewrite length_app in *.
    assert (Hlt : (pos <? pos + (List.length p + List.length ps))%nat = true)
      by (apply Nat.ltb_lt; lia).
    simpl. rewrite Hlt.
    rewrite <- app_assoc in Hat.
    rewrite (Hv p Hsv Ha buf pos (ps ++ rest) fuel Hat) by lia.
    simpl.
    rewrite Nat.add_assoc.
    rewrite (IH ps Hsi Ha0 buf (pos + List.length p)%nat rest fuel (acc ++ [v])).
    + rewrite <- app_assoc. reflexivity.
    + apply (skipn_at _ _ _ _ Hat).
    + lia.
Qed.

Lemma reads_array (items : list FieldValue) :
  Forall reads items -> reads (FArray items).
Proof.
  intros Hall enc Hs Henc buf off rest fuel Hat Hfuel.
  rewrite encode_array_eq in Henc. simpl in Hs. invert_ok. subst enc.
  rename a into content, a0 into l.
  start_read.
  rewrite <- app_assoc in Hat.
  destruct (read_written_uint 4 _ _ _ _ _ Ha0 Hat) as [Hread Hlen].
  unfold readUInt32BE. rewrite Hread. simpl.
  pose proof (skipn_at _ _ _ _ Hat) as Hat'. rewrite Hlen in Hat'.
  rewrite len_to_nat.
  simpl in Hfuel. rewrite length_app, Hlen in Hfuel.
  rewrite (array_loop items Hall content Hs Ha buf (off + 1 + 4)%nat rest
             fuel0 [] Hat') by lia.
  simpl. rewrite length_app, Hlen. reflexivity.
Qed.

Lemma setOwn_fresh (acc : FieldTable) (key : string) (v : FieldValue) :
  forallb (fun a => negb (String.eqb a key)) (map fst acc) = true ->
  setOwn acc key v = acc ++ [(key, v)].
Proof.
  induction acc as [|[k w] acc IH]; simpl; intros H; [reflexivity|].
  apply andb_true_iff in H as [Hk Hrest].
  apply negb_true_iff in Hk. rewrite Hk, (IH Hrest). reflexivity.
Qed.

Lemma objSet_fresh (acc : FieldTable) (key : string) (v : FieldValue) :
  String.eqb key "__proto__" = false ->
  forallb (fun a => negb (String.eqb a key)) (map fst acc) = true ->
  objSet acc key v = acc ++ [(key, v)].
Proof.
  intros Hkey H. unfold objSet. rewrite Hkey. apply setOwn_fresh. exact H.
Qed.

Lemma distinct_middle (l r : list string) (k : string) :
  distinctKeys (l ++ k :: r) = true ->
  forallb (fun a => negb (String.eqb a k)) l = true.
Proof.
  induction l as [|a l IH]; simpl; intros H; [reflexivity|].
  apply andb_true_iff in H as [Ha Hl].
  rewrite (IH Hl), andb_true_r.
  apply negb_true_iff in Ha. rewrite existsb_app in Ha.
  apply orb_false_iff in Ha as [_ Ha]. simpl in Ha.
  apply orb_false_iff in Ha as [Ha _]. rewrite Ha. reflexivity.
Qed.

Lemma table_loop (entries : FieldTable) :
  Forall (fun kv => reads (snd kv)) entries ->
  forall content,
    forallb (fun kv => survives (snd kv)) entries = true ->
    encodeEntries entries = Ok content ->
    forall (buf : Buffer) (pos : nat) (rest : list Z) (fuel : nat)
           (acc : FieldTable),
      plainKeys (map fst entries) = true ->
      distinctKeys (map fst acc ++ map fst entries) = true ->
      skipn pos buf = content ++ rest ->
      (List.length content + 1 < fuel)%nat ->
      tableLoop fuel buf pos (pos + List.length content) acc
      = Ok (acc ++ entries).
Proof.
  induction 1 as [|[key v] entries Hv _ IH];
    intros content Hs Henc buf pos rest fuel acc Hplain Hkeys Hat Hfuel;
    (destruct fuel as [|fuel]; [inversion Hfuel|]).
  - simpl in Henc. invert_ok. subst content. simpl.
    rewrite Nat.add_0_r, Nat.ltb_irrefl, app_nil_r. reflexivity.
  - simpl in Hs. apply andb_true_iff in Hs as [Hsv Hsi].
    simpl in Henc. invert_ok. subst content.
    rename a into k, a0 into p, a1 into ps.
    simpl in Hv, Hkeys.
    cbn [plainKeys map fst forallb] in Hplain.
    apply andb_true_iff in Hplain as [Hkey Hplain].
    apply negb_true_iff in Hkey.
    pose proof (encode_nonempty _ _ Ha0) as Hp.
    rewrite <- app_assoc in Hat.
    destruct (read_short_string _ _ _ _ _ Ha Hat) as [Hname Hk].
    rewrite !length_app in *.
    assert (Hlt : (pos <? pos + (List.length k
                                 + (List.length p + List.length ps)))%nat = true)
      by (apply Nat.ltb_lt; lia).
    simpl. rewrite Hlt, Hname. simpl.
    pose proof (skipn_at _ _ _ _ Hat) as Hat1.
    rewrite <- app_assoc in Hat1.
    rewrite (Hv p Hsv Ha0 buf (pos + List.length k)%nat (ps ++ rest) fuel Hat1)
      by lia.
    simpl.
    rewrite (objSet_fresh acc key v Hkey (distinct_middle _ _ _ Hkeys)).
    replace (pos + (List.length k + (List.length p + List.length ps)))%nat
      with (pos + List.length k + List.length p + List.length ps)%nat by lia.
    rewrite (IH ps Hsi Ha1 buf (pos + List.length k + List.length p)%nat rest
               fuel (acc ++ [(key, v)])).
    + rewrite <- app_assoc. reflexivity.
    + exact Hplain.
    + rewrite map_app, <- app_assoc. exact Hkeys.
    + apply (skipn_at _ _ _ _ Hat1).
    + lia.
Qed.

Lemma read_table_at (entries : FieldTable) (content l : list Z) (buf : Buffer)
  (off : nat) (rest : list Z) (fuel : nat) :
  Forall (fun kv => reads (snd kv)) entries ->
  survivesTable entries = true ->
  encodeEntries entries = Ok content ->
  writeUIntBE 4 (len content) = Some l ->
  skipn off buf = (l ++ content) ++ rest ->
  (List.length (l ++ content) < fuel)%nat ->
  readFieldTable fuel buf off = Ok (entries, List.length (l ++ content)).
Proof.
  intros Hall Hs Henc Hw Hat Hfuel.
  unfold survivesTable in Hs. apply andb_true_iff in Hs as [Hplain Hs].
  apply andb_true_iff in Hs as [Hkeys Hvals].
  destruct fuel as [|fuel]; [inversion Hfuel|].
  rewrite <- app_assoc in Hat.
  destruct (read_written_uint 4 _ _ _ _ _ Hw Hat) as [Hread Hlen].
  simpl. unfold readUInt32BE. rewrite Hread. simpl.
  pose proof (skipn_at _ _ _ _ Hat) as Hat'. rewrite Hlen in Hat'.
  rewrite len_to_nat. rewrite length_app, Hlen in Hfuel.
  rewrite (table_loop entries Hall content Hvals Henc buf (off + 4)%nat rest
             fuel [] Hplain Hkeys Hat') by lia.
  simpl. rewrite length_app, Hlen. reflexivity.
Qed.

Lemma reads_table (entries : FieldTable) :
  Forall (fun kv => reads (snd kv)) entries -> reads (FTable entries).
Proof.
  intros Hall enc Hs Henc buf off rest fuel Hat Hfuel.
  rewrite encode_table_eq in Henc. invert_ok. subst enc.
  rename a into content, a0 into l.
  start_read.
  simpl in Hfuel.
  rewrite (read_table_at entries content l buf (off + 1)%nat rest fuel0
             Hall Hs Ha Ha0 Hat) by lia.
  reflexivity.
Qed.

Lemma reads_every_value (v : FieldValue) : reads v.
Proof.
  induction v using FieldValue_nested_ind.
  - apply reads_null.
  - intros enc Hs. discriminate Hs.
  - apply reads_bool.
  - apply reads_number.
  - apply reads_bigint.
  - apply reads_string.
  - apply reads_date.
  - apply reads_buffer.
  - apply reads_array. assumption.
  - apply reads_table. assumption.
Qed.

(** C9, as the code has it.  For every table the encoder accepts whose
    values survive the wire ([survivesTable]: distinct keys, none of them
    [__proto__], timestamps on a whole second and within the range of
    [Date], no [undefined], numbers that are int32 integers or exact
    binary64 patterns), reading the encoding back at offset 0 returns the
    table and the number of bytes written.  Any fuel above the length of
    the buffer is enough for the reader's loops. *)
Theorem field_table_roundtrip (T : FieldTable) (buf : list Z) (fuel : nat) :
  survivesTable T = true ->
  encodeFieldTable T = Ok buf ->
  (List.length buf < fuel)%nat ->
  readFieldTable fuel buf 0 = Ok (T, List.length buf).
Proof.
  intros Hs Henc Hfuel. unfold encodeFieldTable in Henc. invert_ok. subst buf.
  apply read_table_at with (rest := []); try assumption.
  - apply Forall_forall. intros kv _. apply reads_every_value.
  - simpl. symmetry. apply app_nil_r.
Qed.

End Roundtrip.

Lemma field_table_roundtrip_witness :
  exists buf,
    encodeFieldTable sampleTable = Ok buf
    /\ Codec.readFieldTable noDecimal 200 buf 0 = Ok (sampleTable, 114%nat).
Proof.
  eexists. split.
  - vm_compute. reflexivity.
  - refine (field_table_roundtrip noDecimal sampleTable _ 200 _ _ _).
    + vm_compute. reflexivity.
    + vm_compute. reflexivity.
    + vm_compute. lia.
Defined.

(** C9 as stated fails for timestamps: the encoder writes
    [floor(ms / 1000)] and the decoder returns that second, so a [Date]
    of 1500 ms comes back as 1000 ms. *)
Lemma sub_second_timestamp_truncated :
  exists buf T',
    encodeFieldTable subSecondTable = Ok buf
    /\ Codec.readFieldTable noDecimal 32 buf 0 = Ok (T', List.length buf)
    /\ T' = [("t"%string, FDate (Some 1000))]
    /\ T' <> subSecondTable.
Proof.
  eexists. eexists. split; [vm_compute; reflexivity|].
  split; [vm_compute; reflexivity|]. split; [reflexivity|].
  unfold subSecondTable. intros H. discriminate H.
Qed.

(** A property holding [undefined] comes back holding [null]. *)
Lemma undefined_comes_back_null :
  exists buf,
    encodeFieldTable undefinedTable = Ok buf
    /\ Codec.readFieldTable noDecimal 32 buf 0
       = Ok ([("u"%string, FNull)], List.length buf).
Proof.
  eexists. split; [vm_compute; reflexivity|]. vm_compute. reflexivity.
Qed.

(** An own property [__proto__] is written by the encoder and lost by
    the decoder. *)
Lemma proto_key_is_dropped :
  exists buf,
    encodeFieldTable protoTable = Ok buf
    /\ Codec.readFieldTable noDecimal 64 buf 0
       = Ok ([("k"%string, FBool true)], List.length buf).
Proof.
  eexists. split; [vm_compute; reflexivity|]. vm_compute. reflexivity.
Qed.

Example double_patterns :
  doubleBitsOfInt 1 = 4607182418800017408
  /\ doubleBitsOfInt 4294967296 = 4751297606875873280
  /\ intOfDoubleBits 4609434218613702656 = None
  /\ numberOfDoubleBits (doubleBitsOfFloatBits 1077936128) = NumInt 3.
Proof. repeat split; reflexivity. Qed.

End CodecSpec.

(** ** Insertion-ordered maps *)

Module JsMapFacts.
Import JsMap.
Section WithKey.
Context {K V : Type}.
Variable eqb : K -> K -> bool.
Hypothesis eqb_spec : forall a b, eqb a b = true <-> a = b.

Lemma eqb_refl a : eqb a a = true.
Proof. apply eqb_spec. reflexivity. Qed.

Lemma eqb_neq a b : a <> b -> eqb a b = false.
Proof.
  intros H. destruct (eqb a b) eqn:E; [|reflexivity].
  apply eqb_spec in E. contradiction.
Qed.

Lemma get_set_same (m : list (K * V)) k v : get eqb (set eqb m k v) k = Some v.
Proof.
  induction m as [|[k' v'] m IH]; simpl.
  - rewrite eqb_refl. reflexivity.
  - destruct (eqb k' k) eqn:E; simpl; rewrite E; [reflexivity | exact IH].
Qed.

Lemma get_set_other (m : list (K * V)) k k' v :
  k <> k' -> get eqb (set eqb m k v) k' = get eqb m k'.
Proof.
  intros Hne. induction m as [|[k0 v0] m IH]; simpl.
  - rewrite (eqb_neq _ _ Hne). reflexivity.
  - destruct (eqb k0 k) eqn:E; simpl.
    + apply eqb_spec in E. subst k0. rewrite (eqb_neq _ _ Hne). reflexivity.
    + rewrite IH. reflexivity.
Qed.

Lemma set_get_same (m : list (K * V)) k v :
  get eqb m k = Some v -> set eqb m k v = m.
Proof.
  induction m as [|[k0 v0] m IH]; simpl; [discriminate|].
  destruct (eqb k0 k); intros H.
  - injection H as ->. reflexivity.
  - rewrite (IH H). reflexivity.
Qed.

Lemma length_set (m : list (K * V)) k v :
  (List.length (set eqb m k v) <= S (List.length m))%nat.
Proof.
  induction m as [|[k0 v0] m IH]; simpl; [lia|].
  destruct (eqb k0 k); simpl; lia.
Qed.

Lemma Forall_set (P : V -> Prop) (m : list (K * V)) k v :
  Forall (fun e => P (snd e)) m -> P v ->
  Forall (fun e => P (snd e)) (set eqb m k v).
Proof.
  intros Hm Hv. induction Hm as [|[k0 v0] m H0 Hm IH]; simpl.
  - constructor; [exact Hv | constructor].
  - destruct (eqb k0 k); constructor; auto.
Qed.

End WithKey.
End JsMapFacts.

(** ** Broker *)

Module BrokerSpec.
Import Broker.


Lemma channelHeap_brokerSend b id fr : channelHeap (brokerSend b id fr) = channelHeap b.
Proof. unfold brokerSend. destruct (getConnectionObj b id); reflexivity. Qed.

Lemma canReceive_track_ok channel tag m q t :
  canReceive channel = true ->
  prefetchOk (trackUnacked (ch_with_counter channel tag) tag m q t) = true.
Proof.
  unfold canReceive, canDeliver, prefetchOk, unackedCount, trackUnacked. simpl.
  destruct (flowActive channel); simpl; [|discriminate].
  pose proof (JsMapFacts.length_set Z.eqb (unackedMessages channel) tag
                (mkUnacked m q tag t)) as Hlen.
  destruct (prefetchCount channel =? 0) eqn:E0.
  - intros _. apply Z.eqb_eq in E0. rewrite E0. reflexivity.
  - intros H. apply Z.ltb_lt in H. apply orb_true_iff. right.
    apply Z.leb_le. lia.
Qed.

(** C1, as the code has it.  A dispatch through [deliverToConsumer]
    keeps every channel within its prefetch limit: a channel with
    [prefetchCount = N > 0] that holds at most [N] unacked entries still
    holds at most [N] afterwards.  Basic.Get is not gated by the
    limit. *)
Theorem deliver_preserves_prefetch (b b' : Broker) (c : Consumer) :
  prefetchInv b -> deliverToConsumer b c = Some b' -> prefetchInv b'.
Proof.
  unfold deliverToConsumer, prefetchInv. intros Hinv.
  destruct (getChannelObj b (c_channel c)) as [channel|] eqn:Hch;
    [|intros [= <-]; exact Hinv].
  destruct (canReceive channel) eqn:Hrecv; simpl;
    [|intros [= <-]; exact Hinv].
  destruct (getQueue b (c_queueName c)) as [queue|];
    [|intros [= <-]; exact Hinv].
  destruct (dequeue queue) as [[message queue']|];
    [|intros [= <-]; exact Hinv].
  set (tag := deliveryTagCounter channel + 1).
  set (channel2 := if negb (noAck c) then _ else _).
  assert (Hok : prefetchOk channel2 = true).
  { subst channel2. destruct (noAck c); simpl.
    - unfold canReceive, canDeliver in Hrecv. unfold prefetchOk, unackedCount in *.
      simpl. destruct (flowActive channel); [|discriminate].
      destruct (prefetchCount channel =? 0) eqn:E0.
      + apply Z.eqb_eq in E0. rewrite E0. reflexivity.
      + apply Z.ltb_lt in Hrecv. apply orb_true_iff. right. apply Z.leb_le. 
        unfold unackedCount in Hrecv. lia.
    - apply canReceive_track_ok. exact Hrecv. }
  assert (Hheap : Forall (fun e => prefetchOk (snd e) = true)
                    (JsMap.set Nat.eqb (channelHeap b) (c_channel c) channel2)).
  { apply JsMapFacts.Forall_set with (P := fun ch => prefetchOk ch = true); assumption. }
  destruct (getConnectionObj _ _) as [connection|]; [|intros [= <-]; exact Hheap].
  destruct (buildMessageFrames _ _ _ _) as [frames|]; [|discriminate].
  intros [= <-].
  destruct (canReceive channel2); destruct (noAck c && q_durable queue); simpl;
    rewrite channelHeap_brokerSend; exact Hheap.
Qed.

Local Open Scope string_scope.
Local Open Scope list_scope.
Local Open Scope Z_scope.

Lemma string_eqb_spec (a b : string) : String.eqb a b = true <-> a = b.
Proof. apply String.eqb_eq. Qed.

Lemma getQueue_putQueue_same b k q : getQueue (putQueue b k q) k = Some q.
Proof. apply (JsMapFacts.get_set_same String.eqb string_eqb_spec). Qed.

Lemma getQueue_putQueue_other b k k' q :
  k <> k' -> getQueue (putQueue b k q) k' = getQueue b k'.
Proof. apply (JsMapFacts.get_set_other String.eqb string_eqb_spec). Qed.

(** Where a requeue loop leaves the messages of one queue. *)
Lemma requeue_loop (front : bool) (us : list UnackedMessage) :
  forall (b : Broker) (q : string) (queue : Queue),
    getQueue b q = Some queue ->
    exists queue',
      getQueue (fold_left (requeueUnacked front) us b) q = Some queue'
      /\ messages queue' =
         let ms := map um_message
                     (filter (fun u => String.eqb (um_queueName u) q) us) in
         if front then rev ms ++ messages queue else messages queue ++ ms.
Proof.
  induction us as [|u us IH]; intros b q queue Hq; simpl.
  - exists queue. split; [exact Hq|]. destruct front; [reflexivity|].
    symmetry. apply app_nil_r.
  - destruct (String.eqb (um_queueName u) q) eqn:E.
    + apply String.eqb_eq in E.
      assert (Hstep : getQueue (requeueUnacked front b u) q
                      = Some (requeue queue (um_message u) front)).
      { unfold requeueUnacked. rewrite E, Hq. apply getQueue_putQueue_same. }
      destruct (IH _ _ _ Hstep) as [queue' [Hget Hms]].
      exists queue'. split; [exact Hget|]. rewrite Hms. simpl.
      destruct front; simpl.
      * rewrite <- app_assoc. reflexivity.
      * rewrite <- app_assoc. reflexivity.
    + apply String.eqb_neq in E.
      assert (Hstep : getQueue (requeueUnacked front b u) q = Some queue).
      { unfold requeueUnacked.
        destruct (getQueue b (um_queueName u)); [|exact Hq].
        rewrite getQueue_putQueue_other by exact E. exact Hq. }
      exact (IH _ _ _ Hstep).
Qed.

(** C2, as the code has it.  Basic.Recover passes [!requeue] as the
    [front] flag: with [requeue = true] the unacked messages of the
    channel go to the tail of their queue, oldest delivery first; with
    [requeue = false] each is put at the head in turn, so they end up in
    front of the queue with the latest delivery first.  This is the state
    after the two requeue loops; the handler then runs its dispatch pass
    over the channel's consumers. *)
Theorem recover_requeue_positions (b : Broker) (ref : nat) (channel : Channel)
  (requeueFlag : bool) (q : string) (queue : Queue) :
  getQueue b q = Some queue ->
  exists queue',
    getQueue (recoverRequeue b ref channel requeueFlag) q = Some queue'
    /\ messages queue' =
       if requeueFlag then messages queue ++ unackedFor channel q
       else rev (unackedFor channel q) ++ messages queue.
Proof.
  intros Hq. unfold recoverRequeue.
  destruct (requeue_loop (negb requeueFlag) (getUnackedMessages channel) b q queue Hq)
    as [queue' [Hget Hms]].
  exists queue'. split.
  - exact Hget.
  - rewrite Hms. unfold unackedFor. destruct requeueFlag; reflexivity.
Qed.

Lemma recover_clears_unacked (us : list (Z * UnackedMessage)) :
  forall c : Channel,
    unackedMessages c = us ->
    Forall (fun e => fst e = um_deliveryTag (snd e)) us ->
    unackedMessages
      (fold_left (fun c u => snd (ack c (um_deliveryTag u) false))
         (JsMap.values us) c) = [].
Proof.
  induction us as [|[k u] us IH]; intros c Hc Hall; simpl.
  - exact Hc.
  - inversion Hall as [|? ? Hk Hrest]; subst. simpl in Hk. subst k.
    apply IH; [|exact Hrest].
    unfold ack. rewrite Hc. simpl. rewrite Z.eqb_refl. simpl. reflexivity.
Qed.


(** ** Dispatch condition *)



Lemma queues_brokerSend b id fr : queues (brokerSend b id fr) = queues b.
Proof. unfold brokerSend. destruct (getConnectionObj b id); reflexivity. Qed.

(** When the guard fails [deliverToConsumer] changes nothing. *)
Lemma no_dispatch_no_change (b : Broker) (c : Consumer) :
  dispatches b c = false -> deliverToConsumer b c = Some b.
Proof.
  unfold dispatches, deliverToConsumer.
  destruct (getChannelObj b (c_channel c)) as [channel|]; [|reflexivity].
  destruct (canReceive channel); simpl; [|reflexivity].
  destruct (getQueue b (c_queueName c)) as [queue|]; [|reflexivity].
  destruct (dequeue queue) as [[m q']|]; [discriminate|reflexivity].
Qed.












(** ** Unknown delivery tags *)

Lemma with_channelHeap_same (b : Broker) : with_channelHeap b (channelHeap b) = b.
Proof. destruct b; reflexivity. Qed.

Lemma nat_eqb_spec (a b : nat) : Nat.eqb a b = true <-> a = b.
Proof. apply Nat.eqb_eq. Qed.

Lemma putChannelObj_same (b : Broker) (ref : nat) (channel : Channel) :
  getChannelObj b ref = Some channel -> putChannelObj b ref channel = b.
Proof.
  intros H. unfold putChannelObj.
  rewrite (JsMapFacts.set_get_same Nat.eqb _ _ _ H).
  apply with_channelHeap_same.
Qed.

Lemma lookupChannel_heap b connId n ref channel :
  lookupChannel b connId n = Some (ref, channel) ->
  getChannelObj b ref = Some channel.
Proof.
  unfold lookupChannel.
  destruct (getConnectionObj b connId) as [connection|]; [|discriminate].
  destruct (JsMap.get Z.eqb (conn_channels connection) n) as [r|]; [|discriminate].
  destruct (getChannelObj b r) as [ch|] eqn:E; [|discriminate].
  intros [= <- <-]. exact E.
Qed.

(** A dispatch pass over consumers none of which can be served changes
    nothing. *)
Lemma redeliver_nothing (tags : list string) (b : Broker) :
  Forall (fun tag => forall c, JsMap.get String.eqb (consumers b) tag = Some c ->
                               dispatches b c = false) tags ->
  redeliverChannel b tags = Some b.
Proof.
  induction 1 as [|tag tags Htag _ IH]; simpl; [reflexivity|].
  destruct (JsMap.get String.eqb (consumers b) tag) as [c|]; [|exact IH].
  rewrite (no_dispatch_no_change b c (Htag c eq_refl)). exact IH.
Qed.

(** C10, as the code has it.  For a delivery tag that is not in the
    channel's unacked map, [Channel.ack], [nack] and [reject] return
    nothing and leave the channel as it is, and the Reject and Nack
    handlers leave the whole broker state as it is.  The Ack handler
    acks and deletes nothing itself: what it does is its dispatch pass
    over the channel's consumers, starting from the state as it was.  The
    pass leaves the state alone when no consumer of the channel can be
    served; otherwise it delivers, and a delivery to a [noAck] consumer
    of a durable queue appends a delete entry to the log. *)
Theorem unknown_tag_handlers (b : Broker) (connId : string) (n : Z)
  (ref : nat) (channel : Channel) (t : Z) (requeueFlag : bool) :
  lookupChannel b connId n = Some (ref, channel) ->
  JsMap.get Z.eqb (unackedMessages channel) t = None ->
  ack channel t false = ([], channel)
  /\ nack channel t false = ([], channel)
  /\ reject channel t = (None, channel)
  /\ handleBasicMethod b connId n (Reject t requeueFlag) = Some b
  /\ handleBasicMethod b connId n (Nack t false requeueFlag) = Some b
  /\ handleBasicMethod b connId n (Ack t false)
     = (if ChannelState_eqb (ch_state channel) ch_open
        then redeliverChannel b (ch_consumers channel)
        else Some b)
  /\ (Forall (fun tag => forall c, JsMap.get String.eqb (consumers b) tag = Some c ->
                                   dispatches b c = false) (ch_consumers channel) ->
      handleBasicMethod b connId n (Ack t false) = Some b).
Proof.
  intros Hlook Hget.
  pose proof (lookupChannel_heap _ _ _ _ _ Hlook) as Hheap.
  assert (Hack : ack channel t false = ([], channel))
    by (unfold ack; rewrite Hget; reflexivity).
  assert (Hrej : reject channel t = (None, channel))
    by (unfold reject; rewrite Hget; reflexivity).
  assert (Hpass : handleBasicMethod b connId n (Ack t false)
                  = if ChannelState_eqb (ch_state channel) ch_open
                    then redeliverChannel b (ch_consumers channel)
                    else Some b).
  { unfold handleBasicMethod. rewrite Hlook.
    destruct (ChannelState_eqb (ch_state channel) ch_open); simpl; [|reflexivity].
    unfold handleAck. rewrite Hack. simpl.
    rewrite (putChannelObj_same _ _ _ Hheap). reflexivity. }
  split; [exact Hack|]. split; [exact Hack|]. split; [exact Hrej|].
  split; [|split; [|split]].
  - unfold handleBasicMethod. rewrite Hlook.
    destruct (ChannelState_eqb (ch_state channel) ch_open); simpl; [|reflexivity].
    unfold handleReject. rewrite Hrej. reflexivity.
  - unfold handleBasicMethod. rewrite Hlook.
    destruct (ChannelState_eqb (ch_state channel) ch_open); simpl; [|reflexivity].
    unfold handleNack, nack. rewrite Hack. simpl.
    rewrite (putChannelObj_same _ _ _ Hheap). reflexivity.
  - exact Hpass.
  - intros Hnone. rewrite Hpass.
    destruct (ChannelState_eqb (ch_state channel) ch_open); [|reflexivity].
    apply redeliver_nothing. exact Hnone.
Qed.

Lemma unknown_tag_handlers_witness :
  handleBasicMethod Sessions.flowOnState "c1" 1 (Reject 99 true)
  = Some Sessions.flowOnState
  /\ handleBasicMethod Sessions.flowOnState "c1" 1 (Nack 99 false true)
     = Some Sessions.flowOnState.
Proof.
  destruct (unknown_tag_handlers Sessions.flowOnState "c1" 1 0
              (Sessions.theChannel Sessions.flowOnState 0) 99 true
              eq_refl eq_refl)
    as [_ [_ [_ [Hreject [Hnack _]]]]].
  split; assumption.
Defined.

(** C10 as stated fails for Basic.Ack: an ack of an unknown tag on a
    channel whose consumer has a message waiting delivers that message. *)
Lemma ack_unknown_tag_delivers :
  exists b b',
    Sessions.afterFlowOn = Some b
    /\ Sessions.unackedTags b 0 = Some []
    /\ Sessions.queueContents b "q" = Some [[97]]
    /\ handleBasicMethod b "c1" 1 (Ack 99 false) = Some b'
    /\ Sessions.queueContents b' "q" = Some []
    /\ Sessions.unackedTags b' 0 = Some [1].
Proof.
  eexists. eexists. split; [vm_compute; reflexivity|].
  split; [reflexivity|]. split; [reflexivity|].
  split; [vm_compute; reflexivity|]. split; reflexivity.
Qed.

(** ** Prefetch *)

Lemma deliver_preserves_prefetch_witness :
  exists b',
    deliverToConsumer Sessions.limitedState Sessions.staleConsumer = Some b'
    /\ prefetchInv b'.
Proof.
  eexists. split.
  - vm_compute. reflexivity.
  - apply (deliver_preserves_prefetch Sessions.limitedState _
             Sessions.staleConsumer).
    + repeat constructor.
    + vm_compute. reflexivity.
Defined.

(** C1 as stated fails for Basic.Get: on a channel with prefetch 1 that
    already holds one unacked entry, a second [Get] with [noAck = false]
    adds another one. *)
Lemma get_exceeds_prefetch :
  exists b b' channel,
    Sessions.afterFirstGet = Some b
    /\ prefetchInv b
    /\ handleBasicMethod b "c1" 1 (Get "q" false) = Some b'
    /\ getChannelObj b' 0 = Some channel
    /\ prefetchCount channel = 1
    /\ unackedCount channel = 2
    /\ ~ prefetchInv b'.
Proof.
  eexists. eexists. eexists. split; [vm_compute; reflexivity|].
  split; [repeat constructor|].
  split; [vm_compute; reflexivity|].
  split; [reflexivity|]. split; [reflexivity|]. split; [reflexivity|].
  intros H. inversion H as [|? ? Hhd _]. discriminate Hhd.
Qed.

(** ** Recover *)

Lemma recover_requeue_positions_witness :
  exists queue',
    getQueue (recoverRequeue Sessions.recoverState 0 
                (Sessions.theChannel Sessions.recoverState 0) true) "q"
    = Some queue'
    /\ map msg_content (messages queue') = [[98]; [97]].
Proof.
  destruct (recover_requeue_positions Sessions.recoverState 0
              (Sessions.theChannel Sessions.recoverState 0) true "q"
              (Sessions.theQueue Sessions.recoverState "q") eq_refl)
    as [queue' [Hget Hms]].
  exists queue'. split; [exact Hget|]. rewrite Hms. reflexivity.
Defined.

(** C2 as stated fails: with [requeue = true] the recovered message is
    behind the message that was already waiting, not in front of it. *)
Lemma recover_true_requeues_at_tail :
  exists b b' channel,
    Sessions.beforeRecover = Some b
    /\ getChannelObj b 0 = Some channel
    /\ map msg_content (unackedFor channel "q") = [[97]]
    /\ Sessions.queueContents b "q" = Some [[98]]
    /\ handleBasicMethod b "c1" 1 (Recover true) = Some b'
    /\ Sessions.queueContents b' "q" = Some [[98]; [97]]
    /\ Sessions.queueContents b' "q" <> Some [[97]; [98]].
Proof.
  eexists. eexists. eexists. split; [vm_compute; reflexivity|].
  split; [reflexivity|]. split; [reflexivity|]. split; [reflexivity|].
  split; [vm_compute; reflexivity|]. split; [reflexivity|].
  vm_compute. discriminate.
Qed.

Lemma recover_false_requeues_at_head :
  exists b b',
    Sessions.beforeRecover = Some b
    /\ handleBasicMethod b "c1" 1 (Recover false) = Some b'
    /\ Sessions.queueContents b' "q" = Some [[97]; [98]].
Proof.
  eexists. eexists. split; [vm_compute; reflexivity|].
  split; [vm_compute; reflexivity|]. reflexivity.
Qed.

(** ** Channel close *)

(** C4.  A consumer holds two unacked deliveries, tag 1 with body [a]
    and tag 2 with body [b], and its channel is closed.  Both messages
    are back at the head of the queue and the consumer is gone, but the
    later delivery is in front: the loop puts each entry at the head in
    delivery order.  The claim has the earliest delivery closest to the
    head. *)
Theorem channel_close_reverses_unacked :
  exists b channel,
    Sessions.twoUnacked = Some b
    /\ getChannelObj b 0 = Some channel
    /\ map (fun e => (fst e, msg_content (um_message (snd e))))
         (unackedMessages channel) = [(1, [97]); (2, [98])]
    /\ Sessions.queueContents b "q" = Some []
    /\ Sessions.queueContents (handleChannelMethod b "c1" 1 ChClose) "q"
       = Some [[98]; [97]]
    /\ consumers (handleChannelMethod b "c1" 1 ChClose) = [].
Proof.
  eexists. eexists. split; [vm_compute; reflexivity|].
  split; [reflexivity|]. split; [reflexivity|]. split; [reflexivity|].
  split; reflexivity.
Qed.

(** ** Exclusive queues *)

(** C7.  Connection [c1] owns the exclusive queue [q]; [canAccess]
    refuses [c2].  A Basic.Get from [c2] is nevertheless served: the
    message leaves the queue and [c2] receives Get-Ok with the content,
    no Channel.Close with code 405.  The Get handler never calls
    [canAccess]; the Consume and Queue.Declare handlers do. *)
Theorem get_ignores_exclusive_owner :
  exists b b' queue,
    Sessions.exclusiveHeld = Some b
    /\ getQueue b "q" = Some queue
    /\ exclusiveConnectionId queue = Some "c1"
    /\ canAccess queue "c2" = false
    /\ handleBasicMethod b "c2" 1 (Get "q" true) = Some b'
    /\ Sessions.queueContents b' "q" = Some []
    /\ map (fun f => match f with
                     | MethodFrame _ m => Some m
                     | _ => None
                     end) (Sessions.framesTo b' "c2")
       = [Some ChannelOpenOk; Some (BasicGetOk 1 false "" "q" 0); None; None].
Proof.
  eexists. eexists. eexists. split; [vm_compute; reflexivity|].
  split; [reflexivity|]. split; [reflexivity|]. split; [reflexivity|].
  split; [vm_compute; reflexivity|]. split; reflexivity.
Qed.

Lemma consume_respects_exclusive_owner :
  exists b b',
    Sessions.exclusiveHeld = Some b
    /\ handleBasicMethod b "c2" 1 (Consume "q" "t" false false false false) = Some b'
    /\ Sessions.framesTo b' "c2"
       = [MethodFrame 1 ChannelOpenOk;
          MethodFrame 1 (ChannelClose RESOURCE_LOCKED exclusiveText 0 0)]
    /\ queues b' = queues b /\ consumers b' = consumers b.
Proof.
  eexists. eexists. split; [vm_compute; reflexivity|].
  split; [vm_compute; reflexivity|]. repeat split; reflexivity.
Qed.

(** A non-passive Queue.Declare from the other connection: 405 when the
    declared flags match the queue, 406 when they do not. *)
Lemma declare_from_other_connection :
  exists b,
    Sessions.exclusiveHeld = Some b
    /\ Sessions.framesTo
         (handleQueueDeclare "u1" b "c2" 1 "q" false false true false false) "c2"
       = [MethodFrame 1 ChannelOpenOk;
          MethodFrame 1 (ChannelClose RESOURCE_LOCKED exclusiveText 0 0)]
    /\ Sessions.framesTo
         (handleQueueDeclare "u1" b "c2" 1 "q" false false false false false) "c2"
       = [MethodFrame 1 ChannelOpenOk;
          MethodFrame 1
            (ChannelClose PRECONDITION_FAILED "Queue declaration mismatch" 0 0)].
Proof.
  eexists. split; [vm_compute; reflexivity|]. split; reflexivity.
Qed.

Lemma owner_close_drops_exclusive_queue :
  exists b,
    Sessions.exclusiveHeld = Some b
    /\ getByDestination b "q" <> []
    /\ getQueue (cleanupConnection b "c1") "q" = None
    /\ getByDestination (cleanupConnection b "c1") "q" = [].
Proof.
  eexists. split; [vm_compute; reflexivity|].
  split; [vm_compute; discriminate|]. split; reflexivity.
Qed.


(** ** Unroutable publishes *)

Import Codec.

Lemma len_nonneg (l : list Z) : 0 <= len l.
Proof. unfold len. lia. Qed.


Lemma bodyLoop_stuck (channel : Z) (body : list Z) (maxPayloadSize : Z) :
  maxPayloadSize <= 0 ->
  forall (fuel : nat) (offset : Z) (frames : list Broker.Frame),
    offset < len body ->
    Broker.bodyLoop fuel channel body maxPayloadSize offset frames = None.
Proof.
  intros Hmax. induction fuel as [|fuel IH]; intros offset frames Hoff.
  - simpl. apply Z.ltb_lt in Hoff. now rewrite Hoff.
  - simpl. assert (E := Hoff). apply Z.ltb_lt in E. rewrite E.
    apply IH. lia.
Qed.






(** With a negotiated frame size of 8 or less there is no room for a
    body chunk and the frame-building loop never ends. *)
Example tiny_frameMax_spins :
  buildMessageFrames 1 [104] emptyProperties 8 = None.
Proof. reflexivity. Qed.

(** ** General facts behind the sessions *)

Lemma queues_registryRemove b tag : queues (snd (registryRemove b tag)) = queues b.
Proof.
  unfold registryRemove. destruct (JsMap.get String.eqb (consumers b) tag); reflexivity.
Qed.

Lemma queues_removeByChannel b ref : queues (snd (removeByChannel b ref)) = queues b.
Proof.
  unfold removeByChannel. simpl.
  generalize (filter (fun c => Nat.eqb (c_channel c) ref) (JsMap.values (consumers b))).
  intros l. revert b. induction l as [|c l IH]; intros b; simpl; [reflexivity|].
  rewrite IH. apply queues_registryRemove.
Qed.

Lemma release_loop (cs : list Consumer) :
  forall (b : Broker) (q : string) (queue : Queue),
    getQueue b q = Some queue ->
    exists queue',
      getQueue (fold_left releaseConsumer cs b) q = Some queue'
      /\ messages queue' = messages queue.
Proof.
  induction cs as [|c cs IH]; intros b q queue Hq; simpl.
  - exists queue. auto.
  - unfold releaseConsumer at 2.
    destruct (getQueue b (c_queueName c)) as [qc|] eqn:Hc; [|apply IH; exact Hq].
    destruct (String.eqb (c_queueName c) q) eqn:E.
    + apply String.eqb_eq in E. rewrite E in *.
      assert (qc = queue) by congruence. subst qc.
      destruct (IH (putQueue b q (queueRemoveConsumer queue)) q
                  (queueRemoveConsumer queue) (getQueue_putQueue_same _ _ _))
        as [queue' [Hget Hms]].
      exists queue'. split; [exact Hget | exact Hms].
    + apply String.eqb_neq in E. apply IH.
      rewrite getQueue_putQueue_other by exact E. exact Hq.
Qed.

Lemma queues_closeChannel b connId n : queues (closeChannel b connId n) = queues b.
Proof.
  unfold closeChannel.
  destruct (getConnectionObj b connId) as [connection|]; [|reflexivity].
  destruct (JsMap.get Z.eqb (conn_channels connection) n) as [ref|]; [|reflexivity].
  destruct (getChannelObj b ref); reflexivity.
Qed.

(** Where [cleanupChannel] leaves the messages of a queue: the channel's
    unacked messages from that queue sit in front of what was waiting,
    latest delivery first. *)
Lemma cleanup_requeues_reversed (b : Broker) (connId : string) (ref : nat)
  (channel : Channel) (q : string) (queue : Queue) :
  getChannelObj b ref = Some channel ->
  getQueue b q = Some queue ->
  exists queue',
    getQueue (cleanupChannel b connId ref) q = Some queue'
    /\ messages queue' = rev (unackedFor channel q) ++ messages queue.
Proof.
  intros Hch Hq. unfold cleanupChannel. rewrite Hch.
  destruct (removeByChannel b ref) as [removed b1] eqn:Hrem.
  assert (Hq1 : getQueue b1 q = Some queue).
  { unfold getQueue. replace b1 with (snd (removeByChannel b ref)) by (rewrite Hrem; reflexivity).
    rewrite queues_removeByChannel. exact Hq. }
  destruct (release_loop removed b1 q queue Hq1) as [queue2 [Hq2 Hms2]].
  destruct (requeue_loop true (getUnackedMessages channel) _ q queue2 Hq2)
    as [queue3 [Hq3 Hms3]].
  exists queue3. split.
  - unfold getQueue. rewrite queues_closeChannel. exact Hq3.
  - rewrite Hms3, Hms2. reflexivity.
Qed.

(** The access check of Basic.Consume. *)
Lemma consume_locked (b : Broker) (connId : string) (n : Z) (ref : nat)
  (channel : Channel) (queueName tag : string) (queue : Queue)
  (noLocal noAck exclusive noWait : bool) :
  lookupChannel b connId n = Some (ref, channel) ->
  ch_state channel = ch_open ->
  getQueue b queueName = Some queue ->
  canAccess queue connId = false ->
  handleBasicMethod b connId n
    (Consume queueName tag noLocal noAck exclusive noWait)
  = Some (closeChannelWithError b connId n RESOURCE_LOCKED exclusiveText).
Proof.
  intros Hlook Hst Hq Hacc. unfold handleBasicMethod. rewrite Hlook, Hst. simpl.
  unfold handleConsume. rewrite Hq, Hacc. reflexivity.
Qed.

(** The access check of a passive Queue.Declare. *)
Lemma passive_declare_locked (uuid : string) (b : Broker) (connId : string)
  (n : Z) (ref : nat) (channel : Channel) (queueName : string) (queue : Queue)
  (durable exclusive autoDelete noWait : bool) :
  lookupChannel b connId n = Some (ref, channel) ->
  ch_state channel = ch_open ->
  queueName <> EmptyString ->
  getQueue b queueName = Some queue ->
  canAccess queue connId = false ->
  handleQueueDeclare uuid b connId n queueName true durable exclusive
    autoDelete noWait
  = closeChannelWithError b connId n RESOURCE_LOCKED exclusiveText.
Proof.
  intros Hlook Hst Hne Hq Hacc. unfold handleQueueDeclare.
  rewrite Hlook, Hst. simpl.
  destruct (String.eqb queueName EmptyString) eqn:E;
    [apply String.eqb_eq in E; contradiction|].
  rewrite Hq, Hacc. reflexivity.
Qed.

(** A queue is owned by the connection that declared it exclusive, and
    by no other. *)
Lemma canAccess_owner (q : Queue) (owner other : string) :
  q_exclusive q = true -> exclusiveConnectionId q = Some owner ->
  canAccess q owner = true /\ (other <> owner -> canAccess q other = false).
Proof.
  unfold canAccess. intros -> ->. simpl. split.
  - apply String.eqb_refl.
  - intros H. apply String.eqb_neq. congruence.
Qed.

(** The exclusive-queue loop of [cleanupConnection]: of a queue table
    with distinct keys, exactly the queues owned by the connection go. *)
Lemma drop_exclusive_loop (connId : string) (qs : list (string * Queue)) :
  forall (b : Broker) (pre : list (string * Queue)),
    queues b = pre ++ qs ->
    NoDup (map fst (pre ++ qs)) ->
    queues (fold_left (dropExclusive connId) qs b)
    = pre ++ filter (fun e => negb (option_string_eqb
                                      (exclusiveConnectionId (snd e)) connId)) qs.
Proof.
  induction qs as [|[name q] qs IH]; intros b pre Hb Hnd; simpl.
  - exact Hb.
  - unfold dropExclusive at 2. simpl.
    destruct (option_string_eqb (exclusiveConnectionId q) connId) eqn:E; simpl.
    + apply IH.
      * simpl. rewrite Hb. clear IH Hb.
        induction pre as [|[k v] pre IHp]; simpl.
        -- rewrite String.eqb_refl. reflexivity.
        -- simpl in Hnd. inversion Hnd as [|? ? Hnotin Hnd']; subst.
           destruct (String.eqb k name) eqn:Ek.
           ++ apply String.eqb_eq in Ek. subst k. exfalso. apply Hnotin.
              rewrite map_app. apply in_or_app. right. left. reflexivity.
           ++ rewrite (IHp Hnd'). reflexivity.
      * rewrite map_app in *. simpl in Hnd. apply NoDup_remove_1 in Hnd. exact Hnd.
    + rewrite (IH b (pre ++ [(name, q)])).
      * rewrite <- app_assoc. reflexivity.
      * rewrite Hb, <- app_assoc. reflexivity.
      * rewrite <- app_assoc. exact Hnd.
Qed.

End BrokerSpec.

(** ** Frames on the wire *)

Module WireSpec.

Import Buf Codec Wire BufFacts CodecSpec.
Local Open Scope string_scope.
Local Open Scope list_scope.
Local Open Scope Z_scope.

Lemma skipn_length_app {A : Type} (a b : list A) : skipn (List.length a) (a ++ b) = b.
Proof. induction a; simpl; auto. Qed.

Lemma firstn_length_app {A : Type} (a b : list A) : firstn (List.length a) (a ++ b) = a.
Proof. induction a; simpl; f_equal; auto. Qed.

Lemma len_app (a b : list Z) : len (a ++ b) = len a + len b.
Proof. unfold len. rewrite length_app. lia. Qed.

Lemma len_cons (x : Z) (l : list Z) : len (x :: l) = 1 + len l.
Proof. unfold len. simpl List.length. lia. Qed.

Lemma len_be_bytes (n : nat) (v : Z) : len (be_bytes n v) = Z.of_nat n.
Proof. unfold len. now rewrite be_bytes_length. Qed.

(** The bytes of a built frame. *)
Lemma buildFrame_bytes (type channel : Z) (payload bytes : list Z) :
  buildFrame type channel payload = Ok bytes ->
  bytes = be_bytes 1 type ++ be_bytes 2 channel ++ be_bytes 4 (len payload)
          ++ payload ++ [FRAME_END]
  /\ 0 <= type < 256 /\ 0 <= channel < 65536 /\ len payload < 4294967296.
Proof.
  unfold buildFrame. intros H.
  invert_ok.
  apply writeUIntBE_inv in Ha as [-> Ht].
  apply writeUIntBE_inv in Ha0 as [-> Hc].
  apply writeUIntBE_inv in Ha1 as [-> Hs].
  subst bytes. repeat split; try lia.
Qed.


(** A buffer that starts with a frame header, a payload of the announced
    size and one more byte. *)
Lemma parseFrame_layout (type channel : Z) (payload : list Z) (e : Z)
  (rest : list Z) :
  0 <= type < 256 -> 0 <= channel < 65536 -> len payload < 4294967296 ->
  let buffer := be_bytes 1 type ++ be_bytes 2 channel
                ++ be_bytes 4 (len payload) ++ payload ++ e :: rest in
  hasCompleteFrame buffer = true
  /\ parseFrame buffer
     = if e =? FRAME_END then Ok (Some (mkFrame type channel payload), rest)
       else Throw.
Proof.
  intros Ht Hc Hs buffer.
  assert (Hlen : len buffer = 8 + len payload + len rest).
  { unfold buffer. rewrite !len_app, !len_be_bytes.
    rewrite len_cons. simpl Z.of_nat. lia. }
  assert (Hp : 0 <= len payload) by apply BrokerSpec.len_nonneg.
  assert (Hr : 0 <= len rest) by apply BrokerSpec.len_nonneg.
  assert (Hsize : readUInt32BE buffer 3 = Some (len payload)).
  { apply (readUIntBE_at 4 buffer 3 (len payload) (payload ++ e :: rest)).
    - unfold buffer. reflexivity.
    - change (256 ^ Z.of_nat 4) with 4294967296. lia. }
  assert (Hcomplete : hasCompleteFrame buffer = true).
  { unfold hasCompleteFrame. rewrite Hsize.
    destruct (len buffer <? 7) eqn:E; [apply Z.ltb_lt in E; lia|].
    apply Z.leb_le. lia. }
  split; [exact Hcomplete|].
  unfold parseFrame. rewrite Hcomplete. cbn [negb]. cbv iota.
  assert (Htype : readUInt8 buffer 0 = Some type).
  { apply (readUIntBE_at 1 buffer 0 type
             (be_bytes 2 channel ++ be_bytes 4 (len payload) ++ payload ++ e :: rest)).
    - reflexivity.
    - change (256 ^ Z.of_nat 1) with 256. lia. }
  assert (Hchan : readUInt16BE buffer 1 = Some channel).
  { apply (readUIntBE_at 2 buffer 1 channel
             (be_bytes 4 (len payload) ++ payload ++ e :: rest)).
    - reflexivity.
    - change (256 ^ Z.of_nat 2) with 65536. lia. }
  rewrite Htype, Hchan, Hsize. cbn [bind lift].
  assert (Hskip : skipn 7 buffer = payload ++ e :: rest) by reflexivity.
  rewrite len_to_nat.
  assert (Hend : readUInt8 buffer (7 + List.length payload) = Some e).
  { apply (readUInt8_at buffer _ e rest).
    apply (skipn_at buffer 7 payload (e :: rest) Hskip). }
  rewrite Hend. cbn [bind lift].
  destruct (e =? FRAME_END); cbn [negb]; cbv iota; [|reflexivity].
  f_equal. f_equal.
  - f_equal. f_equal. unfold Broker.subarray.
    replace (7 + len payload - 7) with (len payload) by lia.
    rewrite len_to_nat. change (Z.to_nat 7) with 7%nat. rewrite Hskip.
    apply firstn_length_app.
  - change (8 + List.length payload)%nat with (S (7 + List.length payload)).
    replace (S (7 + List.length payload)) with (7 + List.length payload + 1)%nat by lia.
    apply (skipn_cons_at buffer _ e rest).
    apply (skipn_at buffer 7 payload (e :: rest) Hskip).
Qed.


(** *** Reads that do not depend on what follows *)

Lemma Forall_firstn_ {A : Type} (P : A -> Prop) (n : nat) (l : list A) :
  Forall P l -> Forall P (firstn n l).
Proof.
  revert l. induction n; intros [|x l] H; simpl; auto.
  inversion H; subst. constructor; auto.
Qed.

Lemma Forall_skipn_ {A : Type} (P : A -> Prop) (n : nat) (l : list A) :
  Forall P l -> Forall P (skipn n l).
Proof.
  revert l. induction n; intros [|x l] H; simpl; auto.
  inversion H; subst. auto.
Qed.

Lemma be_value_nonneg (bs : list Z) : bytes bs -> 0 <= be_value bs.
Proof.
  induction 1 as [|b bs Hb _ IH].
  - unfold be_value. simpl. lia.
  - rewrite be_value_cons. unfold isByte in Hb.
    apply andb_true_iff in Hb as [Hb _]. apply Z.leb_le in Hb.
    assert (0 <= 256 ^ Z.of_nat (List.length bs)) by (apply Z.pow_nonneg; lia).
    nia.
Qed.

Lemma readUIntBE_nonneg (n : nat) (buffer : Buffer) (off : nat) (v : Z) :
  bytes buffer -> readUIntBE n buffer off = Some v -> 0 <= v.
Proof.
  unfold readUIntBE, slice. intros Hb H.
  destruct (Nat.eqb _ n); [|discriminate].
  injection H as <-. apply be_value_nonneg.
  apply Forall_firstn_, Forall_skipn_, Hb.
Qed.

Lemma readUIntBE_length (n : nat) (buffer : Buffer) (off : nat) (v : Z) :
  readUIntBE n buffer off = Some v -> (off + n <= List.length buffer)%nat \/ n = 0%nat.
Proof.
  unfold readUIntBE, slice. intros H.
  destruct (Nat.eqb _ n) eqn:E; [|discriminate].
  apply Nat.eqb_eq in E. rewrite length_firstn, length_skipn in E. lia.
Qed.

Lemma slice_app (buffer data : list Z) (off n : nat) :
  (off + n <= List.length buffer)%nat ->
  slice (buffer ++ data) off n = slice buffer off n.
Proof.
  intros H. unfold slice. rewrite skipn_app.
  replace (off - List.length buffer)%nat with 0%nat by lia.
  simpl skipn. rewrite firstn_app, length_skipn.
  replace (n - (List.length buffer - off))%nat with 0%nat by lia.
  simpl firstn. apply app_nil_r.
Qed.

Lemma readUIntBE_app (n : nat) (buffer data : list Z) (off : nat) :
  (off + n <= List.length buffer)%nat ->
  readUIntBE n (buffer ++ data) off = readUIntBE n buffer off.
Proof. intros H. unfold readUIntBE. now rewrite slice_app. Qed.

Lemma len_length (l : list Z) (n : nat) : len l = Z.of_nat n -> List.length l = n.
Proof. unfold len. lia. Qed.

(** A complete frame at the front of the buffer is parsed the same
    whatever follows it. *)
Lemma parseFrame_app (buffer data : list Z) :
  bytes buffer -> hasCompleteFrame buffer = true ->
  hasCompleteFrame (buffer ++ data) = true
  /\ parseFrame (buffer ++ data)
     = match parseFrame buffer with
       | Ok (frame, rest) => Ok (frame, rest ++ data)
       | Throw => Throw
       | OutOfFuel => OutOfFuel
       end.
Proof.
  intros Hb Hc.
  assert (Hc' := Hc). unfold hasCompleteFrame in Hc'.
  destruct (len buffer <? 7) eqn:E7; [discriminate|]. apply Z.ltb_ge in E7.
  destruct (readUInt32BE buffer 3) as [size|] eqn:Esize; [|discriminate].
  apply Z.leb_le in Hc'.
  assert (H0 : 0 <= size) by (eapply readUIntBE_nonneg; eauto).
  assert (Hn : (8 + Z.to_nat size <= List.length buffer)%nat) by (unfold len in *; lia).
  assert (Esize' : readUInt32BE (buffer ++ data) 3 = Some size).
  { unfold readUInt32BE. rewrite readUIntBE_app; [exact Esize | lia]. }
  assert (Hcomplete : hasCompleteFrame (buffer ++ data) = true).
  { unfold hasCompleteFrame. rewrite Esize', len_app.
    assert (0 <= len data) by apply BrokerSpec.len_nonneg.
    destruct (len buffer + len data <? 7) eqn:E; [apply Z.ltb_lt in E; lia|].
    apply Z.leb_le. lia. }
  split; [exact Hcomplete|].
  unfold parseFrame. rewrite Hc, Hcomplete. cbn [negb]. cbv iota.
  unfold readUInt8, readUInt16BE.
  rewrite !readUIntBE_app by lia.
  destruct (readUIntBE 1 buffer 0) as [type|]; [|reflexivity]. cbn [bind lift].
  destruct (readUIntBE 2 buffer 1) as [channel|]; [|reflexivity]. cbn [bind lift].
  rewrite Esize', Esize. cbn [bind lift].
  rewrite !readUIntBE_app by lia.
  destruct (readUIntBE 1 buffer (7 + Z.to_nat size)) as [e|]; [|reflexivity].
  cbn [bind lift].
  destruct (negb (e =? FRAME_END)); [reflexivity|].
  f_equal. f_equal.
  - f_equal. f_equal. unfold Broker.subarray.
    replace (7 + size - 7) with size by lia. change (Z.to_nat 7) with 7%nat.
    apply (slice_app buffer data 7 (Z.to_nat size)). lia.
  - rewrite skipn_app.
    replace (8 + Z.to_nat size - List.length buffer)%nat with 0%nat by lia.
    reflexivity.
Qed.

(** A frame that parses takes at least eight bytes off the buffer. *)
Lemma parseFrame_shrinks (buffer rest : list Z) (frame : option AMQPFrame) :
  hasCompleteFrame buffer = true -> parseFrame buffer = Ok (frame, rest) ->
  (List.length rest + 8 <= List.length buffer)%nat
  /\ exists n, rest = skipn n buffer.
Proof.
  intros Hc H. unfold parseFrame in H. rewrite Hc in H. cbn [negb] in H.
  cbv iota in H. invert_ok.
  destruct (negb (a2 =? FRAME_END)); [discriminate|].
  assert (Hrest : rest = skipn (8 + Z.to_nat a1) buffer) by congruence.
  apply readUIntBE_length in Ha2 as [Ha2|Ha2]; [|discriminate].
  split; [|eauto]. rewrite Hrest, length_skipn. lia.
Qed.

Section FrameLoop.

Variable State : Type.
Variable handleFrame : State -> AMQPFrame -> Handled State.

Local Abbreviation parseFrames := (Wire.parseFrames handleFrame).
Local Abbreviation onData := (Wire.onData handleFrame).
Local Abbreviation handleEach := (Wire.handleEach handleFrame).

Lemma parseFrames_mono (fuel : nat) :
  forall (fuel' : nat) (s : State) (buffer : list Z) l,
    parseFrames fuel s buffer = Some l -> (fuel <= fuel')%nat ->
    parseFrames fuel' s buffer = Some l.
Proof.
  induction fuel as [|fuel IH]; intros fuel' s buffer l H Hle.
  - simpl in H. destruct fuel'; simpl;
      destruct (hasCompleteFrame buffer); try discriminate; exact H.
  - destruct fuel' as [|fuel']; [lia|].
    simpl in *. destruct (hasCompleteFrame buffer); [|exact H].
    destruct (parseFrame buffer) as [[[frame|] rest]| |]; try exact H.
    + destruct (handleFrame s frame) as [s'|s'|s']; try exact H.
      destruct (Wire.parseFrames handleFrame fuel s' rest) as [l'|] eqn:E;
        [|discriminate].
      rewrite (IH fuel' s' rest _ E) by lia. exact H.
    + apply (IH fuel' s rest l H). lia.
Qed.

(** The loop is over within [buffer.length] turns. *)
Lemma parseFrames_ends (fuel : nat) :
  forall (s : State) (buffer : list Z),
    (List.length buffer <= fuel)%nat ->
    exists l,
      parseFrames fuel s buffer = Some l
      /\ (List.length (bufferLeft l) + 8 * List.length (handled l)
          <= List.length buffer)%nat
      /\ (ending l = Drained -> hasCompleteFrame (bufferLeft l) = false)
      /\ ((forall s0 f s', handleFrame s0 f <> NeverReturns s') ->
          ending l <> Stuck).
Proof.
  induction fuel as [|fuel IH]; intros s buffer Hlen.
  - destruct buffer; [|simpl in Hlen; lia]. simpl.
    eexists. split; [reflexivity|]. simpl. repeat split; auto. discriminate.
  - simpl. destruct (hasCompleteFrame buffer) eqn:Hc.
    + destruct (parseFrame buffer) as [[frame rest]| |] eqn:Hp.
      * destruct (parseFrame_shrinks _ _ _ Hc Hp) as [Hsh _].
        destruct frame as [frame|].
        -- destruct (handleFrame s frame) as [s'|s'|s'] eqn:Hh.
           ++ destruct (IH s' rest) as (l & Hr & Hsize & Hdone & Hstuck); [lia|].
              rewrite Hr. eexists. split; [reflexivity|]. simpl.
              split; [lia|]. split; [exact Hdone|exact Hstuck].
           ++ eexists. split; [reflexivity|]. simpl.
              split; [lia|]. split; discriminate.
           ++ eexists. split; [reflexivity|]. simpl.
              split; [lia|]. split; [discriminate|].
              intros Hnever _. exact (Hnever _ _ _ Hh).
        -- destruct (IH s rest) as (l & Hr & Hsize & Hdone & Hstuck); [lia|].
           rewrite Hr. exists l. split; [reflexivity|].
           split; [lia|]. split; [exact Hdone|exact Hstuck].
      * eexists. split; [reflexivity|]. simpl. split; [lia|]. split; discriminate.
      * eexists. split; [reflexivity|]. simpl. split; [lia|]. split; discriminate.
    + eexists. split; [reflexivity|]. simpl.
      split; [lia|]. split; [auto|discriminate].
Qed.

Lemma parseFrames_app (fuel : nat) :
  forall (s : State) (buffer data : list Z) frames s1 rest fuel2 l2,
    bytes buffer ->
    parseFrames fuel s buffer = Some (mkLoop frames s1 rest Drained) ->
    parseFrames fuel2 s1 (rest ++ data) = Some l2 ->
    parseFrames (fuel + fuel2) s (buffer ++ data)
    = Some (mkLoop (frames ++ handled l2) (stateLeft l2) (bufferLeft l2)
              (ending l2)).
Proof.
  induction fuel as [|fuel IH];
    intros s buffer data frames s1 rest fuel2 l2 Hb H H2.
  - simpl in H. destruct (hasCompleteFrame buffer); [discriminate|].
    injection H as <- <- <-. simpl. rewrite H2. destruct l2; reflexivity.
  - simpl in H. destruct (hasCompleteFrame buffer) eqn:Hc.
    + destruct (parseFrame_app buffer data Hb Hc) as [Hc' Hp'].
      simpl. rewrite Hc', Hp'.
      destruct (parseFrame buffer) as [[frame r]| |] eqn:Hp; try discriminate.
      destruct (parseFrame_shrinks _ _ _ Hc Hp) as [_ [n ->]].
      destruct frame as [frame|].
      * destruct (handleFrame s frame) as [s'|s'|s']; try discriminate.
        destruct (Wire.parseFrames handleFrame fuel s' (skipn n buffer))
          as [l|] eqn:E; [|discriminate].
        destruct l as [fs s0 final e]. simpl in H. injection H as <- <- <- ->.
        rewrite (IH s' _ data fs s0 final fuel2 l2 (Forall_skipn_ _ n _ Hb) E H2).
        reflexivity.
      * apply (IH s _ data frames s1 rest fuel2 l2 (Forall_skipn_ _ n _ Hb) H H2).
    + injection H as <- <- <-.
      rewrite (parseFrames_mono fuel2 (S fuel + fuel2) _ _ _ H2) by lia.
      destruct l2; reflexivity.
Qed.

End FrameLoop.

Lemma parse_built_frame (type channel : Z) (payload bs rest : list Z) :
  buildFrame type channel payload = Ok bs ->
  hasCompleteFrame (bs ++ rest) = true
  /\ parseFrame (bs ++ rest) = Ok (Some (mkFrame type channel payload), rest).
Proof.
  intros H. apply buildFrame_bytes in H as [-> [Ht [Hc Hs]]].
  destruct (parseFrame_layout type channel payload FRAME_END rest Ht Hc Hs)
    as [H1 H2].
  repeat rewrite <- app_assoc. simpl app in *. split; [exact H1|exact H2].
Qed.

Lemma built_frame_length (type channel : Z) (payload bs : list Z) :
  buildFrame type channel payload = Ok bs -> len bs = len payload + 8.
Proof.
  intros H. apply buildFrame_bytes in H as [-> _].
  rewrite !len_app, !len_be_bytes, len_cons.
  change (len []) with 0. simpl Z.of_nat. lia.
Qed.

Lemma frame_parse_nil (type channel : Z) (payload bs : list Z) :
  buildFrame type channel payload = Ok bs ->
  parseFrame bs = Ok (Some (mkFrame type channel payload), []).
Proof.
  intros H. pose proof (proj2 (parse_built_frame _ _ _ _ [] H)) as Hp.
  now rewrite app_nil_r in Hp.
Qed.

(** X1: what [buildFrame] produces, [parseFrame] gives back: type,
    channel and payload, with the bytes after the frame left in the
    buffer. *)
Theorem frame_roundtrip (type channel : Z) (payload bs rest : list Z) :
  buildFrame type channel payload = Ok bs ->
  parseFrame (append bs rest) = Ok (Some (mkFrame type channel payload), rest).
Proof. intros H. exact (proj2 (parse_built_frame _ _ _ _ rest H)). Qed.

Lemma frame_roundtrip_witness :
  parseFrame (append [3; 0; 1; 0; 0; 0; 2; 104; 105; 206] [1; 0])
  = Ok (Some (mkFrame 3 1 [104; 105]), [1; 0]).
Proof. apply (frame_roundtrip 3 1 [104; 105]). reflexivity. Defined.

(** X2: while only part of a frame has arrived, [parseFrame] returns
    [null] and leaves the buffer alone. *)
Theorem partial_frame_waits (type channel : Z) (payload bs : list Z) (n : nat) :
  buildFrame type channel payload = Ok bs ->
  (n < List.length bs)%nat ->
  parseFrame (firstn n bs) = Ok (None, firstn n bs).
Proof.
  intros H Hn.
  assert (Hl := built_frame_length _ _ _ _ H).
  apply buildFrame_bytes in H as [-> [Ht [Hc Hs]]].
  set (bs := be_bytes 1 type ++ be_bytes 2 channel ++ be_bytes 4 (len payload)
             ++ payload ++ [FRAME_END]) in *.
  assert (Hf : hasCompleteFrame (firstn n bs) = false).
  { unfold hasCompleteFrame.
    assert (Hlen : len (firstn n bs) = Z.of_nat n).
    { unfold len. rewrite length_firstn. lia. }
    rewrite Hlen.
    destruct (Z.of_nat n <? 7) eqn:E; [reflexivity|]. apply Z.ltb_ge in E.
    assert (Hsize : readUInt32BE (firstn n bs) 3 = Some (len payload)).
    { destruct n as [|[|[|[|[|[|[|n]]]]]]]; try lia.
      apply (readUIntBE_at 4 _ 3 (len payload)
               (firstn n (payload ++ [FRAME_END]))).
      - unfold bs. reflexivity.
      - change (256 ^ Z.of_nat 4) with 4294967296.
        pose proof (BrokerSpec.len_nonneg payload). lia. }
    rewrite Hsize. apply Z.leb_gt. unfold len in *. lia. }
  unfold parseFrame. rewrite Hf. reflexivity.
Qed.

Lemma partial_frame_waits_witness :
  parseFrame (firstn 9 [3; 0; 1; 0; 0; 0; 2; 104; 105; 206])
  = Ok (None, firstn 9 [3; 0; 1; 0; 0; 0; 2; 104; 105; 206]).
Proof.
  apply (partial_frame_waits 3 1 [104; 105]); [reflexivity | simpl; lia].
Defined.

Section FrameLoop.

Variable State : Type.
Variable handleFrame : State -> AMQPFrame -> Handled State.

Local Abbreviation parseFrames := (Wire.parseFrames handleFrame).
Local Abbreviation onData := (Wire.onData handleFrame).
Local Abbreviation handleEach := (Wire.handleEach handleFrame).

(** While the handler returns, built frames are handed on in order. *)
Lemma parse_built_frames (frames : list AMQPFrame) (chunks : list (list Z))
  (tail : list Z) :
  Forall2 (fun f bs => buildFrame (fr_type f) (fr_channel f) (fr_payload f) = Ok bs)
    frames chunks ->
  hasCompleteFrame tail = false ->
  forall (fuel : nat) (s s' : State),
    (List.length (List.concat chunks ++ tail) <= fuel)%nat ->
    handleEach s frames = Some s' ->
    parseFrames fuel s (List.concat chunks ++ tail)
    = Some (mkLoop frames s' tail Drained).
Proof.
  intros HF Htail.
  induction HF as [|f bs frames chunks Hb _ IH]; intros fuel s s' Hfuel Heach.
  - simpl in Heach. injection Heach as <-.
    simpl. destruct fuel; simpl; rewrite Htail; reflexivity.
  - simpl List.concat in *. rewrite <- app_assoc in *.
    destruct (parse_built_frame _ _ _ _ (List.concat chunks ++ tail) Hb)
      as [Hc Hp].
    assert (Hl := built_frame_length _ _ _ _ Hb).
    pose proof (BrokerSpec.len_nonneg (fr_payload f)).
    rewrite length_app in Hfuel. unfold len in Hl.
    destruct fuel as [|fuel]; [lia|].
    simpl in Heach. simpl. rewrite Hc, Hp.
    replace (mkFrame (fr_type f) (fr_channel f) (fr_payload f)) with f
      by (destruct f; reflexivity).
    destruct (handleFrame s f) as [s0|s0|s0]; try discriminate.
    rewrite (IH fuel s0 s') by (assumption || lia). reflexivity.
Qed.

(** The loop is left at the first frame whose handler does not return;
    the frames behind it stay in the buffer. *)
Lemma parse_built_frames_stop (frames : list AMQPFrame) (chunks : list (list Z))
  (tail : list Z) :
  Forall2 (fun f bs => buildFrame (fr_type f) (fr_channel f) (fr_payload f) = Ok bs)
    frames chunks ->
  forall (k : nat) (f : AMQPFrame) (fuel : nat) (s s1 : State),
    (List.length (List.concat chunks ++ tail) <= fuel)%nat ->
    nth_error frames k = Some f ->
    handleEach s (firstn k frames) = Some s1 ->
    parseFrames fuel s (List.concat chunks ++ tail)
    = match handleFrame s1 f with
      | Returns _ => parseFrames fuel s (List.concat chunks ++ tail)
      | Throws s2 =>
          Some (mkLoop (firstn (S k) frames) s2
                  (List.concat (skipn (S k) chunks) ++ tail) Caught)
      | NeverReturns s2 =>
          Some (mkLoop (firstn (S k) frames) s2
                  (List.concat (skipn (S k) chunks) ++ tail) Stuck)
      end.
Proof.
  intros HF.
  induction HF as [|f0 bs frames chunks Hb _ IH]; intros k f fuel s s1 Hfuel Hk Heach.
  - destruct k; discriminate.
  - simpl List.concat in *. rewrite <- app_assoc in *.
    destruct (parse_built_frame _ _ _ _ (List.concat chunks ++ tail) Hb)
      as [Hc Hp].
    assert (Hl := built_frame_length _ _ _ _ Hb).
    pose proof (BrokerSpec.len_nonneg (fr_payload f0)).
    rewrite length_app in Hfuel. unfold len in Hl.
    destruct fuel as [|fuel]; [lia|].
    assert (Hf0 : mkFrame (fr_type f0) (fr_channel f0) (fr_payload f0) = f0)
      by (destruct f0; reflexivity).
    destruct k as [|k].
    + simpl in Hk, Heach. injection Hk as ->. injection Heach as ->.
      destruct (handleFrame s1 f) as [s2|s2|s2] eqn:Hh; [reflexivity| |];
        simpl; rewrite Hc, Hp, Hf0, Hh; reflexivity.
    + simpl in Hk, Heach.
      destruct (handleFrame s f0) as [s0|s0|s0] eqn:Hh0; try discriminate.
      assert (Hfuel' : (List.length (List.concat chunks ++ tail) <= fuel)%nat) by lia.
      pose proof (IH k f fuel s0 s1 Hfuel' Hk Heach) as Hrec.
      destruct (handleFrame s1 f) as [s2|s2|s2]; [reflexivity| |];
        simpl; rewrite Hc, Hp, Hf0, Hh0, Hrec; reflexivity.
Qed.

(** X3: frames written one after the other are read and handed to
    [handleFrame] one after the other, in order, by a single [data]
    event.  When every call returns, all of them are handled and only an
    unfinished frame behind them stays in the buffer.  When a call
    throws or does not return, the loop is left there: the frames behind
    that one are not read and stay in the buffer. *)
Theorem frames_parse_in_order (s : State) (frames : list AMQPFrame)
  (chunks : list (list Z)) (tail : list Z) :
  Forall2 (fun f bs => buildFrame (fr_type f) (fr_channel f) (fr_payload f) = Ok bs)
    frames chunks ->
  hasCompleteFrame tail = false ->
  (forall s' : State,
     handleEach s frames = Some s' ->
     onData s [] (List.concat chunks ++ tail)
     = Some (mkLoop frames s' tail Drained))
  /\ (forall (k : nat) (f : AMQPFrame) (s1 s2 : State),
        nth_error frames k = Some f ->
        handleEach s (firstn k frames) = Some s1 ->
        (handleFrame s1 f = Throws s2 ->
         onData s [] (List.concat chunks ++ tail)
         = Some (mkLoop (firstn (S k) frames) s2
                   (List.concat (skipn (S k) chunks) ++ tail) Caught))
        /\ (handleFrame s1 f = NeverReturns s2 ->
            onData s [] (List.concat chunks ++ tail)
            = Some (mkLoop (firstn (S k) frames) s2
                      (List.concat (skipn (S k) chunks) ++ tail) Stuck))).
Proof.
  intros HF Htail. unfold Wire.onData, append. simpl app. split.
  - intros s' Heach. apply parse_built_frames; auto.
  - intros k f s1 s2 Hk Heach.
    pose proof (parse_built_frames_stop frames chunks tail HF k f
                  (List.length (List.concat chunks ++ tail)) s s1
                  (Nat.le_refl _) Hk Heach) as Hstop.
    split; intros Hh; rewrite Hh in Hstop; exact Hstop.
Qed.

(** X28: the frame loop of the data handler comes to an end on every
    input unless a call of [handleFrame] does not return: it stops when
    no complete frame is left, when [parseFrame] or the handler throws,
    or it hangs in a handler; every frame handed on has taken at least
    eight bytes of the input. *)
Theorem frame_loop_terminates (s : State) (buffer data : list Z) :
  exists l,
    onData s buffer data = Some l
    /\ (List.length (bufferLeft l) + 8 * List.length (handled l)
        <= List.length (append buffer data))%nat
    /\ (ending l = Drained -> hasCompleteFrame (bufferLeft l) = false)
    /\ ((forall s0 f s', handleFrame s0 f <> NeverReturns s') ->
        ending l <> Stuck).
Proof. unfold Wire.onData. apply parseFrames_ends. lia. Qed.

(** X4: how the byte stream is cut into [data] events does not matter
    when the loop of the first event is left normally and the second
    event finds the broker as the first left it: one event with all the
    bytes hands the same frames to [handleFrame], in the same order, and
    ends as the second event does. *)
Theorem segmentation (s s1 : State) (buffer d1 d2 : list Z)
  (frames1 : list AMQPFrame) (rest1 : list Z) (l2 : Loop State) :
  bytes (buffer ++ d1) ->
  onData s buffer d1 = Some (mkLoop frames1 s1 rest1 Drained) ->
  onData s1 rest1 d2 = Some l2 ->
  onData s buffer (d1 ++ d2)
  = Some (mkLoop (frames1 ++ handled l2) (stateLeft l2) (bufferLeft l2)
            (ending l2)).
Proof.
  unfold Wire.onData, append. intros Hb H1 H2.
  pose proof (parseFrames_app State handleFrame _ _ _ d2 _ _ _ _ _ Hb H1 H2) as H.
  rewrite <- app_assoc in H.
  destruct (parseFrames_ends State handleFrame
              (List.length (buffer ++ d1 ++ d2)) s (buffer ++ d1 ++ d2))
    as [l [Hl _]]; [lia|].
  rewrite Hl.
  set (m := (List.length (buffer ++ d1 ++ d2)
             + (List.length (buffer ++ d1) + List.length (rest1 ++ d2)))%nat).
  apply (parseFrames_mono State handleFrame _ m) in Hl; [|unfold m; lia].
  apply (parseFrames_mono State handleFrame _ m) in H; [|unfold m; lia].
  rewrite Hl in H. exact H.
Qed.

(** X5: a frame whose end marker is wrong stops the parser for good:
    [parseFrame] throws without consuming anything, so it throws again on
    every later [data] event, and no further frame is read or
    handled. *)
Theorem corrupt_frame_blocks_parser (s : State) (buffer data : list Z) :
  bytes buffer -> parseFrame buffer = Throw ->
  parseFrame (append buffer data) = Throw
  /\ onData s buffer data = Some (mkLoop [] s (append buffer data) Caught).
Proof.
  intros Hb Ht.
  assert (Hc : hasCompleteFrame buffer = true).
  { unfold parseFrame in Ht. destruct (hasCompleteFrame buffer); [reflexivity|].
    discriminate. }
  destruct (parseFrame_app buffer data Hb Hc) as [Hc' Hp]. rewrite Ht in Hp.
  unfold Wire.onData, append. split; [exact Hp|].
  destruct (List.length (buffer ++ data)) eqn:E.
  - apply length_zero_iff_nil in E. rewrite E in Hc'. discriminate.
  - simpl. rewrite Hc', Hp. reflexivity.
Qed.

End FrameLoop.

Lemma frames_parse_in_order_witness :
  Wire.onData recordFrames []
    [] (List.concat [[8; 0; 0; 0; 0; 0; 0; 206];
                     [3; 0; 1; 0; 0; 0; 2; 104; 105; 206];
                     [8; 0; 0; 0; 0; 0; 0; 206]] ++ [1; 0; 1])
  = Some (mkLoop [mkFrame 8 0 []; mkFrame 3 1 [104; 105]; mkFrame 8 0 []]
            [mkFrame 8 0 []; mkFrame 3 1 [104; 105]; mkFrame 8 0 []]
            [1; 0; 1] Drained)
  /\ Wire.onData refuseBody []
       [] (List.concat [[8; 0; 0; 0; 0; 0; 0; 206];
                        [3; 0; 1; 0; 0; 0; 2; 104; 105; 206];
                        [8; 0; 0; 0; 0; 0; 0; 206]] ++ [1; 0; 1])
     = Some (mkLoop [mkFrame 8 0 []; mkFrame 3 1 [104; 105]] [mkFrame 8 0 []]
               ([8; 0; 0; 0; 0; 0; 0; 206] ++ [1; 0; 1]) Caught).
Proof.
  split.
  - apply (proj1 (frames_parse_in_order _ recordFrames []
                    [mkFrame 8 0 []; mkFrame 3 1 [104; 105]; mkFrame 8 0 []]
                    _ [1; 0; 1] ltac:(repeat constructor) eq_refl)).
    reflexivity.
  - apply (proj2 (frames_parse_in_order _ refuseBody []
                    [mkFrame 8 0 []; mkFrame 3 1 [104; 105]; mkFrame 8 0 []]
                    _ [1; 0; 1] ltac:(repeat constructor) eq_refl)
             1%nat (mkFrame 3 1 [104; 105]) [mkFrame 8 0 []] [mkFrame 8 0 []]);
      reflexivity.
Defined.

Lemma segmentation_witness :
  Wire.onData recordFrames []
    [] ([3; 0; 1; 0; 0; 0; 2; 104] ++ [105; 206; 8; 0; 0; 0; 0; 0; 0; 206])
  = Some (mkLoop ([] ++ [mkFrame 3 1 [104; 105]; mkFrame 8 0 []])
            [mkFrame 3 1 [104; 105]; mkFrame 8 0 []] [] Drained).
Proof.
  apply (segmentation _ recordFrames [] [] [] _ _ [] [3; 0; 1; 0; 0; 0; 2; 104]
           (mkLoop [mkFrame 3 1 [104; 105]; mkFrame 8 0 []]
              [mkFrame 3 1 [104; 105]; mkFrame 8 0 []] [] Drained)).
  - repeat constructor.
  - reflexivity.
  - reflexivity.
Defined.

Lemma corrupt_frame_blocks_parser_witness :
  parseFrame (append [8; 0; 0; 0; 0; 0; 0; 0] [8; 0; 0; 0; 0; 0; 0; 206]) = Throw
  /\ Wire.onData recordFrames [] [8; 0; 0; 0; 0; 0; 0; 0] [8; 0; 0; 0; 0; 0; 0; 206]
     = Some (mkLoop [] []
               (append [8; 0; 0; 0; 0; 0; 0; 0] [8; 0; 0; 0; 0; 0; 0; 206]) Caught).
Proof.
  apply (corrupt_frame_blocks_parser _ recordFrames [] [8; 0; 0; 0; 0; 0; 0; 0]).
  - repeat constructor.
  - reflexivity.
Defined.

(** X6: a method frame carries its class id, method id and arguments
    through [buildMethodFrame], [parseFrame] and [parseMethodFrame]. *)
Theorem method_frame_roundtrip (channel classId methodId : Z)
  (argsBuffer bs : list Z) :
  buildMethodFrame channel classId methodId argsBuffer = Ok bs ->
  exists payload,
    parseFrame bs = Ok (Some (mkFrame FRAME_METHOD channel payload), [])
    /\ parseMethodFrame payload = Ok (mkMethod classId methodId argsBuffer).
Proof.
  unfold buildMethodFrame. intros H. invert_ok.
  exists (a ++ a0 ++ argsBuffer). split.
  - pose proof (frame_parse_nil _ _ _ _ H) as Hp. exact Hp.
  - unfold parseMethodFrame, readUInt16BE.
    destruct (read_written_uint 2 (a ++ a0 ++ argsBuffer) 0 classId a
                (a0 ++ argsBuffer) Ha eq_refl) as [-> Hla].
    assert (Hs : skipn 2 (a ++ a0 ++ argsBuffer) = a0 ++ argsBuffer).
    { rewrite <- Hla. apply skipn_length_app. }
    destruct (read_written_uint 2 (a ++ a0 ++ argsBuffer) 2 methodId a0
                argsBuffer Ha0 Hs) as [-> Hla0].
    cbn [bind lift]. f_equal. f_equal.
    change 4%nat with (2 + 2)%nat. rewrite <- skipn_skipn, Hs.
    rewrite <- Hla0. apply skipn_length_app.
Qed.

Lemma method_frame_roundtrip_witness :
  exists payload,
    parseFrame [1; 0; 1; 0; 0; 0; 5; 0; 60; 0; 80; 7; 206]
    = Ok (Some (mkFrame FRAME_METHOD 1 payload), [])
    /\ parseMethodFrame payload = Ok (mkMethod 60 80 [7]).
Proof. apply (method_frame_roundtrip 1 60 80 [7]). reflexivity. Defined.


(** *** Content header *)

Lemma part_ok {A : Type} (flag : Z) (field : option A)
  (encode : A -> result (list Z)) (acc acc' : Z * list Z) :
  part flag field encode acc = Ok acc' ->
  exists p,
    acc' = (Z.lor (fst acc) (flagOf flag field), snd acc ++ p)
    /\ match field with Some v => encode v = Ok p | None => p = [] end.
Proof.
  unfold part. destruct field as [v|]; intros H.
  - invert_ok. exists a. split; [now subst|exact Ha].
  - injection H as <-. exists []. simpl. rewrite Z.lor_0_r, app_nil_r.
    split; [now destruct acc|reflexivity].
Qed.

Lemma land_flagOf {A : Type} (F G : Z) (f : option A) :
  Z.land (flagOf F f) G = flagOf (Z.land F G) f.
Proof. destruct f; reflexivity. Qed.

Lemma flagOf_0 {A : Type} (f : option A) : flagOf 0 f = 0.
Proof. destruct f; reflexivity. Qed.

(** One block of the parser against one block of the encoder. *)
Lemma readPart_step {A : Type} (flags flag : Z) (field : option A)
  (encode : A -> result (list Z)) (read : nat -> result (A * nat))
  (p : list Z) (off : nat) (buf rest : list Z) :
  Z.land flags flag = flagOf flag field -> flag <> 0 ->
  match field with Some v => encode v = Ok p | None => p = [] end ->
  (forall v, field = Some v -> encode v = Ok p -> skipn off buf = p ++ rest ->
             read off = Ok (v, List.length p)) ->
  skipn off buf = p ++ rest ->
  readPart flags flag read off = Ok (field, (off + List.length p)%nat)
  /\ skipn (off + List.length p) buf = rest.
Proof.
  intros Hland Hflag Hfield Hread Hskip. unfold readPart. rewrite Hland.
  split; [|exact (skipn_at buf off p rest Hskip)].
  destruct field as [v|]; simpl flagOf.
  - apply Z.eqb_neq in Hflag. rewrite Hflag. cbn [negb].
    rewrite (Hread v eq_refl Hfield Hskip). reflexivity.
  - subst p. simpl. now rewrite Nat.add_0_r.
Qed.

Lemma read_encoded_string (payload : list Z) (v : string) (p : list Z)
  (off : nat) (rest : list Z) :
  encodeShortString v = Ok p -> skipn off payload = p ++ rest ->
  readShortString payload off = Ok (v, List.length p).
Proof. intros H Hs. exact (proj1 (read_short_string v p payload off rest H Hs)). Qed.

Lemma read_encoded_octet (payload : list Z) (v : Z) (p : list Z)
  (off : nat) (rest : list Z) :
  encodeUInt8 v = Ok p -> skipn off payload = p ++ rest ->
  readOctet payload off = Ok (v, List.length p).
Proof.
  unfold encodeUInt8, readOctet, readUInt8. intros H Hs. apply lift_ok in H.
  destruct (read_written_uint 1 payload off v p rest H Hs) as [-> ->].
  reflexivity.
Qed.

Lemma numberOfBigInt_safe (v : Z) : 0 <= v < 2 ^ 53 -> numberOfBigInt v = v.
Proof.
  intros H. unfold numberOfBigInt.
  assert (Z.log2 v < 53).
  { destruct (Z.eq_dec v 0) as [->|Hn]; [reflexivity|].
    apply Z.log2_lt_pow2; lia. }
  destruct (Z.log2 v <? 53) eqn:E; [reflexivity|]. apply Z.ltb_ge in E. lia.
Qed.

Lemma read_encoded_timestamp (payload : list Z) (v : Z) (p : list Z)
  (off : nat) (rest : list Z) :
  v < 2 ^ 53 ->
  encodeTimestamp v = Ok p -> skipn off payload = p ++ rest ->
  readTimestamp payload off = Ok (v, List.length p).
Proof.
  unfold encodeTimestamp, readTimestamp, readBigUInt64BE. intros Hv H Hs.
  apply lift_ok in H.
  destruct (writeUIntBE_inv _ _ _ H) as [_ Hr].
  destruct (read_written_uint 8 payload off v p rest H Hs) as [-> ->].
  cbn [bind lift]. rewrite numberOfBigInt_safe by lia. reflexivity.
Qed.

Lemma read_encoded_table (decimalNumber : Z -> Z -> number) (fuel : nat)
  (payload : list Z) (T : FieldTable) (p : list Z) (off : nat) (rest : list Z) :
  survivesTable T = true -> (List.length p < fuel)%nat ->
  encodeFieldTable T = Ok p -> skipn off payload = p ++ rest ->
  readFieldTable decimalNumber fuel payload off = Ok (T, List.length p).
Proof.
  intros Hsurv Hfuel H Hs. unfold encodeFieldTable in H. invert_ok. subst p.
  apply (read_table_at decimalNumber T a a0 payload off rest fuel); auto.
  apply Forall_forall. intros kv _. apply reads_every_value.
Qed.


Ltac land_flag :=
  rewrite ?Z.land_lor_distr_l, ?land_flagOf;
  cbv [CONTENT_TYPE CONTENT_ENCODING HEADERS DELIVERY_MODE PRIORITY
       CORRELATION_ID REPLY_TO EXPIRATION MESSAGE_ID TIMESTAMP TYPE USER_ID
       APP_ID CLUSTER_ID];
  repeat match goal with
         | |- context [Z.land (Zpos ?a) (Zpos ?b)] =>
             let v := eval vm_compute in (Z.land (Zpos a) (Zpos b)) in
             change (Z.land (Zpos a) (Zpos b)) with v
         end;
  rewrite ?flagOf_0, ?Z.land_0_l, ?Z.lor_0_r, ?Z.lor_0_l; reflexivity.

Section Header.

Variable decimalNumber : Z -> Z -> number.

Lemma parse_encoded_header (bodySize : Z) (p : Broker.MessageProperties)
  (flags : Z) (buf : list Z) (fuel : nat) :
  propertiesSurvive p = true ->
  encodeProperties p = Ok (flags, buf) ->
  0 <= bodySize < 256 ^ Z.of_nat 8 -> 0 <= flags < 256 ^ Z.of_nat 2 ->
  let payload := be_bytes 2 Broker.CLASS_BASIC ++ be_bytes 2 0
                 ++ be_bytes 8 bodySize ++ be_bytes 2 flags ++ buf in
  (List.length payload < fuel)%nat ->
  parseContentHeader decimalNumber fuel payload
  = Ok (mkHeader Broker.CLASS_BASIC 0 bodySize flags p).
Proof.
  intros Hsurv Henc Hsize Hflags payload Hfuel.
  unfold propertiesSurvive in Hsurv. apply andb_true_iff in Hsurv as [Hheaders Htime].
  unfold encodeProperties in Henc.
  apply bind_ok in Henc as [acc1 [Hacc Henc]].
  apply part_ok in Hacc as [p1 [-> Hp1]]. cbn [fst snd] in Henc.
  apply bind_ok in Henc as [acc2 [Hacc Henc]].
  apply part_ok in Hacc as [p2 [-> Hp2]]. cbn [fst snd] in Henc.
  apply bind_ok in Henc as [acc3 [Hacc Henc]].
  apply part_ok in Hacc as [p3 [-> Hp3]]. cbn [fst snd] in Henc.
  apply bind_ok in Henc as [acc4 [Hacc Henc]].
  apply part_ok in Hacc as [p4 [-> Hp4]]. cbn [fst snd] in Henc.
  apply bind_ok in Henc as [acc5 [Hacc Henc]].
  apply part_ok in Hacc as [p5 [-> Hp5]]. cbn [fst snd] in Henc.
  apply bind_ok in Henc as [acc6 [Hacc Henc]].
  apply part_ok in Hacc as [p6 [-> Hp6]]. cbn [fst snd] in Henc.
  apply bind_ok in Henc as [acc7 [Hacc Henc]].
  apply part_ok in Hacc as [p7 [-> Hp7]]. cbn [fst snd] in Henc.
  apply bind_ok in Henc as [acc8 [Hacc Henc]].
  apply part_ok in Hacc as [p8 [-> Hp8]]. cbn [fst snd] in Henc.
  apply bind_ok in Henc as [acc9 [Hacc Henc]].
  apply part_ok in Hacc as [p9 [-> Hp9]]. cbn [fst snd] in Henc.
  apply bind_ok in Henc as [acc10 [Hacc Henc]].
  apply part_ok in Hacc as [p10 [-> Hp10]]. cbn [fst snd] in Henc.
  apply bind_ok in Henc as [acc11 [Hacc Henc]].
  apply part_ok in Hacc as [p11 [-> Hp11]]. cbn [fst snd] in Henc.
  apply bind_ok in Henc as [acc12 [Hacc Henc]].
  apply part_ok in Hacc as [p12 [-> Hp12]]. cbn [fst snd] in Henc.
  apply bind_ok in Henc as [acc13 [Hacc Henc]].
  apply part_ok in Hacc as [p13 [-> Hp13]]. cbn [fst snd] in Henc.
  apply part_ok in Henc as [p14 [He Hp14]]. cbn [fst snd] in He.
  injection He as Hf Hb.
  assert (Hland1 : Z.land flags CONTENT_TYPE = flagOf CONTENT_TYPE (Broker.contentType p)).
  { rewrite Hf. land_flag. }
  assert (Hland2 : Z.land flags CONTENT_ENCODING = flagOf CONTENT_ENCODING (Broker.contentEncoding p)).
  { rewrite Hf. land_flag. }
  assert (Hland3 : Z.land flags HEADERS = flagOf HEADERS (Broker.headers p)).
  { rewrite Hf. land_flag. }
  assert (Hland4 : Z.land flags DELIVERY_MODE = flagOf DELIVERY_MODE (Broker.deliveryMode p)).
  { rewrite Hf. land_flag. }
  assert (Hland5 : Z.land flags PRIORITY = flagOf PRIORITY (Broker.priority p)).
  { rewrite Hf. land_flag. }
  assert (Hland6 : Z.land flags CORRELATION_ID = flagOf CORRELATION_ID (Broker.correlationId p)).
  { rewrite Hf. land_flag. }
  assert (Hland7 : Z.land flags REPLY_TO = flagOf REPLY_TO (Broker.replyTo p)).
  { rewrite Hf. land_flag. }
  assert (Hland8 : Z.land flags EXPIRATION = flagOf EXPIRATION (Broker.expiration p)).
  { rewrite Hf. land_flag. }
  assert (Hland9 : Z.land flags MESSAGE_ID = flagOf MESSAGE_ID (Broker.messageId p)).
  { rewrite Hf. land_flag. }
  assert (Hland10 : Z.land flags TIMESTAMP = flagOf TIMESTAMP (Broker.prop_timestamp p)).
  { rewrite Hf. land_flag. }
  assert (Hland11 : Z.land flags TYPE = flagOf TYPE (Broker.prop_type p)).
  { rewrite Hf. land_flag. }
  assert (Hland12 : Z.land flags USER_ID = flagOf USER_ID (Broker.userId p)).
  { rewrite Hf. land_flag. }
  assert (Hland13 : Z.land flags APP_ID = flagOf APP_ID (Broker.appId p)).
  { rewrite Hf. land_flag. }
  assert (Hland14 : Z.land flags CLUSTER_ID = flagOf CLUSTER_ID (Broker.clusterId p)).
  { rewrite Hf. land_flag. }
  assert (Hbuf : buf = p1 ++ p2 ++ p3 ++ p4 ++ p5 ++ p6 ++ p7 ++ p8 ++ p9 ++ p10 ++ p11 ++ p12 ++ p13 ++ p14 ++ []).
  { rewrite Hb, app_nil_r, <- !app_assoc. reflexivity. }
  clear Hf Hb.
  assert (Hlen : (List.length p3 <= List.length payload)%nat).
  { unfold payload. rewrite Hbuf, !length_app. lia. }
  unfold parseContentHeader.
  assert (R0 : readUInt16BE payload 0 = Some Broker.CLASS_BASIC).
  { eapply (readUIntBE_at 2 payload 0); [reflexivity|]. unfold Broker.CLASS_BASIC.
    change (256 ^ Z.of_nat 2) with 65536. lia. }
  assert (R2 : readUInt16BE payload 2 = Some 0).
  { eapply (readUIntBE_at 2 payload 2); [reflexivity|].
    change (256 ^ Z.of_nat 2) with 65536. lia. }
  assert (R4 : readBigUInt64BE payload 4 = Some bodySize).
  { eapply (readUIntBE_at 8 payload 4); [reflexivity|]. exact Hsize. }
  assert (R12 : readUInt16BE payload 12 = Some flags).
  { eapply (readUIntBE_at 2 payload 12); [reflexivity|]. exact Hflags. }
  rewrite R0, R2, R4, R12. cbn [bind lift]. rewrite Z.eqb_refl.
  assert (Hskip1 : skipn 14 payload = p1 ++ p2 ++ p3 ++ p4 ++ p5 ++ p6 ++ p7 ++ p8 ++ p9 ++ p10 ++ p11 ++ p12 ++ p13 ++ p14 ++ []).
  { rewrite <- Hbuf. reflexivity. }
  destruct (readPart_step flags CONTENT_TYPE (Broker.contentType p) encodeShortString (readShortString payload) p1
              (14) payload (p2 ++ p3 ++ p4 ++ p5 ++ p6 ++ p7 ++ p8 ++ p9 ++ p10 ++ p11 ++ p12 ++ p13 ++ p14 ++ []) Hland1 ltac:(discriminate) Hp1
              (fun v _ He Hs => read_encoded_string payload v p1 _ _ He Hs) Hskip1) as [Hr1 Hskip2].
  rewrite Hr1. cbn [bind].
  destruct (readPart_step flags CONTENT_ENCODING (Broker.contentEncoding p) encodeShortString (readShortString payload) p2
              (14 + List.length p1) payload (p3 ++ p4 ++ p5 ++ p6 ++ p7 ++ p8 ++ p9 ++ p10 ++ p11 ++ p12 ++ p13 ++ p14 ++ []) Hland2 ltac:(discriminate) Hp2
              (fun v _ He Hs => read_encoded_string payload v p2 _ _ He Hs) Hskip2) as [Hr2 Hskip3].
  rewrite Hr2. cbn [bind].
  assert (Hread3 : forall v, Broker.headers p = Some v -> encodeFieldTable v = Ok p3 ->
            skipn (14 + List.length p1 + List.length p2) payload = p3 ++ p4 ++ p5 ++ p6 ++ p7 ++ p8 ++ p9 ++ p10 ++ p11 ++ p12 ++ p13 ++ p14 ++ [] ->
            readFieldTable decimalNumber fuel payload (14 + List.length p1 + List.length p2) = Ok (v, List.length p3)).
  { intros v Hv He Hs. rewrite Hv in Hheaders.
    eapply read_encoded_table; eauto. lia. }
  destruct (readPart_step flags HEADERS (Broker.headers p) encodeFieldTable (readFieldTable decimalNumber fuel payload) p3
              (14 + List.length p1 + List.length p2) payload (p4 ++ p5 ++ p6 ++ p7 ++ p8 ++ p9 ++ p10 ++ p11 ++ p12 ++ p13 ++ p14 ++ []) Hland3 ltac:(discriminate) Hp3
              Hread3 Hskip3) as [Hr3 Hskip4].
  rewrite Hr3. cbn [bind].
  destruct (readPart_step flags DELIVERY_MODE (Broker.deliveryMode p) encodeUInt8 (readOctet payload) p4
              (14 + List.length p1 + List.length p2 + List.length p3) payload (p5 ++ p6 ++ p7 ++ p8 ++ p9 ++ p10 ++ p11 ++ p12 ++ p13 ++ p14 ++ []) Hland4 ltac:(discriminate) Hp4
              (fun v _ He Hs => read_encoded_octet payload v p4 _ _ He Hs) Hskip4) as [Hr4 Hskip5].
  rewrite Hr4. cbn [bind].
  destruct (readPart_step flags PRIORITY (Broker.priority p) encodeUInt8 (readOctet payload) p5
              (14 + List.length p1 + List.length p2 + List.length p3 + List.length p4) payload (p6 ++ p7 ++ p8 ++ p9 ++ p10 ++ p11 ++ p12 ++ p13 ++ p14 ++ []) Hland5 ltac:(discriminate) Hp5
              (fun v _ He Hs => read_encoded_octet payload v p5 _ _ He Hs) Hskip5) as [Hr5 Hskip6].
  rewrite Hr5. cbn [bind].
  destruct (readPart_step flags CORRELATION_ID (Broker.correlationId p) encodeShortString (readShortString payload) p6
              (14 + List.length p1 + List.length p2 + List.length p3 + List.length p4 + List.length p5) payload (p7 ++ p8 ++ p9 ++ p10 ++ p11 ++ p12 ++ p13 ++ p14 ++ []) Hland6 ltac:(discriminate) Hp6
              (fun v _ He Hs => read_encoded_string payload v p6 _ _ He Hs) Hskip6) as [Hr6 Hskip7].
  rewrite Hr6. cbn [bind].
  destruct (readPart_step flags REPLY_TO (Broker.replyTo p) encodeShortString (readShortString payload) p7
              (14 + List.length p1 + List.length p2 + List.length p3 + List.length p4 + List.length p5 + List.length p6) payload (p8 ++ p9 ++ p10 ++ p11 ++ p12 ++ p13 ++ p14 ++ []) Hland7 ltac:(discriminate) Hp7
              (fun v _ He Hs => read_encoded_string payload v p7 _ _ He Hs) Hskip7) as [Hr7 Hskip8].
  rewrite Hr7. cbn [bind].
  destruct (readPart_step flags EXPIRATION (Broker.expiration p) encodeShortString (readShortString payload) p8
              (14 + List.length p1 + List.length p2 + List.length p3 + List.length p4 + List.length p5 + List.length p6 + List.length p7) payload (p9 ++ p10 ++ p11 ++ p12 ++ p13 ++ p14 ++ []) Hland8 ltac:(discriminate) Hp8
              (fun v _ He Hs => read_encoded_string payload v p8 _ _ He Hs) Hskip8) as [Hr8 Hskip9].
  rewrite Hr8. cbn [bind].
  destruct (readPart_step flags MESSAGE_ID (Broker.messageId p) encodeShortString (readShortString payload) p9
              (14 + List.length p1 + List.length p2 + List.length p3 + List.length p4 + List.length p5 + List.length p6 + List.length p7 + List.length p8) payload (p10 ++ p11 ++ p12 ++ p13 ++ p14 ++ []) Hland9 ltac:(discriminate) Hp9
              (fun v _ He Hs => read_encoded_string payload v p9 _ _ He Hs) Hskip9) as [Hr9 Hskip10].
  rewrite Hr9. cbn [bind].
  assert (Hread10 : forall v, Broker.prop_timestamp p = Some v -> encodeTimestamp v = Ok p10 ->
            skipn (14 + List.length p1 + List.length p2 + List.length p3 + List.length p4 + List.length p5 + List.length p6 + List.length p7 + List.length p8 + List.length p9) payload = p10 ++ p11 ++ p12 ++ p13 ++ p14 ++ [] ->
            readTimestamp payload (14 + List.length p1 + List.length p2 + List.length p3 + List.length p4 + List.length p5 + List.length p6 + List.length p7 + List.length p8 + List.length p9) = Ok (v, List.length p10)).
  { intros v Hv He Hs. rewrite Hv in Htime. apply Z.ltb_lt in Htime.
    apply (read_encoded_timestamp payload v p10 _ _ Htime He Hs). }
  destruct (readPart_step flags TIMESTAMP (Broker.prop_timestamp p) encodeTimestamp (readTimestamp payload) p10
              (14 + List.length p1 + List.length p2 + List.length p3 + List.length p4 + List.length p5 + List.length p6 + List.length p7 + List.length p8 + List.length p9) payload (p11 ++ p12 ++ p13 ++ p14 ++ []) Hland10 ltac:(discriminate) Hp10
              Hread10 Hskip10) as [Hr10 Hskip11].
  rewrite Hr10. cbn [bind].
  destruct (readPart_step flags TYPE (Broker.prop_type p) encodeShortString (readShortString payload) p11
              (14 + List.length p1 + List.length p2 + List.length p3 + List.length p4 + List.length p5 + List.length p6 + List.length p7 + List.length p8 + List.length p9 + List.length p10) payload (p12 ++ p13 ++ p14 ++ []) Hland11 ltac:(discriminate) Hp11
              (fun v _ He Hs => read_encoded_string payload v p11 _ _ He Hs) Hskip11) as [Hr11 Hskip12].
  rewrite Hr11. cbn [bind].
  destruct (readPart_step flags USER_ID (Broker.userId p) encodeShortString (readShortString payload) p12
              (14 + List.length p1 + List.length p2 + List.length p3 + List.length p4 + List.length p5 + List.length p6 + List.length p7 + List.length p8 + List.length p9 + List.length p10 + List.length p11) payload (p13 ++ p14 ++ []) Hland12 ltac:(discriminate) Hp12
              (fun v _ He Hs => read_encoded_string payload v p12 _ _ He Hs) Hskip12) as [Hr12 Hskip13].
  rewrite Hr12. cbn [bind].
  destruct (readPart_step flags APP_ID (Broker.appId p) encodeShortString (readShortString payload) p13
              (14 + List.length p1 + List.length p2 + List.length p3 + List.length p4 + List.length p5 + List.length p6 + List.length p7 + List.length p8 + List.length p9 + List.length p10 + List.length p11 + List.length p12) payload (p14 ++ []) Hland13 ltac:(discriminate) Hp13
              (fun v _ He Hs => read_encoded_string payload v p13 _ _ He Hs) Hskip13) as [Hr13 Hskip14].
  rewrite Hr13. cbn [bind].
  destruct (readPart_step flags CLUSTER_ID (Broker.clusterId p) encodeShortString (readShortString payload) p14
              (14 + List.length p1 + List.length p2 + List.length p3 + List.length p4 + List.length p5 + List.length p6 + List.length p7 + List.length p8 + List.length p9 + List.length p10 + List.length p11 + List.length p12 + List.length p13) payload ([]) Hland14 ltac:(discriminate) Hp14
              (fun v _ He Hs => read_encoded_string payload v p14 _ _ He Hs) Hskip14) as [Hr14 Hskip15].
  rewrite Hr14. cbn [bind].
  destruct p; reflexivity.
Qed.

(** X7: the content header of a message comes back as it was built:
    class, weight zero, body size and every property that is set, provided
    the headers table is one that survives the field-table codec and the
    timestamp is below 2^53. *)
Theorem content_header_roundtrip (channel bodySize : Z)
  (properties : Broker.MessageProperties) (bs : list Z) :
  propertiesSurvive properties = true ->
  buildContentHeaderFrame channel Broker.CLASS_BASIC bodySize properties = Ok bs ->
  exists payload flags,
    parseFrame bs = Ok (Some (mkFrame FRAME_HEADER channel payload), [])
    /\ forall fuel : nat,
         (List.length bs <= fuel)%nat ->
         parseContentHeader decimalNumber fuel payload
         = Ok (mkHeader Broker.CLASS_BASIC 0 bodySize flags properties).
Proof.
  intros Hsurv H. unfold buildContentHeaderFrame in H.
  apply bind_ok in H as [payload [Hpayload H]].
  assert (Hl := built_frame_length _ _ _ _ H). unfold len in Hl.
  unfold contentHeaderPayload in Hpayload.
  apply bind_ok in Hpayload as [[flags buf] [Henc Hpayload]].
  invert_ok.
  apply writeUIntBE_inv in Ha as [-> _].
  apply writeUIntBE_inv in Ha0 as [-> _].
  apply writeUIntBE_inv in Ha1 as [-> Hsize].
  apply writeUIntBE_inv in Ha2 as [-> Hflags].
  exists payload, flags. split; [exact (frame_parse_nil _ _ _ _ H)|].
  intros fuel Hfuel. subst payload.
  apply (parse_encoded_header bodySize properties flags buf fuel Hsurv Henc
           Hsize Hflags).
  lia.
Qed.

End Header.


Lemma content_header_roundtrip_witness :
  exists payload flags,
    parseFrame sampleHeaderFrame = Ok (Some (mkFrame FRAME_HEADER 1 payload), [])
    /\ parseContentHeader noDecimal 100 payload
       = Ok (mkHeader Broker.CLASS_BASIC 0 5 flags sampleProperties).
Proof.
  destruct (content_header_roundtrip noDecimal 1 5 sampleProperties
              sampleHeaderFrame)
    as (payload & flags & H1 & H2); [reflexivity | reflexivity |].
  exists payload, flags. split; [exact H1|].
  apply H2. apply Nat.leb_le. reflexivity.
Defined.

(** The parser accepts content headers that the builder refuses: a
    timestamp of eight [0xFF] bytes is read as [2^64], which
    [writeBigUInt64BE] does not take. *)
Lemma parsed_header_may_not_build :
  exists properties,
    parseContentHeader noDecimal 64
      [0; 60; 0; 0; 0; 0; 0; 0; 0; 0; 0; 2; 0; 64;
       255; 255; 255; 255; 255; 255; 255; 255]
    = Ok (mkHeader 60 0 2 64 properties)
    /\ Broker.prop_timestamp properties = Some (2 ^ 64)
    /\ buildContentHeaderFrame 1 Broker.CLASS_BASIC 2 properties = Throw.
Proof.
  eexists. split; [vm_compute; reflexivity|]. split; reflexivity.
Qed.

(** *** Body frames *)

Lemma bodyLoop_bounded (channel : Z) (body : list Z) (maxPayloadSize : Z) :
  0 < maxPayloadSize ->
  forall (fuel : nat) (offset : Z) (frames : list Broker.Frame),
    0 <= offset <= len body ->
    len body - offset <= Z.of_nat fuel ->
    exists chunks,
      Broker.bodyLoop fuel channel body maxPayloadSize offset frames
      = Some (frames ++ map (Broker.ContentBodyFrame channel) chunks)
      /\ List.concat chunks = skipn (Z.to_nat offset) body
      /\ Forall (fun chunk => 0 < len chunk <= maxPayloadSize) chunks.
Proof.
  intros Hmax. induction fuel as [|fuel IH]; intros offset frames Hoff Hfuel.
  - simpl. destruct (offset <? len body) eqn:E.
    + apply Z.ltb_lt in E. lia.
    + exists []. simpl. rewrite app_nil_r. split; [reflexivity|]. split; [|constructor].
      symmetry. apply skipn_all2. unfold len in *. lia.
  - simpl. destruct (offset <? len body) eqn:E.
    + apply Z.ltb_lt in E.
      set (chunkSize := Z.min (len body - offset) maxPayloadSize).
      assert (Hcs : 0 < chunkSize <= len body - offset) by (subst chunkSize; lia).
      assert (Hcm : chunkSize <= maxPayloadSize) by (subst chunkSize; lia).
      destruct (IH (offset + chunkSize)
                  (frames ++ [Broker.ContentBodyFrame channel
                                (Broker.subarray body offset (offset + chunkSize))]))
        as [chunks [Hloop [Hcat Hall]]]; [lia | lia |].
      exists (Broker.subarray body offset (offset + chunkSize) :: chunks).
      split; [|split].
      * rewrite Hloop, <- app_assoc. reflexivity.
      * simpl. rewrite Hcat. unfold Broker.subarray.
        replace (offset + chunkSize - offset) with chunkSize by lia.
        replace (Z.to_nat (offset + chunkSize))
          with (Z.to_nat chunkSize + Z.to_nat offset)%nat by lia.
        rewrite <- skipn_skipn. apply firstn_skipn.
      * constructor; [|exact Hall].
        unfold Broker.subarray, len.
        replace (offset + chunkSize - offset) with chunkSize by lia.
        rewrite length_firstn, length_skipn. unfold len in *. lia.
    + exists []. simpl. rewrite app_nil_r. split; [reflexivity|]. split; [|constructor].
      apply Z.ltb_ge in E. symmetry. apply skipn_all2. unfold len in *. lia.
Qed.

(** X8: with a frame size above eight, the body frames of a message cut
    the body into non-empty chunks that follow one another, and every
    frame, header and end marker included, fits the negotiated frame
    size. *)
Theorem body_frames_fit (channel : Z) (body : list Z) (frameMax : Z) :
  0 <= channel < 65536 -> 8 < frameMax <= 4294967295 ->
  exists chunks,
    Broker.buildContentBodyFrames channel body frameMax
    = Some (map (Broker.ContentBodyFrame channel) chunks)
    /\ List.concat chunks = body
    /\ Forall (fun chunk =>
                 0 < len chunk
                 /\ exists bs, buildFrame FRAME_BODY channel chunk = Ok bs
                               /\ len bs <= frameMax) chunks.
Proof.
  intros Hch Hmax. unfold Broker.buildContentBodyFrames.
  destruct (bodyLoop_bounded channel body (frameMax - 8) ltac:(lia)
              (List.length body) 0 [])
    as [chunks [Hloop [Hcat Hall]]].
  - pose proof (BrokerSpec.len_nonneg body). lia.
  - unfold len. lia.
  - exists chunks. split; [exact Hloop|]. split; [exact Hcat|].
    eapply Forall_impl; [|exact Hall]. intros chunk [H0 H1]. split; [exact H0|].
    unfold buildFrame, writeUIntBE.
    change (256 ^ Z.of_nat 1) with 256. change (256 ^ Z.of_nat 2) with 65536.
    change (256 ^ Z.of_nat 4) with 4294967296.
    replace ((0 <=? FRAME_BODY) && (FRAME_BODY <? 256)) with true by reflexivity.
    replace ((0 <=? channel) && (channel <? 65536)) with true
      by (symmetry; apply andb_true_iff; split; [apply Z.leb_le|apply Z.ltb_lt]; lia).
    replace ((0 <=? len chunk) && (len chunk <? 4294967296)) with true
      by (symmetry; apply andb_true_iff; split; [apply Z.leb_le|apply Z.ltb_lt]; lia).
    cbn [bind lift]. eexists. split; [reflexivity|].
    rewrite !len_app, !len_be_bytes, len_cons. change (len []) with 0.
    simpl Z.of_nat. lia.
Qed.

Lemma body_frames_fit_witness :
  exists chunks,
    Broker.buildContentBodyFrames 1 [1; 2; 3; 4; 5] 10
    = Some (map (Broker.ContentBodyFrame 1) chunks)
    /\ List.concat chunks = [1; 2; 3; 4; 5]
    /\ Forall (fun chunk =>
                 0 < len chunk
                 /\ exists bs, buildFrame FRAME_BODY 1 chunk = Ok bs
                               /\ len bs <= 10) chunks.
Proof. apply (body_frames_fit 1 [1; 2; 3; 4; 5] 10); lia. Defined.

(** X9: a client that answers Connection.Tune with a frame size between
    one and eight gets it, and from then on no message with a body can be
    framed for that connection: the content header is built, and then the
    loop of [buildContentBodyFrames] never ends, however long it runs. *)
Theorem tiny_frame_size_never_returns (options : Tune.BrokerOptions)
  (args : Tune.ConnectionTuneOkArgs) (channel : Z) (content header : list Z)
  (properties : Broker.MessageProperties) :
  0 < Tune.frameMax args <= 8 -> 0 < len content ->
  buildContentHeaderFrame channel Broker.CLASS_BASIC (len content) properties
  = Ok header ->
  let frameMax := Tune.frameMax (Tune.handleTuneOk options args) in
  frameMax <= 8
  /\ Broker.buildMessageFrames channel content properties frameMax = None
  /\ forall fuel : nat,
       Broker.bodyLoop fuel channel content (frameMax - 8) 0 [] = None.
Proof.
  intros Hf Hc _ frameMax.
  assert (Hle : frameMax <= 8).
  { unfold frameMax, Tune.handleTuneOk, Tune.js_or. simpl Tune.frameMax.
    destruct (Tune.frameMax args =? 0) eqn:E; [apply Z.eqb_eq in E; lia|]. lia. }
  split; [exact Hle|]. split.
  - unfold Broker.buildMessageFrames, Broker.buildContentBodyFrames.
    rewrite BrokerSpec.bodyLoop_stuck; [reflexivity | lia | exact Hc].
  - intros fuel. apply BrokerSpec.bodyLoop_stuck; [lia | exact Hc].
Qed.

Lemma tiny_frame_size_never_returns_witness :
  Tune.frameMax (Tune.handleTuneOk (Tune.mkOptions 2047 131072 60)
                   (Tune.mkTuneOk 0 4 0)) <= 8
  /\ Broker.buildMessageFrames 1 [104] Broker.emptyProperties
       (Tune.frameMax (Tune.handleTuneOk (Tune.mkOptions 2047 131072 60)
                         (Tune.mkTuneOk 0 4 0))) = None
  /\ forall fuel : nat,
       Broker.bodyLoop fuel 1 [104]
         (Tune.frameMax (Tune.handleTuneOk (Tune.mkOptions 2047 131072 60)
                           (Tune.mkTuneOk 0 4 0)) - 8) 0 [] = None.
Proof.
  apply (tiny_frame_size_never_returns (Tune.mkOptions 2047 131072 60)
           (Tune.mkTuneOk 0 4 0) 1 [104]
           [2; 0; 1; 0; 0; 0; 14; 0; 60; 0; 0; 0; 0; 0; 0; 0; 0; 0; 1; 0; 0; 206]
           Broker.emptyProperties).
  - simpl. lia.
  - reflexivity.
  - reflexivity.
Defined.

(** *** Method arguments *)

(** X10: the Tune arguments the broker writes are the ones
    [parseConnectionTuneOk] reads, and a client that sends them back
    unchanged gets exactly the broker's limits. *)
Theorem tune_roundtrip (channelMax frameMax heartbeat : Z) (bs : list Z) :
  buildConnectionTune channelMax frameMax heartbeat = Ok bs ->
  Tune.parseConnectionTuneOk bs = Some (Tune.mkTuneOk channelMax frameMax heartbeat)
  /\ Tune.handleTuneOk (Tune.mkOptions channelMax frameMax heartbeat)
       (Tune.mkTuneOk channelMax frameMax heartbeat)
     = Tune.mkTuneOk channelMax frameMax heartbeat.
Proof.
  unfold buildConnectionTune. intros H. invert_ok. subst bs. split.
  - unfold Tune.parseConnectionTuneOk, readUInt16BE, readUInt32BE.
    destruct (read_written_uint 2 (a ++ a0 ++ a1) 0 channelMax a (a0 ++ a1)
                Ha eq_refl) as [-> Hla].
    assert (Hs2 : skipn 2 (a ++ a0 ++ a1) = a0 ++ a1).
    { rewrite <- Hla. apply skipn_length_app. }
    destruct (read_written_uint 4 (a ++ a0 ++ a1) 2 frameMax a0 a1 Ha0 Hs2)
      as [-> Hla0].
    assert (Hs6 : skipn 6 (a ++ a0 ++ a1) = a1 ++ []).
    { change 6%nat with (4 + 2)%nat. rewrite <- skipn_skipn, Hs2, <- Hla0.
      rewrite skipn_length_app. now rewrite app_nil_r. }
    destruct (read_written_uint 2 (a ++ a0 ++ a1) 6 heartbeat a1 [] Ha1 Hs6)
      as [-> _].
    reflexivity.
  - unfold Tune.handleTuneOk, Tune.js_or. simpl.
    destruct (channelMax =? 0), (frameMax =? 0); f_equal; lia.
Qed.

Lemma tune_roundtrip_witness :
  Tune.parseConnectionTuneOk [7; 255; 0; 2; 0; 0; 0; 60]
  = Some (Tune.mkTuneOk 2047 131072 60)
  /\ Tune.handleTuneOk (Tune.mkOptions 2047 131072 60) (Tune.mkTuneOk 2047 131072 60)
     = Tune.mkTuneOk 2047 131072 60.
Proof. apply (tune_roundtrip 2047 131072 60). reflexivity. Defined.

(** X11: the arguments of Connection.Close and Channel.Close, which
    share one layout, are read back as they were written. *)
Theorem close_roundtrip (code : Z) (text : string) (classId methodId : Z)
  (bs : list Z) :
  buildConnectionClose code text classId methodId = Ok bs ->
  parseConnectionClose bs = Ok (mkClose code text classId methodId)
  /\ (buildChannelClose code text classId methodId = Ok bs
      /\ parseChannelClose bs = Ok (mkClose code text classId methodId)).
Proof.
  intros H. assert (Hp : parseConnectionClose bs
                         = Ok (mkClose code text classId methodId)).
  { unfold buildConnectionClose in H. invert_ok. subst bs.
    unfold parseConnectionClose, readUInt16BE.
    destruct (read_written_uint 2 (a ++ a0 ++ a1 ++ a2) 0 code a
                (a0 ++ a1 ++ a2) Ha eq_refl) as [-> Hla].
    cbn [bind lift].
    assert (Hs2 : skipn 2 (a ++ a0 ++ a1 ++ a2) = a0 ++ a1 ++ a2).
    { rewrite <- Hla. apply skipn_length_app. }
    destruct (read_short_string text a0 _ 2 _ Ha0 Hs2) as [-> _].
    cbn [bind].
    assert (Hs3 : skipn (2 + List.length a0) (a ++ a0 ++ a1 ++ a2) = a1 ++ a2).
    { apply (skipn_at _ 2 a0 _ Hs2). }
    destruct (read_written_uint 2 _ _ classId a1 a2 Ha1 Hs3) as [-> Hla1].
    cbn [bind lift].
    assert (Hs4 : skipn (2 + List.length a0 + 2) (a ++ a0 ++ a1 ++ a2) = a2 ++ []).
    { rewrite app_nil_r.
      replace (2 + List.length a0 + 2)%nat
        with (2 + List.length a0 + List.length a1)%nat by lia.
      apply (skipn_at _ _ a1 _ Hs3). }
    destruct (read_written_uint 2 _ _ methodId a2 [] Ha2 Hs4) as [-> _].
    reflexivity. }
  split; [exact Hp|]. split; [exact H|exact Hp].
Qed.

Lemma close_roundtrip_witness :
  parseConnectionClose [1; 148; 2; 110; 111; 0; 50; 0; 10]
  = Ok (mkClose 404 "no" 50 10)
  /\ (buildChannelClose 404 "no" 50 10 = Ok [1; 148; 2; 110; 111; 0; 50; 0; 10]
      /\ parseChannelClose [1; 148; 2; 110; 111; 0; 50; 0; 10]
         = Ok (mkClose 404 "no" 50 10)).
Proof. apply (close_roundtrip 404 "no" 50 10). reflexivity. Defined.

(** *** Short strings *)

Lemma bytesOfString_length (s : string) :
  List.length (bytesOfString s) = String.length s.
Proof.
  unfold bytesOfString. rewrite length_map.
  induction s; simpl; auto.
Qed.

(** X12: a short string is refused exactly when it has more than 255
    bytes; otherwise it takes one byte more than the string and is read
    back from wherever it sits in a buffer. *)
Theorem short_string_bound (s : string) :
  (encodeShortString s = Throw <-> (255 < String.length s)%nat)
  /\ forall (k buf rest : list Z) (off : nat),
       encodeShortString s = Ok k -> skipn off buf = k ++ rest ->
       List.length k = S (String.length s)
       /\ readShortString buf off = Ok (s, S (String.length s)).
Proof.
  split.
  - unfold encodeShortString, len. rewrite bytesOfString_length.
    destruct (255 <? Z.of_nat (String.length s)) eqn:E.
    + apply Z.ltb_lt in E. split; [lia|reflexivity].
    + apply Z.ltb_ge in E. unfold writeUIntBE.
      change (256 ^ Z.of_nat 1) with 256.
      replace ((0 <=? Z.of_nat (String.length s))
               && (Z.of_nat (String.length s) <? 256)) with true
        by (symmetry; apply andb_true_iff; split;
            [apply Z.leb_le|apply Z.ltb_lt]; lia).
      cbn [bind lift]. split; [discriminate|lia].
  - intros k buf rest off Hk Hs.
    assert (Hl : List.length k = S (String.length s)).
    { unfold encodeShortString in Hk.
      destruct (255 <? len (bytesOfString s)); [discriminate|].
      invert_ok. subst k. apply writeUIntBE_inv in Ha as [-> _].
      rewrite length_app, be_bytes_length, bytesOfString_length. reflexivity. }
    split; [exact Hl|].
    destruct (read_short_string s k buf off rest Hk Hs) as [-> _].
    now rewrite Hl.
Qed.

End WireSpec.

(** ** The field-table decoder comes to an end *)

Module DecoderSpec.

Import Buf Codec Outcome BufFacts CodecSpec.
Local Open Scope list_scope.
Local Open Scope Z_scope.

Lemma returns_bind {A B : Type} (r : result A) (k : A -> result B) :
  returns r = true -> (forall a, r = Ok a -> returns (k a) = true) ->
  returns (bind r k) = true.
Proof. destruct r; simpl; auto. Qed.

Lemma returns_lift {A : Type} (o : option A) : returns (lift o) = true.
Proof. destruct o; reflexivity. Qed.

Lemma read_in_buffer (n : nat) (buffer : Buffer) (off : nat) (v : Z) :
  readUIntBE (S n) buffer off = Some v -> (off < List.length buffer)%nat.
Proof.
  unfold readUIntBE, slice. intros H.
  destruct (Nat.eqb _ (S n)) eqn:E; [|discriminate].
  apply Nat.eqb_eq in E. rewrite length_firstn, length_skipn in E. lia.
Qed.

Section Decoder.

Variable decimalNumber : Z -> Z -> number.

Local Abbreviation readFieldValue := (Codec.readFieldValue decimalNumber).
Local Abbreviation arrayLoop := (Codec.arrayLoop decimalNumber).
Local Abbreviation tableLoop := (Codec.tableLoop decimalNumber).
Local Abbreviation readFieldTable := (Codec.readFieldTable decimalNumber).

(** A value that is read starts inside the buffer and takes at least
    its type byte. *)
Lemma value_takes_bytes (fuel : nat) (buffer : Buffer) (off : nat)
  (v : FieldValue) (bytesRead : nat) :
  readFieldValue fuel buffer off = Ok (v, bytesRead) ->
  (off < List.length buffer)%nat /\ (1 <= bytesRead)%nat.
Proof.
  destruct fuel as [|fuel]; [discriminate|]. simpl. intros H.
  apply bind_ok in H as [type [Ht H]]. apply lift_ok in Ht.
  split; [exact (read_in_buffer 0 _ _ _ Ht)|].
  repeat match type of H with
         | (if ?c then _ else _) = _ => destruct c
         end;
    try discriminate;
    repeat match goal with
           | H : bind _ _ = Ok _ |- _ =>
               let a := fresh "a" in
               let Ha := fresh "Ha" in
               apply bind_ok in H as [a [Ha H]]
           | H : (let (_, _) := ?p in _) = Ok _ |- _ => destruct p
           end;
    injection H as _ <-; lia.
Qed.

Lemma name_takes_bytes (buffer : Buffer) (pos : nat) (name : string) (nameBytes : nat) :
  readShortString buffer pos = Ok (name, nameBytes) ->
  (pos < List.length buffer)%nat /\ (1 <= nameBytes)%nat.
Proof.
  unfold readShortString. intros H.
  apply bind_ok in H as [l [Hl H]]. apply lift_ok in Hl.
  split; [exact (read_in_buffer 0 _ _ _ Hl)|]. injection H as _ <-. lia.
Qed.

Lemma decoder_returns (buffer : Buffer) (fuel : nat) :
  (forall off, (2 * (List.length buffer - off) + 1 <= fuel)%nat ->
               returns (readFieldValue fuel buffer off) = true)
  /\ (forall pos arrayEnd acc,
        (2 * (List.length buffer - pos) + 2 <= fuel)%nat ->
        returns (arrayLoop fuel buffer pos arrayEnd acc) = true)
  /\ (forall pos endPos acc,
        (2 * (List.length buffer - pos) + 2 <= fuel)%nat ->
        returns (tableLoop fuel buffer pos endPos acc) = true)
  /\ (forall off, (2 * (List.length buffer - off) + 1 <= fuel)%nat ->
                  returns (readFieldTable fuel buffer off) = true).
Proof.
  induction fuel as [|fuel [IHV [IHA [IHT IHR]]]].
  - repeat split; intros; lia.
  - repeat split.
    + intros off Hf. simpl.
      apply returns_bind; [apply returns_lift|]. intros type Ht. apply lift_ok in Ht.
      pose proof (read_in_buffer 0 _ _ _ Ht) as Hin.
      repeat match goal with
             | |- returns (if ?c then _ else _) = true => destruct c
             end;
        try reflexivity;
        try (apply returns_bind; [apply returns_lift|]; intros;
             try reflexivity;
             try (apply returns_bind; [apply returns_lift|]; intros; reflexivity)).
      * (* long string *)
        apply returns_bind.
        -- unfold readLongString. apply returns_bind; [apply returns_lift|].
           intros; reflexivity.
        -- intros [value bytesRead] _. reflexivity.
      * (* array *)
        apply returns_bind; [apply IHA; lia|]. intros; reflexivity.
      * (* field table *)
        apply returns_bind; [apply IHR; lia|].
        intros [value bytesRead] _. reflexivity.
    + intros pos arrayEnd acc Hf. simpl.
      destruct (pos <? arrayEnd)%nat; [|reflexivity].
      apply returns_bind; [apply IHV; lia|].
      intros [value bytesRead] Hv.
      destruct (value_takes_bytes _ _ _ _ _ Hv) as [Hin Hb].
      apply IHA. lia.
    + intros pos endPos acc Hf. simpl.
      destruct (pos <? endPos)%nat; [|reflexivity].
      apply returns_bind.
      * unfold readShortString. apply returns_bind; [apply returns_lift|].
        intros; reflexivity.
      * intros [name nameBytes] Hn.
        destruct (name_takes_bytes _ _ _ _ Hn) as [Hin Hb].
        apply returns_bind; [apply IHV; lia|].
        intros [value valueBytes] Hv. apply IHT. lia.
    + intros off Hf. simpl.
      apply returns_bind; [apply returns_lift|]. intros len Hl. apply lift_ok in Hl.
      pose proof (read_in_buffer 3 _ _ _ Hl) as Hin.
      apply returns_bind; [apply IHT; lia|]. intros; reflexivity.
Qed.

(** X27: the field-table decoder comes to an end on every input: with
    fuel above twice the length of the buffer, reading a table or a
    value returns or throws, whatever the bytes are. *)
Theorem field_table_decoder_terminates (buffer : Buffer) (offset fuel : nat) :
  (2 * List.length buffer < fuel)%nat ->
  returns (readFieldTable fuel buffer offset) = true
  /\ returns (readFieldValue fuel buffer offset) = true.
Proof.
  intros Hf. destruct (decoder_returns buffer fuel) as [HV [_ [_ HR]]].
  split; [apply HR; lia|apply HV; lia].
Qed.

End Decoder.

Lemma field_table_decoder_terminates_witness :
  returns (Codec.readFieldTable noDecimal 21 [0; 0; 0; 200; 1; 65; 65; 255; 255; 255] 0)
  = true
  /\ returns (Codec.readFieldValue noDecimal 21
                [0; 0; 0; 200; 1; 65; 65; 255; 255; 255] 0) = true.
Proof.
  apply (field_table_decoder_terminates noDecimal
           [0; 0; 0; 200; 1; 65; 65; 255; 255; 255] 0 21).
  simpl. lia.
Defined.

End DecoderSpec.

(** ** PLAIN authentication *)

Module AuthSpec.

Import Auth.
Local Open Scope string_scope.

Lemma split_nonempty (sep : ascii) (s : string) : split sep s <> [].
Proof.
  destruct s as [|c s]; simpl; [discriminate|].
  destruct (Ascii.eqb c sep); [discriminate|].
  destruct (split sep s); discriminate.
Qed.

Lemma split_length (s : string) : List.length (split NUL s) = S (nuls s).
Proof.
  induction s as [|c s IH]; [reflexivity|].
  simpl. destruct (Ascii.eqb c NUL).
  - simpl. now rewrite IH.
  - destruct (split NUL s) as [|w ws] eqn:E; [now apply split_nonempty in E|].
    simpl in *. exact IH.
Qed.

Lemma split_whole (s : string) : nuls s = O -> split NUL s = [s].
Proof.
  induction s as [|c s IH]; [reflexivity|].
  simpl. destruct (Ascii.eqb c NUL); [discriminate|].
  intros H. now rewrite (IH H).
Qed.

Lemma split_first (a b : string) :
  nuls a = O -> split NUL (a ++ String NUL b) = a :: split NUL b.
Proof.
  induction a as [|c a IH]; intros H.
  - reflexivity.
  - simpl in *. destruct (Ascii.eqb c NUL); [discriminate|].
    now rewrite (IH H).
Qed.

Lemma append_empty (s : string) : s ++ "" = s.
Proof. induction s as [|c s IH]; simpl; [reflexivity|now rewrite IH]. Qed.

(** X30: the PLAIN mechanism accepts a response exactly when it holds
    two NUL characters or more, whatever the credentials are.  The text
    before the first NUL and everything from a third NUL on is ignored;
    an empty user name or password is read as [guest]. *)
Theorem plain_auth_accepts_any_credentials (response : string) :
  (authValid response = true <-> (2 <= nuls response)%nat)
  /\ forall authzid user pass rest : string,
       nuls authzid = O -> nuls user = O -> nuls pass = O ->
       rest = EmptyString \/ (exists t, rest = String NUL t) ->
       response = authzid ++ String NUL (user ++ String NUL (pass ++ rest)) ->
       validatePlainAuth response
       = Some (mkCredentials (orElse user "guest") (orElse pass "guest")).
Proof.
  split.
  - unfold authValid, validatePlainAuth. rewrite split_length.
    destruct (3 <=? S (nuls response))%nat eqn:E.
    + apply Nat.leb_le in E. split; [lia|reflexivity].
    + apply Nat.leb_gt in E. split; [discriminate|lia].
  - intros authzid user pass rest Ha Hu Hp Hrest ->.
    unfold validatePlainAuth.
    rewrite (split_first authzid _ Ha), (split_first user _ Hu).
    destruct Hrest as [-> | [t ->]].
    + rewrite append_empty, (split_whole pass Hp). reflexivity.
    + rewrite (split_first pass _ Hp).
      destruct (split NUL t) eqn:E; reflexivity.
Qed.

End AuthSpec.

(** ** Topic patterns *)

Module TopicWordsSpec.

Import Topic TopicWords TopicSpec.
Local Open Scope string_scope.

Lemma isHash_eq (w : string) : isHash w = true <-> w = "#".
Proof. unfold isHash. apply String.eqb_eq. Qed.

Lemma isStar_eq (w : string) : isStar w = true <-> w = "*".
Proof. unfold isStar. apply String.eqb_eq. Qed.

Lemma matchWords_hash_last (rs : list string) : matchWords ["#"] rs = true.
Proof. reflexivity. Qed.

Lemma matchWords_hash_nil (n : string) (ps : list string) :
  matchWords ("#" :: n :: ps) [] = forallb isHash (n :: ps).
Proof. reflexivity. Qed.

Lemma matchWords_hash_cons (n : string) (ps : list string) (r : string)
  (rs : list string) :
  matchWords ("#" :: n :: ps) (r :: rs)
  = ((isStar n || isHash n || String.eqb r n) && matchWords (n :: ps) (r :: rs))
    || matchWords ("#" :: n :: ps) rs.
Proof.
  cbn [matchWords]. change (isHash "#") with true. cbv iota.
  destruct ((isStar n || isHash n || String.eqb r n) && matchWords (n :: ps) (r :: rs));
    reflexivity.
Qed.

Lemma matchWords_star (ps : list string) (rs : list string) :
  matchWords ("*" :: ps) rs
  = match rs with [] => false | _ :: rs' => matchWords ps rs' end.
Proof. reflexivity. Qed.

Lemma matchWords_word (p : string) (ps rs : list string) :
  isHash p = false -> isStar p = false ->
  matchWords (p :: ps) rs
  = match rs with
    | [] => false
    | r :: rs' => if String.eqb r p then matchWords ps rs' else false
    end.
Proof. intros Hh Hs. cbn [matchWords]. rewrite Hh, Hs. reflexivity. Qed.

(** A pattern matches the empty word list exactly when it consists of
    [#] only. *)
Lemma Matches_nil (ps : list string) : Matches ps [] <-> forallb isHash ps = true.
Proof.
  split.
  - intros H. remember [] as rs eqn:E. induction H; try discriminate; simpl; auto.
  - induction ps as [|p ps IH]; simpl; intros H; [constructor|].
    apply andb_true_iff in H as [Hp Hps]. apply isHash_eq in Hp. subst p.
    constructor. auto.
Qed.

Lemma matchWords_nil (ps : list string) :
  matchWords ps [] = forallb isHash ps.
Proof.
  destruct ps as [|p ps]; [reflexivity|].
  destruct (isHash p) eqn:Hh.
  - apply isHash_eq in Hh. subst p. destruct ps as [|n ps]; reflexivity.
  - cbn [matchWords forallb]. rewrite Hh. destruct (isStar p); reflexivity.
Qed.

Lemma first_word_fits (n : string) (ps : list string) (r : string)
  (rs : list string) :
  matchWords (n :: ps) (r :: rs) = true ->
  isStar n || isHash n || String.eqb r n = true.
Proof.
  intros H. destruct (isHash n) eqn:Hh; [now rewrite orb_true_r|].
  destruct (isStar n) eqn:Hs; [reflexivity|].
  rewrite (matchWords_word _ _ _ Hh Hs) in H.
  destruct (String.eqb r n); [reflexivity|discriminate].
Qed.

Lemma matchWords_sound (ps : list string) :
  forall rs, matchWords ps rs = true -> Matches ps rs.
Proof.
  induction ps as [|p ps IH]; intros rs H.
  - destruct rs; [constructor|discriminate].
  - destruct (isHash p) eqn:Hh.
    + apply isHash_eq in Hh. subst p.
      destruct ps as [|n ps].
      * clear H. induction rs as [|r rs IHrs];
          [apply MatchesHashNone, MatchesEnd | apply MatchesHashWord, IHrs].
      * induction rs as [|r rs IHrs].
        -- rewrite matchWords_hash_nil in H. constructor. apply Matches_nil, H.
        -- rewrite matchWords_hash_cons in H. apply orb_true_iff in H as [H|H].
           ++ apply andb_true_iff in H as [_ H]. constructor. apply IH, H.
           ++ apply MatchesHashWord. apply IHrs, H.
    + destruct (isStar p) eqn:Hs.
      * apply isStar_eq in Hs. subst p. rewrite matchWords_star in H.
        destruct rs as [|r rs]; [discriminate|]. constructor. apply IH, H.
      * rewrite (matchWords_word _ _ _ Hh Hs) in H.
        destruct rs as [|r rs]; [discriminate|].
        destruct (String.eqb r p) eqn:E; [|discriminate].
        apply String.eqb_eq in E. subst r. constructor; auto.
Qed.

Lemma matchWords_complete (ps rs : list string) :
  Matches ps rs -> matchWords ps rs = true.
Proof.
  induction 1 as [|ps rs H IH|ps r rs H IH|ps r rs H IH|p ps rs Hh Hs H IH].
  - reflexivity.
  - destruct ps as [|n ps]; [reflexivity|].
    destruct rs as [|r rs].
    + rewrite matchWords_hash_nil, <- matchWords_nil. exact IH.
    + rewrite matchWords_hash_cons, IH, (first_word_fits _ _ _ _ IH). reflexivity.
  - destruct ps as [|n ps]; [reflexivity|].
    rewrite matchWords_hash_cons, IH. apply orb_true_r.
  - rewrite matchWords_star. exact IH.
  - rewrite (matchWords_word _ _ _ Hh Hs), String.eqb_refl. exact IH.
Qed.

(** X13: the matcher decides the wildcard semantics: a routing key
    matches a pattern exactly when the words of the key can be laid
    against the words of the pattern with [*] taking one word and [#]
    taking any number of them. *)
Theorem matcher_decides_wildcards (routingKey pattern : string) :
  matchesPattern routingKey pattern = true
  <-> Matches (split pattern) (split routingKey).
Proof.
  unfold matchesPattern. split; [apply matchWords_sound|apply matchWords_complete].
Qed.

Lemma join_split (s : string) : join (split s) = s.
Proof.
  induction s as [|c s IH]; [reflexivity|].
  simpl split. destruct (Ascii.eqb c ".") eqn:E.
  - apply Ascii.eqb_eq in E. subst c.
    destruct (split s) as [|w ws] eqn:Es; [now apply split_not_nil in Es|].
    change (join ("" :: w :: ws)) with ("" ++ "." ++ join (w :: ws)).
    rewrite IH. reflexivity.
  - destruct (split s) as [|w ws] eqn:Es; [now apply split_not_nil in Es|].
    destruct ws as [|w' ws].
    + simpl in *. now rewrite IH.
    + change (join (String c w :: w' :: ws))
        with (String c (w ++ "." ++ join (w' :: ws))).
      change (join (w :: w' :: ws)) with (w ++ "." ++ join (w' :: ws)) in IH.
      now rewrite IH.
Qed.

Lemma Matches_literal (ps : list string) :
  forallb (fun w => negb (isHash w) && negb (isStar w)) ps = true ->
  forall rs, Matches ps rs <-> ps = rs.
Proof.
  induction ps as [|p ps IH]; intros Hl rs.
  - split; intros H; [now inversion H | subst; constructor].
  - simpl in Hl. apply andb_true_iff in Hl as [Hp Hps].
    apply andb_true_iff in Hp as [Hh Hs].
    apply negb_true_iff in Hh. apply negb_true_iff in Hs.
    split; intros H.
    + inversion H; subst; try discriminate.
      f_equal. now apply IH.
    + subst rs. constructor; auto. now apply IH.
Qed.

(** X14: a pattern without wildcards matches one routing key only,
    itself. *)
Theorem literal_pattern_matches_itself (routingKey pattern : string) :
  literal pattern = true ->
  (matchesPattern routingKey pattern = true <-> routingKey = pattern).
Proof.
  intros Hl. unfold matchesPattern. split.
  - intros H. apply matchWords_sound in H.
    apply (Matches_literal _ Hl) in H.
    rewrite <- (join_split routingKey), <- (join_split pattern). now f_equal.
  - intros ->. apply matchWords_complete. now apply Matches_literal.
Qed.

Lemma literal_pattern_matches_itself_witness :
  matchesPattern "stock.nyse" "stock.nyse" = true <-> "stock.nyse" = "stock.nyse".
Proof. apply (literal_pattern_matches_itself "stock.nyse" "stock.nyse"). reflexivity. Defined.


Lemma split_app (a b : string) :
  split (a ++ String "." b) = (split a ++ split b)%list.
Proof.
  induction a as [|c a IH]; [reflexivity|].
  simpl. rewrite IH. destruct (Ascii.eqb c "."); [reflexivity|].
  destruct (split a) as [|w ws] eqn:Es; [now apply split_not_nil in Es|].
  reflexivity.
Qed.

Lemma split_words_no_dot (s : string) : Forall (fun w => noDot w = true) (split s).
Proof.
  induction s as [|c s IH]; [repeat constructor|].
  simpl. destruct (Ascii.eqb c ".") eqn:E; [constructor; auto|].
  destruct (split s) as [|w ws]; [repeat constructor; simpl; now rewrite E|].
  inversion IH; subst. constructor; auto. simpl. now rewrite E.
Qed.

Lemma Matches_literal_prefix (ls : list string) :
  forallb (fun w => negb (isHash w) && negb (isStar w)) ls = true ->
  forall rs, Matches (ls ++ ["#"])%list rs <-> exists rest, rs = (ls ++ rest)%list.
Proof.
  induction ls as [|p ls IH]; intros Hl rs.
  - simpl. split; [eauto|]. intros _. apply matchWords_sound. reflexivity.
  - simpl in Hl. apply andb_true_iff in Hl as [Hp Hls].
    apply andb_true_iff in Hp as [Hh Hs].
    apply negb_true_iff in Hh. apply negb_true_iff in Hs.
    split.
    + intros H. inversion H; subst; try discriminate.
      apply (IH Hls) in H5 as [rest ->]. now exists rest.
    + intros [rest ->]. simpl. constructor; auto. apply (IH Hls). eauto.
Qed.

(** X15: a wildcard-free prefix followed by [.#] matches the prefix
    itself and every key that continues it after a dot, and nothing
    else. *)
Theorem hash_suffix_matches_prefix (routingKey prefix : string) :
  literal prefix = true ->
  (matchesPattern routingKey (prefix ++ ".#") = true
   <-> routingKey = prefix \/ exists rest, routingKey = prefix ++ "." ++ rest).
Proof.
  intros Hl. unfold matchesPattern.
  change (prefix ++ ".#") with (prefix ++ String "." "#").
  rewrite split_app. change (split "#") with ["#"].
  split.
  - intros H. apply matchWords_sound in H.
    apply (Matches_literal_prefix _ Hl) in H as [rest Hrest].
    destruct rest as [|w ws].
    + left. rewrite app_nil_r in Hrest.
      rewrite <- (join_split routingKey), <- (join_split prefix). now f_equal.
    + right. exists (join (w :: ws)).
      rewrite <- (join_split routingKey), Hrest.
      rewrite <- (join_split (prefix ++ "." ++ join (w :: ws))).
      f_equal. change (prefix ++ "." ++ join (w :: ws))
                 with (prefix ++ String "." (join (w :: ws))).
      rewrite split_app. f_equal. symmetry. apply split_join; [discriminate|].
      pose proof (split_words_no_dot routingKey) as Hnd. rewrite Hrest in Hnd.
      apply Forall_app in Hnd. tauto.
  - intros H. apply matchWords_complete. apply (Matches_literal_prefix _ Hl).
    destruct H as [->|[rest ->]].
    + exists []. now rewrite app_nil_r.
    + exists (split rest).
      change (prefix ++ "." ++ rest) with (prefix ++ String "." rest).
      apply split_app.
Qed.

Lemma hash_suffix_matches_prefix_witness :
  matchesPattern "stock.nyse.ibm" ("stock" ++ ".#") = true
  <-> "stock.nyse.ibm" = "stock"
      \/ exists rest, "stock.nyse.ibm" = "stock" ++ "." ++ rest.
Proof. apply (hash_suffix_matches_prefix "stock.nyse.ibm" "stock"). reflexivity. Defined.

Lemma Matches_stars (n : nat) :
  forall rs, Matches (repeat "*" n) rs <-> List.length rs = n.
Proof.
  induction n as [|n IH]; intros rs; simpl.
  - split; intros H; [now inversion H|].
    destruct rs; [constructor|discriminate].
  - split; intros H.
    + inversion H; subst; try discriminate. simpl. f_equal. now apply IH.
    + destruct rs as [|r rs]; [discriminate|]. constructor. apply IH.
      now injection H.
Qed.

(** X16: a pattern of [n] stars matches exactly the keys of [n] words,
    whatever the words are; an empty word counts, so [*] alone matches
    the empty key. *)
Theorem stars_count_words (routingKey : string) (n : nat) :
  matchesPattern routingKey (join (repeat "*" (S n))) = true
  <-> List.length (split routingKey) = S n.
Proof.
  unfold matchesPattern. rewrite split_join.
  - rewrite <- Matches_stars. split; [apply matchWords_sound|apply matchWords_complete].
  - discriminate.
  - apply Forall_forall. intros w Hw. apply repeat_spec in Hw. now subst w.
Qed.

(** *** Destinations *)

Lemma filter_filter_comm_ {A : Type} (f g : A -> bool) (l : list A) :
  filter f (filter g l) = filter g (filter f l).
Proof.
  induction l as [|x l IH]; [reflexivity|]. simpl.
  destruct (f x) eqn:Ef, (g x) eqn:Eg; simpl; rewrite ?Ef, ?Eg, IH; reflexivity.
Qed.

Lemma dedup_In (xs : list string) (x : string) : In x (dedup xs) <-> In x xs.
Proof.
  induction xs as [|y xs IH]; [reflexivity|]. simpl.
  rewrite filter_In, IH. split.
  - intros [H|[H _]]; auto.
  - intros [H|H]; [now left|].
    destruct (String.eqb x y) eqn:E.
    + apply String.eqb_eq in E. now left.
    + right. split; [exact H|reflexivity].
Qed.

Lemma dedup_NoDup (xs : list string) : NoDup (dedup xs).
Proof.
  induction xs as [|y xs IH]; [constructor|]. simpl. constructor.
  - rewrite filter_In. intros [_ H]. now rewrite String.eqb_refl in H.
  - now apply NoDup_filter.
Qed.

(** X17: the topic and fanout exchanges name every bound queue whose
    binding matches, each of them once. *)
Theorem topic_destinations_once (routingKey : string) (bindings : list Binding) :
  NoDup (matchTopic routingKey bindings)
  /\ NoDup (Broker.matchFanout bindings)
  /\ forall queue : string,
       (In queue (matchTopic routingKey bindings)
        <-> exists b, In b bindings /\ destination b = queue
                      /\ matchesPattern routingKey (Topic.routingKey b) = true)
       /\ (In queue (Broker.matchFanout bindings)
           <-> exists b, In b bindings /\ destination b = queue).
Proof.
  split; [apply dedup_NoDup|]. split; [apply dedup_NoDup|].
  intros queue. unfold matchTopic, Broker.matchFanout. rewrite !dedup_In, !in_map_iff.
  split; split.
  - intros [b [Hd Hb]]. apply filter_In in Hb as [Hb Hm]. eauto.
  - intros [b [Hb [Hd Hm]]]. exists b. split; [exact Hd|]. apply filter_In. auto.
  - intros [b [Hd Hb]]. eauto.
  - intros [b [Hb Hd]]. eauto.
Qed.

End TopicWordsSpec.

(** ** Broker invariants and clean-up *)

Module EventsSpec.

Import Broker Events BrokerSpec.
Local Open Scope string_scope.
Local Open Scope list_scope.
Local Open Scope Z_scope.

(** *** Maps *)

Lemma get_In_nat {V : Type} (m : list (nat * V)) (k : nat) (v : V) :
  JsMap.get Nat.eqb m k = Some v -> In (k, v) m.
Proof.
  induction m as [|[k' v'] m IH]; simpl; [discriminate|].
  destruct (Nat.eqb k' k) eqn:E.
  - apply Nat.eqb_eq in E. subst k'. intros H. injection H as ->. now left.
  - intros H. right. auto.
Qed.

Lemma get_In_Z {V : Type} (m : list (Z * V)) (k : Z) (v : V) :
  JsMap.get Z.eqb m k = Some v -> In (k, v) m.
Proof.
  induction m as [|[k' v'] m IH]; simpl; [discriminate|].
  destruct (Z.eqb k' k) eqn:E.
  - apply Z.eqb_eq in E. subst k'. intros H. injection H as ->. now left.
  - intros H. right. auto.
Qed.

Lemma get_None_Z {V : Type} (m : list (Z * V)) (k : Z) :
  JsMap.get Z.eqb m k = None <-> ~ In k (JsMap.keys m).
Proof.
  induction m as [|[k' v'] m IH]; simpl; [tauto|].
  destruct (Z.eqb k' k) eqn:E.
  - apply Z.eqb_eq in E. subst k'. split; [discriminate|]. intros H. exfalso. auto.
  - apply Z.eqb_neq in E. rewrite IH. tauto.
Qed.

Lemma set_fresh_Z {V : Type} (m : list (Z * V)) (k : Z) (v : V) :
  ~ In k (JsMap.keys m) -> JsMap.set Z.eqb m k v = m ++ [(k, v)].
Proof.
  induction m as [|[k' v'] m IH]; simpl; intros H; [reflexivity|].
  destruct (Z.eqb k' k) eqn:E.
  - apply Z.eqb_eq in E. subst k'. exfalso. auto.
  - rewrite IH; auto.
Qed.

Lemma delete_incl_Z {V : Type} (m : list (Z * V)) (k : Z) :
  incl (JsMap.delete Z.eqb m k) m.
Proof.
  induction m as [|[k' v'] m IH]; simpl; [apply incl_refl|].
  destruct (Z.eqb k' k).
  - apply incl_tl, incl_refl.
  - intros x [<-|H]; [now left|right; auto].
Qed.

Lemma delete_keys_NoDup_Z {V : Type} (m : list (Z * V)) (k : Z) :
  NoDup (JsMap.keys m) -> NoDup (JsMap.keys (JsMap.delete Z.eqb m k)).
Proof.
  induction m as [|[k' v'] m IH]; simpl; intros H; [constructor|].
  inversion H; subst. destruct (Z.eqb k' k); [assumption|].
  simpl. constructor; auto.
  intros Hin. apply H2. unfold JsMap.keys in *. apply in_map_iff in Hin as [x [Hx Hin]].
  apply in_map_iff. exists x. split; [exact Hx|]. eapply delete_incl_Z, Hin.
Qed.

Lemma filter_keys_NoDup {K V : Type} (f : K * V -> bool) (m : list (K * V)) :
  NoDup (JsMap.keys m) -> NoDup (JsMap.keys (filter f m)).
Proof.
  induction m as [|x m IH]; simpl; intros H; [constructor|].
  inversion H; subst. destruct (f x); simpl; auto.
  constructor; auto. intros Hin. apply H2.
  unfold JsMap.keys in *. apply in_map_iff in Hin as [y [Hy Hin]].
  apply in_map_iff. exists y. split; [exact Hy|]. now apply filter_In in Hin.
Qed.

Lemma Forall_incl {A : Type} (P : A -> Prop) (l l' : list A) :
  incl l' l -> Forall P l -> Forall P l'.
Proof. intros Hi H. apply Forall_forall. intros x Hx. eapply Forall_forall; eauto. Qed.

Lemma Forall_filter_ {A : Type} (P : A -> Prop) (f : A -> bool) (l : list A) :
  Forall P l -> Forall P (filter f l).
Proof. apply Forall_incl. intros x Hx. now apply filter_In in Hx. Qed.

(** *** Channels *)

Lemma tagsInOrder_track (c : Channel) (m : Message) (q t : string) :
  tagsInOrder c ->
  tagsInOrder (trackUnacked (ch_with_counter c (deliveryTagCounter c + 1))
                 (deliveryTagCounter c + 1) m q t).
Proof.
  intros [Hagree [Hle Hnd]].
  assert (Hfresh : ~ In (deliveryTagCounter c + 1) (JsMap.keys (unackedMessages c))).
  { intros Hin. unfold JsMap.keys in Hin. apply in_map_iff in Hin as [e [He Hin]].
    eapply Forall_forall in Hle; [|exact Hin]. simpl in Hle. lia. }
  unfold tagsInOrder, tagsAgree, trackUnacked. simpl.
  rewrite (set_fresh_Z _ _ _ Hfresh).
  split; [|split].
  - apply Forall_app. split; [exact Hagree|]. repeat constructor.
  - apply Forall_app. split.
    + eapply Forall_impl; [|exact Hle]. simpl. intros; lia.
    + repeat constructor. simpl. lia.
  - unfold JsMap.keys in *. rewrite map_app. simpl.
    apply NoDup_app. repeat split; auto.
    + repeat constructor. auto.
    + intros x Hx [<-|[]]. auto.
Qed.

Lemma tagsInOrder_counter (c : Channel) :
  tagsInOrder c -> tagsInOrder (ch_with_counter c (deliveryTagCounter c + 1)).
Proof.
  intros [Hagree [Hle Hnd]]. split; [exact Hagree|]. split; [|exact Hnd].
  eapply Forall_impl; [|exact Hle]. simpl. intros; lia.
Qed.

Lemma tagsInOrder_sub (c : Channel) (u : list (Z * UnackedMessage)) :
  incl u (unackedMessages c) -> NoDup (JsMap.keys u) ->
  tagsInOrder c -> tagsInOrder (ch_with_unacked c u).
Proof.
  intros Hi Hn [Hagree [Hle Hnd]]. unfold tagsInOrder, tagsAgree. simpl.
  split; [|split]; auto; eapply Forall_incl; eauto.
Qed.

Lemma tagsInOrder_ack (c : Channel) (t : Z) (multiple : bool) :
  tagsInOrder c -> tagsInOrder (snd (ack c t multiple)).
Proof.
  intros H. assert (Hnd := proj2 (proj2 H)). unfold ack. destruct multiple; simpl.
  - apply tagsInOrder_sub; auto.
    + intros x Hx. now apply filter_In in Hx.
    + now apply filter_keys_NoDup.
  - destruct (JsMap.get Z.eqb (unackedMessages c) t); simpl; auto.
    apply tagsInOrder_sub; auto.
    + apply delete_incl_Z.
    + now apply delete_keys_NoDup_Z.
Qed.

Lemma tagsInOrder_reject (c : Channel) (t : Z) :
  tagsInOrder c -> tagsInOrder (snd (reject c t)).
Proof.
  intros H. assert (Hnd := proj2 (proj2 H)). unfold reject.
  destruct (JsMap.get Z.eqb (unackedMessages c) t); simpl; auto.
  apply tagsInOrder_sub; auto.
  - apply delete_incl_Z.
  - now apply delete_keys_NoDup_Z.
Qed.

Lemma tagsInOrder_close (c : Channel) : tagsInOrder c -> tagsInOrder (closeChannelObj c).
Proof.
  intros H. unfold closeChannelObj. destruct (ch_state c); auto;
    (split; [constructor|split; constructor]).
Qed.

(** *** The heap of channels *)

Lemma heap_get (b : Broker) (ref : nat) (c : Channel) :
  allTagsInOrder b -> getChannelObj b ref = Some c -> tagsInOrder c.
Proof.
  intros H Hg. apply get_In_nat in Hg.
  eapply Forall_forall in H; [|exact Hg]. exact H.
Qed.

Lemma heap_put (b : Broker) (ref : nat) (c : Channel) :
  allTagsInOrder b -> tagsInOrder c -> allTagsInOrder (putChannelObj b ref c).
Proof.
  intros H Hc. unfold allTagsInOrder, putChannelObj. simpl.
  apply (JsMapFacts.Forall_set Nat.eqb tagsInOrder); assumption.
Qed.

Lemma heap_same (b b' : Broker) :
  channelHeap b' = channelHeap b -> allTagsInOrder b -> allTagsInOrder b'.
Proof. unfold allTagsInOrder. now intros ->. Qed.

Lemma heap_fold {A : Type} (f : Broker -> A -> Broker) (l : list A) :
  (forall b x, channelHeap (f b x) = channelHeap b) ->
  forall b, channelHeap (fold_left f l b) = channelHeap b.
Proof.
  intros Hf. induction l as [|x l IH]; intros b; simpl; [reflexivity|].
  now rewrite IH, Hf.
Qed.

Lemma heap_registryRemove b tag :
  channelHeap (snd (registryRemove b tag)) = channelHeap b.
Proof. unfold registryRemove. destruct (JsMap.get _ _ _); reflexivity. Qed.

Lemma heap_removeByChannel b ref :
  channelHeap (snd (removeByChannel b ref)) = channelHeap b.
Proof.
  unfold removeByChannel. simpl. apply heap_fold. intros. apply heap_registryRemove.
Qed.

Lemma heap_releaseConsumer b c : channelHeap (releaseConsumer b c) = channelHeap b.
Proof. unfold releaseConsumer. destruct (getQueue _ _); reflexivity. Qed.

Lemma heap_requeueUnacked front b u :
  channelHeap (requeueUnacked front b u) = channelHeap b.
Proof. unfold requeueUnacked. destruct (getQueue _ _); reflexivity. Qed.

Lemma heap_deleteIfDurable b u : channelHeap (deleteIfDurable b u) = channelHeap b.
Proof. unfold deleteIfDurable. destruct (isDurable _ _); reflexivity. Qed.

Lemma heap_dropExclusive connId b e :
  channelHeap (dropExclusive connId b e) = channelHeap b.
Proof. unfold dropExclusive. destruct (option_string_eqb _ _); reflexivity. Qed.

Lemma heap_putConnectionObj b id c :
  channelHeap (putConnectionObj b id c) = channelHeap b.
Proof. reflexivity. Qed.

(** *** Deliveries *)

Lemma deliver_keeps_tags (b b' : Broker) (c : Consumer) :
  allTagsInOrder b -> deliverToConsumer b c = Some b' -> allTagsInOrder b'.
Proof.
  intros Hinv H. unfold deliverToConsumer in H.
  destruct (getChannelObj b (c_channel c)) as [channel|] eqn:Hch; [|now injection H as <-].
  destruct (negb (canReceive channel)); [now injection H as <-|].
  destruct (getQueue b (c_queueName c)) as [queue|]; [|now injection H as <-].
  destruct (dequeue queue) as [[message queue']|]; [|now injection H as <-].
  assert (Hc := heap_get _ _ _ Hinv Hch).
  set (channel2 := if negb (noAck c)
                   then trackUnacked (ch_with_counter channel (deliveryTagCounter channel + 1))
                          (deliveryTagCounter channel + 1) message (c_queueName c)
                          (consumerTag c)
                   else ch_with_counter channel (deliveryTagCounter channel + 1)) in *.
  assert (Hc2 : tagsInOrder channel2).
  { unfold channel2. destruct (negb (noAck c));
      [apply tagsInOrder_track|apply tagsInOrder_counter]; exact Hc. }
  set (b2 := putChannelObj (putQueue b (c_queueName c) queue') (c_channel c) channel2) in *.
  assert (Hb2 : allTagsInOrder b2).
  { unfold b2. apply heap_put; [|exact Hc2]. exact Hinv. }
  destruct (getConnectionObj b2 (ch_connection channel)); [|now injection H as <-].
  destruct (buildMessageFrames _ _ _ _); [|discriminate].
  injection H as <-.
  eapply heap_same; [|exact Hb2].
  destruct (canReceive channel2); destruct (noAck c && q_durable queue);
    simpl; unfold deleteMessage; simpl; apply channelHeap_brokerSend.
Qed.

Lemma deliverAll_keeps_tags (cs : list Consumer) :
  forall b b', allTagsInOrder b -> deliverAll b cs = Some b' -> allTagsInOrder b'.
Proof.
  induction cs as [|c cs IH]; simpl; intros b b' Hinv H; [now injection H as <-|].
  destruct (deliverToConsumer b c) as [b1|] eqn:E; [|discriminate].
  eapply IH; [|exact H]. eapply deliver_keeps_tags; eauto.
Qed.

Lemma redeliver_keeps_tags (tags : list string) :
  forall b b', allTagsInOrder b -> redeliverChannel b tags = Some b' -> allTagsInOrder b'.
Proof.
  induction tags as [|t tags IH]; simpl; intros b b' Hinv H; [now injection H as <-|].
  destruct (JsMap.get String.eqb (consumers b) t) as [c|]; [|eauto].
  destruct (deliverToConsumer b c) as [b1|] eqn:E; [|discriminate].
  eapply IH; [|exact H]. eapply deliver_keeps_tags; eauto.
Qed.


(** *** Handlers *)

Lemma closeWithError_keeps_tags b connId n code text :
  allTagsInOrder b -> allTagsInOrder (closeChannelWithError b connId n code text).
Proof. apply heap_same. apply channelHeap_brokerSend. Qed.

Lemma send_keeps_tags b connId frames :
  allTagsInOrder b -> allTagsInOrder (brokerSend b connId frames).
Proof. apply heap_same. apply channelHeap_brokerSend. Qed.

Lemma consume_keeps_tags b b' connId n ref channel queue tag noLocal noAck
  exclusive noWait :
  allTagsInOrder b -> tagsInOrder channel ->
  handleConsume b connId n ref channel queue tag noLocal noAck exclusive noWait
  = Some b' ->
  allTagsInOrder b'.
Proof.
  intros Hinv Hc H. unfold handleConsume in H.
  destruct (getQueue b queue) as [q|];
    [|injection H as <-; now apply closeWithError_keeps_tags].
  destruct (negb (canAccess q connId));
    [injection H as <-; now apply closeWithError_keeps_tags|].
  destruct (exclusive && hasExclusiveConsumer b queue);
    [injection H as <-; now apply closeWithError_keeps_tags|].
  eapply deliver_keeps_tags; [|exact H].
  match goal with
  | |- allTagsInOrder (if negb noWait then brokerSend ?x _ _ else _) =>
      assert (Hx : allTagsInOrder x)
  end.
  { eapply heap_same; [reflexivity|]. apply heap_put; [|exact Hc].
    eapply heap_same; [|exact Hinv]. reflexivity. }
  destruct (negb noWait); [now apply send_keeps_tags|exact Hx].
Qed.

Lemma cancel_keeps_tags b connId n ref tag noWait :
  allTagsInOrder b -> allTagsInOrder (handleCancel b connId n ref tag noWait).
Proof.
  intros Hinv. unfold handleCancel.
  match goal with
  | |- allTagsInOrder (if negb noWait then brokerSend ?x _ _ else _) =>
      assert (Hx : allTagsInOrder x)
  end.
  { pose proof (heap_registryRemove b tag) as Hr.
    destruct (registryRemove b tag) as [[consumer|] b1]; simpl in Hr;
      [|eapply heap_same; eauto].
    assert (Hb1 : allTagsInOrder b1) by (eapply heap_same; eauto).
    assert (Hb1' : allTagsInOrder
                     match getChannelObj b1 ref with
                     | Some ch => putChannelObj b1 ref (removeConsumer ch tag)
                     | None => b1
                     end).
    { destruct (getChannelObj b1 ref) as [ch|] eqn:E; [|exact Hb1].
      apply heap_put; [exact Hb1|]. exact (heap_get _ _ _ Hb1 E). }
    destruct (getQueue _ (c_queueName consumer)); [|exact Hb1'].
    eapply heap_same; [|exact Hb1']. reflexivity. }
  destruct (negb noWait); [now apply send_keeps_tags|exact Hx].
Qed.

Lemma get_keeps_tags b b' connId n ref channel queue noAck :
  allTagsInOrder b -> tagsInOrder channel ->
  handleGet b connId n ref channel queue noAck = Some b' ->
  allTagsInOrder b'.
Proof.
  intros Hinv Hc H. unfold handleGet in H.
  destruct (getQueue b queue) as [q|];
    [|injection H as <-; now apply closeWithError_keeps_tags].
  destruct (dequeue q) as [[message q']|];
    [|injection H as <-; now apply send_keeps_tags].
  match type of H with
  | match getConnectionObj ?x _ with _ => _ end = _ =>
      assert (Hx : allTagsInOrder x); [|set (b2 := x) in *]
  end.
  { destruct (negb noAck).
    - apply heap_put; [exact Hinv|]. now apply tagsInOrder_track.
    - assert (Hp : allTagsInOrder
                     (putChannelObj (putQueue b queue q') ref
                        (ch_with_counter channel (deliveryTagCounter channel + 1)))).
      { apply heap_put; [exact Hinv|]. now apply tagsInOrder_counter. }
      destruct (q_durable q); [|exact Hp].
      eapply heap_same; [|exact Hp]. reflexivity. }
  destruct (getConnectionObj b2 connId); [|now injection H as <-].
  destruct (buildMessageFrames _ _ _ _); [|discriminate].
  injection H as <-. now apply send_keeps_tags.
Qed.

Lemma ack_keeps_tags b b' ref channel t multiple :
  allTagsInOrder b -> tagsInOrder channel ->
  handleAck b ref channel t multiple = Some b' -> allTagsInOrder b'.
Proof.
  intros Hinv Hc H. unfold handleAck in H.
  pose proof (tagsInOrder_ack channel t multiple Hc) as Hc'.
  destruct (ack channel t multiple) as [acked channel']. simpl in Hc'.
  eapply redeliver_keeps_tags; [|exact H].
  eapply heap_same; [apply heap_fold; apply heap_deleteIfDurable|].
  now apply heap_put.
Qed.

Lemma heap_scheduleQueue b q : channelHeap (scheduleQueue b q) = channelHeap b.
Proof. reflexivity. Qed.

Lemma reject_keeps_tags b ref channel t requeueFlag :
  allTagsInOrder b -> tagsInOrder channel ->
  allTagsInOrder (handleReject b ref channel t requeueFlag).
Proof.
  intros Hinv Hc. unfold handleReject.
  pose proof (tagsInOrder_reject channel t Hc) as Hc'.
  destruct (reject channel t) as [[rejected|] channel']; [|exact Hinv].
  simpl in Hc'.
  assert (Hb1 : allTagsInOrder (putChannelObj b ref channel')) by now apply heap_put.
  destruct requeueFlag.
  - destruct (getQueue _ (um_queueName rejected)); [|exact Hb1].
    eapply heap_same; [|exact Hb1]. reflexivity.
  - eapply heap_same; [apply heap_deleteIfDurable|exact Hb1].
Qed.

Lemma heap_nackOne requeueFlag acc u :
  channelHeap (fst (nackOne requeueFlag acc u)) = channelHeap (fst acc).
Proof.
  destruct acc as [b l]. unfold nackOne. destruct requeueFlag; simpl.
  - destruct (getQueue b (um_queueName u)); reflexivity.
  - apply heap_deleteIfDurable.
Qed.

Lemma heap_nack_loop requeueFlag (us : list UnackedMessage) :
  forall acc,
    channelHeap (fst (fold_left (nackOne requeueFlag) us acc)) = channelHeap (fst acc).
Proof.
  induction us as [|u us IH]; intros acc; simpl; [reflexivity|].
  now rewrite IH, heap_nackOne.
Qed.

Lemma nack_keeps_tags b ref channel t multiple requeueFlag :
  allTagsInOrder b -> tagsInOrder channel ->
  allTagsInOrder (handleNack b ref channel t multiple requeueFlag).
Proof.
  intros Hinv Hc. unfold handleNack, nack.
  pose proof (tagsInOrder_ack channel t multiple Hc) as Hc'.
  destruct (ack channel t multiple) as [nacked channel']. simpl in Hc'.
  pose proof (heap_nack_loop requeueFlag nacked (putChannelObj b ref channel', []))
    as Hl.
  destruct (fold_left (nackOne requeueFlag) nacked (putChannelObj b ref channel', []))
    as [b2 toRedeliver]. cbn [fst] in Hl.
  eapply heap_same; [apply heap_fold; apply heap_scheduleQueue|].
  eapply heap_same; [exact Hl|]. now apply heap_put.
Qed.

Lemma tagsInOrder_ack_loop (us : list UnackedMessage) :
  forall c, tagsInOrder c ->
    tagsInOrder (fold_left (fun c u => snd (ack c (um_deliveryTag u) false)) us c).
Proof.
  induction us as [|u us IH]; intros c Hc; cbn [fold_left]; [exact Hc|].
  apply IH. now apply tagsInOrder_ack.
Qed.

Lemma recover_keeps_tags b b' connId n ref channel requeueFlag sendOk :
  allTagsInOrder b -> tagsInOrder channel ->
  handleRecover b connId n ref channel requeueFlag sendOk = Some b' ->
  allTagsInOrder b'.
Proof.
  intros Hinv Hc H. unfold handleRecover in H.
  eapply redeliver_keeps_tags; [|exact H].
  assert (Hr : allTagsInOrder (recoverRequeue b ref channel requeueFlag)).
  { unfold recoverRequeue. apply heap_put.
    - eapply heap_same; [apply heap_fold; apply heap_requeueUnacked|exact Hinv].
    - now apply tagsInOrder_ack_loop. }
  destruct sendOk; [now apply send_keeps_tags|exact Hr].
Qed.

Lemma basic_keeps_tags b b' connId n method :
  allTagsInOrder b -> handleBasicMethod b connId n method = Some b' ->
  allTagsInOrder b'.
Proof.
  intros Hinv H. unfold handleBasicMethod in H.
  destruct (lookupChannel b connId n) as [[ref channel]|] eqn:Hl;
    [|now injection H as <-].
  assert (Hc : tagsInOrder channel).
  { eapply heap_get; [exact Hinv|]. eapply lookupChannel_heap; eauto. }
  destruct (negb (ChannelState_eqb (ch_state channel) ch_open));
    [now injection H as <-|].
  destruct method.
  - injection H as <-. unfold handleQos. apply send_keeps_tags.
    apply heap_put; [exact Hinv|exact Hc].
  - eapply consume_keeps_tags; eauto.
  - injection H as <-. now apply cancel_keeps_tags.
  - injection H as <-. unfold handlePublish. apply heap_put; [exact Hinv|exact Hc].
  - eapply get_keeps_tags; eauto.
  - eapply ack_keeps_tags; eauto.
  - injection H as <-. now apply reject_keeps_tags.
  - injection H as <-. now apply nack_keeps_tags.
  - eapply recover_keeps_tags; eauto.
  - eapply recover_keeps_tags; eauto.
Qed.

Lemma enqueue_loop_keeps_tags message persistent (keys : list string) :
  forall (acc : option Broker) b',
    match acc with Some b => allTagsInOrder b | None => True end ->
    fold_left (enqueueOne message persistent) keys acc = Some b' ->
    allTagsInOrder b'.
Proof.
  induction keys as [|k keys IH]; simpl; intros acc b' Hacc H.
  - subst acc. exact Hacc.
  - eapply IH; [|exact H].
    destruct acc as [b|]; simpl; [|exact I].
    destruct (getQueue b k) as [queue|]; [|exact Hacc].
    match goal with
    | |- match deliverAll ?x ?cs with _ => _ end =>
        destruct (deliverAll x cs) as [b1|] eqn:E; [|exact I];
        eapply deliverAll_keeps_tags; [|exact E]
    end.
    destruct (q_durable queue && persistent);
      (eapply heap_same; [|exact Hacc]; reflexivity).
Qed.

Lemma complete_keeps_tags uuid now b b' connId ref :
  allTagsInOrder b -> completeMessage uuid now b connId ref = Some b' ->
  allTagsInOrder b'.
Proof.
  intros Hinv H. unfold completeMessage in H.
  destruct (getChannelObj b ref) as [channel|] eqn:Hch; [|now injection H as <-].
  destruct (pendingMessage channel) as [pending|]; [|now injection H as <-].
  assert (Hb1 : allTagsInOrder (putChannelObj b ref (ch_with_pending channel None))).
  { apply heap_put; [exact Hinv|]. exact (heap_get _ _ _ Hinv Hch). }
  destruct (route _ _) as [|k keys].
  - destruct (pm_mandatory pending); [|now injection H as <-].
    destruct (getConnectionObj _ connId); [|now injection H as <-].
    destruct (buildMessageFrames _ _ _ _); [|discriminate].
    injection H as <-. now apply send_keeps_tags.
  - eapply enqueue_loop_keeps_tags; [|exact H]. exact Hb1.
Qed.

Lemma header_keeps_tags uuid now b b' connId n bodySize properties :
  allTagsInOrder b ->
  handleHeaderFrame uuid now b connId n bodySize properties = Some b' ->
  allTagsInOrder b'.
Proof.
  intros Hinv H. unfold handleHeaderFrame in H.
  destruct (lookupChannel b connId n) as [[ref channel]|] eqn:Hl;
    [|now injection H as <-].
  assert (Hc : tagsInOrder channel).
  { eapply heap_get; [exact Hinv|]. eapply lookupChannel_heap; eauto. }
  destruct (pendingMessage channel) as [pending|]; [|now injection H as <-].
  match type of H with
  | (if _ then completeMessage _ _ ?x _ _ else _) = _ =>
      assert (Hx : allTagsInOrder x) by (apply heap_put; [exact Hinv|exact Hc])
  end.
  destruct (bodySize =? 0); [|now injection H as <-].
  eapply complete_keeps_tags; eauto.
Qed.

Lemma body_keeps_tags uuid now b b' connId n payload :
  allTagsInOrder b ->
  handleBodyFrame uuid now b connId n payload = Some b' ->
  allTagsInOrder b'.
Proof.
  intros Hinv H. unfold handleBodyFrame in H.
  destruct (lookupChannel b connId n) as [[ref channel]|] eqn:Hl;
    [|now injection H as <-].
  assert (Hc : tagsInOrder channel).
  { eapply heap_get; [exact Hinv|]. eapply lookupChannel_heap; eauto. }
  destruct (pendingMessage channel) as [pending|]; [|now injection H as <-].
  match type of H with
  | (if _ then completeMessage _ _ ?x _ _ else _) = _ =>
      assert (Hx : allTagsInOrder x) by (apply heap_put; [exact Hinv|exact Hc])
  end.
  destruct (pm_bodySize pending <=? _); [|now injection H as <-].
  eapply complete_keeps_tags; eauto.
Qed.

Lemma closeChannel_keeps_tags b connId n :
  allTagsInOrder b -> allTagsInOrder (closeChannel b connId n).
Proof.
  intros Hinv. unfold closeChannel.
  destruct (getConnectionObj b connId) as [connection|]; [|exact Hinv].
  destruct (JsMap.get Z.eqb (conn_channels connection) n) as [ref|]; [|exact Hinv].
  eapply heap_same; [apply heap_putConnectionObj|].
  destruct (getChannelObj b ref) as [ch|] eqn:E; [|exact Hinv].
  apply heap_put; [exact Hinv|]. apply tagsInOrder_close. exact (heap_get _ _ _ Hinv E).
Qed.

Lemma cleanupChannel_keeps_tags b connId ref :
  allTagsInOrder b -> allTagsInOrder (cleanupChannel b connId ref).
Proof.
  intros Hinv. unfold cleanupChannel.
  destruct (getChannelObj b ref) as [channel|]; [|exact Hinv].
  pose proof (heap_removeByChannel b ref) as Hr.
  destruct (removeByChannel b ref) as [removed b1]. simpl in Hr.
  apply closeChannel_keeps_tags.
  eapply heap_same; [apply heap_fold; apply heap_requeueUnacked|].
  eapply heap_same; [apply heap_fold; apply heap_releaseConsumer|].
  eapply heap_same; eauto.
Qed.

Lemma channel_keeps_tags b connId n method :
  allTagsInOrder b -> allTagsInOrder (handleChannelMethod b connId n method).
Proof.
  intros Hinv. unfold handleChannelMethod.
  destruct (getConnectionObj b connId) as [connection|]; [|exact Hinv].
  destruct method.
  - destruct (JsMap.has Z.eqb (conn_channels connection) n);
      [now apply closeWithError_keeps_tags|].
    destruct (conn_channelMax connection <? n);
      [eapply heap_same; [apply heap_putConnectionObj|exact Hinv]|].
    apply send_keeps_tags. eapply heap_same; [apply heap_putConnectionObj|].
    apply heap_put; [exact Hinv|].
    split; [constructor|split; constructor].
  - destruct (lookupChannel b connId n) as [[ref channel]|] eqn:Hl; [|exact Hinv].
    assert (Hc : tagsInOrder channel).
    { eapply heap_get; [exact Hinv|]. eapply lookupChannel_heap; eauto. }
    apply send_keeps_tags. apply heap_put; [exact Hinv|exact Hc].
  - apply send_keeps_tags.
    destruct (lookupChannel b connId n) as [[ref channel]|]; [|exact Hinv].
    now apply cleanupChannel_keeps_tags.
  - destruct (lookupChannel b connId n) as [[ref channel]|]; [|exact Hinv].
    now apply cleanupChannel_keeps_tags.
Qed.

Lemma declare_keeps_tags uuid b connId n queue passive durable exclusive
  autoDelete noWait :
  allTagsInOrder b ->
  allTagsInOrder (handleQueueDeclare uuid b connId n queue passive durable
                    exclusive autoDelete noWait).
Proof.
  apply heap_same. unfold handleQueueDeclare.
  destruct (lookupChannel b connId n) as [[ref channel]|]; [|reflexivity].
  destruct (negb (ChannelState_eqb (ch_state channel) ch_open)); [reflexivity|].
  set (queueName := if String.eqb queue "" then _ else _).
  assert (Hok : forall b', channelHeap
            (if negb noWait
             then match getQueue b' queueName with
                  | Some q =>
                      brokerSend b' connId
                        [MethodFrame n
                           (QueueDeclareOk queueName (getMessageCount q)
                              (consumerCount q))]
                  | None => b'
                  end
             else b') = channelHeap b').
  { intros b'. destruct (negb noWait); [|reflexivity].
    destruct (getQueue b' queueName); [apply channelHeap_brokerSend|reflexivity]. }
  destruct (getQueue b queueName) as [existing|].
  - destruct (negb passive && negb (queueMatches existing durable exclusive));
      [apply channelHeap_brokerSend|].
    destruct (negb (canAccess existing connId)); [apply channelHeap_brokerSend|].
    destruct (negb noWait); [apply channelHeap_brokerSend|reflexivity].
  - destruct passive; [apply channelHeap_brokerSend|].
    rewrite Hok. destruct durable.
    + unfold saveBinding, saveQueue, addBinding. simpl.
      repeat match goal with |- context [if ?c then _ else _] => destruct c end;
        reflexivity.
    + unfold addBinding. simpl.
      repeat match goal with |- context [if ?c then _ else _] => destruct c end;
        reflexivity.
Qed.

Lemma closeOne_keeps_tags b ref : allTagsInOrder b -> allTagsInOrder (closeOne b ref).
Proof.
  intros Hinv. unfold closeOne. destruct (getChannelObj b ref) as [ch|] eqn:E; [|exact Hinv].
  apply heap_put; [exact Hinv|]. apply tagsInOrder_close. exact (heap_get _ _ _ Hinv E).
Qed.

Lemma inv_fold {A : Type} (f : Broker -> A -> Broker) (l : list A) :
  (forall b x, allTagsInOrder b -> allTagsInOrder (f b x)) ->
  forall b, allTagsInOrder b -> allTagsInOrder (fold_left f l b).
Proof.
  intros Hf. induction l as [|x l IH]; intros b Hb; simpl; [exact Hb|].
  apply IH, Hf, Hb.
Qed.

Lemma cleanupConnection_keeps_tags b connId :
  allTagsInOrder b -> allTagsInOrder (cleanupConnection b connId).
Proof.
  intros Hinv. unfold cleanupConnection.
  destruct (getConnectionObj b connId) as [connection|]; [|exact Hinv].
  set (b1 := fold_left _ _ b).
  assert (Hb1 : allTagsInOrder b1).
  { unfold b1. apply inv_fold; [|exact Hinv].
    intros. now apply cleanupChannel_keeps_tags. }
  set (b2 := fold_left (dropExclusive connId) (queues b1) b1).
  assert (Hb2 : allTagsInOrder b2).
  { eapply heap_same; [apply heap_fold; apply heap_dropExclusive|exact Hb1]. }
  unfold closeConnection.
  match goal with
  | |- allTagsInOrder match getConnectionObj ?x _ with _ => _ end =>
      assert (Hx : allTagsInOrder x) by (eapply heap_same; [|exact Hb2]; reflexivity);
      set (b3 := x) in *
  end.
  destruct (getConnectionObj b3 connId) as [c|]; [|exact Hx].
  destruct (isClosed (conn_state c)); [exact Hx|].
  eapply heap_same; [apply heap_putConnectionObj|].
  apply inv_fold; [|exact Hx]. intros. now apply closeOne_keeps_tags.
Qed.

Lemma heap_queueDelete b connId n queue ifUnused ifEmpty noWait :
  channelHeap (fst (handleQueueDelete b connId n queue ifUnused ifEmpty noWait))
  = channelHeap b.
Proof.
  unfold handleQueueDelete.
  destruct (lookupChannel b connId n) as [[ref channel]|]; [|reflexivity].
  destruct (negb (ChannelState_eqb (ch_state channel) ch_open)); [reflexivity|].
  destruct (getQueue b queue) as [q|]; [|reflexivity].
  destruct (ifUnused && (0 <? consumerCount q)); [apply channelHeap_brokerSend|].
  destruct (ifEmpty && (0 <? getMessageCount q)); [apply channelHeap_brokerSend|].
  cbn [fst]. unfold with_store. cbn [channelHeap].
  rewrite heap_fold; [reflexivity|]. intros. apply heap_registryRemove.
Qed.

Lemma handle_keeps_tags (b b' : Broker) (e : Event) :
  allTagsInOrder b -> handle b e = Some b' -> allTagsInOrder b'.
Proof.
  intros Hinv H. destruct e; simpl in H.
  - injection H as <-. now apply channel_keeps_tags.
  - injection H as <-. now apply declare_keeps_tags.
  - eapply basic_keeps_tags; eauto.
  - eapply header_keeps_tags; eauto.
  - eapply body_keeps_tags; eauto.
  - injection H as <-. eapply heap_same; [apply heap_queueDelete|exact Hinv].
  - unfold runImmediate in H. destruct (immediates b) as [|c rest];
      [now injection H as <-|].
    eapply deliver_keeps_tags; [|exact H]. eapply heap_same; [|exact Hinv]. reflexivity.
  - injection H as <-. now apply cleanupConnection_keeps_tags.
Qed.

(** X18: delivery tags stay in order whatever the clients send: on
    every channel each unacknowledged delivery is filed under its own
    tag, tags are never above the channel's counter and no tag is handed
    out twice. *)
Theorem delivery_tags_in_order (es : list Event) (b b' : Broker) :
  allTagsInOrder b -> handleAll b es = Some b' -> allTagsInOrder b'.
Proof.
  revert b. induction es as [|e es IH]; simpl; intros b Hinv H.
  - now injection H as <-.
  - destruct (handle b e) as [b1|] eqn:E; [|discriminate].
    eapply IH; [|exact H]. eapply handle_keeps_tags; eauto.
Qed.


(** *** A delivery and its rejection *)

Lemma getChannelObj_put_same b ref c : getChannelObj (putChannelObj b ref c) ref = Some c.
Proof.
  unfold getChannelObj, putChannelObj. simpl.
  apply (JsMapFacts.get_set_same Nat.eqb nat_eqb_spec).
Qed.

Lemma getChannelObj_same_heap b b' ref :
  channelHeap b' = channelHeap b -> getChannelObj b' ref = getChannelObj b ref.
Proof. unfold getChannelObj. now intros ->. Qed.

Lemma getQueue_same_queues b b' q :
  queues b' = queues b -> getQueue b' q = getQueue b q.
Proof. unfold getQueue. now intros ->. Qed.

(** What [deliverToConsumer] leaves behind when it dispatches to a
    consumer that acknowledges. *)
Lemma dispatch_tracks (b b' : Broker) (c : Consumer) :
  dispatches b c = true -> noAck c = false -> deliverToConsumer b c = Some b' ->
  exists channel queue m rest,
    getChannelObj b (c_channel c) = Some channel
    /\ getQueue b (c_queueName c) = Some queue
    /\ messages queue = m :: rest
    /\ getQueue b' (c_queueName c) = Some (q_with_messages queue rest)
    /\ getChannelObj b' (c_channel c)
       = Some (trackUnacked (ch_with_counter channel (deliveryTagCounter channel + 1))
                 (deliveryTagCounter channel + 1) m (c_queueName c) (consumerTag c)).
Proof.
  unfold dispatches, deliverToConsumer. intros Hd Hna H.
  destruct (getChannelObj b (c_channel c)) as [channel|] eqn:Hch; [|discriminate].
  destruct (canReceive channel); [|discriminate]. cbn [negb andb] in *.
  destruct (getQueue b (c_queueName c)) as [queue|] eqn:Hq; [|discriminate].
  unfold dequeue in *. destruct (messages queue) as [|m rest] eqn:Hms; [discriminate|].
  rewrite Hna in H. cbn [negb andb] in H.
  exists channel, queue, m, rest. repeat split; try reflexivity; try exact Hms.
  - match type of H with
    | match getConnectionObj ?x _ with _ => _ end = _ => set (b2 := x) in *
    end.
    assert (Hq2 : getQueue b2 (c_queueName c) = Some (q_with_messages queue rest)).
    { unfold b2. apply getQueue_putQueue_same. }
    destruct (getConnectionObj b2 (ch_connection channel)); [|now injection H as <-].
    destruct (buildMessageFrames _ _ _ _); [|discriminate].
    injection H as <-. rewrite <- Hq2. apply getQueue_same_queues.
    destruct (canReceive _); simpl; apply queues_brokerSend.
  - match type of H with
    | match getConnectionObj ?x _ with _ => _ end = _ => set (b2 := x) in *
    end.
    assert (Hc2 : getChannelObj b2 (c_channel c)
                  = Some (trackUnacked
                            (ch_with_counter channel (deliveryTagCounter channel + 1))
                            (deliveryTagCounter channel + 1) m (c_queueName c)
                            (consumerTag c))).
    { unfold b2. apply getChannelObj_put_same. }
    destruct (getConnectionObj b2 (ch_connection channel)); [|now injection H as <-].
    destruct (buildMessageFrames _ _ _ _); [|discriminate].
    injection H as <-. rewrite <- Hc2. apply getChannelObj_same_heap.
    destruct (canReceive _); simpl; apply channelHeap_brokerSend.
Qed.

Lemma getQueue_putQueue_other_heap b ref c q :
  getQueue (putChannelObj b ref c) q = getQueue b q.
Proof. reflexivity. Qed.

Lemma delete_set_fresh_Z {V : Type} (m : list (Z * V)) (k : Z) (v : V) :
  ~ In k (JsMap.keys m) -> JsMap.delete Z.eqb (JsMap.set Z.eqb m k v) k = m.
Proof.
  induction m as [|[k' v'] m IH]; simpl; intros H.
  - now rewrite Z.eqb_refl.
  - destruct (Z.eqb k' k) eqn:E.
    + apply Z.eqb_eq in E. subst k'. exfalso. auto.
    + simpl. rewrite E, IH; auto.
Qed.

Lemma handleReject_requeue b ref channel t u queue :
  JsMap.get Z.eqb (unackedMessages channel) t = Some u ->
  getQueue b (um_queueName u) = Some queue ->
  handleReject b ref channel t true
  = scheduleQueue
      (putQueue
         (putChannelObj b ref
            (ch_with_unacked channel (JsMap.delete Z.eqb (unackedMessages channel) t)))
         (um_queueName u) (requeue queue (um_message u) true))
      (um_queueName u).
Proof.
  intros Hg Hq. unfold handleReject, reject. rewrite Hg.
  rewrite getQueue_putQueue_other_heap, Hq. reflexivity.
Qed.

Lemma getQueue_scheduleQueue b q q' : getQueue (scheduleQueue b q) q' = getQueue b q'.
Proof. reflexivity. Qed.

Lemma getChannelObj_scheduleQueue b q ref :
  getChannelObj (scheduleQueue b q) ref = getChannelObj b ref.
Proof. reflexivity. Qed.

Lemma getChannelObj_putQueue b k q ref :
  getChannelObj (putQueue b k q) ref = getChannelObj b ref.
Proof. reflexivity. Qed.

Lemma q_with_messages_same (q : Queue) : q_with_messages q (messages q) = q.
Proof. now destruct q. Qed.

(** X19: a delivery that is rejected with requeue is undone: the
    message is back at the head of its queue, which is exactly as it was
    before the delivery, and the channel's unacknowledged deliveries are
    the ones it had before. *)
Theorem reject_requeue_undoes_delivery (b b1 : Broker) (c : Consumer)
  (channel channel1 : Channel) :
  allTagsInOrder b ->
  dispatches b c = true -> noAck c = false ->
  deliverToConsumer b c = Some b1 ->
  getChannelObj b (c_channel c) = Some channel ->
  getChannelObj b1 (c_channel c) = Some channel1 ->
  let b2 := handleReject b1 (c_channel c) channel1 (deliveryTagCounter channel1) true in
  getQueue b2 (c_queueName c) = getQueue b (c_queueName c)
  /\ option_map unackedMessages (getChannelObj b2 (c_channel c))
     = Some (unackedMessages channel).
Proof.
  intros Hinv Hd Hna H Hch Hch1 b2.
  destruct (dispatch_tracks b b1 c Hd Hna H)
    as (channel0 & queue & m & rest & Hc0 & Hq & Hms & Hq1 & Hc1).
  assert (channel0 = channel) by congruence. subst channel0.
  assert (Hfresh : ~ In (deliveryTagCounter channel + 1)
                       (JsMap.keys (unackedMessages channel))).
  { destruct (heap_get _ _ _ Hinv Hch) as [_ [Hle _]].
    intros Hin. unfold JsMap.keys in Hin. apply in_map_iff in Hin as [e [He Hin]].
    eapply Forall_forall in Hle; [|exact Hin]. simpl in Hle. lia. }
  assert (channel1 = trackUnacked
                       (ch_with_counter channel (deliveryTagCounter channel + 1))
                       (deliveryTagCounter channel + 1) m (c_queueName c)
                       (consumerTag c)) by congruence.
  subst channel1. unfold b2.
  set (tag := deliveryTagCounter channel + 1) in *.
  set (u := mkUnacked m (c_queueName c) tag (consumerTag c)).
  set (channel1 := trackUnacked (ch_with_counter channel tag) tag m (c_queueName c)
                     (consumerTag c)) in *.
  assert (Hget : JsMap.get Z.eqb (unackedMessages channel1) tag = Some u).
  { apply (JsMapFacts.get_set_same Z.eqb Z.eqb_eq). }
  assert (Hdel : JsMap.delete Z.eqb (unackedMessages channel1) tag
                 = unackedMessages channel).
  { apply (delete_set_fresh_Z _ _ _ Hfresh). }
  change (deliveryTagCounter channel1) with tag.
  rewrite (handleReject_requeue b1 (c_channel c) channel1 tag u
             (q_with_messages queue rest) Hget Hq1).
  rewrite Hdel. split.
  - rewrite getQueue_scheduleQueue, getQueue_putQueue_same, Hq. f_equal.
    unfold requeue. simpl. rewrite <- Hms. now destruct queue.
  - rewrite getChannelObj_scheduleQueue, getChannelObj_putQueue.
    rewrite getChannelObj_put_same. reflexivity.
Qed.


(** *** Closing a channel *)

Lemma delete_app_str {V : Type} (pre m : list (string * V)) (k : string) (v : V) :
  ~ In k (JsMap.keys pre) ->
  JsMap.delete String.eqb (pre ++ (k, v) :: m) k = pre ++ m.
Proof.
  induction pre as [|[k' v'] pre IH]; simpl; intros H.
  - now rewrite String.eqb_refl.
  - destruct (String.eqb k' k) eqn:E.
    + apply String.eqb_eq in E. subst k'. exfalso. auto.
    + rewrite IH; auto.
Qed.

Lemma get_app_str {V : Type} (pre m : list (string * V)) (k : string) (v : V) :
  ~ In k (JsMap.keys pre) ->
  JsMap.get String.eqb (pre ++ (k, v) :: m) k = Some v.
Proof.
  induction pre as [|[k' v'] pre IH]; simpl; intros H.
  - now rewrite String.eqb_refl.
  - destruct (String.eqb k' k) eqn:E.
    + apply String.eqb_eq in E. subst k'. exfalso. auto.
    + rewrite IH; auto.
Qed.

Lemma consumers_registryRemove b tag :
  consumers (snd (registryRemove b tag)) = JsMap.delete String.eqb (consumers b) tag.
Proof.
  unfold registryRemove.
  destruct (JsMap.get String.eqb (consumers b) tag) eqn:E; [reflexivity|].
  simpl. induction (consumers b) as [|[k v] m IH]; [reflexivity|].
  simpl in *. destruct (String.eqb k tag); [discriminate|]. now rewrite <- IH.
Qed.

Lemma remove_loop (ref : nat) (m : list (string * Consumer)) :
  forall (pre : list (string * Consumer)) (b : Broker),
    consumers b = pre ++ m ->
    Forall (fun e => fst e = consumerTag (snd e)) m ->
    NoDup (JsMap.keys (pre ++ m)) ->
    consumers
      (fold_left (fun acc c => snd (registryRemove acc (consumerTag c)))
         (filter (onChannel ref) (JsMap.values m)) b)
    = pre ++ filter (fun e => negb (onChannel ref (snd e))) m.
Proof.
  induction m as [|[k c] m IH]; intros pre b Hb Hk Hnd; simpl.
  - exact Hb.
  - inversion Hk as [|? ? Hkc Hk']; subst. simpl in Hkc. subst k.
    destruct (onChannel ref c) eqn:E; simpl.
    + apply IH; auto.
      * rewrite consumers_registryRemove, Hb. apply delete_app_str.
        unfold JsMap.keys in *. rewrite map_app in Hnd. simpl in Hnd.
        apply NoDup_remove_2 in Hnd. intros Hin. apply Hnd, in_or_app. now left.
      * unfold JsMap.keys in *. rewrite map_app in *. simpl in Hnd.
        now apply NoDup_remove_1 in Hnd.
    + rewrite (IH (pre ++ [(consumerTag c, c)]) b).
      * now rewrite <- app_assoc.
      * now rewrite <- app_assoc.
      * exact Hk'.
      * now rewrite <- app_assoc.
Qed.

Lemma consumers_fold_same {A : Type} (f : Broker -> A -> Broker) (l : list A) :
  (forall b x, consumers (f b x) = consumers b) ->
  forall b, consumers (fold_left f l b) = consumers b.
Proof.
  intros Hf. induction l as [|x l IH]; intros b; simpl; [reflexivity|].
  now rewrite IH, Hf.
Qed.

Lemma consumers_closeChannel b connId n :
  consumers (closeChannel b connId n) = consumers b.
Proof.
  unfold closeChannel.
  destruct (getConnectionObj b connId) as [connection|]; [|reflexivity].
  destruct (JsMap.get Z.eqb (conn_channels connection) n) as [ref|]; [|reflexivity].
  destruct (getChannelObj b ref); reflexivity.
Qed.

Lemma consumers_cleanupChannel b connId ref channel :
  keyedByTag b -> getChannelObj b ref = Some channel ->
  consumers (cleanupChannel b connId ref)
  = filter (fun e => negb (onChannel ref (snd e))) (consumers b).
Proof.
  intros [Hk Hnd] Hch. unfold cleanupChannel. rewrite Hch.
  pose proof (remove_loop ref (consumers b) [] b eq_refl Hk Hnd) as Hr.
  unfold removeByChannel.
  rewrite consumers_closeChannel.
  rewrite consumers_fold_same
    by (intros; unfold requeueUnacked; destruct (getQueue _ _); reflexivity).
  rewrite consumers_fold_same
    by (intros; unfold releaseConsumer; destruct (getQueue _ _); reflexivity).
  exact Hr.
Qed.

Lemma somes_In {A : Type} (l : list (option A)) (x : A) :
  In x (somes l) <-> In (Some x) l.
Proof.
  induction l as [|[a|] l IH]; simpl; [tauto| |].
  - rewrite IH. split; intros [H|H]; auto; left; congruence.
  - rewrite IH. split; [auto|]. intros [H|H]; [discriminate|exact H].
Qed.

Lemma get_In_str {V : Type} (m : list (string * V)) (k : string) (v : V) :
  JsMap.get String.eqb m k = Some v -> In (k, v) m.
Proof.
  induction m as [|[k' v'] m IH]; simpl; [discriminate|].
  destruct (String.eqb k' k) eqn:E.
  - apply String.eqb_eq in E. subst k'. intros H. injection H as ->. now left.
  - intros H. right. auto.
Qed.

Lemma get_filter_str {V : Type} (f : string * V -> bool) (m : list (string * V))
  (k : string) (v : V) :
  NoDup (JsMap.keys m) -> JsMap.get String.eqb m k = Some v ->
  JsMap.get String.eqb (filter f m) k = if f (k, v) then Some v else None.
Proof.
  induction m as [|[k' v'] m IH]; simpl; intros Hnd H; [discriminate|].
  inversion Hnd; subst.
  destruct (String.eqb k' k) eqn:E.
  - apply String.eqb_eq in E. subst k'. injection H as ->.
    destruct (f (k, v)); simpl; [now rewrite String.eqb_refl|].
    destruct (JsMap.get String.eqb (filter f m) k) eqn:G; [|reflexivity].
    exfalso. apply H2. apply get_In_str in G. apply filter_In in G as [G _].
    unfold JsMap.keys. apply in_map_iff. now exists (k, v0).
  - destruct (f (k', v')); simpl; [rewrite E|]; now apply IH.
Qed.

(** X20: closing a channel cancels its consumers and only those: the
    registry keeps exactly the consumers of other channels, so no queue
    lists a consumer of the closed channel any more. *)
Theorem channel_close_cancels_consumers (b : Broker) (connId : string)
  (ref : nat) (channel : Channel) :
  keyedByTag b -> getChannelObj b ref = Some channel ->
  let b' := cleanupChannel b connId ref in
  (forall (tag : string) (c : Consumer),
     JsMap.get String.eqb (consumers b) tag = Some c ->
     JsMap.get String.eqb (consumers b') tag
     = if Nat.eqb (c_channel c) ref then None else Some c)
  /\ forall queue : string,
       Forall (fun c => Nat.eqb (c_channel c) ref = false) (getByQueue b' queue).
Proof.
  intros Hk Hch b'.
  assert (Hc : consumers b'
               = filter (fun e => negb (onChannel ref (snd e))) (consumers b)).
  { apply consumers_cleanupChannel with (channel := channel); assumption. }
  split.
  - intros tag c Hg. rewrite Hc.
    rewrite (get_filter_str _ _ tag c (proj2 Hk) Hg). simpl. unfold onChannel.
    destruct (Nat.eqb (c_channel c) ref); reflexivity.
  - intros queue. unfold getByQueue.
    destruct (JsMap.get String.eqb (queueConsumers b') queue) as [tags|];
      [|constructor].
    apply Forall_forall. intros c Hin. apply somes_In in Hin.
    apply in_map_iff in Hin as [tag [Hg _]].
    apply get_In_str in Hg. rewrite Hc in Hg. apply filter_In in Hg as [_ Hf].
    simpl in Hf. unfold onChannel in Hf. now apply negb_true_iff in Hf.
Qed.


(** *** Closing a connection *)

Lemma owners_set (m : list (string * Queue)) (k : string) (q q' : Queue) :
  JsMap.get String.eqb m k = Some q ->
  exclusiveConnectionId q' = exclusiveConnectionId q ->
  map (fun e => (fst e, exclusiveConnectionId (snd e))) (JsMap.set String.eqb m k q')
  = map (fun e => (fst e, exclusiveConnectionId (snd e))) m.
Proof.
  induction m as [|[k0 q0] m IH]; simpl; intros Hg Ho; [discriminate|].
  destruct (String.eqb k0 k).
  - injection Hg as ->. simpl. now rewrite Ho.
  - simpl. now rewrite IH.
Qed.

Lemma owners_putQueue b k q q' :
  getQueue b k = Some q -> exclusiveConnectionId q' = exclusiveConnectionId q ->
  queueOwners (putQueue b k q') = queueOwners b.
Proof. intros Hg Ho. unfold queueOwners, putQueue. simpl. now apply owners_set with q. Qed.

Lemma owners_same b b' : queues b' = queues b -> queueOwners b' = queueOwners b.
Proof. unfold queueOwners. now intros ->. Qed.

Lemma owners_fold {A : Type} (f : Broker -> A -> Broker) (l : list A) :
  (forall b x, queueOwners (f b x) = queueOwners b) ->
  forall b, queueOwners (fold_left f l b) = queueOwners b.
Proof.
  intros Hf. induction l as [|x l IH]; intros b; simpl; [reflexivity|].
  now rewrite IH, Hf.
Qed.

Lemma owners_requeueUnacked front b u :
  queueOwners (requeueUnacked front b u) = queueOwners b.
Proof.
  unfold requeueUnacked. destruct (getQueue b (um_queueName u)) as [q|] eqn:E;
    [|reflexivity].
  apply owners_putQueue with q; [exact E|]. unfold requeue. now destruct front.
Qed.

Lemma owners_releaseConsumer b c :
  queueOwners (releaseConsumer b c) = queueOwners b.
Proof.
  unfold releaseConsumer. destruct (getQueue b (c_queueName c)) as [q|] eqn:E;
    [|reflexivity].
  now apply owners_putQueue with q.
Qed.

Lemma owners_cleanupChannel b connId ref :
  queueOwners (cleanupChannel b connId ref) = queueOwners b.
Proof.
  unfold cleanupChannel. destruct (getChannelObj b ref) as [channel|]; [|reflexivity].
  pose proof (queues_removeByChannel b ref) as Hr.
  destruct (removeByChannel b ref) as [removed b1]. simpl in Hr.
  rewrite (owners_same _ _ (queues_closeChannel _ _ _)).
  rewrite (owners_fold _ _ (owners_requeueUnacked true)).
  rewrite (owners_fold _ _ owners_releaseConsumer).
  now apply owners_same.
Qed.

Lemma bindings_fold {A : Type} (f : Broker -> A -> Broker) (l : list A) :
  (forall b x, bindings (f b x) = bindings b) ->
  forall b, bindings (fold_left f l b) = bindings b.
Proof.
  intros Hf. induction l as [|x l IH]; intros b; simpl; [reflexivity|].
  now rewrite IH, Hf.
Qed.

Lemma bindings_registryRemove b tag :
  bindings (snd (registryRemove b tag)) = bindings b.
Proof. unfold registryRemove. destruct (JsMap.get _ _ _); reflexivity. Qed.

Lemma bindings_closeChannel b connId n : bindings (closeChannel b connId n) = bindings b.
Proof.
  unfold closeChannel.
  destruct (getConnectionObj b connId) as [connection|]; [|reflexivity].
  destruct (JsMap.get Z.eqb (conn_channels connection) n) as [ref|]; [|reflexivity].
  destruct (getChannelObj b ref); reflexivity.
Qed.

Lemma bindings_cleanupChannel b connId ref :
  bindings (cleanupChannel b connId ref) = bindings b.
Proof.
  unfold cleanupChannel. destruct (getChannelObj b ref) as [channel|]; [|reflexivity].
  unfold removeByChannel.
  rewrite bindings_closeChannel.
  rewrite bindings_fold
    by (intros; unfold requeueUnacked; destruct (getQueue _ _); reflexivity).
  rewrite bindings_fold
    by (intros; unfold releaseConsumer; destruct (getQueue _ _); reflexivity).
  apply bindings_fold. intros. apply bindings_registryRemove.
Qed.

Lemma connections_fold {A : Type} (f : Broker -> A -> Broker) (l : list A) :
  (forall b x, connections (f b x) = connections b) ->
  forall b, connections (fold_left f l b) = connections b.
Proof.
  intros Hf. induction l as [|x l IH]; intros b; simpl; [reflexivity|].
  now rewrite IH, Hf.
Qed.

(** The bindings the loop over the queues leaves. *)
Lemma drop_exclusive_bindings (connId : string) (qs : list (string * Queue)) :
  forall b : Broker,
    bindings (fold_left (dropExclusive connId) qs b)
    = filter (fun x => negb (existsb (fun e => ownedBy connId (snd e)
                                               && String.eqb (Topic.destination x) (fst e))
                               qs))
        (bindings b).
Proof.
  induction qs as [|[k q] qs IH]; intros b; simpl.
  - induction (bindings b) as [|x l IHl]; simpl; [reflexivity|]. now rewrite <- IHl.
  - rewrite IH. unfold dropExclusive, ownedBy. simpl.
    destruct (option_string_eqb (exclusiveConnectionId q) connId); simpl.
    + unfold removeByDestination. simpl.
      induction (bindings b) as [|x l IHl]; simpl; [reflexivity|].
      destruct (String.eqb (Topic.destination x) k); simpl; [exact IHl|].
      destruct (negb (existsb _ qs)); [now rewrite IHl|exact IHl].
    + reflexivity.
Qed.

Lemma queues_fold {A : Type} (f : Broker -> A -> Broker) (l : list A) :
  (forall b x, queues (f b x) = queues b) ->
  forall b, queues (fold_left f l b) = queues b.
Proof.
  intros Hf. induction l as [|x l IH]; intros b; simpl; [reflexivity|].
  now rewrite IH, Hf.
Qed.

Lemma queues_closeConnection b connId : queues (closeConnection b connId) = queues b.
Proof.
  unfold closeConnection. destruct (getConnectionObj b connId) as [c|]; [|reflexivity].
  destruct (isClosed (conn_state c)); [reflexivity|].
  simpl. apply queues_fold. intros b0 r. unfold closeOne.
  destruct (getChannelObj b0 r); reflexivity.
Qed.

Lemma bindings_closeConnection b connId : bindings (closeConnection b connId) = bindings b.
Proof.
  unfold closeConnection. destruct (getConnectionObj b connId) as [c|]; [|reflexivity].
  destruct (isClosed (conn_state c)); [reflexivity|].
  simpl. apply bindings_fold. intros b0 r. unfold closeOne.
  destruct (getChannelObj b0 r); reflexivity.
Qed.

Lemma connections_closeConnection b connId :
  connections (closeConnection b connId) = connections b.
Proof.
  unfold closeConnection. destruct (getConnectionObj b connId) as [c|]; [|reflexivity].
  destruct (isClosed (conn_state c)); [reflexivity|].
  simpl. apply connections_fold. intros b0 r. unfold closeOne.
  destruct (getChannelObj b0 r); reflexivity.
Qed.

Lemma owners_get (m : list (string * Queue)) (k : string) (q : Queue) :
  JsMap.get String.eqb m k = Some q ->
  In (k, exclusiveConnectionId q)
     (map (fun e => (fst e, exclusiveConnectionId (snd e))) m).
Proof.
  intros H. apply get_In_str in H.
  apply in_map_iff. now exists (k, q).
Qed.

Lemma get_of_owners (m m' : list (string * Queue)) (k : string) (q : Queue) :
  map (fun e => (fst e, exclusiveConnectionId (snd e))) m'
  = map (fun e => (fst e, exclusiveConnectionId (snd e))) m ->
  JsMap.get String.eqb m k = Some q ->
  exists q', JsMap.get String.eqb m' k = Some q'
             /\ exclusiveConnectionId q' = exclusiveConnectionId q.
Proof.
  revert m'. induction m as [|[k0 q0] m IH]; intros [|[k1 q1] m'] Hm Hg;
    simpl in *; try discriminate.
  injection Hm as Hk Ho Hm. subst k1.
  destruct (String.eqb k0 k).
  - injection Hg as ->. eauto.
  - now apply IH.
Qed.

(** X21: when a connection goes away, its exclusive queues go with it,
    together with every binding that leads to one of them; the other
    queues stay, and the connection leaves the broker's table. *)
Theorem connection_close_drops_exclusive_queues (b : Broker) (connId : string)
  (connection : Connection) :
  getConnectionObj b connId = Some connection ->
  NoDup (JsMap.keys (queues b)) ->
  let b' := cleanupConnection b connId in
  (forall (name : string) (queue : Queue),
     getQueue b name = Some queue ->
     if ownedBy connId queue then getQueue b' name = None
     else exists queue',
            getQueue b' name = Some queue'
            /\ exclusiveConnectionId queue' = exclusiveConnectionId queue)
  /\ (forall x : Topic.Binding,
        In x (bindings b') ->
        In x (bindings b)
        /\ forall queue, getQueue b (Topic.destination x) = Some queue ->
                         ownedBy connId queue = false)
  /\ existsb (String.eqb connId) (connections b') = false.
Proof.
  intros Hconn Hnd b'. unfold b', cleanupConnection. rewrite Hconn.
  set (b1 := fold_left (fun acc ref => cleanupChannel acc connId ref)
               (JsMap.values (conn_channels connection)) b).
  assert (Ho : queueOwners b1 = queueOwners b).
  { unfold b1. apply owners_fold. intros. apply owners_cleanupChannel. }
  assert (Hb : bindings b1 = bindings b).
  { unfold b1. apply bindings_fold. intros. apply bindings_cleanupChannel. }
  assert (Hkeys : JsMap.keys (queues b1) = JsMap.keys (queues b)).
  { unfold JsMap.keys.
    transitivity (map fst (queueOwners b1)); [unfold queueOwners; now rewrite map_map|].
    rewrite Ho. unfold queueOwners. now rewrite map_map. }
  set (b2 := fold_left (dropExclusive connId) (queues b1) b1).
  assert (Hq2 : queues b2
                = filter (fun e => negb (ownedBy connId (snd e))) (queues b1)).
  { unfold b2. apply (drop_exclusive_loop connId (queues b1) b1 [] eq_refl).
    simpl. unfold JsMap.keys in Hkeys. now rewrite Hkeys. }
  assert (Hb2 : bindings b2
                = filter (fun x => negb (existsb
                                           (fun e => ownedBy connId (snd e)
                                                     && String.eqb (Topic.destination x) (fst e))
                                           (queues b1)))
                    (bindings b)).
  { unfold b2. rewrite drop_exclusive_bindings. now rewrite Hb. }
  set (b3 := with_connections b2 (JsMap.setDelete (connections b2) connId)).
  split; [|split].
  - intros name queue Hg.
    unfold getQueue. rewrite queues_closeConnection.
    change (queues b3) with (queues b2). rewrite Hq2.
    destruct (get_of_owners (queues b) (queues b1) name queue Ho Hg)
      as [queue1 [Hg1 Ho1]].
    assert (Hnd1 : NoDup (JsMap.keys (queues b1))) by now rewrite Hkeys.
    rewrite (get_filter_str _ _ name queue1 Hnd1 Hg1). simpl.
    unfold ownedBy. rewrite Ho1.
    destruct (option_string_eqb (exclusiveConnectionId queue) connId); simpl; eauto.
  - intros x Hin. rewrite bindings_closeConnection in Hin.
    change (bindings b3) with (bindings b2) in Hin. rewrite Hb2 in Hin.
    apply filter_In in Hin as [Hin Hf]. split; [exact Hin|].
    intros queue Hg.
    destruct (get_of_owners (queues b) (queues b1) _ queue Ho Hg)
      as [queue1 [Hg1 Ho1]].
    apply negb_true_iff in Hf.
    destruct (ownedBy connId queue) eqn:E; [|reflexivity].
    exfalso. apply get_In_str in Hg1.
    assert (Hex : existsb (fun e => ownedBy connId (snd e)
                                    && String.eqb (Topic.destination x) (fst e))
                    (queues b1) = true).
    { apply existsb_exists. exists (Topic.destination x, queue1). split; [exact Hg1|].
      simpl. unfold ownedBy in *. rewrite Ho1, E. apply String.eqb_refl. }
    congruence.
  - rewrite connections_closeConnection. unfold b3. simpl.
    unfold JsMap.setDelete.
    induction (connections b2) as [|y l IH]; simpl; [reflexivity|].
    destruct (String.eqb y connId) eqn:E; simpl; [exact IH|].
    rewrite String.eqb_sym, E. exact IH.
Qed.


(** *** Publishing to the default exchange *)

Lemma getByQueue_same b b' q :
  consumers b' = consumers b -> queueConsumers b' = queueConsumers b ->
  getByQueue b' q = getByQueue b q.
Proof. unfold getByQueue. now intros -> ->. Qed.

(** X22: a message published to the default exchange with the name of
    an existing queue that nobody consumes from, and that is not to be
    persisted (the queue is not durable or the delivery mode is not 2),
    is appended to that queue and to no other; the store is left as it
    is and nothing is sent to the publisher. *)
Theorem default_exchange_publish (uuid : string) (now : Z) (b : Broker)
  (connId : string) (ref : nat) (channel : Channel) (pending : PendingMessage)
  (queue : Queue) :
  getChannelObj b ref = Some channel ->
  pendingMessage channel = Some pending ->
  pm_exchange pending = EmptyString ->
  getQueue b (pm_routingKey pending) = Some queue ->
  getByQueue b (q_name queue) = [] ->
  q_durable queue && isPersistent (pm_properties pending) = false ->
  let message :=
    createMessage uuid now (pm_exchange pending) (pm_routingKey pending)
      (List.concat (pm_bodyChunks pending)) (pm_properties pending)
      (pm_mandatory pending) (pm_immediate pending) in
  exists b',
    completeMessage uuid now b connId ref = Some b'
    /\ getQueue b' (pm_routingKey pending) = Some (enqueue queue message)
    /\ (forall other, other <> pm_routingKey pending ->
                      getQueue b' other = getQueue b other)
    /\ store b' = store b
    /\ sent (Sessions.theConnection b' connId) = sent (Sessions.theConnection b connId).
Proof.
  intros Hch Hp Hex Hq Hcs Hnp message.
  unfold completeMessage. rewrite Hch, Hp. fold message.
  set (b1 := putChannelObj b ref (ch_with_pending channel None)).
  assert (Hroute : route b1 message = [pm_routingKey pending]).
  { unfold route. unfold message at 1. unfold createMessage. cbn [msg_exchange].
    rewrite Hex. cbn [String.eqb]. unfold JsMap.has.
    change (msg_routingKey message) with (pm_routingKey pending).
    change (JsMap.get String.eqb (queues b1) (pm_routingKey pending))
      with (getQueue b (pm_routingKey pending)).
    now rewrite Hq. }
  rewrite Hroute. cbn [fold_left]. unfold enqueueOne.
  change (getQueue b1 (pm_routingKey pending)) with (getQueue b (pm_routingKey pending)).
  rewrite Hq, Hnp.
  set (b2 := putQueue b1 (pm_routingKey pending) (enqueue queue message)).
  assert (Hcs2 : getByQueue b2 (q_name queue) = []).
  { rewrite <- Hcs. apply getByQueue_same; reflexivity. }
  rewrite Hcs2. cbn [deliverAll].
  exists b2. split; [reflexivity|].
  split; [|split; [|split]].
  - apply getQueue_putQueue_same.
  - intros other Hne. unfold b2.
    rewrite getQueue_putQueue_other by congruence. reflexivity.
  - reflexivity.
  - reflexivity.
Qed.

(** *** Consumer tags *)

Lemma registry_deliver (b b' : Broker) (c : Consumer) :
  deliverToConsumer b c = Some b' ->
  consumers b' = consumers b /\ queueConsumers b' = queueConsumers b.
Proof.
  unfold deliverToConsumer. intros H.
  destruct (getChannelObj b (c_channel c)) as [channel|]; [|now injection H as <-].
  destruct (negb (canReceive channel)); [now injection H as <-|].
  destruct (getQueue b (c_queueName c)) as [queue|]; [|now injection H as <-].
  destruct (dequeue queue) as [[message queue']|]; [|now injection H as <-].
  match type of H with
  | match getConnectionObj ?x _ with _ => _ end = _ => set (b2 := x) in *
  end.
  destruct (getConnectionObj b2 (ch_connection channel)) as [conn|] eqn:Hc;
    [|now injection H as <-].
  destruct (buildMessageFrames _ _ _ _); [|discriminate].
  injection H as <-.
  assert (Hs : forall fr, consumers (brokerSend b2 (ch_connection channel) fr) = consumers b
                          /\ queueConsumers (brokerSend b2 (ch_connection channel) fr)
                             = queueConsumers b).
  { intros fr. unfold brokerSend. rewrite Hc. split; reflexivity. }
  destruct (canReceive _); destruct (noAck c && q_durable queue); simpl; apply Hs.
Qed.

Lemma set_keyed (m : list (string * Consumer)) (c : Consumer) :
  Forall (fun e => fst e = consumerTag (snd e)) m ->
  NoDup (JsMap.keys m) ->
  Forall (fun e => fst e = consumerTag (snd e))
    (JsMap.set String.eqb m (consumerTag c) c)
  /\ NoDup (JsMap.keys (JsMap.set String.eqb m (consumerTag c) c)).
Proof.
  induction m as [|[k v] m IH]; simpl; intros Hk Hnd.
  - split; repeat constructor. auto.
  - inversion Hk; subst. inversion Hnd; subst. simpl in *.
    destruct (String.eqb k (consumerTag c)) eqn:E.
    + apply String.eqb_eq in E. split; [constructor; auto|]. simpl. constructor; auto.
    + destruct (IH H2 H4) as [IH1 IH2]. split; [constructor; auto|].
      simpl. constructor; [|exact IH2].
      intros Hin. unfold JsMap.keys in Hin. apply in_map_iff in Hin as [[k' v'] [Hk' Hin]].
      simpl in Hk'. subst k'.
      assert (Hcases : In (k, v') m \/ (k, v') = (consumerTag c, c)).
      { clear - Hin. induction m as [|[k0 v0] m IHm]; simpl in *.
        - destruct Hin as [Hin|[]]. now right.
        - destruct (String.eqb k0 (consumerTag c)) eqn:E0.
          + destruct Hin as [Hin|Hin].
            * apply String.eqb_eq in E0. right. congruence.
            * left. now right.
          + destruct Hin as [Hin|Hin]; [left; now left|].
            destruct (IHm Hin) as [H|H]; [left; now right|now right]. }
      destruct Hcases as [Hc|Hc].
      * apply H3. unfold JsMap.keys. apply in_map_iff. now exists (k, v').
      * injection Hc as Hc _. apply String.eqb_neq in E. congruence.
Qed.

(** X23: consumer tags are not scoped: Basic.Consume with a tag that is
    in use, on whatever connection or queue, puts the new consumer in the
    place of the earlier one.  Every queue that listed the tag now lists
    the new consumer, and the earlier consumer is found for no queue. *)
Theorem consumer_tag_is_global (b b' : Broker) (connId : string) (n : Z)
  (ref : nat) (channel : Channel) (queueName tag : string) (queue : Queue)
  (noLocal noAck exclusive noWait : bool) :
  keyedByTag b ->
  lookupChannel b connId n = Some (ref, channel) ->
  ch_state channel = ch_open ->
  getQueue b queueName = Some queue ->
  canAccess queue connId = true ->
  exclusive && hasExclusiveConsumer b queueName = false ->
  String.eqb tag EmptyString = false ->
  handleBasicMethod b connId n
    (Consume queueName tag noLocal noAck exclusive noWait) = Some b' ->
  let consumer := mkConsumer tag queueName ref noLocal noAck exclusive in
  JsMap.get String.eqb (consumers b') tag = Some consumer
  /\ (forall (q0 : string) (tags : list string),
        JsMap.get String.eqb (queueConsumers b) q0 = Some tags -> In tag tags ->
        In consumer (getByQueue b' q0))
  /\ (forall earlier : Consumer,
        JsMap.get String.eqb (consumers b) tag = Some earlier ->
        earlier <> consumer ->
        forall q0, ~ In earlier (getByQueue b' q0)).
Proof.
  intros [Hk Hnd] Hl Hopen Hq Hacc Hexcl Htag H consumer.
  unfold handleBasicMethod in H. rewrite Hl, Hopen in H. cbn in H.
  unfold handleConsume in H. rewrite Hq, Hacc, Hexcl, Htag in H. cbn [negb] in H.
  fold consumer in H.
  match type of H with
  | deliverToConsumer ?x _ = _ => set (b4 := x) in *
  end.
  destruct (registry_deliver _ _ _ H) as [Hc Hqc].
  assert (Hc4 : consumers b4 = JsMap.set String.eqb (consumers b) tag consumer).
  { unfold b4. destruct (negb noWait); [unfold brokerSend|];
      repeat match goal with
             | |- context [match ?x with _ => _ end] => destruct x
             end; reflexivity. }
  assert (Hqc4 : queueConsumers b4
                 = JsMap.set String.eqb (queueConsumers b) queueName
                     (JsMap.setAdd
                        match JsMap.get String.eqb (queueConsumers b) queueName with
                        | Some s => s
                        | None => []
                        end tag)).
  { unfold b4. destruct (negb noWait); [unfold brokerSend|];
      repeat match goal with
             | |- context [match getConnectionObj ?x ?y with _ => _ end] =>
                 destruct (getConnectionObj x y)
             end; reflexivity. }
  assert (Hget : JsMap.get String.eqb (consumers b') tag = Some consumer).
  { rewrite Hc, Hc4. apply (JsMapFacts.get_set_same String.eqb string_eqb_spec). }
  split; [exact Hget|]. split.
  - intros q0 tags Hg Hin. unfold getByQueue. rewrite Hqc, Hqc4.
    assert (Hin' : exists tags', JsMap.get String.eqb
                     (JsMap.set String.eqb (queueConsumers b) queueName
                        (JsMap.setAdd
                           match JsMap.get String.eqb (queueConsumers b) queueName with
                           | Some s => s
                           | None => []
                           end tag)) q0 = Some tags' /\ In tag tags').
    { destruct (String.eqb queueName q0) eqn:E.
      - apply String.eqb_eq in E. subst q0.
        rewrite (JsMapFacts.get_set_same String.eqb string_eqb_spec), Hg.
        eexists. split; [reflexivity|]. unfold JsMap.setAdd.
        destruct (existsb (String.eqb tag) tags); [exact Hin|].
        apply in_or_app. now left.
      - apply String.eqb_neq in E.
        rewrite (JsMapFacts.get_set_other String.eqb string_eqb_spec) by exact E.
        eauto. }
    destruct Hin' as [tags' [-> Hin']].
    apply somes_In. apply in_map_iff. exists tag. split; [exact Hget|exact Hin'].
  - intros earlier Hearlier Hne q0 Hin.
    unfold getByQueue in Hin.
    destruct (JsMap.get String.eqb (queueConsumers b') q0) as [tags|]; [|exact Hin].
    apply somes_In in Hin. apply in_map_iff in Hin as [t [Hgt _]].
    destruct (set_keyed (consumers b) consumer Hk Hnd) as [Hk' Hnd'].
    change (consumerTag consumer) with tag in Hk', Hnd'.
    rewrite <- Hc4, <- Hc in Hk'.
    assert (Ht : t = consumerTag earlier).
    { apply get_In_str in Hgt. eapply Forall_forall in Hk'; [|exact Hgt]. exact Hk'. }
    assert (Htag' : consumerTag earlier = tag).
    { apply get_In_str in Hearlier. eapply Forall_forall in Hk; [|exact Hearlier].
      simpl in Hk. now symmetry. }
    rewrite Ht, Htag', Hget in Hgt. congruence.
Qed.


(** *** Deleting a queue *)

Lemma get_delete_str {V : Type} (m : list (string * V)) (k : string) :
  NoDup (JsMap.keys m) -> JsMap.get String.eqb (JsMap.delete String.eqb m k) k = None.
Proof.
  induction m as [|[k0 v0] m IH]; simpl; intros H; [reflexivity|].
  inversion H; subst. destruct (String.eqb k0 k) eqn:E.
  - apply String.eqb_eq in E. subst k0.
    destruct (JsMap.get String.eqb m k) eqn:G; [|reflexivity].
    exfalso. apply H2. apply get_In_str in G.
    unfold JsMap.keys. apply in_map_iff. now exists (k, v).
  - simpl. rewrite E. now apply IH.
Qed.


Lemma get_delete_other_str {V : Type} (m : list (string * V)) (k k' : string) :
  k <> k' ->
  JsMap.get String.eqb (JsMap.delete String.eqb m k) k' = JsMap.get String.eqb m k'.
Proof.
  intros Hne. induction m as [|[k0 v0] m IH]; simpl; [reflexivity|].
  destruct (String.eqb k0 k) eqn:E.
  - apply String.eqb_eq in E. subst k0.
    destruct (String.eqb k k') eqn:E'; [apply String.eqb_eq in E'; contradiction|].
    reflexivity.
  - simpl. destruct (String.eqb k0 k'); [reflexivity|exact IH].
Qed.

Lemma delete_keys_NoDup_str {V : Type} (m : list (string * V)) (k : string) :
  NoDup (JsMap.keys m) -> NoDup (JsMap.keys (JsMap.delete String.eqb m k)).
Proof.
  induction m as [|[k' v'] m IH]; simpl; intros H; [constructor|].
  inversion H; subst. destruct (String.eqb k' k); [assumption|].
  simpl. constructor; auto.
  intros Hin. apply H2. unfold JsMap.keys in *. apply in_map_iff in Hin as [x [Hx Hin]].
  apply in_map_iff. exists x. split; [exact Hx|].
  clear - Hin. induction m as [|[k1 v1] m IHm]; simpl in *; [exact Hin|].
  destruct (String.eqb k1 k); [now right|].
  destruct Hin as [Hin|Hin]; [now left|right; auto].
Qed.

Lemma get_delete_some {V : Type} (m : list (string * V)) (k t : string) (v : V) :
  NoDup (JsMap.keys m) ->
  JsMap.get String.eqb (JsMap.delete String.eqb m k) t = Some v ->
  JsMap.get String.eqb m t = Some v /\ t <> k.
Proof.
  intros Hnd H. destruct (String.eqb k t) eqn:E.
  - apply String.eqb_eq in E. subst t. rewrite get_delete_str in H by exact Hnd.
    discriminate.
  - apply String.eqb_neq in E. rewrite get_delete_other_str in H by exact E.
    split; [exact H|congruence].
Qed.

Lemma get_delete_loop {V : Type} (ks : list string) :
  forall (m : list (string * V)) (t : string) (v : V),
    NoDup (JsMap.keys m) ->
    JsMap.get String.eqb
      (fold_left (fun acc k => JsMap.delete String.eqb acc k) ks m) t = Some v ->
    JsMap.get String.eqb m t = Some v /\ ~ In t ks.
Proof.
  induction ks as [|k ks IH]; intros m t v Hnd H; simpl in *; [auto|].
  destruct (IH _ t v (delete_keys_NoDup_str m k Hnd) H) as [H1 H2].
  destruct (get_delete_some m k t v Hnd H1) as [H3 H4].
  split; [exact H3|]. intros [Hk|Hk]; [congruence|contradiction].
Qed.

Lemma consumers_remove_loop (cs : list Consumer) :
  forall b,
    consumers (fold_left (fun acc c => snd (registryRemove acc (consumerTag c))) cs b)
    = fold_left (fun acc k => JsMap.delete String.eqb acc k) (map consumerTag cs)
        (consumers b).
Proof.
  induction cs as [|c cs IH]; intros b; simpl; [reflexivity|].
  now rewrite IH, consumers_registryRemove.
Qed.

Lemma get_set_cases {V : Type} (m : list (string * V)) (k q : string) (v v' : V) :
  JsMap.get String.eqb (JsMap.set String.eqb m k v) q = Some v' ->
  (q = k /\ v' = v) \/ (q <> k /\ JsMap.get String.eqb m q = Some v').
Proof.
  destruct (String.eqb k q) eqn:E.
  - apply String.eqb_eq in E. subst q.
    rewrite (JsMapFacts.get_set_same String.eqb string_eqb_spec). intros H.
    injection H as <-. now left.
  - apply String.eqb_neq in E.
    rewrite (JsMapFacts.get_set_other String.eqb string_eqb_spec) by exact E.
    intros H. right. split; [congruence|exact H].
Qed.

Lemma set_keys_NoDup_str {V : Type} (m : list (string * V)) (k : string) (v v0 : V) :
  JsMap.get String.eqb m k = Some v0 ->
  JsMap.keys (JsMap.set String.eqb m k v) = JsMap.keys m.
Proof.
  induction m as [|[k1 v1] m IH]; simpl; intros H; [discriminate|].
  destruct (String.eqb k1 k); simpl; [reflexivity|]. now rewrite IH.
Qed.

Lemma registryRemove_shrinks b tag :
  NoDup (JsMap.keys (queueConsumers b)) ->
  setsShrink (queueConsumers b) (queueConsumers (snd (registryRemove b tag))).
Proof.
  intros Hnd. unfold registryRemove.
  destruct (JsMap.get String.eqb (consumers b) tag) as [c|];
    [|split; [exact Hnd|]; intros q s' H; exists s'; split; [exact H|apply incl_refl]].
  cbn [snd queueConsumers with_registry].
  destruct (JsMap.get String.eqb (queueConsumers b) (c_queueName c)) as [queueSet|] eqn:E;
    [|split; [exact Hnd|]; intros q s' H; exists s'; split; [exact H|apply incl_refl]].
  destruct (JsMap.setDelete queueSet tag) as [|x l] eqn:Es.
  - split; [now apply delete_keys_NoDup_str|].
    intros q s' H. apply get_delete_some in H as [H _]; [|exact Hnd].
    exists s'. split; [exact H|apply incl_refl].
  - split; [now rewrite (set_keys_NoDup_str _ _ _ queueSet E)|].
    intros q s' H. apply get_set_cases in H as [[-> ->]|[_ H]].
    + exists queueSet. split; [exact E|]. rewrite <- Es. unfold JsMap.setDelete.
      intros y Hy. now apply filter_In in Hy.
    + exists s'. split; [exact H|apply incl_refl].
Qed.

Lemma remove_loop_shrinks (cs : list Consumer) :
  forall b,
    NoDup (JsMap.keys (queueConsumers b)) ->
    setsShrink (queueConsumers b)
      (queueConsumers
         (fold_left (fun acc c => snd (registryRemove acc (consumerTag c))) cs b)).
Proof.
  induction cs as [|c cs IH]; intros b Hnd; simpl.
  - split; [exact Hnd|]. intros q s' H. exists s'. split; [exact H|apply incl_refl].
  - destruct (registryRemove_shrinks b (consumerTag c) Hnd) as [Hnd1 H1].
    destruct (IH _ Hnd1) as [Hnd2 H2].
    split; [exact Hnd2|]. intros q s' H.
    destruct (H2 q s' H) as [s1 [Hs1 Hi1]].
    destruct (H1 q s1 Hs1) as [s [Hs Hi]].
    exists s. split; [exact Hs|]. eapply incl_tran; eauto.
Qed.

Lemma store_fold {A : Type} (f : Broker -> A -> Broker) (l : list A) :
  (forall b x, store (f b x) = store b) ->
  forall b, store (fold_left f l b) = store b.
Proof.
  intros Hf. induction l as [|x l IH]; intros b; simpl; [reflexivity|].
  now rewrite IH, Hf.
Qed.

(** X29: Queue.Delete on a queue that passes the [ifUnused] and
    [ifEmpty] tests takes the queue out of the broker together with every
    binding that leads to it and every consumer registered for it, leaves
    the other queues alone and writes nothing to the message log.  The
    connection that asks need not be the one the queue is exclusive
    to. *)
Theorem queue_delete_removes_queue (b : Broker) (connId : string) (n : Z)
  (ref : nat) (channel : Channel) (queueName : string) (queue : Queue)
  (ifUnused ifEmpty noWait : bool) :
  tablesKeyed b ->
  lookupChannel b connId n = Some (ref, channel) ->
  ch_state channel = ch_open ->
  getQueue b queueName = Some queue ->
  ifUnused && (0 <? consumerCount queue) = false ->
  ifEmpty && (0 <? getMessageCount queue) = false ->
  let result := handleQueueDelete b connId n queueName ifUnused ifEmpty noWait in
  getQueue (fst result) queueName = None
  /\ (forall other, other <> queueName ->
                    getQueue (fst result) other = getQueue b other)
  /\ (forall x, In x (bindings (fst result))
                <-> In x (bindings b)
                    /\ String.eqb (Topic.destination x) queueName = false)
  /\ getByQueue (fst result) queueName = []
  /\ messagesLog (store (fst result)) = messagesLog (store b)
  /\ snd result = if noWait then None else Some (getMessageCount queue).
Proof.
  intros [[Hk Hndc] [Hndq Hndqc]] Hl Hopen Hq Hu He result.
  unfold result, handleQueueDelete. rewrite Hl, Hopen, Hq, Hu, He. cbn [negb ChannelState_eqb fst snd].
  set (b2 := removeByDestination
               (with_queues b (JsMap.delete String.eqb (queues b) queueName))
               queueName).
  set (cs := getByQueue b2 queueName).
  set (b3 := fold_left (fun acc c => snd (registryRemove acc (consumerTag c))) cs b2).
  assert (Hq3 : queues b3 = JsMap.delete String.eqb (queues b) queueName).
  { unfold b3. rewrite queues_fold; [reflexivity|]. intros. apply queues_registryRemove. }
  assert (Hb3 : bindings b3
                = filter (fun x => negb (String.eqb (Topic.destination x) queueName))
                    (bindings b)).
  { unfold b3. rewrite bindings_fold; [reflexivity|]. intros. apply bindings_registryRemove. }
  assert (Hs3 : store b3 = store b).
  { unfold b3. rewrite store_fold; [reflexivity|]. intros b0 c.
    unfold registryRemove. destruct (JsMap.get _ _ _); reflexivity. }
  split; [|split; [|split; [|split; [|split]]]].
  - unfold getQueue. cbn [queues with_store]. rewrite Hq3. now apply get_delete_str.
  - intros other Hne. unfold getQueue. cbn [queues with_store]. rewrite Hq3.
    apply get_delete_other_str. congruence.
  - intros x. cbn [bindings with_store]. rewrite Hb3, filter_In.
    now rewrite negb_true_iff.
  - unfold getByQueue. cbn [queueConsumers consumers with_store].
    destruct (JsMap.get String.eqb (queueConsumers b3) queueName) as [tags'|] eqn:Et;
      [|reflexivity].
    destruct (remove_loop_shrinks cs b2 Hndqc) as [_ Hsh]. fold b3 in Hsh.
    destruct (Hsh _ _ Et) as [tags [Ht Hi]].
    assert (Hnone : forall t, In t tags' -> JsMap.get String.eqb (consumers b3) t = None).
    { intros t Hin.
      destruct (JsMap.get String.eqb (consumers b3) t) as [c|] eqn:Ec; [|reflexivity].
      exfalso. unfold b3 in Ec. rewrite consumers_remove_loop in Ec.
      apply get_delete_loop in Ec as [Hc Hnot]; [|exact Hndc].
      apply Hnot. apply in_map_iff. exists c. split.
      - apply get_In_str in Hc. eapply Forall_forall in Hk; [|exact Hc]. now symmetry.
      - unfold cs, getByQueue. rewrite Ht. change (consumers b2) with (consumers b).
        apply somes_In. apply in_map_iff. exists t. split; [exact Hc|]. now apply Hi. }
    clear - Hnone. induction tags' as [|t tags' IH]; [reflexivity|].
    simpl. rewrite (Hnone t) by now left. apply IH. intros t' Ht'. apply Hnone. now right.
  - cbn [store with_store messagesLog]. now rewrite Hs3.
  - destruct noWait; reflexivity.
Qed.


(** *** The properties at the sample runs *)

Lemma delivery_tags_in_order_witness : allTagsInOrder sampleFinal.
Proof.
  apply (delivery_tags_in_order sampleEvents Sessions.started sampleFinal).
  - constructor.
  - vm_compute. reflexivity.
Defined.

Lemma reject_requeue_undoes_delivery_witness :
  getQueue
    (handleReject deliveredState (c_channel Sessions.staleConsumer)
       (Sessions.theChannel deliveredState 0)
       (deliveryTagCounter (Sessions.theChannel deliveredState 0)) true)
    (c_queueName Sessions.staleConsumer)
  = getQueue Sessions.limitedState (c_queueName Sessions.staleConsumer)
  /\ option_map unackedMessages
       (getChannelObj
          (handleReject deliveredState (c_channel Sessions.staleConsumer)
             (Sessions.theChannel deliveredState 0)
             (deliveryTagCounter (Sessions.theChannel deliveredState 0)) true)
          (c_channel Sessions.staleConsumer))
     = Some (unackedMessages (Sessions.theChannel Sessions.limitedState 0)).
Proof.
  apply (reject_requeue_undoes_delivery Sessions.limitedState deliveredState
           Sessions.staleConsumer (Sessions.theChannel Sessions.limitedState 0)
           (Sessions.theChannel deliveredState 0)).
  - repeat constructor.
  - reflexivity.
  - reflexivity.
  - vm_compute. reflexivity.
  - reflexivity.
  - reflexivity.
Defined.

Lemma channel_close_cancels_consumers_witness :
  (forall (tag : string) (c : Consumer),
     JsMap.get String.eqb (consumers Sessions.limitedState) tag = Some c ->
     JsMap.get String.eqb (consumers (cleanupChannel Sessions.limitedState "c1" 0)) tag
     = if Nat.eqb (c_channel c) 0 then None else Some c)
  /\ forall queue : string,
       Forall (fun c => Nat.eqb (c_channel c) 0 = false)
         (getByQueue (cleanupChannel Sessions.limitedState "c1" 0) queue).
Proof.
  apply (channel_close_cancels_consumers Sessions.limitedState "c1" 0
           (Sessions.theChannel Sessions.limitedState 0)).
  - split; repeat constructor. simpl. tauto.
  - reflexivity.
Defined.

Lemma connection_close_drops_exclusive_queues_witness :
  (forall (name : string) (queue : Queue),
     getQueue exclusiveState name = Some queue ->
     if ownedBy "c1" queue
     then getQueue (cleanupConnection exclusiveState "c1") name = None
     else exists queue',
            getQueue (cleanupConnection exclusiveState "c1") name = Some queue'
            /\ exclusiveConnectionId queue' = exclusiveConnectionId queue)
  /\ (forall x : Topic.Binding,
        In x (bindings (cleanupConnection exclusiveState "c1")) ->
        In x (bindings exclusiveState)
        /\ forall queue, getQueue exclusiveState (Topic.destination x) = Some queue ->
                         ownedBy "c1" queue = false)
  /\ existsb (String.eqb "c1") (connections (cleanupConnection exclusiveState "c1"))
     = false.
Proof.
  apply (connection_close_drops_exclusive_queues exclusiveState "c1"
           (Sessions.theConnection exclusiveState "c1")).
  - reflexivity.
  - repeat constructor. simpl. tauto.
Defined.

Lemma default_exchange_publish_witness :
  exists b',
    completeMessage "m1" 1000 publishState "c1" 0 = Some b'
    /\ getQueue b' (pm_routingKey publishPending)
       = Some (enqueue (Sessions.theQueue publishState "q")
                 (createMessage "m1" 1000 (pm_exchange publishPending)
                    (pm_routingKey publishPending)
                    (List.concat (pm_bodyChunks publishPending))
                    (pm_properties publishPending) (pm_mandatory publishPending)
                    (pm_immediate publishPending)))
    /\ (forall other, other <> pm_routingKey publishPending ->
                      getQueue b' other = getQueue publishState other)
    /\ store b' = store publishState
    /\ sent (Sessions.theConnection b' "c1")
       = sent (Sessions.theConnection publishState "c1").
Proof.
  apply (default_exchange_publish "m1" 1000 publishState "c1" 0
           (Sessions.theChannel publishState 0) publishPending
           (Sessions.theQueue publishState "q")); reflexivity.
Defined.

Lemma consumer_tag_is_global_witness :
  JsMap.get String.eqb (consumers reconsumedState) "t"
  = Some (mkConsumer "t" "q" 0 true false false)
  /\ (forall (q0 : string) (tags : list string),
        JsMap.get String.eqb (queueConsumers Sessions.limitedState) q0 = Some tags ->
        In "t" tags ->
        In (mkConsumer "t" "q" 0 true false false) (getByQueue reconsumedState q0))
  /\ (forall earlier : Consumer,
        JsMap.get String.eqb (consumers Sessions.limitedState) "t" = Some earlier ->
        earlier <> mkConsumer "t" "q" 0 true false false ->
        forall q0, ~ In earlier (getByQueue reconsumedState q0)).
Proof.
  apply (consumer_tag_is_global Sessions.limitedState reconsumedState "c1" 1 0
           (Sessions.theChannel Sessions.limitedState 0) "q" "t"
           (Sessions.theQueue Sessions.limitedState "q") true false false false).
  - split; repeat constructor. simpl. tauto.
  - reflexivity.
  - reflexivity.
  - reflexivity.
  - reflexivity.
  - reflexivity.
  - reflexivity.
  - vm_compute. reflexivity.
Defined.

Lemma queue_delete_removes_queue_witness :
  getQueue (fst (handleQueueDelete exclusiveState "c2" 1 "q" false false false)) "q"
  = None
  /\ (forall other, other <> "q" ->
        getQueue (fst (handleQueueDelete exclusiveState "c2" 1 "q" false false false))
          other
        = getQueue exclusiveState other)
  /\ (forall x,
        In x (bindings (fst (handleQueueDelete exclusiveState "c2" 1 "q" false false
                               false)))
        <-> In x (bindings exclusiveState)
            /\ String.eqb (Topic.destination x) "q" = false)
  /\ getByQueue (fst (handleQueueDelete exclusiveState "c2" 1 "q" false false false))
       "q" = []
  /\ messagesLog (store (fst (handleQueueDelete exclusiveState "c2" 1 "q" false false
                                false)))
     = messagesLog (store exclusiveState)
  /\ snd (handleQueueDelete exclusiveState "c2" 1 "q" false false false)
     = if false then None
       else Some (getMessageCount (Sessions.theQueue exclusiveState "q")).
Proof.
  apply (queue_delete_removes_queue exclusiveState "c2" 1 1
           (Sessions.theChannel exclusiveState 1) "q"
           (Sessions.theQueue exclusiveState "q") false false false).
  - split; [split|split]; repeat constructor. simpl. tauto.
  - reflexivity.
  - reflexivity.
  - reflexivity.
  - reflexivity.
  - reflexivity.
Defined.

End EventsSpec.

(** ** Message store *)

Module FileStoreSpec.

Import Broker FileStore.
Local Open Scope string_scope.
Local Open Scope list_scope.
Local Open Scope Z_scope.

Section Loader.

Variable readBack : Message -> option Message.

Lemma loadMessages_app (log more : list LogEntry) :
  loadMessages readBack (log ++ more)
  = fold_left (loadEntry readBack) more (loadMessages readBack log).
Proof. unfold loadMessages. apply fold_left_app. Qed.

Lemma delete_all_keys {V : Type} (m : list (string * V)) :
  fold_left (fun acc k => JsMap.delete String.eqb acc k) (JsMap.keys m) m = [].
Proof.
  induction m as [|[k v] m IH]; [reflexivity|].
  simpl. rewrite String.eqb_refl. exact IH.
Qed.

Lemma set_set_str {V : Type} (m : list (string * V)) (k : string) (v v' : V) :
  JsMap.set String.eqb (JsMap.set String.eqb m k v) k v' = JsMap.set String.eqb m k v'.
Proof.
  induction m as [|[k0 v0] m IH]; simpl.
  - now rewrite String.eqb_refl.
  - destruct (String.eqb k0 k) eqn:E; simpl; rewrite E; [reflexivity|now rewrite IH].
Qed.

(** Replaying the delete lines of a purge empties the queue's map and
    keeps it. *)
Lemma purge_replay (queueName : string) (ks : list string) :
  forall (index : Index) (qm : list (string * Message)),
    JsMap.get String.eqb index queueName = Some qm ->
    fold_left (loadEntry readBack) (map (LogDelete queueName) ks) index
    = JsMap.set String.eqb index queueName
        (fold_left (fun acc k => JsMap.delete String.eqb acc k) ks qm).
Proof.
  induction ks as [|k ks IH]; intros index qm Hg; simpl.
  - symmetry. now apply (JsMapFacts.set_get_same String.eqb).
  - rewrite Hg.
    rewrite (IH _ (JsMap.delete String.eqb qm k)).
    + apply set_set_str.
    + apply (JsMapFacts.get_set_same String.eqb BrokerSpec.string_eqb_spec).
Qed.

Lemma call_replays (s : Store) (c : StoreCall) :
  readsBack readBack c ->
  messagesByQueue s = loadMessages readBack (logFile s) ->
  messagesByQueue (call s c) = loadMessages readBack (logFile (call s c)).
Proof.
  intros Hc Hs. destruct c as [q m|q id|q]; simpl in *.
  - rewrite loadMessages_app. simpl. rewrite Hc, <- Hs. reflexivity.
  - rewrite loadMessages_app. simpl. rewrite <- Hs. reflexivity.
  - unfold purgeQueue.
    destruct (JsMap.get String.eqb (messagesByQueue s) q) as [qm|] eqn:E;
      [|exact Hs].
    simpl. rewrite loadMessages_app, <- Hs.
    rewrite (purge_replay q (JsMap.keys qm) _ qm E).
    now rewrite delete_all_keys.
Qed.

(** X24: the log is a faithful record of the index: after any run of
    [saveMessage], [deleteMessage] and [purgeQueue], loading the log
    into a fresh store rebuilds the index entry for entry, as long as
    the saved messages read back as they were written. *)
Theorem log_replays_index (calls : list StoreCall) (s : Store) :
  Forall (readsBack readBack) calls ->
  messagesByQueue s = loadMessages readBack (logFile s) ->
  messagesByQueue (fold_left call calls s)
  = loadMessages readBack (logFile (fold_left call calls s)).
Proof.
  revert s. induction calls as [|c calls IH]; intros s Hall Hs; simpl; [exact Hs|].
  inversion Hall; subst. apply IH; [assumption|]. now apply call_replays.
Qed.

Lemma set_keys_NoDup {V : Type} (m : list (string * V)) (k : string) (v : V) :
  NoDup (JsMap.keys m) -> NoDup (JsMap.keys (JsMap.set String.eqb m k v)).
Proof.
  induction m as [|[k0 v0] m IH]; simpl; intros H.
  - repeat constructor. auto.
  - inversion H; subst. destruct (String.eqb k0 k) eqn:E; simpl.
    + constructor; auto.
    + constructor; auto. intros Hin. apply H2.
      unfold JsMap.keys in *. apply in_map_iff in Hin as [[k1 v1] [Hk Hin]].
      simpl in Hk. subst k1.
      assert (Hc : In k0 (map fst m) \/ k0 = k).
      { clear - Hin. induction m as [|[k2 v2] m IHm]; simpl in *.
        - destruct Hin as [Hin|[]]. injection Hin as -> _. now right.
        - destruct (String.eqb k2 k) eqn:E2.
          + destruct Hin as [Hin|Hin].
            * injection Hin as -> _. left. now left.
            * left. right. apply in_map_iff. now exists (k0, v1).
          + destruct Hin as [Hin|Hin].
            * injection Hin as -> _. left. now left.
            * destruct (IHm Hin) as [Hm|Hm]; [left; now right|now right]. }
      destruct Hc as [Hc|Hc]; [exact Hc|].
      subst k0. now rewrite String.eqb_refl in E.
Qed.

Lemma loadEntry_NoDup (index : Index) (e : LogEntry) :
  NoDup (JsMap.keys index) -> NoDup (JsMap.keys (loadEntry readBack index e)).
Proof.
  intros H. destruct e as [q m|q id]; simpl.
  - destruct (readBack m); [now apply set_keys_NoDup|exact H].
  - destruct (JsMap.get String.eqb index q); [now apply set_keys_NoDup|exact H].
Qed.

Lemma loadMessages_NoDup (log : list LogEntry) :
  NoDup (JsMap.keys (loadMessages readBack log)).
Proof.
  unfold loadMessages.
  assert (H : forall index, NoDup (JsMap.keys index) ->
                            NoDup (JsMap.keys (fold_left (loadEntry readBack) log index))).
  { induction log as [|e log IH]; intros index Hi; simpl; [exact Hi|].
    apply IH. now apply loadEntry_NoDup. }
  apply H. constructor.
Qed.

(** X25: [deleteQueue] forgets the messages of a queue in memory only:
    the log keeps them, so a store that loads the log afterwards has the
    index the way it was before the deletion, the messages of the deleted
    queue included. *)
Theorem deleted_queue_stays_in_log (s : Store) (queueName : string) :
  messagesByQueue s = loadMessages readBack (logFile s) ->
  getMessages (deleteQueue s queueName) queueName = []
  /\ loadMessages readBack (logFile (deleteQueue s queueName)) = messagesByQueue s.
Proof.
  intros Hs. split; [|now rewrite Hs].
  unfold getMessages, queueMessages, deleteQueue. cbn [messagesByQueue].
  rewrite EventsSpec.get_delete_str; [reflexivity|].
  rewrite Hs. apply loadMessages_NoDup.
Qed.

(** *** Compaction *)

Lemma set_fresh_str {V : Type} (m : list (string * V)) (k : string) (v : V) :
  ~ In k (JsMap.keys m) -> JsMap.set String.eqb m k v = m ++ [(k, v)].
Proof.
  induction m as [|[k' v'] m IH]; simpl; intros H; [reflexivity|].
  destruct (String.eqb k' k) eqn:E.
  - apply String.eqb_eq in E. subst k'. exfalso. auto.
  - rewrite IH; auto.
Qed.

Lemma set_last_str {V : Type} (pre : list (string * V)) (k : string) (v v' : V) :
  ~ In k (JsMap.keys pre) ->
  JsMap.set String.eqb (pre ++ [(k, v)]) k v' = pre ++ [(k, v')].
Proof.
  induction pre as [|[k0 v0] pre IH]; simpl; intros H.
  - now rewrite String.eqb_refl.
  - destruct (String.eqb k0 k) eqn:E.
    + apply String.eqb_eq in E. subst k0. exfalso. auto.
    + rewrite IH; auto.
Qed.

Lemma get_fresh_str {V : Type} (m : list (string * V)) (k : string) :
  ~ In k (JsMap.keys m) -> JsMap.get String.eqb m k = None.
Proof.
  induction m as [|[k' v'] m IH]; simpl; intros H; [reflexivity|].
  destruct (String.eqb k' k) eqn:E.
  - apply String.eqb_eq in E. subst k'. exfalso. auto.
  - apply IH. auto.
Qed.

(** Loading the lines of one queue behind an index that holds the
    queue's first messages at its end. *)
Lemma load_more (queueName : string) (rest : list (string * Message)) :
  forall (acc pre : list _),
    ~ In queueName (JsMap.keys acc) ->
    NoDup (JsMap.keys (pre ++ rest)) ->
    Forall (fun x => fst x = msg_id (snd x)) rest ->
    Forall (fun x => readBack (snd x) = Some (snd x)) rest ->
    fold_left (loadEntry readBack) (map (LogMessage queueName) (JsMap.values rest))
      (acc ++ [(queueName, pre)])
    = acc ++ [(queueName, pre ++ rest)].
Proof.
  induction rest as [|[id m] rest IH]; intros acc pre Hq Hnd Hk Hrb; simpl.
  - now rewrite app_nil_r.
  - inversion Hk as [|? ? Hid Hk']; subst. inversion Hrb as [|? ? Hm Hrb']; subst.
    simpl in Hid, Hm. subst id. rewrite Hm.
    unfold queueMessages.
    rewrite (EventsSpec.get_app_str acc [] queueName pre Hq).
    rewrite (set_last_str acc queueName pre _ Hq).
    assert (Hfresh : ~ In (msg_id m) (JsMap.keys pre)).
    { unfold JsMap.keys in *. rewrite map_app in Hnd. simpl in Hnd.
      apply NoDup_remove_2 in Hnd. intros Hin. apply Hnd, in_or_app. now left. }
    rewrite (set_fresh_str pre _ _ Hfresh).
    rewrite (IH acc (pre ++ [(msg_id m, m)])); auto.
    + now rewrite <- app_assoc.
    + now rewrite <- app_assoc.
Qed.

Lemma load_queue (queueName : string) (qm : list (string * Message)) (acc : Index) :
  ~ In queueName (JsMap.keys acc) ->
  NoDup (JsMap.keys qm) ->
  Forall (fun x => fst x = msg_id (snd x)) qm ->
  Forall (fun x => readBack (snd x) = Some (snd x)) qm ->
  fold_left (loadEntry readBack) (map (LogMessage queueName) (JsMap.values qm)) acc
  = acc ++ match qm with [] => [] | _ => [(queueName, qm)] end.
Proof.
  intros Hq Hnd Hk Hrb. destruct qm as [|[id m] rest]; simpl.
  - now rewrite app_nil_r.
  - inversion Hk as [|? ? Hid Hk']; subst. inversion Hrb as [|? ? Hm Hrb']; subst.
    simpl in Hid, Hm. subst id. rewrite Hm.
    unfold queueMessages. rewrite (get_fresh_str acc queueName Hq).
    rewrite (set_fresh_str acc queueName _ Hq). simpl.
    apply (load_more queueName rest acc [(msg_id m, m)]); auto.
Qed.

Lemma load_index (index : Index) :
  forall acc : Index,
    NoDup (JsMap.keys (acc ++ index)) ->
    Forall (fun e => NoDup (JsMap.keys (snd e))
                     /\ Forall (fun x => fst x = msg_id (snd x)) (snd e)) index ->
    Forall (fun e => Forall (fun x => readBack (snd x) = Some (snd x)) (snd e)) index ->
    fold_left (loadEntry readBack)
      (flat_map (fun e => map (LogMessage (fst e)) (JsMap.values (snd e))) index) acc
    = acc ++ filter nonEmpty index.
Proof.
  induction index as [|[q qm] index IH]; intros acc Hnd Hk Hrb; simpl.
  - now rewrite app_nil_r.
  - inversion Hk as [|? ? [Hq1 Hq2] Hk']; subst.
    inversion Hrb as [|? ? Hq3 Hrb']; subst. simpl in *.
    assert (Hfresh : ~ In q (JsMap.keys acc)).
    { unfold JsMap.keys in *. rewrite map_app in Hnd. simpl in Hnd.
      apply NoDup_remove_2 in Hnd. intros Hin. apply Hnd, in_or_app. now left. }
    rewrite fold_left_app, (load_queue q qm acc Hfresh Hq1 Hq2 Hq3).
    unfold nonEmpty at 1. simpl.
    destruct qm as [|x qm].
    + rewrite app_nil_r. apply IH; auto.
      unfold JsMap.keys in *. rewrite map_app in *. simpl in Hnd.
      now apply NoDup_remove_1 in Hnd.
    + rewrite IH; auto.
      * now rewrite <- app_assoc.
      * now rewrite <- app_assoc.
Qed.

Lemma get_filter_none {V : Type} (f : string * V -> bool) (m : list (string * V))
  (k : string) :
  JsMap.get String.eqb m k = None -> JsMap.get String.eqb (filter f m) k = None.
Proof.
  induction m as [|[k0 v0] m IH]; simpl; intros H; [reflexivity|].
  destruct (String.eqb k0 k) eqn:E; [discriminate|].
  destruct (f (k0, v0)); simpl; [rewrite E|]; auto.
Qed.

(** X26: compaction loses nothing: a store that starts on the
    compacted log returns for every queue the messages the compacting
    store held, in the same order. *)
Theorem compaction_keeps_messages (s : Store) (queueName : string) :
  wellKeyed (messagesByQueue s) ->
  Forall (fun e => Forall (fun x => readBack (snd x) = Some (snd x)) (snd e))
    (messagesByQueue s) ->
  getMessages (mkFileStore (loadMessages readBack (logFile (compact s))) [])
    queueName
  = getMessages s queueName.
Proof.
  intros [Hnd Hk] Hrb. unfold getMessages, queueMessages, compact, loadMessages.
  cbn [messagesByQueue logFile].
  rewrite (load_index (messagesByQueue s) [] Hnd Hk Hrb). simpl app.
  destruct (JsMap.get String.eqb (messagesByQueue s) queueName) as [qm|] eqn:E.
  - rewrite (EventsSpec.get_filter_str nonEmpty _ queueName qm Hnd E).
    unfold nonEmpty. simpl. destruct qm; reflexivity.
  - now rewrite get_filter_none.
Qed.

End Loader.

Lemma compaction_keeps_messages_witness :
  getMessages (mkFileStore (loadMessages Some (logFile (compact sampleStore))) []) "q"
  = getMessages sampleStore "q".
Proof.
  apply (compaction_keeps_messages Some sampleStore "q").
  - split.
    + repeat constructor; simpl; intuition discriminate.
    + repeat constructor; simpl; intuition discriminate.
  - repeat constructor.
Defined.

Lemma log_replays_index_witness :
  messagesByQueue (fold_left call sampleCalls (mkFileStore [] []))
  = loadMessages Some (logFile (fold_left call sampleCalls (mkFileStore [] []))).
Proof.
  apply (log_replays_index Some sampleCalls (mkFileStore [] [])).
  - repeat constructor.
  - reflexivity.
Defined.

Lemma deleted_queue_stays_in_log_witness :
  getMessages (deleteQueue sampleStore "q") "q" = []
  /\ loadMessages Some (logFile (deleteQueue sampleStore "q"))
     = messagesByQueue sampleStore.
Proof. apply (deleted_queue_stays_in_log Some sampleStore "q"). reflexivity. Defined.

End FileStoreSpec.
